(** * Thor: request-processing engine, checked against its specification.

    A shallow embedding of the parts of the Thor web framework that the
    specification makes claims about: the rate limiter, the CSRF middleware,
    lazy body reading, the signed-token codec, the lifespan protocol handler
    and the radix-tree router; and of the code around them: the middleware
    stack, sessions, the CORS middleware, in-flight request tracking, request
    dispatch with the error handler, and responses.

    Conventions.
    - A Python [str] or [bytes] value is a Rocq [string]: a sequence of
      characters with codes 0..255 (what the ASGI adapter hands over once
      header bytes are decoded as latin-1).
    - A Python [dict] is a [gmap] when only lookups matter and an association
      list when the iteration order is observable.
    - A coroutine that sends ASGI messages is the list of messages it sends;
      a raised exception is an explicit outcome.
    - A finite [float] is the rational number it denotes, and float
      arithmetic rounds to the nearest double. *)

From Stdlib Require Import ZArith QArith Qround Ascii DecimalString List Lia Bool.
From Stdlib Require DecimalZ Sorted.
From stdpp Require Import gmap strings list.

Set Warnings "-register-all".

Local Open Scope string_scope.
Local Open Scope list_scope.
Local Open Scope Z_scope.

(** ** Python built-ins used by the sources *)

Module Py.

(** [str(n)] for an integer. *)
Definition str_of_Z (z : Z) : string := NilZero.string_of_int (Z.to_int z).

(** [len(s)]. *)
Definition len (s : string) : Z := Z.of_nat (String.length s).

(** [int(x)] for a finite float [x], given by the rational it denotes:
    truncation towards zero. *)
Definition int_of_float (q : Q) : Z := Z.quot (Qnum q) (Zpos (Qden q)).

(** *** Floats

    A finite [float] is the rational number it denotes; an operation on
    floats is the exact operation followed by rounding to the nearest double,
    ties to even (IEEE 754 binary64: 53 significant bits, least exponent
    [-1074]). *)

(** [floor(log2(p / q))] for positive [p] and [q]. *)
Definition ilog2 (p q : Z) : Z :=
  let e0 := Z.log2 p - Z.log2 q in
  if q * 2 ^ Z.max e0 0 <=? p * 2 ^ Z.max (- e0) 0 then e0 else e0 - 1.

(** [a / b] rounded to the nearest integer, ties to the even one. *)
Definition rne (a b : Z) : Z :=
  let f := a / b in
  let r := a mod b in
  if 2 * r <? b then f
  else if b <? 2 * r then f + 1
  else if Z.even f then f else f + 1.

(** The exponent of the unit in the last place of the doubles around
    [p / q]. *)
Definition ulp_exponent (p q : Z) : Z := Z.max (ilog2 p q - 52) (-1074).

Definition round_pos (p q : Z) : Q :=
  let u := ulp_exponent p q in
  Qmake (rne (p * 2 ^ Z.max (- u) 0) (q * 2 ^ Z.max u 0) * 2 ^ Z.max u 0)
        (Z.to_pos (2 ^ Z.max (- u) 0)).

(** The double nearest to a rational.  A result of magnitude [2^1024] or
    more stands for an infinity. *)
Definition round64 (x : Q) : Q :=
  match Qnum x with
  | Z0 => 0%Q
  | Zpos p => round_pos (Zpos p) (Zpos (Qden x))
  | Zneg p => (- round_pos (Zpos p) (Zpos (Qden x)))%Q
  end.

(** The rational is the value of a double. *)
Definition is_double (x : Q) : bool := Qeq_bool (round64 x) x.

(** [a - b] on floats. *)
Definition fsub (a b : Q) : Q := round64 (a - b).

(** The conversion of an [int] operand of a float operation: the nearest
    double; [None] is the [OverflowError] (int too large to convert to
    float) raised when that is beyond the largest double. *)
Definition float_of_int (z : Z) : option Q :=
  let x := round64 (inject_Z z) in
  if Qle_bool (inject_Z (2 ^ 1024)) x || Qle_bool x (inject_Z (- 2 ^ 1024))
  then None else Some x.

Definition is_upper (c : ascii) : bool :=
  let n := nat_of_ascii c in (65 <=? n)%nat && (n <=? 90)%nat.

Definition is_lower (c : ascii) : bool :=
  let n := nat_of_ascii c in (97 <=? n)%nat && (n <=? 122)%nat.

(** The capital letters of the range 128..255 (À to Þ, without the
    multiplication sign) and the small ones that have a capital in that
    range (à to þ, without the division sign). *)
Definition is_latin_upper (c : ascii) : bool :=
  let n := nat_of_ascii c in
  (192 <=? n)%nat && (n <=? 222)%nat && negb (n =? 215)%nat.

Definition is_latin_lower (c : ascii) : bool :=
  let n := nat_of_ascii c in
  (224 <=? n)%nat && (n <=? 254)%nat && negb (n =? 247)%nat.

Definition lower_char (c : ascii) : ascii :=
  if is_upper c || is_latin_upper c then ascii_of_nat (nat_of_ascii c + 32) else c.

(** The upper case of one character: one character, [SS] for ß, and [None]
    for µ and ÿ, whose capitals (U+039C and U+0178) lie outside the range
    0..255 of the characters of the model. *)
Definition upper_char (c : ascii) : option string :=
  let n := nat_of_ascii c in
  if (n =? 181)%nat || (n =? 255)%nat then None
  else if (n =? 223)%nat then Some "SS"
  else if is_lower c || is_latin_lower c
       then Some (String (ascii_of_nat (nat_of_ascii c - 32)) EmptyString)
       else Some (String c EmptyString).

(** [s.lower()]. *)
Fixpoint lower (s : string) : string :=
  match s with
  | EmptyString => EmptyString
  | String c r => String (lower_char c) (lower r)
  end.

(** [s.upper()]; [None] when the result has a character outside the range
    0..255. *)
Fixpoint upper (s : string) : option string :=
  match s with
  | EmptyString => Some EmptyString
  | String c r =>
      match upper_char c, upper r with
      | Some a, Some b => Some (a +:+ b)
      | _, _ => None
      end
  end.

(** [s.capitalize()]: the first character in title case ([Ss] for ß), the
    rest in lower case.  A first character µ or ÿ, whose capital lies
    outside the range 0..255, is kept. *)
Definition capitalize (s : string) : string :=
  match s with
  | EmptyString => EmptyString
  | String c r =>
      (if (nat_of_ascii c =? 223)%nat then "Ss"
       else default (String c EmptyString) (upper_char c)) +:+ lower r
  end.

(** [s.startswith(p)]. *)
Fixpoint startswith (p s : string) : bool :=
  match p, s with
  | EmptyString, _ => true
  | String a p', String b s' => if Ascii.eqb a b then startswith p' s' else false
  | String _ _, EmptyString => false
  end.

(** [needle in hay]. *)
Fixpoint contains (needle hay : string) : bool :=
  startswith needle hay ||
  match hay with
  | EmptyString => false
  | String _ r => contains needle r
  end.

(** Truthiness of a [str | None] value: [None] and [""] are falsy. *)
Definition truthy (o : option string) : bool :=
  match o with
  | Some (String _ _) => true
  | _ => false
  end.

(** [c.isspace()] for a character of the 0..255 range. *)
Definition is_space (c : ascii) : bool :=
  let n := nat_of_ascii c in
  ((9 <=? n)%nat && (n <=? 13)%nat) || ((28 <=? n)%nat && (n <=? 32)%nat)
  || (n =? 133)%nat || (n =? 160)%nat.

Fixpoint lstrip (s : string) : string :=
  match s with
  | String c r => if is_space c then lstrip r else s
  | EmptyString => EmptyString
  end.

Fixpoint rstrip (s : string) : string :=
  match s with
  | EmptyString => EmptyString
  | String c r =>
      match rstrip r with
      | EmptyString => if is_space c then EmptyString else String c EmptyString
      | r' => String c r'
      end
  end.

(** [s.strip()]. *)
Definition strip (s : string) : string := lstrip (rstrip s).

(** [s.split(sep)] for a one-character separator. *)
Fixpoint split (sep : ascii) (s : string) : list string :=
  match s with
  | EmptyString => [EmptyString]
  | String c r =>
      if Ascii.eqb c sep then EmptyString :: split sep r
      else match split sep r with
           | h :: t => String c h :: t
           | [] => [String c EmptyString]
           end
  end.

(** [s.partition(sep)]: the text before the first [sep], whether [sep] was
    found, and the text after it. *)
Fixpoint partition (sep : ascii) (s : string) : string * bool * string :=
  match s with
  | EmptyString => (EmptyString, false, EmptyString)
  | String c r =>
      if Ascii.eqb c sep then (EmptyString, true, r)
      else let '(a, f, b) := partition sep r in (String c a, f, b)
  end.

(** [sep.join(parts)]. *)
Definition join (sep : string) (parts : list string) : string :=
  String.concat sep parts.

Definition is_digit (c : ascii) : bool :=
  let n := nat_of_ascii c in (48 <=? n)%nat && (n <=? 57)%nat.

Definition digit_value (c : ascii) : Z := Z.of_nat (nat_of_ascii c) - 48.

Fixpoint count_digits (s : string) : Z :=
  match s with
  | EmptyString => 0
  | String c r => (if is_digit c then 1 else 0) + count_digits r
  end.

(** The digits after the first one: single underscores may separate digits. *)
Fixpoint digits_value (acc : Z) (prev_underscore : bool) (s : string) : option Z :=
  match s with
  | EmptyString => if prev_underscore then None else Some acc
  | String c r =>
      if is_digit c then digits_value (acc * 10 + digit_value c) false r
      else if Ascii.eqb c "_" then
        if prev_underscore then None else digits_value acc true r
      else None
  end.

(** [sys.get_int_max_str_digits()]. *)
Definition int_max_str_digits : Z := 4300.

Definition unsigned_of_str (s : string) : option Z :=
  match s with
  | String c r =>
      if is_digit c then
        if int_max_str_digits <? count_digits s then None
        else digits_value (digit_value c) false r
      else None
  | EmptyString => None
  end.

(** [int(s)] for a string: surrounding whitespace, an optional sign, decimal
    digits.  [None] stands for [ValueError]. *)
Definition int_of_str (s : string) : option Z :=
  match strip s with
  | String "-" r => Z.opp <$> unsigned_of_str r
  | String "+" r => unsigned_of_str r
  | t => unsigned_of_str t
  end.

(** [s.encode()] (UTF-8) for characters with codes 0..255: one byte below
    128, two bytes from 128 on. *)
Definition utf8_encode_char (c : ascii) : list ascii :=
  let n := nat_of_ascii c in
  if (n <? 128)%nat then [c]
  else [ascii_of_nat (192 + n / 64); ascii_of_nat (128 + n mod 64)].

Fixpoint utf8_encode (s : string) : string :=
  match s with
  | EmptyString => EmptyString
  | String c r => String.string_of_list_ascii (utf8_encode_char c) +:+ utf8_encode r
  end.

(** [hmac.compare_digest] on two [bytes] values. *)
Definition compare_digest (a b : string) : bool := String.eqb a b.

Definition is_ascii_char (c : ascii) : bool := (nat_of_ascii c <? 128)%nat.

Fixpoint is_ascii (s : string) : bool :=
  match s with
  | EmptyString => true
  | String c r => is_ascii_char c && is_ascii r
  end.

(** [s.encode("ascii")] and [b.decode("ascii")]: the same characters, or
    [None] (a [UnicodeError], which is a [ValueError]) outside ASCII. *)
Definition ascii_codec (s : string) : option string :=
  if is_ascii s then Some s else None.

(** [hmac.compare_digest] on two [str] values: [None] stands for the
    [TypeError] raised when either is not ASCII. *)
Definition compare_digest_str (a b : string) : option bool :=
  if is_ascii a && is_ascii b then Some (String.eqb a b) else None.

(** [s.rstrip(char)]. *)
Fixpoint rstrip_char (ch : ascii) (s : string) : string :=
  match s with
  | EmptyString => EmptyString
  | String c r =>
      match rstrip_char ch r with
      | EmptyString => if Ascii.eqb c ch then EmptyString else String c EmptyString
      | r' => String c r'
      end
  end.

(** [s.rpartition(sep)] when [sep] occurs: the text before the last [sep]
    and the text after it. *)
Fixpoint rpartition (sep : ascii) (s : string) : option (string * string) :=
  match s with
  | EmptyString => None
  | String c r =>
      match rpartition sep r with
      | Some (a, b) => Some (String c a, b)
      | None => if Ascii.eqb c sep then Some (EmptyString, r) else None
      end
  end.

(** [s.rsplit(sep, 2)]: at most two splits, from the right. *)
Definition rsplit2 (sep : ascii) (s : string) : list string :=
  match rpartition sep s with
  | None => [s]
  | Some (x, c) =>
      match rpartition sep x with
      | None => [x; c]
      | Some (a, b) => [a; b; c]
      end
  end.

(** Every character of the text satisfies [P]. *)
Fixpoint all_chars (P : ascii -> bool) (s : string) : bool :=
  match s with
  | EmptyString => true
  | String c r => P c && all_chars P r
  end.

Definition nonempty (s : string) : bool :=
  match s with
  | EmptyString => false
  | String _ _ => true
  end.

(** [s.endswith(c)] for one character. *)
Fixpoint endswith_char (ch : ascii) (s : string) : bool :=
  match s with
  | EmptyString => false
  | String c EmptyString => Ascii.eqb c ch
  | String _ r => endswith_char ch r
  end.

(** The longest prefix whose characters satisfy [P], and the rest. *)
Fixpoint span (P : ascii -> bool) (s : string) : string * string :=
  match s with
  | EmptyString => (EmptyString, EmptyString)
  | String c r =>
      if P c then let '(a, b) := span P r in (String c a, b)
      else (EmptyString, s)
  end.

(** A word character of the regular-expression class [\w], among the
    characters with codes 0..255: a letter, a digit or other numeric
    character, or the underscore. *)
Definition is_word (c : ascii) : bool :=
  let n := nat_of_ascii c in
  is_upper c || is_lower c || is_digit c || (n =? 95)%nat
  || (n =? 170)%nat || (n =? 178)%nat || (n =? 179)%nat || (n =? 181)%nat
  || (n =? 185)%nat || (n =? 186)%nat
  || ((188 <=? n)%nat && (n <=? 190)%nat)
  || ((192 <=? n)%nat && (n <=? 214)%nat)
  || ((216 <=? n)%nat && (n <=? 246)%nat)
  || (248 <=? n)%nat.

End Py.

(** ** ASGI messages, scopes and responses ([thor.types], [thor.response]) *)

Module Asgi.

(** JSON content handed to [JSONResponse]. *)
Inductive json :=
| JInt (z : Z)
| JStr (s : string)
| JDict (items : list (string * json)).

(** A response body: [JSONResponse.render] serialises its content with
    [json.dumps]; the serialiser is the standard library's and is kept
    symbolic. *)
Inductive payload :=
| JsonBytes (content : json)
| RawBytes (b : string).

(** The two messages a response sends. *)
Inductive message :=
| Start (status : Z) (headers : list (string * string))
| Body (body : payload).

(** The ASGI scope, with the keys the modelled code reads or writes. *)
Record Scope := mkScope {
  sc_type : string;
  sc_method : option string;
  sc_path : option string;
  sc_headers : list (string * string);
  sc_client : option (string * Z);
  sc_csrf_token : option string
}.

(** The downstream application, by the messages it sends for a scope. *)
Definition App := Scope -> list message.

Inductive exn :=
| IndexError
| PayloadTooLarge
| UnicodeDecodeError
| ValueError
| TypeError
| OverflowError
| RuntimeError
| RoutingError
| RegexError
| Unmodelled.

(** The result of a call that may raise. *)
Inductive result (A : Type) :=
| Ok (a : A)
| Raise (e : exn).
Arguments Ok {A} a.
Arguments Raise {A} e.

(** What a middleware's [process] did with a request. *)
Inductive outcome :=
| Responded (msgs : list message)
| Forwarded (scope : Scope) (msgs : list message)
| Raised (e : exn).

(** [thor.response.Response] specialised to [JSONResponse]. *)
Record JSONResponse := mkJSONResponse {
  content : json;
  status_code : Z;
  headers : list (string * string);
  cookies : list string
}.

Definition media_type : string := "application/json".
Definition charset : string := "utf-8".

(** [Response.content_type]. *)
Definition content_type : string :=
  if Py.startswith "text/" media_type || Py.contains "json" media_type
  then media_type +:+ "; charset=" +:+ charset
  else media_type.

(** [Response._build_headers]. *)
Definition _build_headers (r : JSONResponse) : list (string * string) :=
  [("content-type", content_type)]
  ++ map (fun nv => (Py.lower (fst nv), snd nv)) (headers r)
  ++ map (fun c => ("set-cookie", c)) (cookies r).

(** [Response.__call__]: one start message, then one body message. *)
Definition respond (r : JSONResponse) : list message :=
  [Start (status_code r) (_build_headers r); Body (JsonBytes (content r))].

End Asgi.

(** ** Rate limiter ([thor.middleware.ratelimit]) *)

Module RateLimit.
Import Asgi.

Record RateLimitMiddleware := mkRateLimit {
  _max_requests : Z;
  _window : Z
}.

(** [client_ip -> list of request timestamps]. *)
Abbreviation store := (gmap string (list Q)).

(** [t > window_start] on floats. *)
Definition Qgtb (a b : Q) : bool := negb (Qle_bool a b).

(** [int(self._window - (now - timestamps[0])) + 1]: the difference of the
    two clock readings is rounded, the window is converted to a float, and
    their difference is rounded again. *)
Definition retry_after (window : Z) (now oldest : Q) : Z :=
  Py.int_of_float (Py.fsub (Py.round64 (inject_Z window)) (Py.fsub now oldest)) + 1.

Definition too_many (retry : Z) : JSONResponse :=
  {| content := JDict [("error", JStr "Too Many Requests");
                       ("status_code", JInt 429);
                       ("retry_after", JInt retry)];
     status_code := 429;
     headers := [("Retry-After", Py.str_of_Z retry)];
     cookies := [] |}.

(** [send_with_ratelimit]. *)
Definition send_with_ratelimit (mw : RateLimitMiddleware) (remaining : Z)
    (m : message) : message :=
  match m with
  | Start st hs =>
      Start st (hs ++ [("x-ratelimit-limit", Py.str_of_Z (_max_requests mw));
                        ("x-ratelimit-remaining", Py.str_of_Z remaining);
                        ("x-ratelimit-reset", Py.str_of_Z (_window mw))])
  | Body b => Body b
  end.

Definition client_ip (scope : Scope) : string :=
  match sc_client scope with
  | Some c => fst c
  | None => "unknown"
  end.

(** The pruned list: [[t for t in timestamps if t > window_start]], with
    [window_start = now - self._window] taken exactly (the float that the
    code computes separates the readings of the clock in the same way). *)
Definition in_window (mw : RateLimitMiddleware) (requests : store)
    (scope : Scope) (now : Q) : list Q :=
  let window_start := (now - inject_Z (_window mw))%Q in
  List.filter (fun t => Qgtb t window_start)
              (default [] (requests !! client_ip scope)).

(** [RateLimitMiddleware.process]; [now] is [time.monotonic()]. *)
Definition process (mw : RateLimitMiddleware) (requests : store)
    (scope : Scope) (now : Q) (app : App) : outcome * store :=
  let timestamps := in_window mw requests scope now in
  if Z.of_nat (List.length timestamps) >=? _max_requests mw then
    match timestamps with
    | [] => (Raised IndexError, requests)
    | oldest :: _ =>
        (Responded (respond (too_many (retry_after (_window mw) now oldest))),
         requests)
    end
  else
    let timestamps' := timestamps ++ [now] in
    let remaining := _max_requests mw - Z.of_nat (List.length timestamps') in
    (Forwarded scope (map (send_with_ratelimit mw remaining) (app scope)),
     <[client_ip scope := timestamps']> requests).

(** The value the specification gives for the header: the ceiling plus one. *)
Definition spec_retry_after (window : Z) (now oldest : Q) : Z :=
  Qceiling (inject_Z window - (now - oldest))%Q + 1.

End RateLimit.

(** ** Cookie attributes and the [Cookie] header ([thor.cookies]) *)

Module CookieJar.

Record CookieOptions := mkCookieOptions {
  max_age : option Z;
  expires : option string;
  path : string;
  domain : option string;
  secure : bool;
  httponly : bool;
  samesite : string
}.

(** The dataclass defaults. *)
Definition default_options : CookieOptions :=
  mkCookieOptions None None "/" None true true "lax".

Definition when (b : bool) (part : string) : list string :=
  if b then [part] else [].

(** [CookieOptions.to_header_string]. *)
Definition to_header_string (o : CookieOptions) : string :=
  Py.join "; "
    (match max_age o with
     | Some n => ["Max-Age=" +:+ Py.str_of_Z n]
     | None => []
     end
     ++ when (Py.truthy (expires o)) ("Expires=" +:+ default "" (expires o))
     ++ when (Py.truthy (Some (path o))) ("Path=" +:+ path o)
     ++ when (Py.truthy (domain o)) ("Domain=" +:+ default "" (domain o))
     ++ when (secure o) "Secure"
     ++ when (httponly o) "HttpOnly"
     ++ when (Py.truthy (Some (samesite o)))
             ("SameSite=" +:+ Py.capitalize (samesite o))).

(** [format_set_cookie]. *)
Definition format_set_cookie (name value : string) (options : option CookieOptions)
    : string :=
  let options := default default_options options in
  let cookie := name +:+ "=" +:+ value in
  let options_str := to_header_string options in
  if Py.truthy (Some options_str) then cookie +:+ "; " +:+ options_str else cookie.

(** One [item] of the header: [cookies[key.strip()] = value.strip()] when the
    item contains ["="]. *)
Definition parse_item (cookies : gmap string string) (item : string)
    : gmap string string :=
  let item := Py.strip item in
  let '(key, found, value) := Py.partition "=" item in
  if found then <[Py.strip key := Py.strip value]> cookies else cookies.

(** [parse_cookies]. *)
Definition parse_cookies (cookie_header : string) : gmap string string :=
  if Py.truthy (Some cookie_header)
  then foldl parse_item ∅ (Py.split ";" cookie_header)
  else ∅.

End CookieJar.

(** ** Requests ([thor.request]) *)

Module Req.
Import Asgi.

(** [DEFAULT_MAX_BODY_SIZE]. *)
Definition DEFAULT_MAX_BODY_SIZE : Z := 1048576.

(** A message returned by [receive()]: its ["body"] (default [b""]) and its
    ["more_body"] flag (default [False]). *)
Record recv_msg := mkRecv {
  m_body : string;
  m_more_body : bool
}.

(** The request object.  [receive] is the list of messages that the adapter
    will deliver for this request; once they are used up it delivers
    [{"type": "http.disconnect"}], which has neither key. *)
Record Request := mkRequest {
  _scope : Scope;
  receive : list recv_msg;
  _body : option string;
  _body_consumed : bool;
  _max_body_size : Z
}.

(** [Request(scope, receive, max_body_size)]. *)
Definition new (scope : Scope) (receive : list recv_msg) (max_body_size : Z)
    : Request :=
  mkRequest scope receive None false max_body_size.

Definition method (r : Request) : string := default "GET" (sc_method (_scope r)).
Definition path (r : Request) : string := default "/" (sc_path (_scope r)).

(** [Request.headers]: names lower-cased, a later header replaces an earlier
    one of the same name. *)
Definition headers (r : Request) : gmap string string :=
  foldl (fun hs nv => <[Py.lower (fst nv) := snd nv]> hs) ∅ (sc_headers (_scope r)).

Definition cookies (r : Request) : gmap string string :=
  CookieJar.parse_cookies (default "" (headers r !! "cookie")).

Definition content_type (r : Request) : string :=
  default "" (headers r !! "content-type").

(** [Request.content_length]: [int(length) if length else None]; the outer
    [None] stands for the [ValueError] of [int]. *)
Definition content_length (r : Request) : option (option Z) :=
  match headers r !! "content-length" with
  | Some (String c l) => Some <$> Py.int_of_str (String c l)
  | _ => Some None
  end.

Definition get_header (r : Request) (name : string) : option string :=
  headers r !! Py.lower name.

Definition get_cookie (r : Request) (name : string) : option string :=
  cookies r !! name.

(** The [while True] loop of [Request.body]: the chunks collected so far,
    the running total, and the messages still to come. *)
Fixpoint read_chunks (max_body_size : Z) (chunks : list string) (total_size : Z)
    (pending : list recv_msg) : result (list string) * list recv_msg :=
  match pending with
  | [] => (Ok chunks, [])
  | m :: pending' =>
      if Py.truthy (Some (m_body m)) then
        let total_size := total_size + Py.len (m_body m) in
        if (max_body_size >? 0) && (total_size >? max_body_size)
        then (Raise PayloadTooLarge, pending')
        else if m_more_body m
             then read_chunks max_body_size (chunks ++ [m_body m]) total_size pending'
             else (Ok (chunks ++ [m_body m]), pending')
      else if m_more_body m
           then read_chunks max_body_size chunks total_size pending'
           else (Ok chunks, pending')
  end.

(** The early rejection test; [content_length] is only evaluated when
    [max_body_size > 0]. *)
Definition early_reject (r : Request) : result bool :=
  if _max_body_size r >? 0 then
    match content_length r with
    | None => Raise ValueError
    | Some None => Ok false
    | Some (Some n) => Ok (n >? _max_body_size r)
    end
  else Ok false.

(** [Request.body]. *)
Definition body (r : Request) : result string * Request :=
  match _body r with
  | Some b => (Ok b, r)
  | None =>
      if _body_consumed r then (Ok "", r)
      else
        match early_reject r with
        | Raise e => (Raise e, r)
        | Ok true => (Raise PayloadTooLarge, r)
        | Ok false =>
            match read_chunks (_max_body_size r) [] 0 (receive r) with
            | (Raise e, pending) =>
                (Raise e, mkRequest (_scope r) pending None false (_max_body_size r))
            | (Ok chunks, pending) =>
                let b := Py.join "" chunks in
                (Ok b, mkRequest (_scope r) pending (Some b) true (_max_body_size r))
            end
        end
  end.

(** The external functions that [Request.form] relies on: [bytes.decode]
    for UTF-8 ([None] is [UnicodeDecodeError]), [urllib.parse.parse_qs] with
    [keep_blank_values=True] as the ordered items of the dictionary it
    returns, and the multipart branch [Request.multipart] reduced to the form
    fields it returns for a content type and a raw body. *)
Record Library := mkLibrary {
  utf8_decode : string -> option string;
  parse_qs : string -> list (string * list string);
  multipart_fields : string -> string -> gmap string (string + list string)
}.

(** A form value: [str | list[str]]. *)
Abbreviation form_value := (string + list string)%type.

(** [result[key] = values[0] if len(values) == 1 else values]. *)
Definition form_entry (form : gmap string form_value) (kv : string * list string)
    : gmap string form_value :=
  match snd kv with
  | [v] => <[fst kv := inl v]> form
  | vs => <[fst kv := inr vs]> form
  end.

(** [Request.text]. *)
Definition text (lib : Library) (r : Request) : result string * Request :=
  match body r with
  | (Raise e, r') => (Raise e, r')
  | (Ok b, r') =>
      match utf8_decode lib b with
      | Some t => (Ok t, r')
      | None => (Raise UnicodeDecodeError, r')
      end
  end.

(** [Request.form]. *)
Definition form (lib : Library) (r : Request)
    : result (gmap string form_value) * Request :=
  if Py.contains "multipart/form-data" (content_type r) then
    match body r with
    | (Raise e, r') => (Raise e, r')
    | (Ok b, r') => (Ok (multipart_fields lib (content_type r) b), r')
    end
  else
    match text lib r with
    | (Raise e, r') => (Raise e, r')
    | (Ok t, r') => (Ok (foldl form_entry ∅ (parse_qs lib t)), r')
    end.

End Req.

(** ** CSRF middleware ([thor.middleware.csrf]) *)

Module Csrf.
Import Asgi CookieJar.

Definition SAFE_METHODS : gset string :=
  {[ "GET"; "HEAD"; "OPTIONS"; "TRACE" ]}.

Definition DEFAULT_COOKIE_NAME : string := "thor_csrf".
Definition DEFAULT_HEADER_NAME : string := "x-csrf-token".
Definition DEFAULT_FORM_FIELD : string := "_csrf_token".
Definition DEFAULT_TOKEN_LENGTH : Z := 32.

Record CSRFMiddleware := mkCSRF {
  app : App;
  _secret_key : string;
  _cookie_name : string;
  _header_name : string;
  _form_field : string;
  _token_length : Z;
  _safe_methods : gset string;
  _exclude_paths : list string;
  _cookie_options : CookieOptions
}.

(** [CSRFMiddleware.__init__]; the two optional arguments default to no
    excluded path and to a cookie that scripts can read. *)
Definition init (app : App) (secret_key cookie_name header_name form_field : string)
    (token_length : Z) (safe_methods : gset string)
    (exclude_paths : option (list string))
    (cookie_options : option CookieOptions) : CSRFMiddleware :=
  {| app := app;
     _secret_key := Py.utf8_encode secret_key;
     _cookie_name := cookie_name;
     _header_name := header_name;
     _form_field := form_field;
     _token_length := token_length;
     _safe_methods := safe_methods;
     _exclude_paths := default [] exclude_paths;
     _cookie_options :=
       default (mkCookieOptions None None "/" None true false "lax") cookie_options |}.

(** [CSRFMiddleware(app, secret_key=...)] with every default. *)
Definition init_default (app : App) (secret_key : string) : CSRFMiddleware :=
  init app secret_key DEFAULT_COOKIE_NAME DEFAULT_HEADER_NAME DEFAULT_FORM_FIELD
       DEFAULT_TOKEN_LENGTH SAFE_METHODS None None.

(** [_tokens_match]. *)
Definition _tokens_match (expected submitted : string) : bool :=
  Py.compare_digest (Py.utf8_encode expected) (Py.utf8_encode submitted).

(** [_get_form_token], a static method: it receives the request only. *)
Definition _get_form_token (lib : Req.Library) (request : Req.Request)
    : result (option string) :=
  if Py.contains "application/x-www-form-urlencoded" (Req.content_type request) then
    match fst (Req.form lib request) with
    | Raise e => Raise e
    | Ok form =>
        Ok match form !! DEFAULT_FORM_FIELD with
               | Some (inr value) => head value
               | Some (inl value) => Some value
               | None => None
               end
    end
  else Ok None.

(** The path is under one of the excluded prefixes. *)
Definition excluded (mw : CSRFMiddleware) (request : Req.Request) : bool :=
  existsb (fun p => Py.startswith p (Req.path request)) (_exclude_paths mw).

(** The token in force: the cookie's, or the freshly generated one [fresh]
    (the value that [secrets.token_urlsafe] returns) when the cookie is absent
    or empty. *)
Definition cookie_token (mw : CSRFMiddleware) (request : Req.Request)
    (fresh : string) : string :=
  let t := Req.get_cookie request (_cookie_name mw) in
  if Py.truthy t then default "" t else fresh.

(** The submitted token: the header, else the form field. *)
Definition submitted_token (lib : Req.Library) (mw : CSRFMiddleware)
    (request : Req.Request) : result (option string) :=
  let submitted := Req.get_header request (_header_name mw) in
  if Py.truthy submitted then Ok submitted else _get_form_token lib request.

Definition forbidden : JSONResponse :=
  {| content := JDict [("error", JStr "CSRF token missing or invalid");
                       ("status_code", JInt 403)];
     status_code := 403;
     headers := [];
     cookies := [] |}.

(** [send_with_csrf]. *)
Definition send_with_csrf (mw : CSRFMiddleware) (token : string) (m : message)
    : message :=
  match m with
  | Start st hs =>
      Start st (hs ++ [("set-cookie",
                        format_set_cookie (_cookie_name mw) token
                                          (Some (_cookie_options mw)))])
  | Body b => Body b
  end.

Definition with_csrf_token (scope : Scope) (token : string) : Scope :=
  mkScope (sc_type scope) (sc_method scope) (sc_path scope) (sc_headers scope)
          (sc_client scope) (Some token).

(** [CSRFMiddleware.process]. *)
Definition process (lib : Req.Library) (mw : CSRFMiddleware) (scope : Scope)
    (receive : list Req.recv_msg) (fresh : string) : outcome :=
  let request := Req.new scope receive Req.DEFAULT_MAX_BODY_SIZE in
  if excluded mw request then Forwarded scope (app mw scope)
  else
    let token := cookie_token mw request fresh in
    let scope' := with_csrf_token scope token in
    let forward :=
      Forwarded scope' (map (send_with_csrf mw token) (app mw scope')) in
    if bool_decide (Req.method request ∈ _safe_methods mw) then forward
    else
      match submitted_token lib mw request with
      | Raise e => Raised e
      | Ok submitted =>
          if negb (Py.truthy submitted)
             || negb (_tokens_match token (default "" submitted))
          then Responded (respond forbidden)
          else forward
      end.

(** [Middleware.__call__]. *)
Definition call (lib : Req.Library) (mw : CSRFMiddleware) (scope : Scope)
    (receive : list Req.recv_msg) (fresh : string) : outcome :=
  if negb (String.eqb (sc_type scope) "http")
  then Forwarded scope (app mw scope)
  else process lib mw scope receive fresh.

(** The scopes with which the downstream application was invoked. *)
Definition downstream_calls (o : outcome) : list Scope :=
  match o with
  | Forwarded scope _ => [scope]
  | _ => []
  end.

(** The messages that reached the client. *)
Definition sent (o : outcome) : list message :=
  match o with
  | Responded msgs | Forwarded _ msgs => msgs
  | Raised _ => []
  end.

(** The [Set-Cookie] values carried by the start messages. *)
Definition set_cookies (msgs : list message) : list string :=
  flat_map (fun m => match m with
                     | Start _ hs =>
                         map snd (List.filter (fun nv => String.eqb (fst nv) "set-cookie") hs)
                     | Body _ => []
                     end) msgs.

End Csrf.

(** ** Signed tokens ([thor.cookies.SecureCookie]) *)

Module Codec.
Import Asgi.

(** The external functions of the codec, for a type [V] of Python values:
    [hmac.new(key, msg, sha256).digest()], [base64.urlsafe_b64encode],
    [base64.urlsafe_b64decode] ([None] is [binascii.Error], a [ValueError]),
    [bytes.decode("utf-8")] ([None] is [UnicodeDecodeError]),
    [json.dumps(v, separators=(",", ":"))] ([None] is the [TypeError] of a
    value that cannot be serialised) and [json.loads] ([None] is
    [JSONDecodeError]). *)
Record Library (V : Type) := mkLibrary {
  hmac_sha256 : string -> string -> string;
  urlsafe_b64encode : string -> string;
  urlsafe_b64decode : string -> option string;
  utf8_decode : string -> option string;
  json_dumps : V -> option string;
  json_loads : string -> option V
}.
Arguments hmac_sha256 {V} _ _ _.
Arguments urlsafe_b64encode {V} _ _.
Arguments urlsafe_b64decode {V} _ _.
Arguments utf8_decode {V} _ _.
Arguments json_dumps {V} _ _.
Arguments json_loads {V} _ _.

Record SecureCookie := mkSecureCookie {
  _secret_key : string
}.

(** Python values that can be handed to [encode_value]: [None], booleans,
    integers, strings, lists, tuples, and dictionaries (their items in
    insertion order) with string or integer keys. *)
Inductive pykey :=
| KStr (s : string)
| KInt (z : Z).

Inductive pyvalue :=
| PyNone
| PyBool (b : bool)
| PyInt (z : Z)
| PyStr (s : string)
| PyList (items : list pyvalue)
| PyTuple (items : list pyvalue)
| PyDict (items : list (pykey * pyvalue)).

Definition key_text (k : pykey) : option string :=
  match k with
  | KStr s => Some s
  | KInt _ => None
  end.

Fixpoint distinct (keys : list (option string)) : bool :=
  match keys with
  | [] => true
  | k :: rest => negb (existsb (fun k' => bool_decide (k = k')) rest) && distinct rest
  end.

(** The values that JSON has a form of its own for: no tuple, and only
    string keys (distinct ones, as in any dictionary). *)
Fixpoint json_native (v : pyvalue) : bool :=
  match v with
  | PyNone | PyBool _ | PyInt _ | PyStr _ => true
  | PyList items => forallb json_native items
  | PyTuple _ => false
  | PyDict items =>
      forallb (fun kv => let '(k, v') := kv in
                         bool_decide (is_Some (key_text k)) && json_native v') items
      && distinct (map (fun kv => key_text (fst kv)) items)
  end.

(** [SecureCookie.__init__]: the key is encoded and stored; nothing is
    checked. *)
Definition init (secret_key : string) : result SecureCookie :=
  Ok (mkSecureCookie (Py.utf8_encode secret_key)).

Section WithLibrary.
Context {V : Type} (lib : Library V).

(** [_create_signature]; the [.decode("ascii")] of the encoder's output is
    the identity on the characters, [None] if it raised. *)
Definition _create_signature (c : SecureCookie) (value : string) : option string :=
  Py.rstrip_char "="
    <$> Py.ascii_codec
          (urlsafe_b64encode lib (hmac_sha256 lib (_secret_key c) (Py.utf8_encode value))).

(** [sign]; [now] is [int(time.time())]. *)
Definition sign (c : SecureCookie) (now : Z) (value : string) : option string :=
  let value_with_ts := Py.str_of_Z now +:+ ":" +:+ value in
  (fun signature => value_with_ts +:+ ":" +:+ signature)
    <$> _create_signature c value_with_ts.

(** [time.time() - timestamp > max_age]: the timestamp is converted to a
    float, which raises [OverflowError] beyond the range of doubles; the
    difference is rounded; the comparison of the float with the integer
    [max_age] is exact. *)
Definition expired (now : Q) (timestamp max_age : Z) : result bool :=
  match Py.float_of_int timestamp with
  | None => Raise OverflowError
  | Some t => Ok (negb (Qle_bool (Py.fsub now t) (inject_Z max_age)))
  end.

(** [unsign]; [now] is [time.time()].  A [ValueError] or a [TypeError]
    raised in the body is turned into [None] by the [try]; the
    [OverflowError] of the expiry test is not caught. *)
Definition unsign (c : SecureCookie) (now : Q) (signed_value : string)
    (max_age : option Z) : result (option string) :=
  match Py.rsplit2 ":" signed_value with
  | [timestamp_str; value; signature] =>
      let value_with_ts := timestamp_str +:+ ":" +:+ value in
      match _create_signature c value_with_ts with
      | None => Ok None
      | Some expected_signature =>
          match Py.compare_digest_str signature expected_signature with
          | None => Ok None
          | Some false => Ok None
          | Some true =>
              match max_age with
              | None => Ok (Some value)
              | Some max_age =>
                  match Py.int_of_str timestamp_str with
                  | None => Ok None
                  | Some timestamp =>
                      match expired now timestamp max_age with
                      | Raise e => Raise e
                      | Ok true => Ok None
                      | Ok false => Ok (Some value)
                      end
                  end
              end
          end
      end
  | _ => Ok None
  end.

(** [encode_value]; [None] when [json.dumps] (or a codec) raises. *)
Definition encode_value (c : SecureCookie) (now : Z) (data : V) : option string :=
  json_data ← json_dumps lib data;
  encoded ← Py.ascii_codec (urlsafe_b64encode lib (Py.utf8_encode json_data));
  sign c now encoded.

(** [decode_value]; an exception of [unsign] propagates. *)
Definition decode_value (c : SecureCookie) (now : Q) (encoded_value : string)
    (max_age : option Z) : result (option V) :=
  match unsign c now encoded_value max_age with
  | Raise e => Raise e
  | Ok None => Ok None
  | Ok (Some unsigned) =>
      Ok (raw ← Py.ascii_codec unsigned;
          decoded ← urlsafe_b64decode lib raw;
          json_data ← utf8_decode lib decoded;
          json_loads lib json_data)
  end.

End WithLibrary.

End Codec.

(** ** The application object ([thor.app]) *)

Module App.
Import Asgi.

(** [_MIN_SECRET_KEY_LENGTH]. *)
Definition _MIN_SECRET_KEY_LENGTH : Z := 16.

(** [_SECRET_REQUIRED_MIDDLEWARE]. *)
Definition _SECRET_REQUIRED_MIDDLEWARE : gset string :=
  {[ "SessionMiddleware"; "CSRFMiddleware" ]}.

(** The configuration that [Thor.__init__] stores, and the registered
    middleware: class name and [secret_key] option, in registration order. *)
Record Thor := mkThor {
  debug : bool;
  title : string;
  version : string;
  secret_key : option string;
  _middleware : list (string * option string)
}.

(** [Thor.__init__]. *)
Definition init (debug : bool) (title version : string)
    (secret_key : option string) : result Thor :=
  match secret_key with
  | Some k =>
      if Py.len k <? _MIN_SECRET_KEY_LENGTH then Raise ValueError
      else Ok (mkThor debug title version secret_key [("ErrorHandlerMiddleware", None)])
  | None => Ok (mkThor debug title version secret_key [("ErrorHandlerMiddleware", None)])
  end.

(** [Thor.add_middleware] for a middleware class given by its name and the
    [secret_key] option passed to it. *)
Definition add_middleware (a : Thor) (class_name : string)
    (middleware_key : option string) : result Thor :=
  if bool_decide (class_name ∈ _SECRET_REQUIRED_MIDDLEWARE)
     && negb (bool_decide (is_Some (secret_key a)))
  then Raise RuntimeError
  else Ok (mkThor (debug a) (title a) (version a) (secret_key a)
                  (_middleware a ++ [(class_name, middleware_key)])).

(** The codec that [SessionMiddleware.__init__] builds from the key it is
    given: [SecureCookie(secret_key)]. *)
Definition session_codec (middleware_key : string) : result Codec.SecureCookie :=
  Codec.init middleware_key.

End App.

(** ** Lifespan ([thor.lifespan]) *)

Module Lifespan.

(** Messages of the lifespan protocol, received and sent. *)
Inductive incoming :=
| LifespanStartup
| LifespanShutdown
| OtherMessage (type : string).

Inductive outgoing :=
| StartupComplete
| StartupFailed (message : string)
| ShutdownComplete
| ShutdownFailed (message : string).

(** What the handler does, in order: a startup or shutdown handler (or one
    half of the context manager) runs to completion, a message is sent, the
    shutting-down flag is set, in-flight requests are awaited. *)
Inductive event :=
| Ran (handler : string)
| Sent (message : outgoing)
| MarkedShuttingDown
| Drained (inflight : Z) (timed_out : bool).

(** [Lifespan]: handlers are identified by name and return normally; a
    context manager is its setup and its teardown. *)
Record Lifespan := mkLifespan {
  _startup_handlers : list string;
  _shutdown_handlers : list string;
  _context_manager : option (string * string)
}.

(** [Lifespan.on_startup] and [Lifespan.on_shutdown]. *)
Definition on_startup (l : Lifespan) (handler : string) : Lifespan :=
  mkLifespan (_startup_handlers l ++ [handler]) (_shutdown_handlers l)
             (_context_manager l).

Definition on_shutdown (l : Lifespan) (handler : string) : Lifespan :=
  mkLifespan (_startup_handlers l) (_shutdown_handlers l ++ [handler])
             (_context_manager l).

(** [Lifespan.startup]: every startup handler, in registration order. *)
Definition startup (l : Lifespan) : list event := map Ran (_startup_handlers l).

(** [Lifespan.shutdown]: every shutdown handler, in reverse order. *)
Definition shutdown (l : Lifespan) : list event :=
  map Ran (rev (_shutdown_handlers l)).

(** [Lifespan.__call__], an async context manager: what runs on entry and
    what runs on exit. *)
Definition enter (l : Lifespan) : list event :=
  match _context_manager l with
  | Some (setup, _) => [Ran setup]
  | None => startup l
  end.

Definition exit (l : Lifespan) : list event :=
  match _context_manager l with
  | Some (_, teardown) => [Ran teardown]
  | None => shutdown l
  end.

Record LifespanProtocolHandler := mkHandler {
  _lifespan : Lifespan;
  _shutdown_timeout : Q;
  _inflight : Z;
  _shutting_down : bool
}.

(** [_drain_requests]; [in_time] tells whether the in-flight requests finish
    within [shutdown_timeout].  Nothing is awaited when none is in flight. *)
Definition _drain_requests (h : LifespanProtocolHandler) (in_time : bool)
    : list event :=
  if _inflight h =? 0 then [] else [Drained (_inflight h) (negb in_time)].

(** The [while True] loop of [_handle_lifespan] over the messages that
    [receive] delivers: the events, and whether the loop returned (it does on
    [lifespan.shutdown]; when the messages run out, [receive] never
    returns).  [send] is taken not to raise. *)
Fixpoint lifespan_loop (h : LifespanProtocolHandler) (in_time : bool)
    (messages : list incoming) : list event * bool :=
  match messages with
  | [] => ([], false)
  | LifespanStartup :: rest =>
      let '(events, returned) := lifespan_loop h in_time rest in
      (Sent StartupComplete :: events, returned)
  | LifespanShutdown :: _ =>
      ([MarkedShuttingDown] ++ _drain_requests h in_time ++ [Sent ShutdownComplete],
       true)
  | OtherMessage _ :: rest => lifespan_loop h in_time rest
  end.

(** [_handle_lifespan]: the loop runs inside [async with self._lifespan(...)],
    so the exit half of the context runs once the loop has returned. *)
Definition _handle_lifespan (h : LifespanProtocolHandler) (in_time : bool)
    (messages : list incoming) : list event :=
  let '(events, returned) := lifespan_loop h in_time messages in
  enter (_lifespan h) ++ events ++ (if returned then exit (_lifespan h) else []).

(** The position of the first occurrence of an event. *)
Fixpoint position (e : event -> bool) (trace : list event) : option nat :=
  match trace with
  | [] => None
  | x :: rest => if e x then Some O else S <$> position e rest
  end.

Definition is_sent (m : outgoing) (e : event) : bool :=
  match e, m with
  | Sent ShutdownComplete, ShutdownComplete => true
  | Sent StartupComplete, StartupComplete => true
  | _, _ => false
  end.

Definition is_ran (handler : string) (e : event) : bool :=
  match e with
  | Ran h => String.eqb h handler
  | _ => false
  end.

End Lifespan.

(** ** Routing ([thor.routing]) *)

Module Routing.
Import Asgi.

(** A converted path parameter: an [int] or a [str]. *)
Inductive pval :=
| PInt (z : Z)
| PStr (s : string).

Abbreviation params := (gmap string pval).

(** *** Parameter types: what [re.fullmatch(TYPE_PATTERNS[t], s)] decides *)

Definition is_hex (c : ascii) : bool :=
  let n := nat_of_ascii c in
  Py.is_digit c || ((97 <=? n)%nat && (n <=? 102)%nat)
  || ((65 <=? n)%nat && (n <=? 70)%nat).

Definition is_slug_char (c : ascii) : bool := Py.is_lower c || Py.is_digit c.

(** [\d+] *)
Definition fullmatch_int (s : string) : bool :=
  Py.nonempty s && Py.all_chars Py.is_digit s.

(** [[^/]+] *)
Definition fullmatch_str (s : string) : bool :=
  Py.nonempty s && Py.all_chars (fun c => negb (Ascii.eqb c "/")) s.

(** [.+]: the dot matches every character except a newline. *)
Definition fullmatch_path (s : string) : bool :=
  Py.nonempty s && Py.all_chars (fun c => negb (Ascii.eqb c "010")) s.

(** Exactly [n] hexadecimal digits, then the rest. *)
Fixpoint hex_run (n : nat) (s : string) : option string :=
  match n, s with
  | O, _ => Some s
  | S n', String c r => if is_hex c then hex_run n' r else None
  | S _, EmptyString => None
  end.

Definition dash (s : string) : option string :=
  match s with
  | String "-" r => Some r
  | _ => None
  end.

(** Five groups of 8, 4, 4, 4 and 12 hexadecimal digits joined by dashes. *)
Definition fullmatch_uuid (s : string) : bool :=
  match r ← hex_run 8 s; r ← dash r; r ← hex_run 4 r; r ← dash r;
        r ← hex_run 4 r; r ← dash r; r ← hex_run 4 r; r ← dash r; hex_run 12 r with
  | Some EmptyString => true
  | _ => false
  end.

Fixpoint slug_tail (after_dash : bool) (s : string) : bool :=
  match s with
  | EmptyString => negb after_dash
  | String c r =>
      if is_slug_char c then slug_tail false r
      else if Ascii.eqb c "-" then negb after_dash && slug_tail true r
      else false
  end.

(** [[a-z0-9]+(?:-[a-z0-9]+)*] *)
Definition fullmatch_slug (s : string) : bool :=
  match s with
  | String c r => is_slug_char c && slug_tail false r
  | EmptyString => false
  end.

(** [TYPE_PATTERNS], each pattern given by its full-match test. *)
Definition TYPE_PATTERNS (ty : string) : option (string -> bool) :=
  if String.eqb ty "int" then Some fullmatch_int
  else if String.eqb ty "str" then Some fullmatch_str
  else if String.eqb ty "path" then Some fullmatch_path
  else if String.eqb ty "uuid" then Some fullmatch_uuid
  else if String.eqb ty "slug" then Some fullmatch_slug
  else None.

(** [TYPE_CONVERTERS]; [None] from a converter is its [ValueError]. *)
Definition TYPE_CONVERTERS (ty : string) : option (string -> option pval) :=
  if String.eqb ty "int" then Some (fun s => PInt <$> Py.int_of_str s)
  else if String.eqb ty "str" || String.eqb ty "path" || String.eqb ty "uuid"
          || String.eqb ty "slug"
  then Some (fun s => Some (PStr s))
  else None.

(** *** Placeholders: [PATH_PARAM_PATTERN = \{(\w+)(?::(\w+))?\}] *)

(** A match of the pattern at the start of [s]: the name, the type if one is
    given, and the number of characters matched. *)
Definition placeholder_at (s : string) : option (string * option string * nat) :=
  match s with
  | String "{" s1 =>
      let '(name, after_name) := Py.span Py.is_word s1 in
      if Py.nonempty name then
        match after_name with
        | String "}" _ => Some (name, None, (2 + String.length name)%nat)
        | String ":" s2 =>
            let '(ty, after_ty) := Py.span Py.is_word s2 in
            if Py.nonempty ty then
              match after_ty with
              | String "}" _ =>
                  Some (name, Some ty, (3 + String.length name + String.length ty)%nat)
              | _ => None
              end
            else None
        | _ => None
        end
      else None
  | _ => None
  end.

(** [PATH_PARAM_PATTERN.fullmatch(segment)]. *)
Definition placeholder (segment : string) : option (string * option string) :=
  match placeholder_at segment with
  | Some (name, ty, n) =>
      if (n =? String.length segment)%nat then Some (name, ty) else None
  | None => None
  end.

(** *** Routes *)

(** A piece of a compiled pattern: a literal character, the dot (which
    stands for any character but a newline), or the named group
    [(?P<name>TYPE_PATTERNS[ty])]. *)
Inductive item :=
| Lit (c : ascii)
| Dot
| Group (name ty : string).

(** The successive matches of [PATH_PARAM_PATTERN.sub] in a template, from
    left to right; [skip] counts the characters still covered by the match
    in progress.  A placeholder without a type has type ["str"]. *)
Fixpoint substitute (skip : nat) (s : string) : list item :=
  match s with
  | EmptyString => []
  | String c r =>
      match skip with
      | S k => substitute k r
      | O =>
          match placeholder_at s with
          | Some (name, ty, n) => Group name (default "str" ty) :: substitute (n - 1) r
          | None => (if Ascii.eqb c "." then Dot else Lit c) :: substitute 0 r
          end
      end
  end.

(** A character that the regular-expression syntax treats specially. *)
Definition is_meta (c : ascii) : bool :=
  existsb (Ascii.eqb c)
    ["."; "^"; "$"; "*"; "+"; "?"; "{"; "}"; "["; "]"; "\"; "|"; "("; ")"]%char.

Definition group_names (items : list item) : list string :=
  flat_map (fun i => match i with Group n _ => [n] | _ => [] end) items.

Definition group_types (items : list item) : list string :=
  flat_map (fun i => match i with Group _ t => [t] | _ => [] end) items.

Definition literals (items : list item) : list ascii :=
  flat_map (fun i => match i with Lit c => [c] | _ => [] end) items.

(** A group name that [re.compile] accepts: an identifier; the model covers
    the ASCII ones. *)
Definition ascii_name (n : string) : bool := Py.is_ascii n.

Definition starts_with_digit (n : string) : bool :=
  match n with
  | String c _ => Py.is_digit c
  | EmptyString => false
  end.

Record Route := mkRoute {
  path : string;
  handler : string;
  methods : gset string;
  name : option string;
  _pattern : list item;
  _param_types : gmap string string
}.

(** [Route._compile_pattern]: [replace_param] raises [RoutingError] at the
    first placeholder of unknown type; then [re.compile] raises for a
    repeated group name or one that is not an identifier.  A template whose
    literal text contains a special character of the regular-expression
    syntax other than the dot, or a group name outside ASCII, is compiled by
    rules that the model does not cover: [Unmodelled]. *)
Definition _compile_pattern (path : string)
    : result (list item * gmap string string) :=
  let items := substitute 0 path in
  if negb (forallb (fun t => bool_decide (is_Some (TYPE_PATTERNS t))) (group_types items))
  then Raise RoutingError
  else if existsb is_meta (literals items)
          || negb (forallb ascii_name (group_names items))
  then Raise Unmodelled
  else if existsb starts_with_digit (group_names items)
          || negb (bool_decide (NoDup (group_names items)))
  then Raise RegexError
  else Ok (items,
           foldl (fun m i => match i with
                             | Group n t => <[n := t]> m
                             | _ => m
                             end) ∅ items).

(** [Route(path=..., handler=..., methods=..., name=...)]. *)
Definition make_route (path handler : string) (methods : gset string)
    (name : option string) : result Route :=
  match _compile_pattern path with
  | Raise e => Raise e
  | Ok (pattern, types) => Ok (mkRoute path handler methods name pattern types)
  end.

(** [$]: the end of the text, or just before a newline that ends it. *)
Definition at_end (s : string) : bool :=
  match s with
  | EmptyString => true
  | String "010" EmptyString => true
  | _ => false
  end.

(** The ways to cut [s] after a non-empty prefix, longest prefix first. *)
Fixpoint splits (s : string) : list (string * string) :=
  match s with
  | EmptyString => []
  | String c r =>
      map (fun pq => (String c (fst pq), snd pq)) (splits r) ++ [(String c EmptyString, r)]
  end.

Fixpoint first_some {A B : Type} (f : A -> option B) (l : list A) : option B :=
  match l with
  | [] => None
  | x :: rest => match f x with
                 | Some y => Some y
                 | None => first_some f rest
                 end
  end.

(** [pattern.match(s)] for the pattern [^items$]: the text of every group,
    in order.  A group is greedy: the longest prefix that its type accepts
    and that lets the rest of the pattern match is taken. *)
Fixpoint regex_match (items : list item) (s : string)
    : option (list (string * string)) :=
  match items with
  | [] => if at_end s then Some [] else None
  | Lit c :: rest =>
      match s with
      | String c' s' => if Ascii.eqb c c' then regex_match rest s' else None
      | EmptyString => None
      end
  | Dot :: rest =>
      match s with
      | String c' s' => if Ascii.eqb c' "010" then None else regex_match rest s'
      | EmptyString => None
      end
  | Group n ty :: rest =>
      first_some
        (fun pq =>
           if default fullmatch_str (TYPE_PATTERNS ty) (fst pq)
           then (fun groups => (n, fst pq) :: groups) <$> regex_match rest (snd pq)
           else None)
        (splits s)
  end.

(** The conversion loop of [Route.match] over [match.groupdict()]. *)
Fixpoint convert_groups (types : gmap string string) (groups : list (string * string))
    (acc : params) : option params :=
  match groups with
  | [] => Some acc
  | (n, value) :: rest =>
      let param_type := default "str" (types !! n) in
      let converter := default (fun s => Some (PStr s)) (TYPE_CONVERTERS param_type) in
      match converter value with
      | Some v => convert_groups types rest (<[n := v]> acc)
      | None => None
      end
  end.

(** [Route.match]. *)
Definition route_match (r : Route) (path : string) : option params :=
  match regex_match (_pattern r) path with
  | None => None
  | Some groups => convert_groups (_param_types r) groups ∅
  end.

(** *** The radix tree *)

(** [_RadixNode]. *)
Inductive node := Node {
  segment : string;
  children : gmap string node;
  param_child : option node;
  routes : list Route
}.

(** [_RadixNode(segment)]. *)
Definition new_node (segment : string) : node := Node segment ∅ None [].

(** [RadixTree._split]. *)
Definition _split (path : string) : list string :=
  List.filter Py.nonempty (Py.split "/" path).

(** [RadixTree._is_param]. *)
Definition _is_param (segment : string) : bool :=
  Py.startswith "{" segment && Py.endswith_char "}" segment.

(** The walk of [RadixTree.insert] from a node, along the segments. *)
Fixpoint insert_at (segments : list string) (route : Route) (n : node) : node :=
  match segments with
  | [] => Node (segment n) (children n) (param_child n) (routes n ++ [route])
  | seg :: rest =>
      if _is_param seg then
        let child := default (new_node seg) (param_child n) in
        Node (segment n) (children n) (Some (insert_at rest route child)) (routes n)
      else
        let child := default (new_node seg) (children n !! seg) in
        Node (segment n) (<[seg := insert_at rest route child]> (children n))
             (param_child n) (routes n)
  end.

(** [RadixTree.insert]; the tree is its root node. *)
Definition insert (route : Route) (root : node) : node :=
  insert_at (_split (path route)) route root.

(** What a lookup yields: a route with its parameters, or one of the two
    exceptions. *)
Inductive lookup :=
| Found (route : Route) (ps : params)
| NotFound
| MethodNotAllowed.

(** The [for route in node.routes] loop at a terminal node: a route that
    allows the method, or the updated [method_matched_route]. *)
Fixpoint scan_routes (method : string) (routes : list Route)
    (method_matched_route : option Route) : Route + option Route :=
  match routes with
  | [] => inr method_matched_route
  | route :: rest =>
      if bool_decide (method ∈ methods route) then inl route
      else scan_routes method rest
             (match method_matched_route with
              | Some r => Some r
              | None => Some route
              end)
  end.

(** The attempt on the parametric child: the stack entry that is pushed, if
    one is. *)
Definition try_param (n : node) (idx : nat) (ps : params) (seg_value : string)
    : option (node * nat * params) :=
  match param_child n with
  | None => None
  | Some pnode =>
      match placeholder (segment pnode) with
      | None => None
      | Some (pname, ty) =>
          let ptype := default "str" ty in
          let type_re := default fullmatch_str (TYPE_PATTERNS ptype) in
          if type_re seg_value then
            let converter := default (fun s => Some (PStr s)) (TYPE_CONVERTERS ptype) in
            match converter seg_value with
            | Some v => Some (pnode, S idx, <[pname := v]> ps)
            | None => None
            end
          else None
      end
  end.

(** The [while stack] loop of [RadixTree.search].  The head of the list is
    the top of the stack.  [fuel] bounds the number of iterations; [None]
    means that it ran out, or that [segments[idx]] was out of range. *)
Fixpoint search_loop (fuel : nat) (segments : list string) (method : string)
    (stack : list (node * nat * params)) (method_matched_route : option Route)
    : option lookup :=
  match fuel with
  | O => None
  | S fuel' =>
      match stack with
      | [] =>
          Some (match method_matched_route with
                | Some _ => MethodNotAllowed
                | None => NotFound
                end)
      | (n, idx, ps) :: stack' =>
          if (idx =? List.length segments)%nat then
            match scan_routes method (routes n) method_matched_route with
            | inl route => Some (Found route ps)
            | inr matched => search_loop fuel' segments method stack' matched
            end
          else
            match segments !! idx with
            | None => None
            | Some seg_value =>
                let stack1 :=
                  match try_param n idx ps seg_value with
                  | Some entry => entry :: stack'
                  | None => stack'
                  end in
                let stack2 :=
                  match children n !! seg_value with
                  | Some child => (child, S idx, ps) :: stack1
                  | None => stack1
                  end in
                search_loop fuel' segments method stack2 method_matched_route
            end
      end
  end.

(** Iterations that always suffice for a path of [n] segments: every entry
    is popped once, and an entry that is [k] segments from the end pushes at
    most two entries that are [k - 1] segments from it. *)
Definition enough_fuel (n : nat) : nat := 2 ^ (n + 2).

(** [RadixTree.search]. *)
Definition search (root : node) (path method : string) : option lookup :=
  let segments := _split path in
  search_loop (enough_fuel (List.length segments)) segments method [(root, O, ∅)] None.

(** *** The router *)

(** [Router]; an included router is held with the prefix it was included
    under. *)
Inductive Router :=
  mkRouter (_prefix : string) (_routes : list Route)
           (_subrouters : list (string * Router)) (_tree : node) (_tree_dirty : bool).

Definition _prefix (r : Router) : string := let '(mkRouter p _ _ _ _) := r in p.
Definition _routes (r : Router) : list Route := let '(mkRouter _ rs _ _ _) := r in rs.
Definition _subrouters (r : Router) : list (string * Router) :=
  let '(mkRouter _ _ ss _ _) := r in ss.
Definition _tree (r : Router) : node := let '(mkRouter _ _ _ t _) := r in t.
Definition _tree_dirty (r : Router) : bool := let '(mkRouter _ _ _ _ d) := r in d.

(** [Router(prefix)]. *)
Definition new_router (prefix : string) : Router :=
  mkRouter (Py.rstrip_char "/" prefix) [] [] (new_node "") false.

(** The routes of an included router, rebuilt under its prefix. *)
Fixpoint prefixed (prefix : string) (rs : list Route) : result (list Route) :=
  match rs with
  | [] => Ok []
  | route :: rest =>
      match make_route (prefix +:+ path route) (handler route) (methods route) (name route) with
      | Raise e => Raise e
      | Ok route' =>
          match prefixed prefix rest with
          | Raise e => Raise e
          | Ok rest' => Ok (route' :: rest')
          end
      end
  end.

(** The [routes] property: the router's own routes, then those of every
    included router. *)
Fixpoint all_routes (r : Router) : result (list Route) :=
  let '(mkRouter _ own subs _ _) := r in
  (fix go (subs : list (string * Router)) (acc : list Route) : result (list Route) :=
     match subs with
     | [] => Ok acc
     | (prefix, sub) :: rest =>
         match all_routes sub with
         | Raise e => Raise e
         | Ok rs =>
             match prefixed prefix rs with
             | Raise e => Raise e
             | Ok rs' => go rest (acc ++ rs')
             end
         end
     end) subs own.

(** [methods_set = set(m.upper() for m in (methods or ["GET"]))]; [None]
    when the upper case of a method has a character outside the range of the
    model. *)
Definition methods_set (methods : option (list string)) : option (gset string) :=
  match methods with
  | None | Some [] => Some {[ "GET" ]}
  | Some ms => list_to_set <$> mapM Py.upper ms
  end.

(** [Router.add_route]. *)
Definition add_route (r : Router) (path handler : string)
    (methods : option (list string)) (name : option string) : result Router :=
  let full_path := _prefix r +:+ path in
  match methods_set methods with
  | None => Raise Unmodelled
  | Some methods_set =>
      match make_route full_path handler methods_set name with
      | Raise e => Raise e
      | Ok route =>
          Ok (mkRouter (_prefix r) (_routes r ++ [route]) (_subrouters r)
                       (insert route (_tree r)) false)
      end
  end.

(** [Router.include_router]. *)
Definition include_router (r : Router) (sub : Router) (prefix : string) : Router :=
  mkRouter (_prefix r) (_routes r) (_subrouters r ++ [(_prefix r +:+ prefix, sub)])
           (_tree r) true.

(** The including router holds a reference to the router it included last,
    not a copy: a call that changes the included router afterwards changes
    what the last entry of [_subrouters] denotes, and nothing else of the
    including router.  [sub'] is the included router as that call leaves
    it. *)
Definition included_router_changed (r : Router) (sub' : Router) : Router :=
  mkRouter (_prefix r) (_routes r)
           (match reverse (_subrouters r) with
            | [] => []
            | (prefix, _) :: earlier => reverse earlier ++ [(prefix, sub')]
            end)
           (_tree r) (_tree_dirty r).

(** The tree that [_rebuild_tree] builds from a list of routes. *)
Definition tree_of (rs : list Route) : node :=
  foldl (fun t route => insert route t) (new_node "") rs.

(** [Router._rebuild_tree]. *)
Definition _rebuild_tree (r : Router) : result Router :=
  match all_routes r with
  | Raise e => Raise e
  | Ok rs => Ok (mkRouter (_prefix r) (_routes r) (_subrouters r) (tree_of rs) false)
  end.

(** [Router.match]: the lookup, and the router as the call leaves it.  A
    method whose upper case has a character outside the range of the model
    is not covered: [Unmodelled]. *)
Definition router_match (r : Router) (path method : string)
    : result (option lookup * Router) :=
  match (if _tree_dirty r then _rebuild_tree r else Ok r) with
  | Raise e => Raise e
  | Ok r' =>
      match Py.upper method with
      | None => Raise Unmodelled
      | Some method => Ok (search (_tree r') path method, r')
      end
  end.

(** *** The linear scan of the specification

    Written from the specification's words: the first registered route, in
    registration order, whose pattern matches the path and whose methods
    contain the method; failing that, method-not-allowed when some route
    matches the path, and not-found otherwise. *)
Fixpoint linear_scan (rs : list Route) (path method : string) (path_matched : bool)
    : lookup :=
  match rs with
  | [] => if path_matched then MethodNotAllowed else NotFound
  | route :: rest =>
      match route_match route path with
      | Some ps =>
          if bool_decide (method ∈ methods route) then Found route ps
          else linear_scan rest path method true
      | None => linear_scan rest path method path_matched
      end
  end.

End Routing.

(** ** The middleware stack ([thor.middleware.base]) *)

Module Stack.
Import Asgi.

(** The keyword options given with a middleware class. *)
Abbreviation options := (list (string * string)).

(** A middleware class, or a callable: from the next application and the
    keyword options to an application. *)
Abbreviation middleware_class := (App -> options -> App).

(** [MiddlewareStack]. *)
Record MiddlewareStack := mkStack {
  _app : App;
  _middleware : list middleware_class;
  _middleware_options : list options
}.

(** [MiddlewareStack(app)]. *)
Definition new (app : App) : MiddlewareStack := mkStack app [] [].

(** [MiddlewareStack.add]. *)
Definition add (s : MiddlewareStack) (cls : middleware_class) (opts : options)
    : MiddlewareStack :=
  mkStack (_app s) (_middleware s ++ [cls]) (_middleware_options s ++ [opts]).

(** One step of the loop of [build]: [middleware_class(app, **options)] if
    there are options, [middleware_class(app)] otherwise. *)
Definition wrap (app : App) (entry : middleware_class * options) : App :=
  match snd entry with
  | [] => fst entry app []
  | opts => fst entry app opts
  end.

(** [MiddlewareStack.build]: the loop over
    [zip(reversed(self._middleware), reversed(self._middleware_options))]. *)
Definition build (s : MiddlewareStack) : App :=
  foldl wrap (_app s) (zip (rev (_middleware s)) (rev (_middleware_options s))).

End Stack.

(** ** Sessions ([thor.session]) *)

Module Session.
Import Asgi CookieJar.

(** A value kept in a session: a text, or a dictionary of values. *)
Inductive value :=
| VStr (s : string)
| VDict (d : gmap string value).

(** The exceptions that the session methods raise. *)
Inductive error :=
| KeyError
| TypeError
| AttributeError.

(** [SessionData]. *)
Record SessionData := mkSessionData {
  data : gmap string value;
  created_at : Q;
  accessed_at : Q;
  modified : bool
}.

(** [SessionData()]: each of the two time fields takes its own reading of
    the clock. *)
Definition new_data (created accessed : Q) : SessionData :=
  mkSessionData ∅ created accessed false.

(** [Session.__getitem__]; [None] is [KeyError]. *)
Definition getitem (s : SessionData) (key : string) : option value := data s !! key.

(** [Session.__setitem__]. *)
Definition setitem (s : SessionData) (key : string) (v : value) : SessionData :=
  mkSessionData (<[key := v]> (data s)) (created_at s) (accessed_at s) true.

(** [Session.__delitem__]. *)
Definition delitem (s : SessionData) (key : string) : error + SessionData :=
  match data s !! key with
  | Some _ => inr (mkSessionData (delete key (data s)) (created_at s) (accessed_at s) true)
  | None => inl KeyError
  end.

(** [Session.is_new]. *)
Definition is_new (s : SessionData) : bool := Qeq_bool (created_at s) (accessed_at s).

(** [Session.clear]. *)
Definition clear (s : SessionData) : SessionData :=
  mkSessionData ∅ (created_at s) (accessed_at s) true.

(** [self._session_data.data.get("_flash", {})], when it is a dictionary. *)
Definition flash_data (s : SessionData) : option (gmap string value) :=
  match data s !! "_flash" with
  | None => Some ∅
  | Some (VDict d) => Some d
  | Some (VStr _) => None
  end.

(** [Session.flash]; item assignment on a text raises [TypeError]. *)
Definition flash (s : SessionData) (key : string) (v : value) : error + SessionData :=
  match flash_data s with
  | None => inl TypeError
  | Some fd =>
      inr (mkSessionData (<["_flash" := VDict (<[key := v]> fd)]> (data s))
                         (created_at s) (accessed_at s) true)
  end.

(** [Session.get_flash]; a text has no [pop]: [AttributeError]. *)
Definition get_flash (s : SessionData) (key : string) (dflt : option value)
    : error + (option value * SessionData) :=
  match flash_data s with
  | None => inl AttributeError
  | Some fd =>
      let v := match fd !! key with
               | Some x => Some x
               | None => dflt
               end in
      let fd' := delete key fd in
      let data' := if bool_decide (fd' = ∅) then delete "_flash" (data s)
                   else <["_flash" := VDict fd']> (data s) in
      inr (v, mkSessionData data' (created_at s) (accessed_at s) true)
  end.

(** [InMemorySessionBackend]: [session_id -> SessionData]. *)
Abbreviation backend := (gmap string SessionData).

(** [InMemorySessionBackend.load]; [now] is [time.time()].  The stored
    object itself gets the new access time. *)
Definition load (b : backend) (session_id : string) (now : Q)
    : option SessionData * backend :=
  match b !! session_id with
  | Some d =>
      let d' := mkSessionData (data d) (created_at d) now (modified d) in
      (Some d', <[session_id := d']> b)
  | None => (None, b)
  end.

(** [InMemorySessionBackend.save] and [delete]. *)
Definition save (b : backend) (session_id : string) (d : SessionData) : backend :=
  <[session_id := d]> b.

Definition delete_session (b : backend) (session_id : string) : backend :=
  delete session_id b.

(** [current_time - data.accessed_at > max_age]. *)
Definition idle (now : Q) (max_age : Z) (d : SessionData) : bool :=
  negb (Qle_bool (now - accessed_at d) (inject_Z max_age)).

(** [InMemorySessionBackend.cleanup]: the expired ids are listed, then
    deleted one by one. *)
Definition cleanup (b : backend) (max_age : Z) (now : Q) : backend :=
  let expired :=
    map fst (List.filter (fun item => idle now max_age (snd item)) (map_to_list b)) in
  foldl (fun b sid => delete sid b) b expired.

(** [SessionMiddleware], without the backend, which is passed along. *)
Record SessionMiddleware := mkSessionMiddleware {
  app : App;
  secret_key : string;
  cookie_name : string;
  max_age : Z;
  cookie_options : CookieOptions;
  _secure_cookie : Codec.SecureCookie
}.

(** [SessionMiddleware.__init__]. *)
Definition init (app : App) (secret_key cookie_name : string) (max_age : Z)
    (cookie_options : option CookieOptions) : result SessionMiddleware :=
  match Codec.init secret_key with
  | Raise e => Raise e
  | Ok codec =>
      Ok (mkSessionMiddleware app secret_key cookie_name max_age
            (default (mkCookieOptions (Some max_age) None "/" None true true "lax")
                     cookie_options)
            codec)
  end.

Section WithLibrary.
Context {V : Type} (lib : Codec.Library V).

(** [_get_session_id]; [now] is the [time.time()] of [unsign]. *)
Definition _get_session_id (mw : SessionMiddleware) (request : Req.Request) (now : Q)
    : result (option string) :=
  let signed_id := Req.get_cookie request (cookie_name mw) in
  if Py.truthy signed_id
  then Codec.unsign lib (_secure_cookie mw) now (default "" signed_id) (Some (max_age mw))
  else Ok None.

(** The first part of [SessionMiddleware.process]: the session that the
    request gets.  [now] is the clock reading of [unsign], [loaded] that of
    [load], [created] and [accessed] those of [SessionData()], and [fresh]
    the value of [secrets.token_urlsafe(32)]. *)
Definition open_session (mw : SessionMiddleware) (b : backend) (scope : Scope)
    (receive : list Req.recv_msg) (now loaded created accessed : Q) (fresh : string)
    : result (string * SessionData * backend) :=
  let request := Req.new scope receive Req.DEFAULT_MAX_BODY_SIZE in
  match _get_session_id mw request now with
  | Raise e => Raise e
  | Ok session_id =>
      let '(session_data, b') :=
        if Py.truthy session_id then load b (default "" session_id) loaded
        else (None, b) in
      Ok match session_data with
         | Some d => (default "" session_id, d, b')
         | None => (fresh, new_data created accessed, b')
         end
  end.

(** [send_with_session] on a start message: the session is saved if it was
    modified, and the cookie with the signed id is appended; [now] is the
    [int(time.time())] of [sign]. *)
Definition send_with_session (mw : SessionMiddleware) (b : backend)
    (session_id : string) (session : SessionData) (now : Z) (m : message)
    : option (message * backend) :=
  match m with
  | Start st hs =>
      let b' := if modified session then save b session_id session else b in
      signed_id ← Codec.sign lib (_secure_cookie mw) now session_id;
      Some (Start st (hs ++ [("set-cookie",
                              format_set_cookie (cookie_name mw) signed_id
                                                (Some (cookie_options mw)))]),
            b')
  | Body body => Some (Body body, b)
  end.

End WithLibrary.

End Session.

(** ** CORS middleware ([thor.middleware.cors]) *)

Module Cors.
Import Asgi.

(** [CORSMiddleware]; the compiled [allow_origin_regex] is held as its
    full-match test. *)
Record CORSMiddleware := mkCORS {
  app : App;
  allow_origins : list string;
  allow_methods : list string;
  allow_headers : list string;
  allow_credentials : bool;
  expose_headers : list string;
  max_age : Z;
  _origin_regex : option (string -> bool);
  _wildcard_origins : list string;
  _allow_all : bool
}.

(** [x or dflt] for a list argument that may be [None]. *)
Definition or_list (x : option (list string)) (dflt : list string) : list string :=
  match x with
  | None | Some [] => dflt
  | Some l => l
  end.

(** [o[1:]]. *)
Definition tail (o : string) : string :=
  match o with
  | EmptyString => EmptyString
  | String _ r => r
  end.

(** [s.endswith(suffix)]. *)
Fixpoint endswith (suffix s : string) : bool :=
  String.eqb suffix s
  || match s with
     | EmptyString => false
     | String _ r => endswith suffix r
     end.

(** [CORSMiddleware.__init__]; [compile] is [re.compile], [None] when it
    raises. *)
Definition init (compile : string -> option (string -> bool)) (app : App)
    (allow_origins allow_methods allow_headers : option (list string))
    (allow_credentials : bool) (expose_headers : option (list string)) (max_age : Z)
    (allow_origin_regex : option string) : result CORSMiddleware :=
  let allow_origins := default ["*"] allow_origins in
  let allow_methods :=
    or_list allow_methods ["GET"; "POST"; "PUT"; "DELETE"; "OPTIONS"; "PATCH"] in
  let allow_headers := or_list allow_headers ["*"] in
  let expose_headers := or_list expose_headers [] in
  match (if Py.truthy allow_origin_regex
         then match compile (default "" allow_origin_regex) with
              | Some f => Ok (Some f)
              | None => Raise RegexError
              end
         else Ok None) with
  | Raise e => Raise e
  | Ok origin_regex =>
      let wildcard_origins :=
        map tail (List.filter (fun o => Py.startswith "*." o && (Py.len o >? 2))
                              allow_origins) in
      let allow_all :=
        bool_decide ("*" ∈ allow_origins) && bool_decide (wildcard_origins = []) in
      if allow_credentials && allow_all && negb (bool_decide (is_Some origin_regex))
      then Raise ValueError
      else Ok (mkCORS app allow_origins allow_methods allow_headers allow_credentials
                      expose_headers max_age origin_regex wildcard_origins allow_all)
  end.

(** [_is_origin_allowed]. *)
Definition _is_origin_allowed (mw : CORSMiddleware) (origin : string) : bool :=
  _allow_all mw
  || bool_decide (origin ∈ allow_origins mw)
  || existsb (fun suffix => endswith suffix origin) (_wildcard_origins mw)
  || match _origin_regex mw with
     | Some fullmatch => fullmatch origin
     | None => false
     end.

(** [_get_cors_headers]. *)
Definition _get_cors_headers (mw : CORSMiddleware) (origin : option string)
    : list (string * string) :=
  (if _allow_all mw && negb (allow_credentials mw)
   then [("access-control-allow-origin", "*")]
   else if Py.truthy origin && _is_origin_allowed mw (default "" origin)
        then [("access-control-allow-origin", Py.utf8_encode (default "" origin));
              ("vary", "Origin")]
        else [])
  ++ (if allow_credentials mw then [("access-control-allow-credentials", "true")] else [])
  ++ (match expose_headers mw with
      | [] => []
      | hs => [("access-control-expose-headers", Py.join ", " hs)]
      end).

(** [_send_preflight_response]. *)
Definition _send_preflight_response (mw : CORSMiddleware) (origin : option string)
    : list message :=
  [Start 204 (_get_cors_headers mw origin
              ++ [("access-control-allow-methods", Py.join ", " (allow_methods mw));
                  ("access-control-allow-headers", Py.join ", " (allow_headers mw));
                  ("access-control-max-age", Py.str_of_Z (max_age mw))]);
   Body (RawBytes "")].

(** [send_with_cors]. *)
Definition send_with_cors (mw : CORSMiddleware) (origin : option string) (m : message)
    : message :=
  match m with
  | Start st hs => Start st (hs ++ _get_cors_headers mw origin)
  | Body b => Body b
  end.

(** [CORSMiddleware.process]. *)
Definition process (mw : CORSMiddleware) (scope : Scope) (receive : list Req.recv_msg)
    : outcome :=
  let request := Req.new scope receive Req.DEFAULT_MAX_BODY_SIZE in
  let origin := Req.get_header request "origin" in
  if String.eqb (Req.method request) "OPTIONS"
  then Responded (_send_preflight_response mw origin)
  else Forwarded scope (map (send_with_cors mw origin) (app mw scope)).

End Cors.

(** ** In-flight requests ([thor.lifespan], [thor.app]) *)

Module Tracking.
Import Asgi Lifespan.

(** The request counters of [LifespanProtocolHandler]: [_inflight], and
    whether the event [_inflight_zero] is set. *)
Record counters := mkCounters {
  inflight : Z;
  inflight_zero : bool
}.

(** As [LifespanProtocolHandler.__init__] leaves them. *)
Definition initial : counters := mkCounters 0 true.

(** [LifespanProtocolHandler.__call__] for a scope that is not a lifespan
    scope: what runs before the application is awaited. *)
Definition enter_request (c : counters) : counters :=
  mkCounters (inflight c + 1) false.

(** The [finally] block of the same call. *)
Definition leave_request (c : counters) : counters :=
  let n := inflight c - 1 in
  mkCounters n (if n =? 0 then true else inflight_zero c).

(** [DEFAULT_SHUTDOWN_TIMEOUT]. *)
Definition DEFAULT_SHUTDOWN_TIMEOUT : Q := 30.

(** [LifespanProtocolHandler(app, lifespan)]. *)
Definition new_handler (lifespan : Lifespan) (shutdown_timeout : Q)
    : LifespanProtocolHandler :=
  mkHandler lifespan shutdown_timeout 0 false.

(** [Thor.__call__] for a lifespan scope: a protocol handler is built for
    the call and run; requests of other scope types go to the middleware
    stack, not through a protocol handler. *)
Definition thor_lifespan (lifespan : Lifespan) (in_time : bool)
    (messages : list incoming) : list event :=
  _handle_lifespan (new_handler lifespan DEFAULT_SHUTDOWN_TIMEOUT) in_time messages.

End Tracking.

(** ** Request dispatch and error responses ([thor.app],
    [thor.middleware.error_handler], [thor.exceptions]) *)

Module Dispatch.
Import Asgi Routing.

(** [HTTPException]: status code, detail and headers. *)
Record HTTPException := mkHTTPException {
  exc_status_code : Z;
  exc_detail : string;
  exc_headers : list (string * string)
}.

(** [NotFound(detail)] and [MethodNotAllowed(detail)]. *)
Definition NotFound (detail : string) : HTTPException := mkHTTPException 404 detail [].
Definition MethodNotAllowed (detail : string) : HTTPException :=
  mkHTTPException 405 detail [].

(** An exception that ends a call: an [HTTPException]; any other
    [Exception], with its text; or an exception outside [Exception]
    ([asyncio.CancelledError], [KeyboardInterrupt], [SystemExit],
    [GeneratorExit]), with its name. *)
Inductive raised :=
| RaisedHTTP (e : HTTPException)
| RaisedOther (text : string)
| RaisedBase (name : string).

(** What a route handler returns: a [Response] instance, given by the
    messages that sending it produces, another value, or [None]. *)
Inductive returned :=
| RetResponse (msgs : list message)
| RetValue (v : json)
| RetNone.

(** The route handlers, by name: what the handler returns or raises for a
    scope and path parameters. *)
Abbreviation handlers := (string -> Scope -> params -> returned + raised).

(** [TextResponse(content, status_code)], as the messages it sends. *)
Definition text_response (content : string) (status : Z) : list message :=
  [Start status [("content-type", "text/plain; charset=utf-8")];
   Body (RawBytes (Py.utf8_encode content))].

(** The conversion of a handler's return value in [_handle_request], and
    the sending of the response. *)
Definition send_returned (ret : returned) : list message :=
  match ret with
  | RetResponse msgs => msgs
  | RetValue (JStr s) => text_response s 200
  | RetValue v => respond (mkJSONResponse v 200 [] [])
  | RetNone => text_response "" 204
  end.

(** [Thor._handle_request]: the messages sent, the exception that ended
    the call if one did, and the router as the lookup leaves it.  The lookup
    is made with the upper-cased method, which is also the method named in
    the 405 detail (it exists when the lookup has been made).  A lookup
    without result stands for a search loop that has used up its fuel, which
    [search_terms] shows does not happen. *)
Definition _handle_request (router : Router) (hs : handlers) (scope : Scope)
    : list message * option raised * Router :=
  let path := default "/" (sc_path scope) in
  let method := default "GET" (sc_method scope) in
  let upper_method := default method (Py.upper method) in
  match router_match router path method with
  | Raise _ => ([], Some (RaisedOther "routing"), router)
  | Ok (None, router') => ([], Some (RaisedOther "lookup"), router')
  | Ok (Some Routing.NotFound, router') =>
      ([], Some (RaisedHTTP (NotFound ("No route found for " +:+ path))), router')
  | Ok (Some Routing.MethodNotAllowed, router') =>
      ([], Some (RaisedHTTP (MethodNotAllowed
                               ("Method " +:+ upper_method +:+ " not allowed for "
                                +:+ path))), router')
  | Ok (Some (Found route ps), router') =>
      match hs (handler route) scope ps with
      | inl ret => (send_returned ret, None, router')
      | inr e => ([], Some e, router')
      end
  end.

(** [send_with_request_id]. *)
Definition send_with_request_id (request_id : string) (m : message) : message :=
  match m with
  | Start st headers => Start st (headers ++ [("x-request-id", request_id)])
  | Body b => Body b
  end.

(** The error response of [ErrorHandlerMiddleware]: the one of the
    [except HTTPException] clause, and the one of the [except Exception]
    clause. *)
Definition http_error_response (request_id : string) (exc : HTTPException)
    : JSONResponse :=
  mkJSONResponse (JDict [("error", JStr (exc_detail exc));
                         ("status_code", JInt (exc_status_code exc));
                         ("request_id", JStr request_id)])
                 (exc_status_code exc) (exc_headers exc) [].

Definition internal_error_response (request_id : string) : JSONResponse :=
  mkJSONResponse (JDict [("error", JStr "Internal Server Error");
                         ("status_code", JInt 500);
                         ("request_id", JStr request_id)])
                 500 [] [].

(** [ErrorHandlerMiddleware.process] around an application that has sent
    [msgs] and ended with [failure]; [request_id] is [str(uuid.uuid4())].
    The messages sent, and the exception that leaves [process]: one that
    neither [except] clause catches. *)
Definition error_handler (request_id : string) (msgs : list message)
    (failure : option raised) : list message * option raised :=
  let sent := map (send_with_request_id request_id) msgs in
  match failure with
  | None => (sent, None)
  | Some (RaisedHTTP exc) =>
      (sent ++ map (send_with_request_id request_id)
                   (respond (http_error_response request_id exc)), None)
  | Some (RaisedOther _) =>
      (sent ++ map (send_with_request_id request_id)
                   (respond (internal_error_response request_id)), None)
  | Some (RaisedBase name) => (sent, Some (RaisedBase name))
  end.

(** [Thor.__call__] for a scope that is neither a lifespan scope nor a
    WebSocket scope, on an application with its default middleware stack:
    [Middleware.__call__] hands a scope whose type is not ["http"] straight
    to [_handle_request]. *)
Definition thor_call (router : Router) (hs : handlers) (scope : Scope)
    (request_id : string) : list message * option raised * Router :=
  let '(msgs, failure, router') := _handle_request router hs scope in
  if String.eqb (sc_type scope) "http"
  then let '(sent, escaped) := error_handler request_id msgs failure in
       (sent, escaped, router')
  else (msgs, failure, router').

End Dispatch.

(** ** Responses ([thor.response]) *)

Module Resp.
Import Asgi CookieJar.

(** [Response]: the class attributes [media_type] and [charset] and the
    instance attributes; the rendered body stands for [_content]. *)
Record Response := mkResponse {
  media_type : string;
  charset : string;
  status_code : Z;
  _headers : list (string * string);
  _cookies : list string;
  body : payload
}.

(** [Response.content_type]. *)
Definition content_type (r : Response) : string :=
  if Py.startswith "text/" (media_type r) || Py.contains "json" (media_type r)
  then media_type r +:+ "; charset=" +:+ charset r
  else media_type r.

(** [d[name] = value] on a dictionary kept in insertion order. *)
Fixpoint dict_set (d : list (string * string)) (name value : string)
    : list (string * string) :=
  match d with
  | [] => [(name, value)]
  | (n, v) :: rest =>
      if String.eqb n name then (n, value) :: rest else (n, v) :: dict_set rest name value
  end.

(** [Response.set_header]. *)
Definition set_header (r : Response) (name value : string) : Response :=
  mkResponse (media_type r) (charset r) (status_code r) (dict_set (_headers r) name value)
             (_cookies r) (body r).

(** [Response.set_cookie]. *)
Definition set_cookie (r : Response) (name value : string)
    (options : option CookieOptions) : Response :=
  mkResponse (media_type r) (charset r) (status_code r) (_headers r)
             (_cookies r ++ [format_set_cookie name value options]) (body r).

(** [Response.delete_cookie]. *)
Definition delete_cookie (r : Response) (name path : string) (domain : option string)
    : Response :=
  set_cookie r name ""
    (Some (mkCookieOptions (Some 0) (Some "Thu, 01 Jan 1970 00:00:00 GMT") path domain
                           true true "lax")).

(** [Response._build_headers]. *)
Definition _build_headers (r : Response) : list (string * string) :=
  [("content-type", content_type r)]
  ++ map (fun nv => (Py.lower (fst nv), snd nv)) (_headers r)
  ++ map (fun c => ("set-cookie", c)) (_cookies r).

(** [Response.__call__]. *)
Definition call (r : Response) : list message :=
  [Start (status_code r) (_build_headers r); Body (body r)].

End Resp.


(** * Properties *)

(** ** Floats *)

Module FloatProps.
Import Py.

Lemma rne_le a b k : 0 < b -> a <= k * b -> rne a b <= k.
Proof.
  intros Hb H. unfold rne.
  pose proof (Z.div_mod a b ltac:(lia)) as Hdm.
  pose proof (Z.mod_pos_bound a b Hb) as Hr.
  destruct (2 * (a mod b) <? b) eqn:E1; [nia |].
  apply Z.ltb_ge in E1.
  assert (a / b + 1 <= k) by nia.
  destruct (b <? 2 * (a mod b)); [lia |].
  destruct (Z.even (a / b)); lia.
Qed.

Lemma rne_ge a b k : 0 < b -> k * b <= a -> k <= rne a b.
Proof.
  intros Hb H. unfold rne.
  pose proof (Z.div_mod a b ltac:(lia)) as Hdm.
  pose proof (Z.mod_pos_bound a b Hb) as Hr.
  assert (k <= a / b) by nia.
  destruct (2 * (a mod b) <? b); [lia |].
  destruct (b <? 2 * (a mod b)); [lia |].
  destruct (Z.even (a / b)); lia.
Qed.

Lemma rne_exact b k : 0 < b -> rne (k * b) b = k.
Proof.
  intros Hb. apply Z.le_antisymm; [apply rne_le | apply rne_ge]; lia.
Qed.

Lemma pow2_max_pos e : 0 < 2 ^ Z.max e 0.
Proof. apply Z.pow_pos_nonneg; lia. Qed.

(** 2^e <= p/q *)
Lemma ilog2_lower p q :
  0 < p -> 0 < q ->
  q * 2 ^ Z.max (ilog2 p q) 0 <= p * 2 ^ Z.max (- ilog2 p q) 0.
Proof.
  intros Hp Hq. unfold ilog2.
  set (a := Z.log2 p). set (b := Z.log2 q).
  destruct (Z.leb_spec (q * 2 ^ Z.max (a - b) 0) (p * 2 ^ Z.max (- (a - b)) 0)) as [H | H];
    [exact H |].
  pose proof (Z.log2_spec p Hp) as [Hp1 Hp2]. fold a in Hp1, Hp2.
  pose proof (Z.log2_spec q Hq) as [Hq1 Hq2]. fold b in Hq1, Hq2.
  pose proof (Z.log2_nonneg p). pose proof (Z.log2_nonneg q). fold a in H0. fold b in H1.
  destruct (Z.le_gt_cases 1 (a - b)) as [Hge | Hlt].
  - replace (Z.max (a - b - 1) 0) with (a - b - 1) by lia.
    replace (Z.max (- (a - b - 1)) 0) with 0 by lia.
    rewrite Z.pow_0_r, Z.mul_1_r.
    assert (2 ^ a = 2 ^ Z.succ b * 2 ^ (a - b - 1)).
    { rewrite <- Z.pow_add_r by lia. f_equal. lia. }
    pose proof (Z.pow_pos_nonneg 2 (a - b - 1) ltac:(lia) ltac:(lia)). nia.
  - replace (Z.max (a - b - 1) 0) with 0 by lia.
    replace (Z.max (- (a - b - 1)) 0) with (b + 1 - a) by lia.
    rewrite Z.pow_0_r, Z.mul_1_r.
    assert (2 ^ Z.succ b = 2 ^ a * 2 ^ (b + 1 - a)).
    { rewrite <- Z.pow_add_r by lia. f_equal. lia. }
    pose proof (Z.pow_pos_nonneg 2 (b + 1 - a) ltac:(lia) ltac:(lia)). nia.
Qed.

(** p/q < 2^(e+1) *)
Lemma ilog2_upper p q :
  0 < p -> 0 < q ->
  p * 2 ^ Z.max (- (ilog2 p q + 1)) 0 < q * 2 ^ Z.max (ilog2 p q + 1) 0.
Proof.
  intros Hp Hq. unfold ilog2.
  set (a := Z.log2 p). set (b := Z.log2 q).
  pose proof (Z.log2_spec p Hp) as [Hp1 Hp2]. fold a in Hp1, Hp2.
  pose proof (Z.log2_spec q Hq) as [Hq1 Hq2]. fold b in Hq1, Hq2.
  pose proof (Z.log2_nonneg p). pose proof (Z.log2_nonneg q). fold a in H. fold b in H0.
  destruct (Z.leb_spec (q * 2 ^ Z.max (a - b) 0) (p * 2 ^ Z.max (- (a - b)) 0)) as [Ht | Ht].
  - destruct (Z.le_gt_cases 0 (a - b + 1)) as [Hge | Hlt].
    + replace (Z.max (- (a - b + 1)) 0) with 0 by lia.
      replace (Z.max (a - b + 1) 0) with (a - b + 1) by lia.
      rewrite Z.pow_0_r, Z.mul_1_r.
      assert (2 ^ Z.succ a = 2 ^ b * 2 ^ (a - b + 1)).
      { rewrite <- Z.pow_add_r by lia. f_equal. lia. }
      pose proof (Z.pow_pos_nonneg 2 (a - b + 1) ltac:(lia) ltac:(lia)). nia.
    + replace (Z.max (- (a - b + 1)) 0) with (b - a - 1) by lia.
      replace (Z.max (a - b + 1) 0) with 0 by lia.
      rewrite Z.pow_0_r, Z.mul_1_r.
      assert (2 ^ b = 2 ^ Z.succ a * 2 ^ (b - a - 1)).
      { rewrite <- Z.pow_add_r by lia. f_equal. lia. }
      pose proof (Z.pow_pos_nonneg 2 (b - a - 1) ltac:(lia) ltac:(lia)). nia.
  - replace (a - b - 1 + 1) with (a - b) by lia. exact Ht.
Qed.

Lemma ulp_cases p q :
  let u := ulp_exponent p q in
  (u <= 0 /\ Z.max u 0 = 0 /\ Z.max (- u) 0 = - u /\ - u <= 1074)
  \/ (0 < u /\ Z.max u 0 = u /\ Z.max (- u) 0 = 0 /\ ilog2 p q = u + 52).
Proof. unfold ulp_exponent. lia. Qed.

Lemma Qle_make a b k : 0 < b -> (a <= k * b)%Z -> (Qmake a (Z.to_pos b) <= inject_Z k)%Q.
Proof. intros Hb H. unfold Qle. simpl. rewrite Z2Pos.id by exact Hb. lia. Qed.

Lemma Qge_make a b k : 0 < b -> (k * b <= a)%Z -> (inject_Z k <= Qmake a (Z.to_pos b))%Q.
Proof. intros Hb H. unfold Qle. simpl. rewrite Z2Pos.id by exact Hb. lia. Qed.

Lemma round_pos_le p q k :
  0 < p -> 0 < q -> p <= k * q -> k < 2 ^ 53 -> (round_pos p q <= inject_Z k)%Q.
Proof.
  intros Hp Hq H Hk. unfold round_pos.
  destruct (ulp_cases p q) as [(Hu & HA & HB & _) | (Hu & HA & HB & He)];
    set (u := ulp_exponent p q) in *; rewrite HA, HB.
  - rewrite Z.pow_0_r, !Z.mul_1_r.
    pose proof (Z.pow_pos_nonneg 2 (- u) ltac:(lia) ltac:(lia)) as Hpow.
    apply Qle_make; [exact Hpow |].
    apply rne_le; [exact Hq | nia].
  - exfalso. pose proof (ilog2_lower p q Hp Hq) as Hlow. rewrite He in Hlow.
    replace (Z.max (u + 52) 0) with (u + 52) in Hlow by lia.
    replace (Z.max (- (u + 52)) 0) with 0 in Hlow by lia.
    rewrite Z.pow_0_r, Z.mul_1_r in Hlow.
    assert (2 ^ 53 <= 2 ^ (u + 52)) by (apply Z.pow_le_mono_r; lia).
    nia.
Qed.

Lemma round_pos_ge p q k :
  0 < p -> 0 < q -> k * q <= p -> k < 2 ^ 53 -> (inject_Z k <= round_pos p q)%Q.
Proof.
  intros Hp Hq H Hk. unfold round_pos.
  destruct (ulp_cases p q) as [(Hu & HA & HB & _) | (Hu & HA & HB & He)];
    set (u := ulp_exponent p q) in *; rewrite HA, HB.
  - rewrite Z.pow_0_r, !Z.mul_1_r.
    pose proof (Z.pow_pos_nonneg 2 (- u) ltac:(lia) ltac:(lia)) as Hpow.
    apply Qge_make; [exact Hpow |].
    apply rne_ge; [exact Hq | nia].
  - rewrite Z.pow_0_r, !Z.mul_1_r.
    change (Z.to_pos 1) with 1%positive.
    pose proof (ilog2_lower p q Hp Hq) as Hlow. rewrite He in Hlow.
    replace (Z.max (u + 52) 0) with (u + 52) in Hlow by lia.
    replace (Z.max (- (u + 52)) 0) with 0 in Hlow by lia.
    rewrite Z.pow_0_r, Z.mul_1_r in Hlow.
    rewrite Z.pow_add_r in Hlow by lia.
    pose proof (Z.pow_pos_nonneg 2 u ltac:(lia) ltac:(lia)) as Hpow.
    assert (Hn : 2 ^ 52 <= rne p (q * 2 ^ u)).
    { apply rne_ge; [nia | nia]. }
    assert (2 <= 2 ^ u).
    { change 2 with (2 ^ 1) at 1. apply Z.pow_le_mono_r; lia. }
    unfold Qle. simpl. change (2 ^ 53) with (2 ^ 52 * 2) in Hk. nia.
Qed.

Lemma round_pos_nonneg p q : 0 < p -> 0 < q -> (0 <= round_pos p q)%Q.
Proof.
  intros Hp Hq. apply (round_pos_ge p q 0 Hp Hq); [lia | reflexivity].
Qed.

(** Rounding does not cross an integer below 2^53 in magnitude. *)
Lemma round64_le_int x k :
  - 2 ^ 53 < k < 2 ^ 53 -> (x <= inject_Z k)%Q -> (round64 x <= inject_Z k)%Q.
Proof.
  intros Hk H. destruct x as [n d]. unfold round64. cbn [Qnum Qden].
  unfold Qle in H. cbn [Qnum Qden inject_Z] in H. rewrite Z.mul_1_r in H.
  destruct n as [| p | p].
  - unfold Qle. simpl. lia.
  - apply round_pos_le; lia.
  - destruct (Z.le_gt_cases 0 k) as [Hk0 | Hk0].
    + apply Qle_trans with 0%Q.
      * apply (Qopp_le_compat 0), round_pos_nonneg; lia.
      * unfold Qle. simpl. lia.
    + rewrite <- (Qopp_involutive (inject_Z k)). apply Qopp_le_compat.
      change (- inject_Z k)%Q with (inject_Z (- k)).
      apply round_pos_ge; lia.
Qed.

Lemma round64_ge_int x k :
  - 2 ^ 53 < k < 2 ^ 53 -> (inject_Z k <= x)%Q -> (inject_Z k <= round64 x)%Q.
Proof.
  intros Hk H. destruct x as [n d]. unfold round64. cbn [Qnum Qden].
  unfold Qle in H. cbn [Qnum Qden inject_Z] in H. rewrite Z.mul_1_r in H.
  destruct n as [| p | p].
  - unfold Qle. simpl. lia.
  - apply round_pos_ge; lia.
  - rewrite <- (Qopp_involutive (inject_Z k)). apply Qopp_le_compat.
    change (- inject_Z k)%Q with (inject_Z (- k)).
    apply round_pos_le; lia.
Qed.

Lemma round64_int k : - 2 ^ 53 < k < 2 ^ 53 -> (round64 (inject_Z k) == inject_Z k)%Q.
Proof.
  intros Hk. apply Qle_antisym; [apply round64_le_int | apply round64_ge_int];
    try exact Hk; apply Qle_refl.
Qed.

Lemma pow2_lt_inv a b : 0 <= a -> 0 <= b -> 2 ^ a < 2 ^ b -> a < b.
Proof.
  intros Ha Hb H. destruct (Z.lt_ge_cases a b) as [| Hge]; [assumption |].
  pose proof (Z.pow_le_mono_r 2 b a ltac:(lia) Hge). lia.
Qed.

(** A number [M / 2^s] with fewer than 54 significant bits and [s <= 1074]
    is a double: rounding leaves it as it is. *)
Lemma round_pos_dyadic p q M s :
  0 < p -> 0 < q -> 0 <= s <= 1074 -> 0 < M < 2 ^ 53 -> p * 2 ^ s = M * q ->
  (round_pos p q == Qmake M (Z.to_pos (2 ^ s)))%Q.
Proof.
  intros Hp Hq Hs HM Heq.
  pose proof (Z.pow_pos_nonneg 2 s ltac:(lia) ltac:(lia)) as Hps.
  assert (He : ilog2 p q + s < 53).
  { pose proof (ilog2_lower p q Hp Hq) as Hlow.
    set (e := ilog2 p q) in *.
    pose proof (pow2_max_pos e) as H1. pose proof (pow2_max_pos (- e)) as H2.
    assert (H3 : 2 ^ (Z.max e 0 + s) < 2 ^ (53 + Z.max (- e) 0)).
    { rewrite !Z.pow_add_r by lia.
      assert (q * (2 ^ Z.max e 0 * 2 ^ s) <= q * (M * 2 ^ Z.max (- e) 0)) by nia.
      assert (2 ^ Z.max e 0 * 2 ^ s <= M * 2 ^ Z.max (- e) 0) by nia.
      nia. }
    apply pow2_lt_inv in H3; lia. }
  unfold round_pos.
  destruct (ulp_cases p q) as [(Hu & HA & HB & HB') | (Hu & HA & HB & He')];
    set (u := ulp_exponent p q) in *; [| lia].
  rewrite HA, HB. rewrite Z.pow_0_r, !Z.mul_1_r.
  assert (Hus : s <= - u) by (unfold u, ulp_exponent; lia).
  pose proof (Z.pow_pos_nonneg 2 (- u) ltac:(lia) ltac:(lia)) as Hpu.
  pose proof (Z.pow_pos_nonneg 2 (- u - s) ltac:(lia) ltac:(lia)) as Hpd.
  assert (Hsplit : 2 ^ (- u) = 2 ^ s * 2 ^ (- u - s)).
  { rewrite <- Z.pow_add_r by lia. f_equal. lia. }
  assert (Hn : rne (p * 2 ^ (- u)) q = M * 2 ^ (- u - s)).
  { replace (p * 2 ^ (- u)) with (M * 2 ^ (- u - s) * q) by (rewrite Hsplit; nia).
    apply rne_exact, Hq. }
  rewrite Hn. unfold Qeq. cbn [Qnum Qden]. rewrite !Z2Pos.id by assumption.
  rewrite Hsplit. ring.
Qed.

Lemma round64_dyadic x M s :
  0 <= s <= 1074 -> - 2 ^ 53 < M < 2 ^ 53 ->
  (x == Qmake M (Z.to_pos (2 ^ s)))%Q -> (round64 x == x)%Q.
Proof.
  intros Hs HM Hx.
  pose proof (Z.pow_pos_nonneg 2 s ltac:(lia) ltac:(lia)) as Hps.
  rewrite Hx at 2. destruct x as [n d]. unfold round64. cbn [Qnum Qden].
  unfold Qeq in Hx. cbn [Qnum Qden] in Hx. rewrite Z2Pos.id in Hx by exact Hps.
  destruct n as [| p | p].
  - unfold Qeq. cbn [Qnum Qden]. nia.
  - apply round_pos_dyadic; [lia | lia | exact Hs | nia | exact Hx].
  - assert (Hneg : (Qmake M (Z.to_pos (2 ^ s)) == - Qmake (- M) (Z.to_pos (2 ^ s)))%Q).
    { unfold Qeq, Qopp. cbn [Qnum Qden]. ring. }
    rewrite Hneg. apply Qopp_comp.
    apply round_pos_dyadic; [lia | lia | exact Hs | nia | nia].
Qed.

(** The difference between a double below 2^53 and a smaller natural number
    has fewer than 54 significant bits. *)
Lemma sub_int_dyadic now ts :
  is_double now = true -> 0 <= ts -> (inject_Z ts <= now)%Q -> (now < inject_Z (2 ^ 53))%Q ->
  exists M s,
    0 <= s <= 1074 /\ - 2 ^ 53 < M < 2 ^ 53
    /\ (now - inject_Z ts == Qmake M (Z.to_pos (2 ^ s)))%Q.
Proof.
  unfold is_double. intros Hd Hts Hle Hlt. apply Qeq_bool_iff in Hd.
  destruct now as [n d].
  unfold Qle in Hle. cbn [Qnum Qden inject_Z] in Hle. rewrite Z.mul_1_r in Hle.
  unfold Qlt in Hlt. cbn [Qnum Qden inject_Z] in Hlt. rewrite Z.mul_1_r in Hlt.
  unfold round64 in Hd. cbn [Qnum Qden] in Hd.
  destruct n as [| p | p]; [| | lia].
  - exists 0, 0. split; [lia |]. split; [lia |].
    unfold Qeq, Qminus, Qplus, Qopp. cbn [Qnum Qden inject_Z]. nia.
  - unfold round_pos in Hd.
    pose proof (ilog2_upper (Z.pos p) (Z.pos d) ltac:(lia) ltac:(lia)) as Hup.
    destruct (ulp_cases (Z.pos p) (Z.pos d)) as [(Hu & HA & HB & HB') | (Hu & HA & HB & He)];
      set (u := ulp_exponent (Z.pos p) (Z.pos d)) in *; rewrite HA, HB in Hd.
    + rewrite Z.pow_0_r, !Z.mul_1_r in Hd.
      set (m := rne (Z.pos p * 2 ^ (- u)) (Z.pos d)) in *.
      pose proof (Z.pow_pos_nonneg 2 (- u) ltac:(lia) ltac:(lia)) as Hpu.
      unfold Qeq in Hd. cbn [Qnum Qden] in Hd. rewrite Z2Pos.id in Hd by exact Hpu.
      assert (Hm : m < 2 ^ 53).
      { assert (Hf : ilog2 (Z.pos p) (Z.pos d) + 1 <= 53 + u)
          by (unfold u, ulp_exponent; lia).
        set (f := ilog2 (Z.pos p) (Z.pos d) + 1) in *.
        assert (Z.pos p * 2 ^ (- u) < Z.pos d * 2 ^ 53); [| nia].
        destruct (Z.le_gt_cases 0 f) as [Hf0 | Hf0].
        - replace (Z.max (- f) 0) with 0 in Hup by lia.
          replace (Z.max f 0) with f in Hup by lia.
          rewrite Z.pow_0_r, Z.mul_1_r in Hup.
          assert (2 ^ f * 2 ^ (- u) <= 2 ^ 53).
          { rewrite <- Z.pow_add_r by lia. apply Z.pow_le_mono_r; lia. }
          pose proof (Z.pow_pos_nonneg 2 f ltac:(lia) ltac:(lia)). nia.
        - replace (Z.max (- f) 0) with (- f) in Hup by lia.
          replace (Z.max f 0) with 0 in Hup by lia.
          rewrite Z.pow_0_r, Z.mul_1_r in Hup.
          assert (2 ^ (- u) <= 2 ^ 53 * 2 ^ (- f)).
          { rewrite <- Z.pow_add_r by lia. apply Z.pow_le_mono_r; lia. }
          pose proof (Z.pow_pos_nonneg 2 (- f) ltac:(lia) ltac:(lia)). nia. }
      exists (m - ts * 2 ^ (- u)), (- u). split; [lia |]. split.
      * split; [| nia]. assert (0 <= m - ts * 2 ^ (- u)); [| lia]. 
        assert (ts * 2 ^ (- u) * Z.pos d <= m * Z.pos d) by nia. nia.
      * unfold Qeq, Qminus, Qplus, Qopp. cbn [Qnum Qden inject_Z].
        rewrite Z2Pos.id by exact Hpu. rewrite Pos.mul_1_r. nia.
    + rewrite Z.pow_0_r, !Z.mul_1_r in Hd. change (Z.to_pos 1) with 1%positive in Hd.
      set (m := rne (Z.pos p) (Z.pos d * 2 ^ u) * 2 ^ u) in *.
      unfold Qeq in Hd. cbn [Qnum Qden] in Hd.
      exists (m - ts), 0. split; [lia |]. split.
      * change (2 ^ 0) with 1 in *. nia.
      * unfold Qeq, Qminus, Qplus, Qopp. cbn [Qnum Qden inject_Z].
        change (Z.to_pos (2 ^ 0)) with 1%positive. rewrite Pos.mul_1_r. nia.
Qed.

(** Such a difference is computed exactly. *)
Lemma round64_sub_int now ts x :
  is_double now = true -> 0 <= ts -> (inject_Z ts <= now)%Q -> (now < inject_Z (2 ^ 53))%Q ->
  (x == now - inject_Z ts)%Q -> (round64 x == x)%Q.
Proof.
  intros Hd Hts Hle Hlt Hx.
  destruct (sub_int_dyadic now ts Hd Hts Hle Hlt) as (M & s & Hs & HM & Heq).
  apply (round64_dyadic x M s Hs HM). rewrite Hx. exact Heq.
Qed.

(** Rounding does not take a number of [2^j] or more below [2^j]. *)
Lemma round_pos_ge_pow2 p q j :
  0 < p -> 0 < q -> 53 <= j -> 2 ^ j * q <= p -> (inject_Z (2 ^ j) <= round_pos p q)%Q.
Proof.
  intros Hp Hq Hj H.
  pose proof (ilog2_upper p q Hp Hq) as Hup.
  pose proof (ilog2_lower p q Hp Hq) as Hlow.
  set (e := ilog2 p q) in *.
  assert (He : j <= e).
  { destruct (Z.le_gt_cases j e) as [| Hlt]; [assumption | exfalso].
    destruct (Z.le_gt_cases 0 (e + 1)) as [He0 | He0].
    - replace (Z.max (- (e + 1)) 0) with 0 in Hup by lia.
      replace (Z.max (e + 1) 0) with (e + 1) in Hup by lia.
      rewrite Z.pow_0_r, Z.mul_1_r in Hup.
      assert (2 ^ (e + 1) <= 2 ^ j) by (apply Z.pow_le_mono_r; lia). nia.
    - replace (Z.max (- (e + 1)) 0) with (- (e + 1)) in Hup by lia.
      replace (Z.max (e + 1) 0) with 0 in Hup by lia.
      rewrite Z.pow_0_r, Z.mul_1_r in Hup.
      pose proof (Z.pow_pos_nonneg 2 (- (e + 1)) ltac:(lia) ltac:(lia)).
      pose proof (Z.pow_pos_nonneg 2 j ltac:(lia) ltac:(lia)). nia. }
  unfold round_pos.
  destruct (ulp_cases p q) as [(Hu & _) | (Hu & HA & HB & He')];
    set (u := ulp_exponent p q) in *; [unfold u, ulp_exponent in Hu; fold e in Hu; lia |].
  fold e in He'. rewrite HA, HB, Z.pow_0_r, !Z.mul_1_r.
  change (Z.to_pos 1) with 1%positive.
  replace (Z.max e 0) with (u + 52) in Hlow by lia.
  replace (Z.max (- e) 0) with 0 in Hlow by lia.
  rewrite Z.pow_0_r, Z.mul_1_r, Z.pow_add_r in Hlow by lia.
  pose proof (Z.pow_pos_nonneg 2 u ltac:(lia) ltac:(lia)) as Hpow.
  assert (Hn : 2 ^ 52 <= rne p (q * 2 ^ u)) by (apply rne_ge; nia).
  assert (Hje : 2 ^ j <= 2 ^ u * 2 ^ 52).
  { rewrite <- Z.pow_add_r by lia. apply Z.pow_le_mono_r; lia. }
  unfold Qle. cbn [Qnum Qden inject_Z]. nia.
Qed.

Lemma float_of_int_overflow z : 2 ^ 1024 <= z -> float_of_int z = None.
Proof.
  intros Hz. unfold float_of_int.
  assert (H : (inject_Z (2 ^ 1024) <= round64 (inject_Z z))%Q).
  { unfold round64. cbn [Qnum Qden inject_Z].
    assert (0 < 2 ^ 1024) by (apply Z.pow_pos_nonneg; lia).
    destruct z as [| p | p]; [lia | | lia].
    apply round_pos_ge_pow2; lia. }
  apply Qle_bool_iff in H. rewrite H. reflexivity.
Qed.

Lemma float_of_int_small z :
  - 2 ^ 53 < z < 2 ^ 53 ->
  exists x, float_of_int z = Some x /\ (x == inject_Z z)%Q.
Proof.
  intros Hz. unfold float_of_int.
  pose proof (round64_int z Hz) as Hx.
  set (x := round64 (inject_Z z)) in *.
  assert (H1 : Qle_bool (inject_Z (2 ^ 1024)) x = false).
  { destruct (Qle_bool _ x) eqn:E; [| reflexivity].
    apply Qle_bool_iff in E. rewrite Hx in E. rewrite <- Zle_Qle in E.
    assert (2 ^ 53 < 2 ^ 1024) by (apply Z.pow_lt_mono_r; lia). lia. }
  assert (H2 : Qle_bool x (inject_Z (- 2 ^ 1024)) = false).
  { destruct (Qle_bool x _) eqn:E; [| reflexivity].
    apply Qle_bool_iff in E. rewrite Hx in E. rewrite <- Zle_Qle in E.
    assert (2 ^ 53 < 2 ^ 1024) by (apply Z.pow_lt_mono_r; lia). lia. }
  rewrite H1, H2. exists x. split; [reflexivity | exact Hx].
Qed.

End FloatProps.

(** ** Rate limiter *)

Module RateLimitProps.
Import Asgi RateLimit.

(** [window_start = now - self._window] is a float.  For the readings of a
    clock that starts at zero (doubles below [2^53]) and a window of less
    than [2^53] seconds, it separates the timestamps as the exact difference
    does, which is how [in_window] has it. *)
Lemma window_start_exact window now t :
  Py.is_double now = true -> 0 <= window < 2 ^ 53 ->
  (0 <= now)%Q -> (now < inject_Z (2 ^ 53))%Q -> (0 < t)%Q ->
  Qgtb t (Py.fsub now (Py.round64 (inject_Z window)))
  = Qgtb t (now - inject_Z window)%Q.
Proof.
  intros Hd Hw Hnow Hlt Ht.
  assert (Hwin : (Py.round64 (inject_Z window) == inject_Z window)%Q)
    by (apply FloatProps.round64_int; lia).
  assert (Hx : (now - Py.round64 (inject_Z window) == now - inject_Z window)%Q)
    by (rewrite Hwin; reflexivity).
  unfold Qgtb, Py.fsub. f_equal.
  destruct (Qlt_le_dec now (inject_Z window)) as [Hbelow | Habove].
  - assert (Hneg : (now - inject_Z window <= 0)%Q).
    { apply Qlt_le_weak in Hbelow. apply (Qplus_le_l _ _ (inject_Z window)).
      ring_simplify. exact Hbelow. }
    assert (Hr : (Py.round64 (now - Py.round64 (inject_Z window)) <= 0)%Q).
    { change 0%Q with (inject_Z 0). apply FloatProps.round64_le_int; [lia |].
      rewrite Hx. exact Hneg. }
    transitivity false.
    + destruct (Qle_bool t _) eqn:E; [| reflexivity].
      apply Qle_bool_iff in E. exfalso.
      apply (Qlt_irrefl 0). eapply Qlt_le_trans; [exact Ht |].
      eapply Qle_trans; [exact E | exact Hr].
    + symmetry. destruct (Qle_bool t _) eqn:E; [| reflexivity].
      apply Qle_bool_iff in E. exfalso.
      apply (Qlt_irrefl 0). eapply Qlt_le_trans; [exact Ht |].
      eapply Qle_trans; [exact E | exact Hneg].
  - rewrite (FloatProps.round64_sub_int now window _ Hd ltac:(lia) Habove Hlt Hx).
    rewrite Hx. reflexivity.
Qed.

Lemma int_of_float_floor (q : Q) : (0 <= q)%Q -> Py.int_of_float q = Qfloor q.
Proof.
  destruct q as [n d]. unfold Qle, Py.int_of_float, Qfloor. simpl.
  intros H. rewrite Z.mul_1_r in H.
  apply Z.quot_div_nonneg; lia.
Qed.

Lemma Qgtb_lt (a b : Q) : Qgtb a b = true -> (b < a)%Q.
Proof.
  unfold Qgtb. rewrite negb_true_iff. intros H.
  apply Qnot_le_lt. intros Hle. apply Qle_bool_iff in Hle. congruence.
Qed.

(** Every timestamp that survives pruning is strictly inside the window. *)
Lemma in_window_inside mw requests scope now t :
  In t (in_window mw requests scope now) ->
  (0 < inject_Z (_window mw) - (now - t))%Q.
Proof.
  unfold in_window. rewrite filter_In. intros [_ H].
  apply Qgtb_lt in H.
  apply Qlt_minus_iff in H.
  eapply Qlt_le_trans; [exact H |].
  apply Qle_lteq. right. ring.
Qed.

Definition mw0 : RateLimitMiddleware := mkRateLimit 1 60.
Definition scope0 : Scope :=
  mkScope "http" (Some "GET") (Some "/") [] (Some ("10.0.0.1", 40000)) None.
Definition store0 : store := {[ "10.0.0.1" := [0%Q] ]}.
Definition app0 : App := fun _ => [Start 200 []; Body (RawBytes "ok")].

(** C8, as stated, fails: half a second after the only request in a 60 s
    window the limiter answers [Retry-After: 60], while the ceiling formula
    of the specification gives 61. *)
Lemma C8_retry_after_is_not_ceiling :
  fst (process mw0 store0 scope0 (1 # 2) app0)
    = Responded (respond (too_many 60)) /\
  spec_retry_after (_window mw0) (1 # 2) 0 = 61 /\
  fst (process mw0 store0 scope0 (1 # 2) app0)
    <> Responded (respond (too_many (spec_retry_after (_window mw0) (1 # 2) 0))).
Proof. repeat split; vm_compute; congruence. Qed.

(** The double-precision computation can differ from the exact one: with
    readings [2 + 2^-51] and [1] the difference [59 - 2^-51] is rounded to
    [59], and the header is [60] where exact arithmetic would give [59]. *)
Example retry_after_rounds :
  retry_after 60 (2 + (1 # 2 ^ 51)) 1 = 60
  /\ Qfloor (60 - ((2 + (1 # 2 ^ 51)) - 1)) + 1 = 59.
Proof. vm_compute. split; reflexivity. Qed.

Lemma Qceiling_le_int x n : (x <= inject_Z n)%Q -> Qceiling x <= n.
Proof. intros H. apply Qceiling_resp_le in H. rewrite Qceiling_Z in H. exact H. Qed.

Lemma Qfloor_ge_int x n : (inject_Z n <= x)%Q -> n <= Qfloor x.
Proof. intros H. apply Qfloor_resp_le in H. rewrite Qfloor_Z in H. exact H. Qed.

Lemma Qfloor_le_int x n : (x <= inject_Z n)%Q -> Qfloor x <= n.
Proof. intros H. apply Qfloor_resp_le in H. rewrite Qfloor_Z in H. exact H. Qed.

Lemma Qceiling_gt_int x n : (inject_Z n < x)%Q -> n < Qceiling x.
Proof.
  intros H. rewrite Zlt_Qlt. eapply Qlt_le_trans; [exact H | apply Qle_ceiling].
Qed.

(** The header value against the exact remaining time [x = window - (now -
    oldest)]: the two roundings keep the computed value between the integers
    around [x]. *)
Lemma retry_after_bounds window now oldest :
  window < 2 ^ 53 -> (oldest <= now)%Q ->
  (0 < inject_Z window - (now - oldest))%Q ->
  let x := (inject_Z window - (now - oldest))%Q in
  retry_after window now oldest
  = Qfloor (Py.fsub (Py.round64 (inject_Z window)) (Py.fsub now oldest)) + 1
  /\ Qceiling x <= retry_after window now oldest <= Qceiling x + 1.
Proof.
  intros Hw Hle Hpos x.
  set (e := (now - oldest)%Q) in *.
  assert (He0 : (0 <= e)%Q).
  { unfold e. apply Qle_minus_iff in Hle. exact Hle. }
  assert (Hew : (e < inject_Z window)%Q).
  { apply Qlt_minus_iff. exact Hpos. }
  set (F := Qfloor e). set (C := Qceiling e).
  assert (HF0 : 0 <= F) by (apply (Qfloor_ge_int e 0), He0).
  assert (HCw : C <= window) by (apply Qceiling_le_int, Qlt_le_weak, Hew).
  assert (HFC : F <= C).
  { rewrite Zle_Qle. eapply Qle_trans; [apply Qfloor_le | apply Qle_ceiling]. }
  assert (HCF : C <= F + 1).
  { apply Qceiling_le_int, Qlt_le_weak. apply (Qlt_floor e). }
  set (d := Py.fsub now oldest).
  assert (Hd1 : (inject_Z F <= d)%Q).
  { apply FloatProps.round64_ge_int; [lia | apply Qfloor_le]. }
  assert (Hd2 : (d <= inject_Z C)%Q).
  { apply FloatProps.round64_le_int; [lia | apply Qle_ceiling]. }
  set (W := Py.round64 (inject_Z window)).
  assert (HW : (W == inject_Z window)%Q).
  { apply FloatProps.round64_int. lia. }
  set (y := Py.fsub W d).
  assert (Hy1 : (inject_Z (window - C) <= y)%Q).
  { apply FloatProps.round64_ge_int; [lia |].
    rewrite HW. unfold Zminus. rewrite inject_Z_plus, inject_Z_opp.
    apply Qplus_le_r, Qopp_le_compat, Hd2. }
  assert (Hy2 : (y <= inject_Z (window - F))%Q).
  { apply FloatProps.round64_le_int; [lia |].
    rewrite HW. unfold Zminus. rewrite inject_Z_plus, inject_Z_opp.
    apply Qplus_le_r, Qopp_le_compat, Hd1. }
  assert (Hy0 : (0 <= y)%Q).
  { eapply Qle_trans; [| exact Hy1]. change 0%Q with (inject_Z 0).
    rewrite <- Zle_Qle. lia. }
  assert (Hr : retry_after window now oldest = Qfloor y + 1).
  { unfold retry_after. fold d W y. rewrite (int_of_float_floor y Hy0). reflexivity. }
  split; [exact Hr |]. rewrite Hr.
  assert (Hx1 : (x <= inject_Z (window - F))%Q).
  { unfold x, Zminus. rewrite inject_Z_plus, inject_Z_opp.
    apply Qplus_le_r, Qopp_le_compat, Qfloor_le. }
  assert (Hx2 : (inject_Z (window - F - 1) < x)%Q).
  { unfold x. replace (window - F - 1) with (window + - (F + 1)) by lia.
    rewrite inject_Z_plus, inject_Z_opp.
    apply Qplus_lt_r, Qopp_lt_compat. apply (Qlt_floor e). }
  pose proof (Qceiling_le_int _ _ Hx1).
  pose proof (Qceiling_gt_int _ _ Hx2).
  pose proof (Qfloor_ge_int _ _ Hy1).
  pose proof (Qfloor_le_int _ _ Hy2).
  lia.
Qed.

(** C8 (amended): when the pruned list of in-window timestamps is non-empty
    and at least [max_requests] long, the limiter leaves its store unchanged,
    does not call the downstream application and answers 429 with the body
    [{error, status_code: 429, retry_after}] and a [Retry-After] header, where
    [retry_after] is the integer part of [window - (now - oldest)] as
    computed in double precision, plus 1.  For a window below [2^53] seconds
    and an oldest timestamp that is not in the future, that is the ceiling of
    the exact [window - (now - oldest)], or that ceiling plus 1. *)
Theorem C8_retry_after_floor mw requests scope now app oldest rest :
  in_window mw requests scope now = oldest :: rest ->
  _max_requests mw <= Z.of_nat (List.length (oldest :: rest)) ->
  _window mw < 2 ^ 53 ->
  (oldest <= now)%Q ->
  let r := retry_after (_window mw) now oldest in
  let x := (inject_Z (_window mw) - (now - oldest))%Q in
  process mw requests scope now app =
    (Responded
       [Start 429 [("content-type", "application/json; charset=utf-8");
                   ("retry-after", Py.str_of_Z r)];
        Body (JsonBytes (JDict [("error", JStr "Too Many Requests");
                                ("status_code", JInt 429);
                                ("retry_after", JInt r)]))],
     requests)
  /\ r = Qfloor (Py.fsub (Py.round64 (inject_Z (_window mw))) (Py.fsub now oldest)) + 1
  /\ Qceiling x <= r <= Qceiling x + 1.
Proof.
  intros Hw Hmax Hrange Hle r x. split.
  - unfold process. rewrite Hw.
    destruct (Z.geb_spec (Z.of_nat (List.length (oldest :: rest))) (_max_requests mw))
      as [_ | Hlt]; [reflexivity | lia].
  - apply retry_after_bounds; [exact Hrange | exact Hle |].
    apply (in_window_inside mw requests scope now). rewrite Hw. left. reflexivity.
Qed.

Lemma C8_retry_after_floor_witness :
  process mw0 store0 scope0 (1 # 2) app0 =
    (Responded
       [Start 429 [("content-type", "application/json; charset=utf-8");
                   ("retry-after", "60")];
        Body (JsonBytes (JDict [("error", JStr "Too Many Requests");
                                ("status_code", JInt 429);
                                ("retry_after", JInt 60)]))],
     store0)
  /\ 60 = Qfloor (Py.fsub (Py.round64 60) (Py.fsub (1 # 2) 0)) + 1
  /\ 60 <= 60 <= 60 + 1.
Proof.
  apply (C8_retry_after_floor mw0 store0 scope0 (1 # 2) app0 0%Q []).
  - reflexivity.
  - simpl. lia.
  - reflexivity.
  - discriminate.
Defined.

End RateLimitProps.

(** ** Python helpers *)

Module PyProps.

(** Reading back the first character of a UTF-8 encoded text. *)
Definition utf8_first (s : string) : option (ascii * string) :=
  match s with
  | EmptyString => None
  | String b1 r =>
      if (nat_of_ascii b1 <? 128)%nat then Some (b1, r)
      else match r with
           | String b2 r' =>
               Some (ascii_of_nat ((nat_of_ascii b1 - 192) * 64 + (nat_of_ascii b2 - 128)), r')
           | EmptyString => None
           end
  end.

Lemma utf8_first_encode c r :
  utf8_first (Py.utf8_encode (String c r)) = Some (c, Py.utf8_encode r).
Proof. destruct c as [[] [] [] [] [] [] [] []]; reflexivity. Qed.

Lemma utf8_encode_inj a : forall b, Py.utf8_encode a = Py.utf8_encode b -> a = b.
Proof.
  induction a as [| c a IH]; intros [| d b] H; try reflexivity.
  - apply (f_equal utf8_first) in H. rewrite utf8_first_encode in H. discriminate.
  - apply (f_equal utf8_first) in H. rewrite utf8_first_encode in H. discriminate.
  - apply (f_equal utf8_first) in H. rewrite !utf8_first_encode in H.
    injection H as -> H. f_equal. apply IH, H.
Qed.

Lemma truthy_Some s : Py.truthy (Some s) = true <-> s <> "".
Proof. destruct s; simpl; split; congruence. Qed.

Lemma truthy_default o : Py.truthy o = true -> o = Some (default "" o).
Proof. destruct o as [[|]|]; simpl; congruence. Qed.

End PyProps.

(** ** Request bodies *)

Module ReqProps.
Import Asgi Req.

(** The messages that make up the body: up to and including the first one
    that does not announce more. *)
Fixpoint body_msgs (pending : list recv_msg) : list recv_msg :=
  match pending with
  | [] => []
  | m :: pending' => m :: (if m_more_body m then body_msgs pending' else [])
  end.

(** The number of body bytes carried by a list of messages. *)
Fixpoint size (ms : list recv_msg) : Z :=
  match ms with
  | [] => 0
  | m :: ms' => Py.len (m_body m) + size ms'
  end.

Lemma len_nonneg s : 0 <= Py.len s.
Proof. unfold Py.len. lia. Qed.

Lemma size_nonneg ms : 0 <= size ms.
Proof. induction ms as [| m ms IH]; simpl; [lia |]. pose proof (len_nonneg (m_body m)). lia. Qed.

Lemma truthy_len s : Py.truthy (Some s) = false -> Py.len s = 0.
Proof. destruct s; simpl; [reflexivity | discriminate]. Qed.

(** The loop stops at the first message that takes the running total above
    the cap, and at no earlier one. *)
Lemma read_chunks_overflow max pending : forall chunks total,
  0 < max -> total <= max -> max < total + size (body_msgs pending) ->
  exists k : nat,
    read_chunks max chunks total pending = (Raise PayloadTooLarge, drop k pending)
    /\ max < total + size (take k pending)
    /\ forall j : nat, (j < k)%nat -> total + size (take j pending) <= max.
Proof.
  induction pending as [| m pending IH]; intros chunks total Hmax Htot Hover.
  - simpl in Hover. lia.
  - simpl in Hover. cbn [read_chunks].
    replace (max >? 0) with true by (symmetry; apply Z.gtb_lt; lia).
    cbn [andb].
    destruct (Py.truthy (Some (m_body m))) eqn:Htr.
    + destruct (Z.gtb_spec (total + Py.len (m_body m)) max) as [Hgt | Hle].
      * exists 1%nat. split; [reflexivity |]. split.
        -- simpl. lia.
        -- intros j Hj. assert (j = 0%nat) as -> by lia. simpl. lia.
      * destruct (m_more_body m).
        -- destruct (IH (chunks ++ [m_body m]) (total + Py.len (m_body m)))
             as (k & Hk & Hk1 & Hk2); [lia | lia | lia |].
           exists (S k). split; [exact Hk |]. split.
           ++ simpl. lia.
           ++ intros [| j] Hj; simpl; [lia |].
              specialize (Hk2 j). lia.
        -- simpl in Hover. lia.
    + apply truthy_len in Htr.
      destruct (m_more_body m).
      * destruct (IH chunks total) as (k & Hk & Hk1 & Hk2); [lia | lia | lia |].
        exists (S k). split; [exact Hk |]. split.
        -- simpl. lia.
        -- intros [| j] Hj; simpl; [lia |].
           specialize (Hk2 j). lia.
      * simpl in Hover. lia.
Qed.

(** The value of the last header of the scope whose lower-cased name is
    [name]. *)
Definition declared (scope : Scope) (name : string) : option string :=
  snd <$> last (List.filter (fun nv => String.eqb (Py.lower (fst nv)) name)
                            (sc_headers scope)).

(** The value that a fold of insertions leaves at a key. *)
Lemma foldl_insert_lookup {A} (f : A -> string) (g : A -> string) (l : list A) k :
  forall m : gmap string string,
  foldl (fun hs x => <[f x := g x]> hs) m l !! k
  = match last (List.filter (fun x => String.eqb (f x) k) l) with
    | Some x => Some (g x)
    | None => m !! k
    end.
Proof.
  induction l as [| x l IH]; intros m; [reflexivity |].
  cbn [foldl List.filter]. rewrite IH.
  destruct (String.eqb_spec (f x) k) as [Heq | Hne].
  - destruct (List.filter _ l) as [| y l'] eqn:Hl.
    + cbn. rewrite Heq. apply lookup_insert_eq.
    + change (last (x :: y :: l')) with (last (y :: l')).
      destruct (last (y :: l')) eqn:Hlast; [reflexivity |].
      apply last_None in Hlast. discriminate.
  - destruct (last (List.filter _ l)); [reflexivity |].
    apply lookup_insert_ne, Hne.
Qed.

Lemma headers_declared r name : headers r !! name = declared (_scope r) name.
Proof.
  unfold headers, declared.
  rewrite (foldl_insert_lookup (fun nv => Py.lower (fst nv)) snd).
  destruct (last _); reflexivity.
Qed.

(** A request without headers whose body arrives in two messages and is
    larger than the cap given. *)
Definition seven_bytes (max : Z) : Request :=
  new (mkScope "http" (Some "POST") (Some "/upload") [] None None)
      [mkRecv "abcde" true; mkRecv "ef" false] max.



Definition oversize_declared : Request :=
  new (mkScope "http" (Some "POST") (Some "/upload")
               [("Content-Length", "2"); ("CONTENT-LENGTH", "10")] None None)
      [mkRecv "ab" false] 3.

Definition oversize_request : Request :=
  new (mkScope "http" (Some "POST") (Some "/upload") [("content-length", "3")] None None)
      [mkRecv "ab" true; mkRecv "cd" true; mkRecv "ef" false] 3.


End ReqProps.

(** ** CSRF middleware *)

Module CsrfProps.
Import Asgi CookieJar Csrf.

Lemma tokens_match_eq a b : _tokens_match a b = true <-> a = b.
Proof.
  unfold _tokens_match, Py.compare_digest. rewrite String.eqb_eq.
  split; [apply PyProps.utf8_encode_inj | congruence].
Qed.

(** The methods that are safe by default. *)
Lemma default_safe_methods m :
  m ∈ SAFE_METHODS <-> m = "GET" \/ m = "HEAD" \/ m = "OPTIONS" \/ m = "TRACE".
Proof. unfold SAFE_METHODS. rewrite !elem_of_union, !elem_of_singleton. tauto. Qed.

(** The body and status of the rejection. *)
Definition rejection : list message :=
  [Start 403 [("content-type", "application/json; charset=utf-8")];
   Body (JsonBytes (JDict [("error", JStr "CSRF token missing or invalid");
                           ("status_code", JInt 403)]))].

Lemma respond_forbidden : respond forbidden = rejection.
Proof. reflexivity. Qed.

(** A stand-in for the external functions, to run the middleware on concrete
    requests: bytes are read as they are, and a URL-encoded body is a list of
    [key=value] pairs separated by [&]. *)
Definition demo_library : Req.Library :=
  Req.mkLibrary Some
    (fun body =>
       map (fun item => let '(k, _, v) := Py.partition "=" item in (k, [v]))
           (Py.split "&" body))
    (fun _ _ => ∅).

Definition ok_app : App := fun _ => [Start 200 []; Body (RawBytes "ok")].

Definition post_scope (hs : list (string * string)) : Scope :=
  mkScope "http" (Some "POST") (Some "/submit") hs (Some ("127.0.0.1", 12345)) None.

Definition get_scope (hs : list (string * string)) : Scope :=
  mkScope "http" (Some "GET") (Some "/page") hs (Some ("127.0.0.1", 12345)) None.

(** Scenario S2 of the specification. *)
Example S2_get_sets_cookie :
  process demo_library (init_default ok_app "csrf-test-secret-key-1234")
          (get_scope []) [Req.mkRecv "" false] "FRESH"
  = Forwarded (with_csrf_token (get_scope []) "FRESH")
      [Start 200 [("set-cookie", "thor_csrf=FRESH; Path=/; Secure; SameSite=Lax")];
       Body (RawBytes "ok")].
Proof. vm_compute. reflexivity. Qed.

Example S2_post_matching_header_accepted :
  sent (process demo_library (init_default ok_app "csrf-test-secret-key-1234")
          (post_scope [("cookie", "thor_csrf=T"); ("x-csrf-token", "T")])
          [Req.mkRecv "" false] "FRESH")
  = [Start 200 [("set-cookie", "thor_csrf=T; Path=/; Secure; SameSite=Lax")];
     Body (RawBytes "ok")].
Proof. vm_compute. reflexivity. Qed.

Example S2_post_other_header_rejected :
  process demo_library (init_default ok_app "csrf-test-secret-key-1234")
          (post_scope [("cookie", "thor_csrf=T"); ("x-csrf-token", "T2")])
          [Req.mkRecv "" false] "FRESH"
  = Responded rejection.
Proof. vm_compute. reflexivity. Qed.

(** The token in force, from the headers of the scope: the value of the
    CSRF cookie in the last [Cookie] header, or [fresh] when there is none or
    it is empty. *)
Definition token_in_force (mw : CSRFMiddleware) (scope : Scope) (fresh : string)
    : string :=
  match parse_cookies (default "" (ReqProps.declared scope "cookie"))
        !! _cookie_name mw with
  | Some (String c t) => String c t
  | _ => fresh
  end.

(** The value of the field [_csrf_token] of a form. *)
Definition form_field_value (form : gmap string Req.form_value) : option string :=
  match form !! "_csrf_token" with
  | Some (inl value) => Some value
  | Some (inr values) => head values
  | None => None
  end.

Lemma cookie_token_in_force mw scope receive max fresh :
  cookie_token mw (Req.new scope receive max) fresh = token_in_force mw scope fresh.
Proof.
  unfold cookie_token, token_in_force, Req.get_cookie, Req.cookies.
  rewrite ReqProps.headers_declared. cbn [Req._scope Req.new].
  destruct (parse_cookies _ !! _) as [[| c t] |]; reflexivity.
Qed.

(** A POST whose URL-encoded body is announced as larger than the cap of
    [Request], and which carries no token header. *)
Definition oversize_form : Scope :=
  mkScope "http" (Some "POST") (Some "/submit")
          [("content-type", "application/x-www-form-urlencoded");
           ("content-length", "1048577")]
          (Some ("127.0.0.1", 12345)) None.




(** When reading the form token raises, the exception propagates and the
    downstream application is not invoked either. *)
Lemma unreadable_form_not_forwarded lib mw scope receive fresh e :
  let request := Req.new scope receive Req.DEFAULT_MAX_BODY_SIZE in
  excluded mw request = false ->
  Req.method request ∉ _safe_methods mw ->
  submitted_token lib mw request = Raise e ->
  process lib mw scope receive fresh = Raised e.
Proof.
  intros request Hex Hm Hsub. unfold process. fold request. rewrite Hex.
  rewrite bool_decide_eq_false_2 by exact Hm. rewrite Hsub. reflexivity.
Qed.

(** On the path that forwards, every start message of the downstream
    application gains the CSRF cookie. *)
Lemma send_with_csrf_sets_cookie mw token st hs :
  set_cookies [send_with_csrf mw token (Start st hs)]
  = set_cookies [Start st hs]
    ++ [format_set_cookie (_cookie_name mw) token (Some (_cookie_options mw))].
Proof.
  unfold set_cookies. simpl. rewrite !app_nil_r.
  rewrite List.filter_app, map_app. reflexivity.
Qed.

(** A response that the middleware emits itself is sent through the plain
    [send]: it carries no [Set-Cookie] header. *)
Lemma responded_without_cookie lib mw scope receive fresh msgs :
  process lib mw scope receive fresh = Responded msgs -> set_cookies msgs = [].
Proof.
  unfold process.
  destruct (excluded _ _); [discriminate |].
  destruct (bool_decide _); [discriminate |].
  destruct (submitted_token _ _ _); [| discriminate].
  destruct (_ || _); [| discriminate].
  intros [= <-]. reflexivity.
Qed.

(** C6 fails on the code: a POST without any token, from a client that has
    no CSRF cookie yet, is answered with the 403 rejection, and the start
    message of that response has no [Set-Cookie] header, whereas the response
    to a GET from the same client sets the cookie. *)
Theorem C6_rejection_has_no_set_cookie :
  let mw := init_default ok_app "csrf-test-secret-key-1234" in
  process demo_library mw (post_scope []) [Req.mkRecv "" false] "FRESH"
    = Responded rejection
  /\ set_cookies (sent (process demo_library mw (post_scope [])
                                [Req.mkRecv "" false] "FRESH")) = []
  /\ set_cookies (sent (process demo_library mw (get_scope [])
                                [Req.mkRecv "" false] "FRESH"))
     = ["thor_csrf=FRESH; Path=/; Secure; SameSite=Lax"].
Proof. vm_compute. repeat split; reflexivity. Qed.

(** [self._form_field] set to another name. *)
Definition with_form_field (form_field : string) (mw : CSRFMiddleware)
    : CSRFMiddleware :=
  mkCSRF (app mw) (_secret_key mw) (_cookie_name mw) (_header_name mw) form_field
         (_token_length mw) (_safe_methods mw) (_exclude_paths mw)
         (_cookie_options mw).

(** C10: the middleware behaves the same whatever [form_field] it was
    constructed with, and the token of a URL-encoded body is the value (the
    first one, if several) of the field named [_csrf_token]. *)
Theorem C10_form_field_never_consulted lib mw form_field scope receive fresh :
  process lib (with_form_field form_field mw) scope receive fresh
    = process lib mw scope receive fresh
  /\ submitted_token lib (with_form_field form_field mw)
       (Req.new scope receive Req.DEFAULT_MAX_BODY_SIZE)
     = submitted_token lib mw (Req.new scope receive Req.DEFAULT_MAX_BODY_SIZE)
  /\ forall request form,
       Py.contains "application/x-www-form-urlencoded" (Req.content_type request) = true ->
       fst (Req.form lib request) = Ok form ->
       _get_form_token lib request
       = Ok match form !! "_csrf_token" with
                | Some (inr values) => head values
                | Some (inl value) => Some value
                | None => None
                end.
Proof.
  split; [reflexivity |]. split; [reflexivity |].
  intros request form Hct Hform. unfold _get_form_token.
  rewrite Hct, Hform. reflexivity.
Qed.

Lemma C10_form_field_never_consulted_witness :
  let mw := init ok_app "csrf-test-secret-key-1234" DEFAULT_COOKIE_NAME
                 DEFAULT_HEADER_NAME "tok" DEFAULT_TOKEN_LENGTH SAFE_METHODS None None in
  let hs := [("cookie", "thor_csrf=T");
             ("content-type", "application/x-www-form-urlencoded")] in
  _get_form_token demo_library
    (Req.new (post_scope hs) [Req.mkRecv "tok=T&_csrf_token=U" false]
             Req.DEFAULT_MAX_BODY_SIZE)
  = Ok (Some "U").
Proof.
  intros mw hs.
  pose proof (proj2 (proj2 (C10_form_field_never_consulted demo_library mw "tok"
            (post_scope hs) [] "FRESH"))
         (Req.new (post_scope hs) [Req.mkRecv "tok=T&_csrf_token=U" false]
                  Req.DEFAULT_MAX_BODY_SIZE)
         (foldl Req.form_entry ∅ [("tok", ["T"]); ("_csrf_token", ["U"])])) as H.
  rewrite H.
  - vm_compute. reflexivity.
  - vm_compute. reflexivity.
  - vm_compute. reflexivity.
Defined.

(** With [form_field="tok"], a body that submits the token as [tok] is
    rejected and one that submits it as [_csrf_token] is accepted. *)
Example configured_form_field_rejected :
  let mw := init ok_app "csrf-test-secret-key-1234" DEFAULT_COOKIE_NAME
                 DEFAULT_HEADER_NAME "tok" DEFAULT_TOKEN_LENGTH SAFE_METHODS None None in
  let hs := [("cookie", "thor_csrf=T");
             ("content-type", "application/x-www-form-urlencoded")] in
  process demo_library mw (post_scope hs) [Req.mkRecv "tok=T" false] "FRESH"
    = Responded rejection
  /\ downstream_calls
       (process demo_library mw (post_scope hs) [Req.mkRecv "_csrf_token=T" false] "FRESH")
     = [with_csrf_token (post_scope hs) "T"].
Proof. vm_compute. split; reflexivity. Qed.

End CsrfProps.

(** ** Strings *)

Module StrProps.

Abbreviation all_chars := Py.all_chars.

(** No character of the text is [sep]. *)
Definition free_of (sep : ascii) (s : string) : bool :=
  all_chars (fun c => negb (Ascii.eqb c sep)) s.

Lemma app_cons_s x (a b : string) : String x a +:+ b = String x (a +:+ b).
Proof. reflexivity. Qed.

Lemma app_nil_l_s (b : string) : "" +:+ b = b.
Proof. reflexivity. Qed.

Tactic Notation "unfold_app" := rewrite ?app_cons_s, ?app_nil_l_s.
Tactic Notation "unfold_app" "in" hyp(H) := rewrite ?app_cons_s, ?app_nil_l_s in H.

Lemma app_assoc_s (a b c : string) : (a +:+ b) +:+ c = a +:+ (b +:+ c).
Proof. induction a as [| x a IH]; unfold_app; [reflexivity | now rewrite IH]. Qed.

Lemma app_nil_r_s (a : string) : a +:+ "" = a.
Proof. induction a as [| x a IH]; unfold_app; [reflexivity | now rewrite IH]. Qed.

Lemma length_app_s (a b : string) :
  String.length (a +:+ b) = (String.length a + String.length b)%nat.
Proof. induction a as [| x a IH]; unfold_app; simpl; [reflexivity | now rewrite IH]. Qed.

Lemma all_chars_app P a b :
  all_chars P (a +:+ b) = all_chars P a && all_chars P b.
Proof.
  induction a as [| x a IH]; unfold_app; simpl; [reflexivity |].
  rewrite IH. apply andb_assoc.
Qed.

Lemma all_chars_weaken (P Q : ascii -> bool) s :
  (forall c, P c = true -> Q c = true) ->
  all_chars P s = true -> all_chars Q s = true.
Proof.
  intros HPQ. induction s as [| c s IH]; simpl; [reflexivity |].
  rewrite !andb_true_iff. intros [Hc Hs]. split; [apply HPQ, Hc | apply IH, Hs].
Qed.

Lemma is_ascii_all s : Py.is_ascii s = all_chars Py.is_ascii_char s.
Proof. induction s as [| c s IH]; simpl; [reflexivity | now rewrite IH]. Qed.

Lemma all_chars_rstrip P ch s :
  all_chars P s = true -> all_chars P (Py.rstrip_char ch s) = true.
Proof.
  induction s as [| c s IH]; simpl; [reflexivity |].
  rewrite andb_true_iff. intros [Hc Hs]. specialize (IH Hs).
  destruct (Py.rstrip_char ch s) eqn:E.
  - destruct (Ascii.eqb c ch); simpl; [reflexivity | now rewrite Hc].
  - simpl in *. now rewrite Hc, IH.
Qed.

Lemma length_rstrip_le ch s :
  (String.length (Py.rstrip_char ch s) <= String.length s)%nat.
Proof.
  induction s as [| c s IH]; simpl; [lia |].
  destruct (Py.rstrip_char ch s) eqn:E.
  - destruct (Ascii.eqb c ch); simpl; lia.
  - simpl in *. lia.
Qed.

Lemma rpartition_None sep s :
  Py.rpartition sep s = None <-> free_of sep s = true.
Proof.
  unfold free_of. induction s as [| c s IH]; simpl; [tauto |].
  destruct (Py.rpartition sep s) as [[a b] |].
  - split; [discriminate |]. rewrite andb_true_iff. intros [_ H].
    apply IH in H. discriminate.
  - destruct (Ascii.eqb c sep); simpl; [split; discriminate |].
    rewrite <- IH. tauto.
Qed.

Lemma rpartition_last sep x c :
  free_of sep c = true ->
  Py.rpartition sep (x +:+ String sep c) = Some (x, c).
Proof.
  intros Hc. induction x as [| y x IH]; unfold_app; simpl.
  - apply rpartition_None in Hc. rewrite Hc, Ascii.eqb_refl. reflexivity.
  - rewrite IH. reflexivity.
Qed.

Lemma rpartition_Some sep s a b :
  Py.rpartition sep s = Some (a, b) ->
  s = a +:+ String sep b /\ free_of sep b = true.
Proof.
  revert a. induction s as [| c s IH]; simpl; intros a; [discriminate |].
  destruct (Py.rpartition sep s) as [[a' b'] |] eqn:E.
  - intros [= <- <-]. destruct (IH a' eq_refl) as [-> Hb]. split; [reflexivity | exact Hb].
  - destruct (Ascii.eqb_spec c sep) as [-> |]; [| discriminate].
    intros [= <- <-]. split; [reflexivity |]. apply rpartition_None, E.
Qed.

(** [a:b:c] splits into its three fields when [b] and [c] have no [sep]. *)
Lemma rsplit2_three sep a b c :
  free_of sep b = true -> free_of sep c = true ->
  Py.rsplit2 sep (a +:+ String sep (b +:+ String sep c)) = [a; b; c].
Proof.
  intros Hb Hc. unfold Py.rsplit2.
  replace (a +:+ String sep (b +:+ String sep c))
    with ((a +:+ String sep b) +:+ String sep c)
    by (rewrite app_assoc_s; reflexivity).
  rewrite (rpartition_last sep _ c Hc), (rpartition_last sep a b Hb). reflexivity.
Qed.

Lemma uint_chars d :
  all_chars (fun c => Py.is_digit c || Ascii.eqb c "-") (NilZero.string_of_uint d) = true.
Proof.
  assert (H : forall d, all_chars (fun c => Py.is_digit c || Ascii.eqb c "-")
                          (NilEmpty.string_of_uint d) = true).
  { intros d'. induction d' as [| d' IH | d' IH | d' IH | d' IH | d' IH | d' IH
                                | d' IH | d' IH | d' IH | d' IH]; simpl; auto. }
  destruct d; try apply H. reflexivity.
Qed.

(** The decimal text of an integer has digits and a sign only. *)
Lemma str_of_Z_chars z :
  all_chars (fun c => Py.is_digit c || Ascii.eqb c "-") (Py.str_of_Z z) = true.
Proof.
  unfold Py.str_of_Z, NilZero.string_of_int.
  destruct (Z.to_int z); [apply uint_chars |].
  simpl. apply uint_chars.
Qed.

Lemma str_of_Z_free z : free_of ":" (Py.str_of_Z z) = true.
Proof.
  eapply all_chars_weaken; [| apply str_of_Z_chars].
  intros c. destruct c as [[] [] [] [] [] [] [] []]; vm_compute; congruence.
Qed.

End StrProps.

(** ** Signed tokens *)

Module CodecProps.
Import Asgi Codec StrProps.

(** The alphabet of URL-safe base64, with the padding character. *)
Definition is_b64url (c : ascii) : bool :=
  Py.is_upper c || Py.is_lower c || Py.is_digit c
  || Ascii.eqb c "-" || Ascii.eqb c "_" || Ascii.eqb c "=".

(** What the codec needs from the external functions: base64 decoding undoes
    encoding, the encoder writes in its alphabet, the length of its output
    and the unpadded length of its output depend on the length of its input
    only, HMAC digests have one length, and UTF-8 decoding undoes
    encoding. *)
Record Lawful {V : Type} (lib : Library V) : Prop := mkLawful {
  b64_round_trip : forall b,
    urlsafe_b64decode lib (urlsafe_b64encode lib b) = Some b;
  b64_alphabet : forall b,
    all_chars is_b64url (urlsafe_b64encode lib b) = true;
  b64_length : forall b b',
    String.length b = String.length b' ->
    String.length (urlsafe_b64encode lib b) = String.length (urlsafe_b64encode lib b');
  b64_unpadded_length : forall b b',
    String.length b = String.length b' ->
    String.length (Py.rstrip_char "=" (urlsafe_b64encode lib b))
    = String.length (Py.rstrip_char "=" (urlsafe_b64encode lib b'));
  hmac_length : forall k m m',
    String.length (hmac_sha256 lib k m) = String.length (hmac_sha256 lib k m');
  utf8_round_trip : forall s, utf8_decode lib (Py.utf8_encode s) = Some s
}.

(** What the codec needs from [json]: [json.loads] undoes [json.dumps] on
    the values that JSON has a form of its own for, when [json.dumps]
    accepts them, and a tuple is written as the list of its items. *)
Record JsonLaws (lib : Library pyvalue) : Prop := mkJsonLaws {
  json_round_trip : forall v s,
    json_native v = true -> json_dumps lib v = Some s -> json_loads lib s = Some v;
  json_tuple_as_list : forall items,
    json_dumps lib (PyTuple items) = json_dumps lib (PyList items)
}.

(** [n] copies of a character. *)
Fixpoint pad (n : nat) (ch : ascii) : string :=
  match n with
  | O => EmptyString
  | S n' => String ch (pad n' ch)
  end.

(** Bit [b] of a character flipped. *)
Definition flip_bit (b : nat) (c : ascii) : ascii :=
  ascii_of_N (N.lxor (N_of_ascii c) (2 ^ N.of_nat b)).

(** Bit [b] of the character at index [i] flipped. *)
Fixpoint flip_at (i b : nat) (s : string) : string :=
  match s, i with
  | EmptyString, _ => EmptyString
  | String c r, O => String (flip_bit b c) r
  | String c r, S i' => String c (flip_at i' b r)
  end.

(** The text whose signature [unsign] checks. *)
Definition signed_text (token : string) : option string :=
  match Py.rsplit2 ":" token with
  | [timestamp_str; value; _] => Some (timestamp_str +:+ ":" +:+ value)
  | _ => None
  end.

Lemma flip_bit_neq b c : (b < 8)%nat -> flip_bit b c <> c.
Proof.
  intros Hb.
  destruct c as [[] [] [] [] [] [] [] []];
    do 8 (destruct b as [| b]; [discriminate |]); lia.
Qed.

Lemma flip_at_length i b s : String.length (flip_at i b s) = String.length s.
Proof.
  revert i. induction s as [| c s IH]; intros [| i]; simpl; auto.
Qed.

Lemma flip_at_neq i b s :
  (i < String.length s)%nat -> (b < 8)%nat -> flip_at i b s <> s.
Proof.
  revert i. induction s as [| c s IH]; intros [| i]; simpl; intros Hi Hb; try lia.
  - intros [= H]. exact (flip_bit_neq b c Hb H).
  - intros [= H]. apply (IH i); [lia | exact Hb | exact H].
Qed.

Lemma flip_at_app_l i b x y :
  (i < String.length x)%nat -> flip_at i b (x +:+ y) = flip_at i b x +:+ y.
Proof.
  revert i. induction x as [| c x IH]; intros [| i]; simpl; intros Hi; try lia;
    unfold_app; simpl; [reflexivity |].
  rewrite IH by lia. reflexivity.
Qed.

Lemma flip_at_app_r i b x y :
  (String.length x <= i)%nat ->
  flip_at i b (x +:+ y) = x +:+ flip_at (i - String.length x) b y.
Proof.
  revert i. induction x as [| c x IH]; intros i Hi; unfold_app.
  - simpl. rewrite Nat.sub_0_r. reflexivity.
  - simpl in Hi. destruct i as [| i]; [lia |]. simpl. rewrite IH by lia. reflexivity.
Qed.

Lemma pad_length n ch : String.length (pad n ch) = n.
Proof. induction n as [| n IH]; simpl; [reflexivity | now rewrite IH]. Qed.

(** A text is what [rstrip] leaves of it, followed by the characters
    stripped. *)
Lemma rstrip_char_pad ch s : exists n, s = Py.rstrip_char ch s +:+ pad n ch.
Proof.
  induction s as [| c s [n IH]]; [exists O; reflexivity |].
  cbn [Py.rstrip_char]. destruct (Py.rstrip_char ch s) as [| c' r'] eqn:E.
  - unfold_app in IH. destruct (Ascii.eqb_spec c ch) as [-> | Hne].
    + exists (S n). unfold_app. cbn [pad]. rewrite <- IH. reflexivity.
    + exists n. unfold_app. rewrite <- IH. reflexivity.
  - exists n. unfold_app. unfold_app in IH. rewrite <- IH. reflexivity.
Qed.

Lemma rstrip_char_inj ch s s' :
  String.length s = String.length s' ->
  Py.rstrip_char ch s = Py.rstrip_char ch s' -> s = s'.
Proof.
  intros Hlen Hstrip.
  destruct (rstrip_char_pad ch s) as [n Hs], (rstrip_char_pad ch s') as [n' Hs'].
  rewrite Hs, Hs', !length_app_s, !pad_length, Hstrip in Hlen.
  rewrite Hs, Hs', Hstrip. f_equal. f_equal. lia.
Qed.

Lemma b64url_ascii c : is_b64url c = true -> Py.is_ascii_char c = true.
Proof. destruct c as [[] [] [] [] [] [] [] []]; vm_compute; congruence. Qed.

Lemma b64url_not_colon c : is_b64url c = true -> negb (Ascii.eqb c ":") = true.
Proof. destruct c as [[] [] [] [] [] [] [] []]; vm_compute; congruence. Qed.

Section Laws.
Context {V : Type} (lib : Library V) (laws : Lawful lib).

Lemma b64_is_ascii b : Py.is_ascii (urlsafe_b64encode lib b) = true.
Proof.
  rewrite is_ascii_all. eapply all_chars_weaken; [apply b64url_ascii |].
  apply (b64_alphabet lib laws).
Qed.

Lemma b64_free b : free_of ":" (urlsafe_b64encode lib b) = true.
Proof.
  eapply all_chars_weaken; [apply b64url_not_colon |]. apply (b64_alphabet lib laws).
Qed.

(** The signature of a text, as a total function. *)
Definition signature (c : SecureCookie) (m : string) : string :=
  Py.rstrip_char "="
    (urlsafe_b64encode lib (hmac_sha256 lib (_secret_key c) (Py.utf8_encode m))).

Lemma create_signature_eq c m : _create_signature lib c m = Some (signature c m).
Proof.
  unfold _create_signature, Py.ascii_codec. rewrite b64_is_ascii. reflexivity.
Qed.

Lemma signature_free c m : free_of ":" (signature c m) = true.
Proof. apply all_chars_rstrip, b64_free. Qed.

Lemma signature_ascii c m : Py.is_ascii (signature c m) = true.
Proof.
  rewrite is_ascii_all. apply all_chars_rstrip. rewrite <- is_ascii_all.
  apply b64_is_ascii.
Qed.

Lemma signature_length c m m' :
  String.length (signature c m) = String.length (signature c m').
Proof. apply (b64_unpadded_length lib laws), (hmac_length lib laws). Qed.

(** Two texts have the same signature only if they have the same digest. *)
Lemma signature_inj c m m' :
  signature c m = signature c m' ->
  hmac_sha256 lib (_secret_key c) (Py.utf8_encode m)
  = hmac_sha256 lib (_secret_key c) (Py.utf8_encode m').
Proof.
  unfold signature. intros H. apply rstrip_char_inj in H.
  - apply (f_equal (urlsafe_b64decode lib)) in H.
    rewrite !(b64_round_trip lib laws) in H. congruence.
  - apply (b64_length lib laws), (hmac_length lib laws).
Qed.

(** The token that [sign] builds. *)
Lemma sign_eq c now value :
  sign lib c now value
  = Some (Py.str_of_Z now +:+ String ":" (value +:+ String ":"
            (signature c (Py.str_of_Z now +:+ ":" +:+ value)))).
Proof.
  unfold sign. rewrite create_signature_eq. simpl. f_equal.
  rewrite !app_assoc_s. reflexivity.
Qed.

(** [unsign] gives back what [sign] signed, when no [max_age] is given. *)
Lemma unsign_sign c now now' value token :
  free_of ":" value = true ->
  sign lib c now value = Some token ->
  unsign lib c now' token None = Ok (Some value).
Proof.
  intros Hv. rewrite sign_eq. intros [= <-]. unfold unsign.
  rewrite rsplit2_three by (try exact Hv; apply signature_free).
  rewrite create_signature_eq. unfold Py.compare_digest_str.
  rewrite signature_ascii. simpl. rewrite String.eqb_refl. reflexivity.
Qed.

Lemma unsign_reject c now t max_age a b sg :
  Py.rsplit2 ":" t = [a; b; sg] ->
  sg <> signature c (a +:+ ":" +:+ b) ->
  unsign lib c now t max_age = Ok None.
Proof.
  intros Hparts Hne. unfold unsign. rewrite Hparts, create_signature_eq.
  unfold Py.compare_digest_str.
  destruct (Py.is_ascii sg && _); [| reflexivity].
  destruct (String.eqb_spec sg (signature c (a +:+ ":" +:+ b))); [contradiction | reflexivity].
Qed.

Lemma unsign_two_fields c now t max_age a b :
  Py.rsplit2 ":" t = [a; b] -> unsign lib c now t max_age = Ok None.
Proof. intros Hparts. unfold unsign. rewrite Hparts. reflexivity. Qed.

(** Flipping one bit of a signed token makes [unsign] fail, unless the flip
    produced another text with the same signature. *)
Lemma unsign_flipped c now now' value token i b max_age :
  free_of ":" value = true ->
  sign lib c now value = Some token ->
  (i < String.length token)%nat -> (b < 8)%nat ->
  (forall m m', signed_text token = Some m ->
                signed_text (flip_at i b token) = Some m' ->
                m' <> m -> signature c m' <> signature c m) ->
  unsign lib c now' (flip_at i b token) max_age = Ok None.
Proof.
  intros Hv. rewrite sign_eq. intros [= <-].
  set (ts := Py.str_of_Z now).
  set (m := ts +:+ ":" +:+ value).
  set (sg := signature c m).
  assert (Hts : free_of ":" ts = true) by apply str_of_Z_free.
  assert (Hsg : free_of ":" sg = true) by apply signature_free.
  assert (Htok : ts +:+ String ":" (value +:+ String ":" sg) = m +:+ String ":" sg).
  { unfold m. rewrite !app_assoc_s. reflexivity. }
  assert (Hm : m = ts +:+ String ":" value) by reflexivity.
  assert (Hst : signed_text (m +:+ String ":" sg) = Some m).
  { rewrite <- Htok. unfold signed_text. rewrite rsplit2_three by assumption. reflexivity. }
  rewrite Htok. intros Hi Hb Hcoll.
  rewrite length_app_s in Hi. simpl in Hi.
  destruct (Nat.lt_trichotomy i (String.length m)) as [Hlt | [Heq | Hgt]].
  - (* the flip is inside the signed text *)
    rewrite flip_at_app_l in * by exact Hlt.
    set (m1 := flip_at i b m) in *.
    assert (Hm1 : m1 <> m) by (apply flip_at_neq; assumption).
    assert (Hp : Py.rpartition ":" (m1 +:+ String ":" sg) = Some (m1, sg))
      by (apply rpartition_last, Hsg).
    destruct (Py.rpartition ":" m1) as [[a b'] |] eqn:E.
    + assert (Hparts : Py.rsplit2 ":" (m1 +:+ String ":" sg) = [a; b'; sg]).
      { unfold Py.rsplit2. rewrite Hp, E. reflexivity. }
      apply rpartition_Some in E as [E _].
      assert (Hab : a +:+ ":" +:+ b' = m1) by (rewrite E; reflexivity).
      eapply unsign_reject; [exact Hparts |]. rewrite Hab.
      intros Hsame. apply (Hcoll m m1 Hst); [| exact Hm1 | symmetry; exact Hsame].
      unfold signed_text. rewrite Hparts, Hab. reflexivity.
    + apply (unsign_two_fields _ _ _ _ m1 sg).
      unfold Py.rsplit2. rewrite Hp, E. reflexivity.
  - (* the flip turns the last separator into another character *)
    rewrite flip_at_app_r by lia. rewrite Heq, Nat.sub_diag. simpl flip_at.
    set (c' := flip_bit b ":").
    assert (Hc' : negb (Ascii.eqb c' ":") = true).
    { destruct (Ascii.eqb_spec c' ":") as [H |]; [| reflexivity].
      exfalso. exact (flip_bit_neq b ":" Hb H). }
    rewrite Hm, app_assoc_s. unfold_app.
    assert (Hrest : free_of ":" (value +:+ String c' sg) = true).
    { unfold free_of. rewrite all_chars_app. simpl.
      fold (free_of ":" value). fold (free_of ":" sg). rewrite Hv, Hc', Hsg. reflexivity. }
    apply (unsign_two_fields _ _ _ _ ts (value +:+ String c' sg)).
    unfold Py.rsplit2. rewrite (rpartition_last ":" ts _ Hrest).
    apply rpartition_None in Hts. rewrite Hts. reflexivity.
  - (* the flip is inside the signature *)
    rewrite flip_at_app_r by lia.
    replace (i - String.length m)%nat with (S (i - String.length m - 1)) by lia.
    simpl flip_at.
    set (j := (i - String.length m - 1)%nat).
    set (sg1 := flip_at j b sg).
    assert (Hsg1 : sg1 <> sg) by (apply flip_at_neq; [unfold j; lia | exact Hb]).
    assert (Hlen : String.length sg1 = String.length sg) by apply flip_at_length.
    destruct (Py.rpartition ":" sg1) as [[sA sB] |] eqn:E.
    + apply rpartition_Some in E as [E HsB].
      assert (Ht' : m +:+ String ":" sg1 = (m +:+ String ":" sA) +:+ String ":" sB).
      { rewrite E, app_assoc_s. reflexivity. }
      rewrite Ht'.
      assert (Hp : Py.rpartition ":" ((m +:+ String ":" sA) +:+ String ":" sB)
                   = Some (m +:+ String ":" sA, sB))
        by (apply rpartition_last, HsB).
      destruct (Py.rpartition ":" (m +:+ String ":" sA)) as [[a b'] |] eqn:E2.
      * eapply unsign_reject.
        -- unfold Py.rsplit2. rewrite Hp, E2. reflexivity.
        -- intros Hsame. apply (f_equal String.length) in Hsame.
           rewrite (signature_length c _ m) in Hsame. fold sg in Hsame.
           rewrite <- Hlen, E, length_app_s in Hsame. simpl in Hsame. lia.
      * apply (unsign_two_fields _ _ _ _ (m +:+ String ":" sA) sB).
        unfold Py.rsplit2. rewrite Hp, E2. reflexivity.
    + apply rpartition_None in E.
      eapply unsign_reject.
      * rewrite Hm, app_assoc_s. unfold_app. apply rsplit2_three; assumption.
      * exact Hsg1.
Qed.

(** The token of [encode_value], and what [decode_value] does with it when
    no [max_age] is given. *)
Lemma decode_encode c now now' v json_data :
  json_dumps lib v = Some json_data ->
  exists token,
    encode_value lib c now v = Some token
    /\ sign lib c now (urlsafe_b64encode lib (Py.utf8_encode json_data)) = Some token
    /\ decode_value lib c now' token None = Ok (json_loads lib json_data).
Proof.
  intros Hdumps.
  set (encoded := urlsafe_b64encode lib (Py.utf8_encode json_data)).
  assert (Henc : Py.ascii_codec encoded = Some encoded).
  { unfold Py.ascii_codec, encoded. rewrite b64_is_ascii. reflexivity. }
  assert (Hfree : free_of ":" encoded = true) by apply b64_free.
  destruct (sign lib c now encoded) as [token |] eqn:Hsign;
    [| rewrite sign_eq in Hsign; discriminate].
  exists token. repeat split.
  - unfold encode_value. rewrite Hdumps. simpl. fold encoded. rewrite Henc. exact Hsign.
  - unfold decode_value. rewrite (unsign_sign c now now' encoded token Hfree Hsign).
    rewrite Henc. simpl. unfold encoded.
    rewrite (b64_round_trip lib laws). simpl.
    rewrite (utf8_round_trip lib laws). reflexivity.
Qed.

(** A token with one bit flipped is rejected, unless the flipped text has
    the HMAC-SHA256 digest of the signed one. *)
Lemma decode_flipped c now now' value token i b max_age :
  free_of ":" value = true ->
  sign lib c now value = Some token ->
  (i < String.length token)%nat -> (b < 8)%nat ->
  (forall m m', signed_text token = Some m ->
                signed_text (flip_at i b token) = Some m' ->
                m' <> m ->
                hmac_sha256 lib (_secret_key c) (Py.utf8_encode m')
                <> hmac_sha256 lib (_secret_key c) (Py.utf8_encode m)) ->
  decode_value lib c now' (flip_at i b token) max_age = Ok None.
Proof.
  intros Hfree Hsign Hi Hb Hcoll. unfold decode_value.
  rewrite (unsign_flipped c now now' value token i b max_age Hfree Hsign Hi Hb);
    [reflexivity |].
  intros m m' Hm Hm' Hne Hsame. apply (Hcoll m m' Hm Hm' Hne).
  apply signature_inj, Hsame.
Qed.

End Laws.

Section Json.
Context (lib : Library pyvalue) (laws : Lawful lib) (json_laws : JsonLaws lib).

(** A tuple comes back as a list. *)
Lemma tuple_decoded_as_list c now now' items json_data :
  json_native (PyList items) = true ->
  json_dumps lib (PyList items) = Some json_data ->
  exists token,
    encode_value lib c now (PyTuple items) = Some token
    /\ decode_value lib c now' token None = Ok (Some (PyList items)).
Proof.
  intros Hnative Hdumps.
  destruct (decode_encode lib laws c now now' (PyTuple items) json_data)
    as (token & Henc & _ & Hdec).
  { rewrite (json_tuple_as_list lib json_laws). exact Hdumps. }
  exists token. split; [exact Henc |].
  rewrite Hdec, (json_round_trip lib json_laws _ _ Hnative Hdumps). reflexivity.
Qed.


End Json.

(** *** A small lawful library, to run the codec

    Stand-ins for the external functions: a value is a string that is its own
    JSON text, bytes are written as two hexadecimal digits each in place of
    base64, and the digest is a one-byte checksum of key and message. *)

Definition hex_digit (n : nat) : ascii :=
  ascii_of_nat (if (n <? 10)%nat then 48 + n else 87 + n).

Definition hex_value (c : ascii) : option nat :=
  let n := nat_of_ascii c in
  if Py.is_digit c then Some (n - 48)%nat
  else if ((97 <=? n) && (n <=? 102))%nat then Some (n - 87)%nat
  else None.

Fixpoint hex_encode (b : string) : string :=
  match b with
  | EmptyString => EmptyString
  | String c r =>
      String (hex_digit (nat_of_ascii c / 16))
             (String (hex_digit (nat_of_ascii c mod 16)) (hex_encode r))
  end.

Fixpoint hex_decode (s : string) : option string :=
  match s with
  | EmptyString => Some EmptyString
  | String h (String l r) =>
      hi ← hex_value h; lo ← hex_value l; rest ← hex_decode r;
      Some (String (ascii_of_nat (16 * hi + lo)) rest)
  | String _ EmptyString => None
  end.

Fixpoint utf8_decode_latin (s : string) : option string :=
  match s with
  | EmptyString => Some EmptyString
  | String b1 r =>
      if (nat_of_ascii b1 <? 128)%nat then String b1 <$> utf8_decode_latin r
      else match r with
           | String b2 r' =>
               String (ascii_of_nat ((nat_of_ascii b1 - 192) * 64
                                     + (nat_of_ascii b2 - 128)))
                 <$> utf8_decode_latin r'
           | EmptyString => None
           end
  end.

Fixpoint checksum (s : string) : nat :=
  match s with
  | EmptyString => 0
  | String c r => nat_of_ascii c + checksum r
  end.

Definition demo_library : Library string :=
  mkLibrary string
    (fun key msg => String (ascii_of_nat ((checksum key + checksum msg) mod 256)) "")
    hex_encode hex_decode utf8_decode_latin Some Some.

Lemma hex_round_trip b : hex_decode (hex_encode b) = Some b.
Proof.
  induction b as [| c b IH]; [reflexivity |].
  cbn [hex_encode hex_decode]. rewrite IH.
  destruct c as [[] [] [] [] [] [] [] []]; reflexivity.
Qed.

Lemma hex_alphabet b : all_chars is_b64url (hex_encode b) = true.
Proof.
  induction b as [| c b IH]; [reflexivity |].
  cbn [hex_encode all_chars]. rewrite IH.
  destruct c as [[] [] [] [] [] [] [] []]; reflexivity.
Qed.

Lemma hex_length b : String.length (hex_encode b) = (2 * String.length b)%nat.
Proof. induction b as [| c b IH]; simpl; [reflexivity | rewrite IH; lia]. Qed.

Lemma rstrip_hex b : Py.rstrip_char "=" (hex_encode b) = hex_encode b.
Proof.
  induction b as [| c b IH]; [reflexivity |].
  cbn [hex_encode Py.rstrip_char]. rewrite IH.
  destruct b as [| d b].
  - destruct c as [[] [] [] [] [] [] [] []]; reflexivity.
  - cbn [hex_encode]. reflexivity.
Qed.

Lemma utf8_decode_latin_encode s : utf8_decode_latin (Py.utf8_encode s) = Some s.
Proof.
  induction s as [| c s IH]; [reflexivity |].
  assert (H : utf8_decode_latin (Py.utf8_encode (String c s))
              = String c <$> utf8_decode_latin (Py.utf8_encode s))
    by (destruct c as [[] [] [] [] [] [] [] []]; reflexivity).
  rewrite H, IH. reflexivity.
Qed.

Lemma demo_lawful : Lawful demo_library.
Proof.
  constructor; simpl.
  - apply hex_round_trip.
  - apply hex_alphabet.
  - intros b b' H. rewrite !hex_length. lia.
  - intros b b' H. rewrite !rstrip_hex, !hex_length. lia.
  - reflexivity.
  - apply utf8_decode_latin_encode.
Qed.

Definition demo_key : string := "0123456789abcdef".
Definition demo_codec : SecureCookie := mkSecureCookie demo_key.

Example demo_token :
  encode_value demo_library demo_codec 1700000000 "{}" = Some "1700000000:7b7d:b8".
Proof. vm_compute. reflexivity. Qed.

(** A flipped payload bit of the demonstration token is rejected. *)
Example demo_flip :
  flip_at 12 0 "1700000000:7b7d:b8" = "1700000000:7c7d:b8"
  /\ decode_value demo_library demo_codec (1700000100 # 1)
                  "1700000000:7c7d:b8" None = Ok None.
Proof. vm_compute. split; reflexivity. Qed.

(** *** A stand-in for [json], on Python values

    It writes [None], the booleans and the integers from 0 to 9 as one
    character each, and a list or a tuple of such values as these characters
    between brackets; it refuses every other value. *)

Definition atom_char (v : pyvalue) : option ascii :=
  match v with
  | PyNone => Some "n"%char
  | PyBool true => Some "t"%char
  | PyBool false => Some "f"%char
  | PyInt z => if (0 <=? z) && (z <=? 9) then Some (ascii_of_nat (48 + Z.to_nat z)) else None
  | _ => None
  end.

Definition atom_of_char (c : ascii) : option pyvalue :=
  if Ascii.eqb c "n" then Some PyNone
  else if Ascii.eqb c "t" then Some (PyBool true)
  else if Ascii.eqb c "f" then Some (PyBool false)
  else if Py.is_digit c then Some (PyInt (Py.digit_value c))
  else None.

Fixpoint items_text (items : list pyvalue) : option string :=
  match items with
  | [] => Some "]"
  | v :: rest =>
      match atom_char v, items_text rest with
      | Some c, Some r => Some (String c r)
      | _, _ => None
      end
  end.

Fixpoint parse_items (s : string) : option (list pyvalue) :=
  match s with
  | EmptyString => None
  | String c r =>
      if Ascii.eqb c "]" then match r with EmptyString => Some [] | _ => None end
      else match atom_of_char c, parse_items r with
           | Some v, Some rest => Some (v :: rest)
           | _, _ => None
           end
  end.

Definition demo_dumps (v : pyvalue) : option string :=
  match v with
  | PyList items | PyTuple items => String "[" <$> items_text items
  | _ => (fun c => String c EmptyString) <$> atom_char v
  end.

Definition demo_loads (s : string) : option pyvalue :=
  match s with
  | String c r =>
      if Ascii.eqb c "[" then PyList <$> parse_items r
      else match r with
           | EmptyString => atom_of_char c
           | _ => None
           end
  | EmptyString => None
  end.

Definition py_library : Library pyvalue :=
  mkLibrary pyvalue
    (fun key msg => String (ascii_of_nat ((checksum key + checksum msg) mod 256)) "")
    hex_encode hex_decode utf8_decode_latin demo_dumps demo_loads.

Lemma py_lawful : Lawful py_library.
Proof.
  constructor; simpl.
  - apply hex_round_trip.
  - apply hex_alphabet.
  - intros b b' H. rewrite !hex_length. lia.
  - intros b b' H. rewrite !rstrip_hex, !hex_length. lia.
  - reflexivity.
  - apply utf8_decode_latin_encode.
Qed.

Lemma atom_round_trip v c :
  atom_char v = Some c ->
  atom_of_char c = Some v /\ Ascii.eqb c "]" = false /\ Ascii.eqb c "[" = false.
Proof.
  destruct v as [| [] | z | | | |]; cbn [atom_char]; try discriminate;
    try (intros [= <-]; repeat split; reflexivity).
  destruct (Z.leb_spec 0 z); [| discriminate].
  destruct (Z.leb_spec z 9); [| discriminate]. cbn [andb]. intros [= <-].
  assert (Hz : z = 0 \/ z = 1 \/ z = 2 \/ z = 3 \/ z = 4 \/ z = 5 \/ z = 6
               \/ z = 7 \/ z = 8 \/ z = 9) by lia.
  repeat (destruct Hz as [-> | Hz]; [repeat split; reflexivity |]).
  subst. repeat split; reflexivity.
Qed.

Lemma items_round_trip items : forall s,
  items_text items = Some s -> parse_items s = Some items.
Proof.
  induction items as [| v items IH]; intros s; cbn [items_text].
  - intros [= <-]. reflexivity.
  - destruct (atom_char v) as [c |] eqn:Hc; [| discriminate].
    destruct (items_text items) as [r |]; [| discriminate]. intros [= <-].
    destruct (atom_round_trip v c Hc) as (Hv & Hb & _).
    cbn [parse_items]. rewrite Hb, Hv, (IH r eq_refl). reflexivity.
Qed.

Lemma py_json_laws : JsonLaws py_library.
Proof.
  constructor; simpl.
  - intros v s Hnative. destruct v as [| b | z | t | items | items | items];
      try discriminate; unfold demo_dumps, demo_loads.
    + cbn. intros [= <-]. reflexivity.
    + destruct b; cbn; intros [= <-]; reflexivity.
    + destruct (atom_char (PyInt z)) as [c |] eqn:Hc; [| discriminate].
      cbn. intros [= <-]. destruct (atom_round_trip _ _ Hc) as (Hv & _ & Hb).
      rewrite Hb. exact Hv.
    + destruct (items_text items) as [r |] eqn:Hr; [| discriminate].
      cbn. intros [= <-]. rewrite (items_round_trip items r Hr). reflexivity.
  - reflexivity.
Qed.



(** ** Key length *)

(** C7, as stated, fails: the codec is constructed from a five-character
    key, and signs with it. *)
Lemma C7_codec_accepts_short_key :
  Py.len "short" = 5
  /\ init "short" = Ok (mkSecureCookie "short")
  /\ sign demo_library (mkSecureCookie "short") 1700000000 "abc"
     = Some "1700000000:abc:78"
  /\ ~ (forall key, Py.len key < 16 -> exists e, init key = Raise e).
Proof.
  repeat split; try (vm_compute; reflexivity).
  intros H. destruct (H "short") as [e He]; [vm_compute; reflexivity | discriminate].
Qed.

(** C7 (amended): the length of the secret key is checked by the
    application constructor: [Thor(secret_key=k)] fails for a key of fewer
    than 16 characters and succeeds otherwise, whereas the codec is
    constructed from a key of any length and signs with that key. *)
Theorem C7_key_length_checked_by_application {V : Type} (lib : Library V)
    debug title version key :
  (Py.len key < 16 -> App.init debug title version (Some key) = Raise ValueError)
  /\ (16 <= Py.len key ->
      exists a, App.init debug title version (Some key) = Ok a
                /\ App.secret_key a = Some key)
  /\ init key = Ok (mkSecureCookie (Py.utf8_encode key))
  /\ forall now value,
       sign lib (mkSecureCookie (Py.utf8_encode key)) now value
       = (fun signature => Py.str_of_Z now +:+ ":" +:+ value +:+ ":" +:+ signature)
           <$> (Py.rstrip_char "="
                  <$> Py.ascii_codec
                        (urlsafe_b64encode lib
                           (hmac_sha256 lib (Py.utf8_encode key)
                              (Py.utf8_encode (Py.str_of_Z now +:+ ":" +:+ value))))).
Proof.
  unfold App.init, App._MIN_SECRET_KEY_LENGTH. repeat split.
  - intros H. destruct (Z.ltb_spec (Py.len key) 16); [reflexivity | lia].
  - intros H. destruct (Z.ltb_spec (Py.len key) 16); [lia |]. eauto.
  - intros now value. unfold sign, _create_signature. cbn [_secret_key].
    destruct (Py.ascii_codec _); cbn; [| reflexivity].
    rewrite !app_assoc_s. reflexivity.
Qed.

Lemma C7_key_length_checked_by_application_witness :
  App.init false "Thor API" "1.0.0" (Some "short") = Raise ValueError.
Proof.
  apply (proj1 (C7_key_length_checked_by_application demo_library
                  false "Thor API" "1.0.0" "short")).
  vm_compute. reflexivity.
Defined.

(** A middleware that needs a secret is refused only when the application
    has no key at all; the key passed to the middleware itself is not
    measured. *)
Example session_middleware_short_key :
  exists a a',
    App.init false "Thor API" "1.0.0" (Some "0123456789abcdef") = Ok a
    /\ App.add_middleware a "SessionMiddleware" (Some "short") = Ok a'
    /\ App.session_codec "short" = Ok (mkSecureCookie "short").
Proof. eexists _, _. repeat split; vm_compute; reflexivity. Qed.

End CodecProps.

(** ** Lifespan *)

Module LifespanProps.
Import Lifespan.

Definition db_lifespan : Lifespan :=
  on_shutdown (on_shutdown (on_startup (mkLifespan [] [] None) "open_db") "flush") "close_db".

Definition idle_handler : LifespanProtocolHandler :=
  mkHandler db_lifespan (30 # 1) 0 false.

Definition busy_handler : LifespanProtocolHandler :=
  mkHandler db_lifespan (30 # 1) 2 false.

(** Without a context manager, the handler's trace on a shutdown message:
    the completion message comes before every shutdown handler. *)
Lemma shutdown_trace h in_time before after :
  _context_manager (_lifespan h) = None ->
  Forall (fun m => m <> LifespanShutdown) before ->
  exists startups,
    _handle_lifespan h in_time (before ++ LifespanShutdown :: after)
    = map Ran (_startup_handlers (_lifespan h)) ++ startups
      ++ [MarkedShuttingDown] ++ _drain_requests h in_time
      ++ [Sent ShutdownComplete]
      ++ map Ran (rev (_shutdown_handlers (_lifespan h))).
Proof.
  intros Hcm Hbefore. unfold _handle_lifespan, enter, exit, startup, shutdown.
  rewrite Hcm.
  assert (H : exists startups,
             lifespan_loop h in_time (before ++ LifespanShutdown :: after)
             = (startups ++ [MarkedShuttingDown] ++ _drain_requests h in_time
                ++ [Sent ShutdownComplete], true)).
  { induction Hbefore as [| m before Hm _ IH].
    - exists []. reflexivity.
    - destruct IH as [startups IH].
      destruct m as [| | type]; [| congruence |].
      + exists (Sent StartupComplete :: startups).
        cbn [app lifespan_loop]. rewrite IH. reflexivity.
      + exists startups. cbn [app lifespan_loop]. exact IH. }
  destruct H as [startups ->]. exists startups.
  rewrite <- !app_assoc. reflexivity.
Qed.

(** C9 fails on the code: with two registered shutdown handlers, the trace
    of the lifespan handler on [lifespan.startup] then [lifespan.shutdown]
    sets the flag, awaits the in-flight requests and sends
    [lifespan.shutdown.complete] before either shutdown handler has run. *)
Theorem C9_shutdown_complete_precedes_handlers :
  _handle_lifespan busy_handler true [LifespanStartup; LifespanShutdown]
  = [Ran "open_db"; Sent StartupComplete; MarkedShuttingDown; Drained 2 false;
     Sent ShutdownComplete; Ran "close_db"; Ran "flush"]
  /\ position (is_sent ShutdownComplete)
       (_handle_lifespan busy_handler true [LifespanStartup; LifespanShutdown])
     = Some 4%nat
  /\ position (is_ran "close_db")
       (_handle_lifespan busy_handler true [LifespanStartup; LifespanShutdown])
     = Some 5%nat
  /\ position (is_ran "flush")
       (_handle_lifespan busy_handler true [LifespanStartup; LifespanShutdown])
     = Some 6%nat.
Proof. vm_compute. repeat split; reflexivity. Qed.

End LifespanProps.

(** ** Routing *)

Module RoutingProps.
Import Asgi Routing StrProps.

(** *** Registration order and the dirty flag *)

Definition get : option (list string) := Some ["GET"].

(** [child = Router(); child.add_route("/bar", h, ["GET"])]. *)
Definition child : result Router := add_route (new_router "") "/bar" "bar_handler" get None.

(** [parent.include_router(child, "/foo")] and then
    [parent.add_route("/x", h, ["GET"])]. *)
Definition include_then_add : result Router :=
  match child with
  | Ok c => add_route (include_router (new_router "") c "/foo") "/x" "x_handler" get None
  | Raise e => Raise e
  end.

(** The same two registrations in the other order. *)
Definition add_then_include : result Router :=
  match child, add_route (new_router "") "/x" "x_handler" get None with
  | Ok c, Ok p => Ok (include_router p c "/foo")
  | Raise e, _ | _, Raise e => Raise e
  end.

Definition flattened (r : result Router) : list string :=
  match r with
  | Ok r => match all_routes r with
            | Ok rs => map path rs
            | Raise _ => []
            end
  | Raise _ => []
  end.

Definition resolve (r : result Router) (p method : string) : option lookup :=
  match r with
  | Ok r => match router_match r p method with
            | Ok (l, _) => l
            | Raise _ => None
            end
  | Raise _ => None
  end.

Definition found_path (l : option lookup) : option string :=
  match l with
  | Some (Found route _) => Some (path route)
  | _ => None
  end.

(** C2 fails on the code: after [include_router] followed by [add_route],
    the flattened route list holds [/foo/bar], yet the lookup of
    [GET /foo/bar] is not-found, because [add_route] clears the dirty flag
    that [include_router] had set; in the other order the route is found. *)
Theorem C2_add_route_after_include_hides_subrouter :
  flattened include_then_add = ["/x"; "/foo/bar"]
  /\ resolve include_then_add "/foo/bar" "GET" = Some NotFound
  /\ found_path (resolve include_then_add "/x" "GET") = Some "/x"
  /\ (_tree_dirty <$> (match include_then_add with Ok r => Some r | _ => None end))
     = Some false
  /\ found_path (resolve add_then_include "/foo/bar" "GET") = Some "/foo/bar".
Proof. vm_compute. repeat split; reflexivity. Qed.

(** When the flag is set, the lookup is made in the tree of the flattened
    route list. *)
Lemma dirty_router_rebuilds r p method upper_method rs :
  _tree_dirty r = true ->
  all_routes r = Ok rs ->
  Py.upper method = Some upper_method ->
  fst <$> (match router_match r p method with Ok x => Some x | Raise _ => None end)
  = Some (search (tree_of rs) p upper_method).
Proof.
  intros Hd Hrs Hup. unfold router_match, _rebuild_tree. rewrite Hd, Hrs, Hup. reflexivity.
Qed.

(** *** The search loop as a depth-first enumeration *)

(** The terminal nodes that the search reaches from a node, in the order in
    which it reaches them (static child first), each with the parameters
    accumulated on the way. *)
Fixpoint terms (n : node) (segs : list string) (ps : params)
    : list (list Route * params) :=
  match segs with
  | [] => [(routes n, ps)]
  | seg :: rest =>
      match children n !! seg with
      | Some child => terms child rest ps
      | None => []
      end
      ++ match try_param n O ps seg with
         | Some (pnode, _, ps') => terms pnode rest ps'
         | None => []
         end
  end.

(** The route loops of the reached terminal nodes, one after the other. *)
Fixpoint scan_all (method : string) (entries : list (list Route * params))
    (matched : option Route) : lookup :=
  match entries with
  | [] => match matched with
          | Some _ => MethodNotAllowed
          | None => NotFound
          end
  | (rts, ps) :: rest =>
      match scan_routes method rts matched with
      | inl route => Found route ps
      | inr matched' => scan_all method rest matched'
      end
  end.

Section Loop.
Variables (segments : list string) (method : string).

Definition pending (entry : node * nat * params) : list (list Route * params) :=
  let '(n, idx, ps) := entry in terms n (drop idx segments) ps.

Definition weight (entry : node * nat * params) : nat :=
  let '(_, idx, _) := entry in 2 ^ S (List.length segments - idx) - 1.

Definition in_range (entry : node * nat * params) : Prop :=
  let '(_, idx, _) := entry in (idx <= List.length segments)%nat.

Fixpoint total_weight (stack : list (node * nat * params)) : nat :=
  match stack with
  | [] => 0
  | e :: rest => weight e + total_weight rest
  end.

Lemma try_param_idx n idx ps seg :
  try_param n idx ps seg
  = (fun e : node * nat * params => let '(pn, _, ps') := e in (pn, S idx, ps'))
      <$> try_param n O ps seg.
Proof.
  unfold try_param. destruct (param_child n) as [pn |]; [| reflexivity].
  destruct (placeholder (segment pn)) as [[pname ty] |]; [| reflexivity].
  destruct (default fullmatch_str _ seg); [| reflexivity].
  destruct (default _ (TYPE_CONVERTERS _) seg); reflexivity.
Qed.

Lemma pow2_pos k : (1 <= 2 ^ k)%nat.
Proof. induction k as [| k IH]; simpl; lia. Qed.

(** The loop computes the scan of the terminal nodes pending on the stack. *)
Lemma search_loop_terms fuel : forall stack matched,
  Forall in_range stack ->
  (total_weight stack < fuel)%nat ->
  search_loop fuel segments method stack matched
  = Some (scan_all method (flat_map pending stack) matched).
Proof.
  induction fuel as [| fuel IH]; intros stack matched Hrange Hfuel; [lia |].
  destruct stack as [| [[n idx] ps] stack]; [reflexivity |].
  apply Forall_cons in Hrange as [Hidx Hrange]. simpl in Hidx.
  cbn [search_loop flat_map pending total_weight weight] in *.
  destruct (Nat.eqb_spec idx (List.length segments)) as [-> | Hne].
  - rewrite drop_all. cbn [terms app scan_all].
    destruct (scan_routes method (routes n) matched) as [route | matched'];
      [reflexivity |].
    apply IH; [exact Hrange |].
    rewrite Nat.sub_diag in Hfuel. simpl in Hfuel. lia.
  - assert (Hlt : (idx < List.length segments)%nat) by lia.
    destruct (segments !! idx) as [seg |] eqn:Hseg;
      [| apply lookup_ge_None in Hseg; lia].
    rewrite (drop_S _ _ _ Hseg). cbn [terms].
    assert (Hw : (2 ^ S (List.length segments - idx)
                  = 2 * 2 ^ S (List.length segments - S idx))%nat).
    { replace (List.length segments - idx)%nat
        with (S (List.length segments - S idx)) by lia.
      rewrite Nat.pow_succ_r'. reflexivity. }
    pose proof (pow2_pos (S (List.length segments - S idx))) as Hpos.
    rewrite try_param_idx.
    destruct (try_param n O ps seg) as [[[pn i'] ps'] |];
      destruct (children n !! seg) as [child |]; cbn [fmap option_fmap option_map].
    + rewrite IH.
      * cbn [flat_map pending]. rewrite <- !app_assoc. reflexivity.
      * repeat constructor; simpl; try lia; exact Hrange.
      * cbn [total_weight weight]. lia.
    + rewrite IH.
      * cbn [flat_map pending]. reflexivity.
      * repeat constructor; simpl; try lia; exact Hrange.
      * cbn [total_weight weight]. lia.
    + rewrite IH.
      * cbn [flat_map pending]. rewrite app_nil_r. reflexivity.
      * repeat constructor; simpl; try lia; exact Hrange.
      * cbn [total_weight weight]. lia.
    + rewrite IH.
      * reflexivity.
      * exact Hrange.
      * lia.
Qed.

End Loop.

(** [RadixTree.search] always returns: the scan of the terminal nodes that
    the depth-first walk reaches. *)
Lemma search_terms root p method :
  search root p method = Some (scan_all method (terms root (_split p) ∅) None).
Proof.
  unfold search. rewrite search_loop_terms.
  - cbn [flat_map pending]. rewrite drop_0, app_nil_r. reflexivity.
  - repeat constructor. simpl. lia.
  - cbn [total_weight weight]. unfold enough_fuel.
    rewrite Nat.sub_0_r, Nat.add_0_r.
    replace (List.length (_split p) + 2)%nat with (S (S (List.length (_split p)))) by lia.
    rewrite (Nat.pow_succ_r' 2 (S _)).
    pose proof (pow2_pos (S (List.length (_split p)))). lia.
Qed.

(** *** The shape of a tree built by insertion *)

(** The edge that a template segment follows: the static child of that name,
    or the parametric child. *)
Inductive key :=
| KS (s : string)
| KP.

#[local] Instance key_eq_dec : EqDecision key.
Proof. solve_decision. Defined.

Definition key_of (seg : string) : key := if _is_param seg then KP else KS seg.

Definition keys (segs : list string) : list key := map key_of segs.

Definition child_at (n : node) (k : key) : option node :=
  match k with
  | KS s => children n !! s
  | KP => param_child n
  end.

Fixpoint descend (n : node) (ks : list key) : option node :=
  match ks with
  | [] => Some n
  | k :: ks' => match child_at n k with
                | Some c => descend c ks'
                | None => None
                end
  end.

Definition routes_at (n : node) (ks : list key) : list Route :=
  match descend n ks with
  | Some m => routes m
  | None => []
  end.

Definition seg_at (n : node) (ks : list key) : option string :=
  segment <$> descend n ks.

Lemma descend_app n ks1 ks2 :
  descend n (ks1 ++ ks2) = descend n ks1 ≫= fun m => descend m ks2.
Proof.
  revert n. induction ks1 as [| k ks1 IH]; intros n; simpl; [reflexivity |].
  destruct (child_at n k); simpl; [apply IH | reflexivity].
Qed.

Lemma child_at_insert_same seg rest route n :
  child_at (insert_at (seg :: rest) route n) (key_of seg)
  = Some (insert_at rest route (default (new_node seg) (child_at n (key_of seg)))).
Proof.
  unfold key_of. cbn [insert_at]. destruct (_is_param seg); cbn [child_at param_child children].
  - reflexivity.
  - rewrite lookup_insert_eq. reflexivity.
Qed.

Lemma child_at_insert_other seg rest route n k :
  k <> key_of seg ->
  child_at (insert_at (seg :: rest) route n) k = child_at n k.
Proof.
  unfold key_of. cbn [insert_at]. intros Hk.
  destruct (_is_param seg); destruct k as [s |]; cbn [child_at param_child children];
    try reflexivity; try congruence.
  apply lookup_insert_ne. congruence.
Qed.

Lemma descend_new_node seg k ks : descend (new_node seg) (k :: ks) = None.
Proof. destruct k; reflexivity. Qed.

(** Insertion appends the route at the node of its key path and nowhere
    else. *)
Lemma routes_at_insert segs route : forall n ks,
  routes_at (insert_at segs route n) ks
  = routes_at n ks ++ (if decide (ks = keys segs) then [route] else []).
Proof.
  induction segs as [| seg rest IH]; intros n ks.
  - destruct ks as [| k ks]; unfold routes_at; simpl.
    + reflexivity.
    + rewrite app_nil_r. destruct k; reflexivity.
  - destruct ks as [| k ks].
    + unfold routes_at. cbn [descend keys map]. rewrite decide_False by discriminate.
      rewrite app_nil_r. cbn [insert_at]. destruct (_is_param seg); reflexivity.
    + destruct (decide (k = key_of seg)) as [-> | Hk].
      * unfold routes_at at 1. cbn [descend]. rewrite child_at_insert_same.
        fold (routes_at (insert_at rest route
                (default (new_node seg) (child_at n (key_of seg)))) ks).
        rewrite IH. cbn [keys map]. f_equal.
        -- unfold routes_at. cbn [descend].
           destruct (child_at n (key_of seg)); cbn [default]; [reflexivity |].
           destruct ks; [reflexivity | rewrite descend_new_node; reflexivity].
        -- destruct (decide (ks = keys rest)) as [-> | Hne].
           ++ rewrite decide_True by reflexivity. reflexivity.
           ++ rewrite decide_False by (fold (keys rest); congruence). reflexivity.
      * unfold routes_at. cbn [descend]. rewrite child_at_insert_other by exact Hk.
        cbn [keys map]. rewrite decide_False by congruence.
        rewrite app_nil_r. reflexivity.
Qed.

(** Insertion removes no node, and creates those of its key path. *)
Lemma descend_insert_keeps segs route : forall n ks,
  is_Some (descend n ks) -> is_Some (descend (insert_at segs route n) ks).
Proof.
  induction segs as [| seg rest IH]; intros n ks Hks.
  - destruct ks as [| k ks]; simpl; [eauto |]. destruct k; exact Hks.
  - destruct ks as [| k ks]; [simpl; eauto |].
    cbn [descend] in *. destruct (decide (k = key_of seg)) as [-> | Hk].
    + rewrite child_at_insert_same. apply IH.
      destruct (child_at n (key_of seg)); [exact Hks | destruct Hks; discriminate].
    + rewrite child_at_insert_other by exact Hk. exact Hks.
Qed.

Lemma descend_insert_creates segs route : forall n i,
  is_Some (descend (insert_at segs route n) (keys (take i segs))).
Proof.
  induction segs as [| seg rest IH]; intros n i.
  - rewrite take_nil. simpl. eauto.
  - destruct i as [| i]; [simpl; eauto |].
    cbn [take keys map descend]. rewrite child_at_insert_same. apply IH.
Qed.

(** The segment of a node is the template segment of a route that was
    inserted through it. *)
Lemma seg_at_insert segs route : forall n ks text,
  ks <> [] ->
  seg_at (insert_at segs route n) ks = Some text ->
  seg_at n ks = Some text
  \/ exists i, ks = keys (take (S i) segs) /\ segs !! i = Some text.
Proof.
  induction segs as [| seg rest IH]; intros n ks text Hks.
  - destruct ks as [| k ks]; [congruence |].
    unfold seg_at. cbn [descend]. destruct k; intros H; left; exact H.
  - destruct ks as [| k ks]; [congruence |].
    unfold seg_at. cbn [descend].
    destruct (decide (k = key_of seg)) as [-> | Hk].
    + rewrite child_at_insert_same.
      destruct ks as [| k' ks].
      * cbn [descend fmap option_fmap option_map].
        destruct (child_at n (key_of seg)) as [c |] eqn:Hc; cbn [default].
        -- intros H. left. rewrite <- H.
           destruct rest; cbn [insert_at]; [reflexivity |].
           destruct (_is_param _); reflexivity.
        -- intros H. right. exists O. split; [reflexivity |].
           rewrite <- H. destruct rest; cbn [insert_at]; [reflexivity |].
           destruct (_is_param _); reflexivity.
      * intros H.
        destruct (IH (default (new_node seg) (child_at n (key_of seg))) (k' :: ks) text
                     ltac:(discriminate) H) as [Hold | (i & Hi & Htext)].
        -- left. destruct (child_at n (key_of seg)) as [c |]; cbn [default] in Hold;
             [exact Hold |].
           unfold seg_at in Hold. rewrite descend_new_node in Hold. discriminate.
        -- right. exists (S i). split; [| exact Htext].
           cbn [take keys map]. fold (keys (take (S i) rest)). rewrite Hi. reflexivity.
    + rewrite child_at_insert_other by exact Hk. intros H. left. exact H.
Qed.

(** The template segments of a route. *)
Definition tsegs (r : Route) : list string := _split (path r).

Lemma tree_of_snoc rs r : tree_of (rs ++ [r]) = insert r (tree_of rs).
Proof. unfold tree_of. rewrite foldl_snoc. reflexivity. Qed.

(** T1: a node holds the routes of its key path, in registration order. *)
Lemma routes_at_tree rs ks :
  routes_at (tree_of rs) ks
  = List.filter (fun r => bool_decide (keys (tsegs r) = ks)) rs.
Proof.
  induction rs as [| r rs IH] using rev_ind.
  - unfold routes_at. destruct ks as [| k ks]; [reflexivity |].
    unfold tree_of. cbn [foldl]. rewrite descend_new_node. reflexivity.
  - rewrite tree_of_snoc. unfold insert. rewrite routes_at_insert, IH.
    rewrite List.filter_app. f_equal. cbn [List.filter]. fold (tsegs r).
    destruct (decide (ks = keys (tsegs r))) as [-> | Hne].
    + rewrite bool_decide_eq_true_2 by reflexivity. reflexivity.
    + rewrite bool_decide_eq_false_2 by congruence. reflexivity.
Qed.

(** T2: the nodes on the key path of a registered route exist. *)
Lemma descend_tree rs r i :
  In r rs -> is_Some (descend (tree_of rs) (keys (take i (tsegs r)))).
Proof.
  induction rs as [| r' rs IH] using rev_ind; [intros [] |].
  rewrite in_app_iff. rewrite tree_of_snoc. unfold insert. intros [Hin | [-> | []]].
  - apply descend_insert_keeps, IH, Hin.
  - apply descend_insert_creates.
Qed.

(** T3: the segment of a node other than the root is the template segment,
    at that depth, of a registered route that goes through the node. *)
Lemma seg_at_tree rs ks text :
  ks <> [] ->
  seg_at (tree_of rs) ks = Some text ->
  exists r i, In r rs /\ ks = keys (take (S i) (tsegs r)) /\ tsegs r !! i = Some text.
Proof.
  intros Hks. induction rs as [| r rs IH] using rev_ind.
  - destruct ks as [| k ks]; [congruence |].
    unfold seg_at, tree_of. cbn [foldl]. rewrite descend_new_node. discriminate.
  - rewrite tree_of_snoc. unfold insert. intros H.
    apply seg_at_insert in H as [Hold | (i & Hi & Htext)]; [| | exact Hks].
    + destruct (IH Hold) as (r0 & i & Hin & Hi & Htext).
      exists r0, i. rewrite in_app_iff. auto.
    + exists r, i. rewrite in_app_iff. simpl. auto.
Qed.

(** *** Matching segment by segment *)

(** The parametric step of the search for a template segment [text] and a
    request segment [seg]. *)
Definition pstep (text seg : string) (ps : params) : option params :=
  match placeholder text with
  | None => None
  | Some (pname, ty) =>
      let ptype := default "str" ty in
      if default fullmatch_str (TYPE_PATTERNS ptype) seg then
        (fun v => <[pname := v]> ps)
          <$> default (fun s => Some (PStr s)) (TYPE_CONVERTERS ptype) seg
      else None
  end.

(** A template, as segments, against the segments of a request path. *)
Fixpoint seg_match (ts segs : list string) (ps : params) : option params :=
  match ts, segs with
  | [], [] => Some ps
  | t :: ts', seg :: segs' =>
      if _is_param t then pstep t seg ps ≫= seg_match ts' segs'
      else if String.eqb t seg then seg_match ts' segs' ps
      else None
  | _, _ => None
  end.

(** The same walk in a tree, along a key path that starts below [pre]. *)
Fixpoint kmatch (root : node) (pre ks : list key) (segs : list string) (ps : params)
    : option params :=
  match ks, segs with
  | [], [] => Some ps
  | KS s :: ks', seg :: segs' =>
      if String.eqb s seg then kmatch root (pre ++ [KS s]) ks' segs' ps else None
  | KP :: ks', seg :: segs' =>
      text ← seg_at root (pre ++ [KP]);
      ps' ← pstep text seg ps;
      kmatch root (pre ++ [KP]) ks' segs' ps'
  | _, _ => None
  end.

Lemma try_param_pstep n ps seg :
  try_param n O ps seg
  = pn ← param_child n; ps' ← pstep (segment pn) seg ps; Some (pn, 1%nat, ps').
Proof.
  unfold try_param, pstep. destruct (param_child n) as [pn |]; [| reflexivity].
  cbn [mbind option_bind].
  destruct (placeholder (segment pn)) as [[pname ty] |]; [| reflexivity].
  destruct (default fullmatch_str _ seg); [| reflexivity].
  destruct (default _ (TYPE_CONVERTERS _) seg); reflexivity.
Qed.

Lemma descend_snoc root pre n k :
  descend root pre = Some n -> descend root (pre ++ [k]) = child_at n k.
Proof.
  intros H. rewrite descend_app, H. cbn [mbind option_bind descend].
  destruct (child_at n k); reflexivity.
Qed.

(** Every terminal node that the walk reaches lies on a key path along which
    the request matches. *)
Lemma terms_sound root segs : forall pre n ps rts ps',
  descend root pre = Some n ->
  In (rts, ps') (terms n segs ps) ->
  exists ks, rts = routes_at root (pre ++ ks) /\ kmatch root pre ks segs ps = Some ps'.
Proof.
  induction segs as [| seg rest IH]; intros pre n ps rts ps' Hn Hin.
  - destruct Hin as [[= <- <-] | []]. exists []. split; [| reflexivity].
    unfold routes_at. rewrite app_nil_r, Hn. reflexivity.
  - cbn [terms] in Hin. apply in_app_iff in Hin as [Hin | Hin].
    + destruct (children n !! seg) as [c |] eqn:Hc; [| destruct Hin].
      destruct (IH (pre ++ [KS seg]) c ps rts ps') as (ks & Hr & Hk); [| exact Hin |].
      { rewrite (descend_snoc _ _ n) by exact Hn. exact Hc. }
      exists (KS seg :: ks). split.
      * rewrite Hr, <- app_assoc. reflexivity.
      * cbn [kmatch]. rewrite String.eqb_refl. exact Hk.
    + rewrite try_param_pstep in Hin.
      destruct (param_child n) as [pn |] eqn:Hpn; [| destruct Hin].
      cbn [mbind option_bind] in Hin.
      destruct (pstep (segment pn) seg ps) as [ps1 |] eqn:Hstep; [| destruct Hin].
      cbn [mbind option_bind] in Hin.
      assert (Hd : descend root (pre ++ [KP]) = Some pn)
        by (rewrite (descend_snoc _ _ n) by exact Hn; exact Hpn).
      destruct (IH (pre ++ [KP]) pn ps1 rts ps' Hd Hin) as (ks & Hr & Hk).
      exists (KP :: ks). split.
      * rewrite Hr, <- app_assoc. reflexivity.
      * cbn [kmatch]. unfold seg_at. rewrite Hd. cbn. rewrite Hstep. cbn. exact Hk.
Qed.

(** Every node on a key path along which the request matches is reached. *)
Lemma terms_complete root segs : forall pre n ps ks ps',
  descend root pre = Some n ->
  is_Some (descend root (pre ++ ks)) ->
  kmatch root pre ks segs ps = Some ps' ->
  In (routes_at root (pre ++ ks), ps') (terms n segs ps).
Proof.
  induction segs as [| seg rest IH]; intros pre n ps ks ps' Hn Hks Hk.
  - destruct ks as [| [s |] ks]; try discriminate. injection Hk as <-.
    left. unfold routes_at. rewrite app_nil_r, Hn. reflexivity.
  - destruct ks as [| [s |] ks]; try discriminate; cbn [kmatch terms] in *;
      apply in_app_iff.
    + destruct (String.eqb_spec s seg) as [-> |]; [| discriminate]. left.
      replace (pre ++ KS seg :: ks) with ((pre ++ [KS seg]) ++ ks) in *
        by (rewrite <- app_assoc; reflexivity).
      pose proof Hks as Hks'. rewrite descend_app in Hks'.
      rewrite (descend_snoc _ _ n) in Hks' by exact Hn. cbn [child_at] in Hks'.
      destruct (children n !! seg) as [c |] eqn:Hc; [| destruct Hks'; discriminate].
      apply IH; [| exact Hks | exact Hk].
      rewrite (descend_snoc _ _ n) by exact Hn. exact Hc.
    + right.
      replace (pre ++ KP :: ks) with ((pre ++ [KP]) ++ ks) in *
        by (rewrite <- app_assoc; reflexivity).
      unfold seg_at in Hk. rewrite (descend_snoc _ _ n) in Hk by exact Hn.
      cbn [child_at] in Hk. rewrite try_param_pstep.
      destruct (param_child n) as [pn |] eqn:Hpn; [| discriminate].
      cbn in Hk |- *.
      destruct (pstep (segment pn) seg ps) as [ps1 |]; [| discriminate].
      cbn in Hk |- *.
      apply IH; [| exact Hks | exact Hk].
      rewrite (descend_snoc _ _ n) by exact Hn. exact Hpn.
Qed.

(** Two templates are consistent when, after the same segments, they do not
    put two different placeholders at the same place (the tree keeps one
    parametric child per node, with the text of the first). *)
Definition consistent (a b : list string) : Prop :=
  forall i x y,
    take i a = take i b -> a !! i = Some x -> b !! i = Some y ->
    _is_param x = true -> _is_param y = true -> x = y.

Lemma key_of_inj_static x y :
  _is_param x = false -> key_of x = key_of y -> x = y.
Proof.
  unfold key_of. intros ->. destruct (_is_param y); congruence.
Qed.

Lemma key_of_param x : key_of x = KP <-> _is_param x = true.
Proof. unfold key_of. destruct (_is_param x); split; congruence. Qed.

(** Consistent templates that follow the same edges have the same text. *)
Lemma keys_take_eq a b :
  consistent a b ->
  forall i, (i <= List.length a)%nat -> (i <= List.length b)%nat ->
  keys (take i a) = keys (take i b) -> take i a = take i b.
Proof.
  intros Hcons. induction i as [| i IH]; intros Ha Hb Hk; [reflexivity |].
  destruct (lookup_lt_is_Some_2 a i ltac:(lia)) as [x Hx].
  destruct (lookup_lt_is_Some_2 b i ltac:(lia)) as [y Hy].
  rewrite (take_S_r _ _ _ Hx), (take_S_r _ _ _ Hy) in *.
  unfold keys in Hk. rewrite !map_app in Hk. cbn [map] in Hk.
  apply app_inj_tail in Hk as [Hk Hxy].
  specialize (IH ltac:(lia) ltac:(lia) Hk). rewrite IH. f_equal. f_equal.
  destruct (_is_param x) eqn:Hpx.
  - apply (Hcons i x y IH Hx Hy Hpx).
    apply key_of_param. rewrite <- Hxy. apply key_of_param, Hpx.
  - apply key_of_inj_static; assumption.
Qed.

Section Registered.
Variable rs : list Route.
Hypothesis rs_consistent :
  forall r1 r2, In r1 rs -> In r2 rs -> consistent (tsegs r1) (tsegs r2).

(** In the tree of a consistent route list, the walk along the key path of
    a registered route is the segment-wise match of its template. *)
Lemma kmatch_seg_match r : In r rs ->
  forall rem pre segs ps,
    tsegs r = pre ++ rem ->
    kmatch (tree_of rs) (keys pre) (keys rem) segs ps = seg_match rem segs ps.
Proof.
  intros Hr. induction rem as [| t rem IH]; intros pre segs ps Hts.
  - destruct segs; reflexivity.
  - assert (Hts' : tsegs r = (pre ++ [t]) ++ rem) by (rewrite <- app_assoc; exact Hts).
    assert (Hlook : tsegs r !! List.length pre = Some t).
    { rewrite Hts, lookup_app_r by lia. rewrite Nat.sub_diag. reflexivity. }
    assert (Htake : take (S (List.length pre)) (tsegs r) = pre ++ [t]).
    { rewrite (take_S_r _ _ _ Hlook), Hts, take_app_length. reflexivity. }
    cbn [keys map kmatch seg_match]. fold (keys rem).
    destruct (_is_param t) eqn:Hp.
    + apply key_of_param in Hp as Hkp. rewrite Hkp.
      destruct segs as [| seg segs]; [reflexivity |].
      assert (Hseg : seg_at (tree_of rs) (keys pre ++ [KP]) = Some t).
      { pose proof (descend_tree rs r (S (List.length pre)) Hr) as Hex.
        rewrite Htake in Hex. unfold keys in Hex. rewrite map_app in Hex.
        cbn [map] in Hex. rewrite Hkp in Hex. fold (keys pre) in Hex.
        destruct Hex as [pn Hpn].
        assert (Hsome : seg_at (tree_of rs) (keys pre ++ [KP]) = Some (segment pn))
          by (unfold seg_at; rewrite Hpn; reflexivity).
        rewrite Hsome. f_equal.
        assert (Hne : keys pre ++ [KP] <> []) by (intros H; apply app_nil in H as [_ H]; discriminate).
        destruct (seg_at_tree rs _ _ Hne Hsome) as (r0 & i & Hr0 & Hi & Htext).
        assert (Hlen : i = List.length pre).
        { apply (f_equal (@List.length key)) in Hi.
          unfold keys in Hi. rewrite length_app, !length_map, length_take in Hi.
          apply lookup_lt_Some in Htext. cbn [List.length] in Hi. lia. }
        subst i.
        assert (Heq : take (S (List.length pre)) (tsegs r0)
                      = take (S (List.length pre)) (tsegs r)).
        { apply keys_take_eq.
          - apply rs_consistent; assumption.
          - apply lookup_lt_Some in Htext. lia.
          - apply lookup_lt_Some in Hlook. lia.
          - rewrite <- Hi, Htake. unfold keys. rewrite map_app. cbn [map].
            rewrite Hkp. reflexivity. }
        rewrite (take_S_r _ _ _ Htext), (take_S_r _ _ _ Hlook) in Heq.
        apply app_inj_tail in Heq as [_ Heq]. exact Heq. }
      rewrite Hseg. cbn [mbind option_bind].
      destruct (pstep t seg ps) as [ps1 |]; cbn [mbind option_bind]; [| reflexivity].
      specialize (IH (pre ++ [t]) segs ps1 Hts').
      unfold keys in IH at 1. rewrite map_app in IH. cbn [map] in IH.
      rewrite Hkp in IH. exact IH.
    + assert (Hks : key_of t = KS t) by (unfold key_of; rewrite Hp; reflexivity).
      rewrite Hks. destruct segs as [| seg segs]; [reflexivity |].
      destruct (String.eqb t seg); [| reflexivity].
      specialize (IH (pre ++ [t]) segs ps Hts').
      unfold keys in IH at 1. rewrite map_app in IH. cbn [map] in IH.
      rewrite Hks in IH. exact IH.
Qed.

End Registered.

(** *** The scan of the reached nodes against a linear scan *)

(** A linear scan, for any way [f] of matching a route. *)
Fixpoint linear_by (f : Route -> option params) (rs : list Route) (method : string)
    (path_matched : bool) : lookup :=
  match rs with
  | [] => if path_matched then MethodNotAllowed else NotFound
  | route :: rest =>
      match f route with
      | Some ps =>
          if bool_decide (method ∈ methods route) then Found route ps
          else linear_by f rest method true
      | None => linear_by f rest method path_matched
      end
  end.

Lemma linear_scan_by rs p method pm :
  linear_scan rs p method pm = linear_by (fun r => route_match r p) rs method pm.
Proof.
  revert pm. induction rs as [| r rs IH]; intros pm; [reflexivity |].
  cbn [linear_scan linear_by]. destruct (route_match r p); [| apply IH].
  destruct (bool_decide _); [reflexivity | apply IH].
Qed.

Lemma linear_by_ext f g rs method pm :
  (forall r, In r rs -> f r = g r) ->
  linear_by f rs method pm = linear_by g rs method pm.
Proof.
  revert pm. induction rs as [| r rs IH]; intros pm H; [reflexivity |].
  cbn [linear_by]. rewrite <- (H r) by (left; reflexivity).
  destruct (f r); [destruct (bool_decide _); [reflexivity |] |];
    apply IH; intros r' Hr'; apply H; right; exact Hr'.
Qed.

Section Scan.
Variable method : string.

Definition allows (r : Route) : bool := bool_decide (method ∈ methods r).

Lemma scan_routes_find rts matched :
  scan_routes method rts matched
  = match List.find allows rts with
    | Some r => inl r
    | None => inr (match matched with
                   | Some x => Some x
                   | None => head rts
                   end)
    end.
Proof.
  revert matched. induction rts as [| r rts IH]; intros matched.
  - destruct matched; reflexivity.
  - cbn [scan_routes List.find]. unfold allows at 1.
    destruct (bool_decide (method ∈ methods r)); [reflexivity |].
    rewrite IH. destruct (List.find allows rts); [reflexivity |].
    destruct matched; reflexivity.
Qed.

Lemma scan_all_found entries : forall matched r ps,
  scan_all method entries matched = Found r ps ->
  exists rts, In (rts, ps) entries /\ List.find allows rts = Some r.
Proof.
  induction entries as [| [rts ps0] entries IH]; intros matched r ps.
  - cbn. destruct matched; discriminate.
  - cbn [scan_all]. rewrite scan_routes_find.
    destruct (List.find allows rts) as [r0 |] eqn:Hfind.
    + intros [= <- <-]. exists rts. split; [left; reflexivity | exact Hfind].
    + intros H. destruct (IH _ _ _ H) as (rts' & Hin & Hf).
      exists rts'. split; [right; exact Hin | exact Hf].
Qed.

Lemma scan_all_none entries : forall matched,
  (forall rts ps, In (rts, ps) entries -> List.find allows rts = None) ->
  scan_all method entries matched
  = if bool_decide (is_Some matched)
       || existsb (fun e : list Route * params => negb (bool_decide (fst e = []))) entries
    then MethodNotAllowed else NotFound.
Proof.
  induction entries as [| [rts ps0] entries IH]; intros matched Hnone.
  - cbn. destruct matched; reflexivity.
  - cbn [scan_all existsb fst]. rewrite scan_routes_find.
    rewrite (Hnone rts ps0) by (left; reflexivity).
    rewrite IH by (intros rts' ps' H; apply (Hnone rts' ps'); right; exact H).
    destruct matched as [x |]; [reflexivity |].
    destruct rts as [| r rts]; reflexivity.
Qed.

Lemma linear_by_find f rs : forall pm,
  linear_by f rs method pm
  = match List.find (fun r => bool_decide (is_Some (f r)) && allows r) rs with
    | Some r => Found r (default ∅ (f r))
    | None =>
        if pm || existsb (fun r => bool_decide (is_Some (f r))) rs
        then MethodNotAllowed else NotFound
    end.
Proof.
  induction rs as [| r rs IH]; intros pm.
  - cbn. rewrite orb_false_r. reflexivity.
  - cbn [linear_by List.find existsb]. unfold allows at 1.
    destruct (f r) as [ps |] eqn:Hf.
    + assert (Hd : bool_decide (is_Some (Some ps)) = true)
        by (apply bool_decide_eq_true_2; eauto).
      rewrite !Hd. cbn [andb orb].
      destruct (bool_decide (method ∈ methods r)); [rewrite Hf; reflexivity |].
      rewrite IH. cbn [orb]. rewrite orb_true_r. reflexivity.
    + assert (Hd : bool_decide (is_Some (@None params)) = false)
        by (apply bool_decide_eq_false_2; intros [? ?]; discriminate).
      rewrite !Hd. cbn [andb orb]. apply IH.
Qed.

End Scan.

Lemma find_filter {A} (P K : A -> bool) l :
  List.find P (List.filter K l) = List.find (fun x => K x && P x) l.
Proof.
  induction l as [| x l IH]; [reflexivity |].
  cbn [List.filter List.find]. destruct (K x); cbn [andb List.find]; rewrite IH; reflexivity.
Qed.

Lemma find_ext_in {A} (P Q : A -> bool) l :
  (forall x, In x l -> P x = Q x) -> List.find P l = List.find Q l.
Proof.
  induction l as [| x l IH]; intros H; [reflexivity |].
  cbn [List.find]. rewrite (H x) by (left; reflexivity).
  destruct (Q x); [reflexivity |]. apply IH. intros y Hy. apply H. right. exact Hy.
Qed.

Section SearchLinear.
Variables (rs : list Route) (p method : string).

Let f (r : Route) : option params := seg_match (tsegs r) (_split p) ∅.

Hypothesis rs_consistent :
  forall r1 r2, In r1 rs -> In r2 rs -> consistent (tsegs r1) (tsegs r2).

Let entries := terms (tree_of rs) (_split p) ∅.

Lemma entry_routes rts ps :
  In (rts, ps) entries ->
  exists ks,
    rts = List.filter (fun r => bool_decide (keys (tsegs r) = ks)) rs
    /\ forall r, In r rts -> f r = Some ps.
Proof.
  intros Hin.
  destruct (terms_sound (tree_of rs) (_split p) [] (tree_of rs) ∅ rts ps eq_refl Hin)
    as (ks & Hrts & Hk).
  cbn [app] in Hrts. rewrite routes_at_tree in Hrts. exists ks. split; [exact Hrts |].
  intros r Hr. rewrite Hrts in Hr. apply filter_In in Hr as [Hr Hks].
  apply bool_decide_eq_true_1 in Hks. subst ks.
  rewrite <- Hk. symmetry.
  apply (kmatch_seg_match rs rs_consistent r Hr (tsegs r) [] (_split p) ∅ eq_refl).
Qed.

Lemma route_entry r ps :
  In r rs -> f r = Some ps ->
  In (List.filter (fun r' => bool_decide (keys (tsegs r') = keys (tsegs r))) rs, ps) entries.
Proof.
  intros Hr Hf. rewrite <- routes_at_tree.
  apply (terms_complete (tree_of rs) (_split p) [] (tree_of rs) ∅ (keys (tsegs r)) ps eq_refl).
  - pose proof (descend_tree rs r (List.length (tsegs r)) Hr) as H.
    rewrite firstn_all in H. exact H.
  - rewrite <- Hf.
    apply (kmatch_seg_match rs rs_consistent r Hr (tsegs r) [] (_split p) ∅ eq_refl).
Qed.

(** A route that the search returns is registered, matches with the
    parameters returned and allows the method; it is the first such route
    among those of its node. *)
Lemma scan_found r2 ps2 :
  scan_all method entries None = Found r2 ps2 ->
  In r2 rs /\ f r2 = Some ps2 /\ method ∈ methods r2
  /\ List.find (fun x => bool_decide (keys (tsegs x) = keys (tsegs r2)) && allows method x) rs
     = Some r2
  /\ forall x, In x rs -> keys (tsegs x) = keys (tsegs r2) -> f x = Some ps2.
Proof.
  intros Hscan. apply scan_all_found in Hscan as (rts & Hin & Hfind).
  destruct (entry_routes rts ps2 Hin) as (ks & Hrts & Hmatch).
  pose proof (find_some _ _ Hfind) as [Hr2 Hallow2].
  pose proof (Hmatch r2 Hr2) as Hf2.
  pose proof Hr2 as Hr2'. rewrite Hrts in Hr2'. apply filter_In in Hr2' as [Hr2rs Hks].
  apply bool_decide_eq_true_1 in Hks. apply bool_decide_eq_true_1 in Hallow2.
  rewrite Hrts, find_filter in Hfind. subst ks.
  repeat split; try assumption.
  intros x Hx Hk. apply Hmatch. rewrite Hrts. apply filter_In. split; [exact Hx |].
  apply bool_decide_eq_true_2, Hk.
Qed.

Lemma scan_none_entries :
  (forall r ps, scan_all method entries None <> Found r ps) ->
  forall rts ps, In (rts, ps) entries -> List.find (allows method) rts = None.
Proof.
  intros Hscan rts ps Hin.
  destruct (List.find (allows method) rts) as [r |] eqn:Hfind; [| reflexivity].
  exfalso. revert Hscan. generalize (@None Route).
  induction entries as [| [rts0 ps0] es IH]; intros m Hscan; [destruct Hin |].
  cbn [scan_all] in Hscan. rewrite scan_routes_find in Hscan.
  destruct Hin as [[= -> ->] | Hin].
  - rewrite Hfind in Hscan. eapply Hscan. reflexivity.
  - destruct (List.find (allows method) rts0) as [r0 |].
    + eapply Hscan. reflexivity.
    + eapply IH; [exact Hin | exact Hscan].
Qed.

(** When the search fails, the linear scan fails in the same way. *)
Lemma scan_missing :
  (forall r ps, scan_all method entries None <> Found r ps) ->
  linear_by f rs method false = scan_all method entries None.
Proof.
  intros Hscan. pose proof (scan_none_entries Hscan) as Hnone.
  rewrite (scan_all_none method entries None Hnone).
  rewrite bool_decide_eq_false_2 by (intros [? ?]; discriminate).
  cbn [orb]. rewrite linear_by_find.
  assert (Hfind : List.find (fun r => bool_decide (is_Some (f r)) && allows method r) rs = None).
  { destruct (List.find _ rs) as [r1 |] eqn:Hfind; [| reflexivity].
    exfalso. apply find_some in Hfind as [Hr1 H1].
    apply andb_true_iff in H1 as [Hm1 Ha1]. apply bool_decide_eq_true_1 in Hm1.
    destruct Hm1 as [ps1 Hf1].
    pose proof (route_entry r1 ps1 Hr1 Hf1) as Hin1.
    specialize (Hnone _ _ Hin1). rewrite find_filter in Hnone.
    eapply find_none in Hnone; [| exact Hr1].
    rewrite bool_decide_eq_true_2 in Hnone by reflexivity. cbn [andb] in Hnone.
    congruence. }
  rewrite Hfind. cbn [orb].
  destruct (existsb _ entries) eqn:Hex.
  - apply existsb_exists in Hex as ([rts ps] & Hin & Hne). cbn [fst] in Hne.
    destruct (entry_routes rts ps Hin) as (ks & Hrts & Hmatch).
    destruct rts as [| r rts];
      [rewrite bool_decide_eq_true_2 in Hne by reflexivity; discriminate |].
    assert (Hr : In r rs).
    { assert (H : In r (r :: rts)) by (left; reflexivity).
      rewrite Hrts in H. apply filter_In in H as [H _]. exact H. }
    assert (Hfr : f r = Some ps) by (apply Hmatch; left; reflexivity).
    replace (existsb (fun r => bool_decide (is_Some (f r))) rs) with true; [reflexivity |].
    symmetry. apply existsb_exists. exists r. split; [exact Hr |].
    apply bool_decide_eq_true_2. rewrite Hfr. eauto.
  - replace (existsb (fun r => bool_decide (is_Some (f r))) rs) with false; [reflexivity |].
    symmetry. apply not_true_is_false. intros H.
    apply existsb_exists in H as (r & Hr & H). apply bool_decide_eq_true_1 in H.
    destruct H as [ps Hf].
    pose proof (route_entry r ps Hr Hf) as Hin.
    assert (Htrue : existsb (fun e : list Route * params => negb (bool_decide (fst e = [])))
                       entries = true).
    { apply existsb_exists. eexists. split; [exact Hin |]. cbn [fst].
      apply negb_true_iff, bool_decide_eq_false_2. intros Hnil.
      assert (Hrin : In r (List.filter
                (fun r' => bool_decide (keys (tsegs r') = keys (tsegs r))) rs)).
      { apply filter_In. split; [exact Hr | apply bool_decide_eq_true_2; reflexivity]. }
      rewrite Hnil in Hrin. destruct Hrin. }
    congruence.
Qed.

(** When the search succeeds, so does the linear scan. *)
Lemma scan_found_linear r2 ps2 :
  scan_all method entries None = Found r2 ps2 ->
  exists r1 ps1, linear_by f rs method false = Found r1 ps1.
Proof.
  intros Hscan. destruct (scan_found r2 ps2 Hscan) as (Hr2 & Hf2 & Hm2 & _).
  rewrite linear_by_find.
  destruct (List.find _ rs) as [r1 |] eqn:Hfind; [eauto |].
  eapply find_none in Hfind; [| exact Hr2]. cbn beta in Hfind.
  rewrite Hf2 in Hfind. unfold allows in Hfind.
  rewrite bool_decide_eq_true_2 in Hfind by eauto.
  rewrite bool_decide_eq_true_2 in Hfind by exact Hm2. discriminate.
Qed.

(** When the routes that match the request with its method share one
    template, the search returns the route of the linear scan. *)
Lemma scan_unambiguous :
  (forall r1 r2, In r1 rs -> In r2 rs ->
     is_Some (f r1) -> is_Some (f r2) ->
     method ∈ methods r1 -> method ∈ methods r2 ->
     tsegs r1 = tsegs r2) ->
  scan_all method entries None = linear_by f rs method false.
Proof.
  intros unambiguous.
  destruct (scan_all method entries None) as [r2 ps2 | |] eqn:Hscan.
  - destruct (scan_found r2 ps2 Hscan) as (Hr2 & Hf2 & Hm2 & Hfind & Hsame).
    rewrite linear_by_find.
    rewrite (find_ext_in _
      (fun x => bool_decide (keys (tsegs x) = keys (tsegs r2)) && allows method x)).
    + rewrite Hfind, Hf2. reflexivity.
    + intros x Hx.
      destruct (allows method x) eqn:Hax; [| rewrite !andb_false_r; reflexivity].
      rewrite !andb_true_r. apply bool_decide_eq_true_1 in Hax.
      destruct (decide (keys (tsegs x) = keys (tsegs r2))) as [Hk | Hk].
      * rewrite (bool_decide_eq_true_2 _ Hk). apply bool_decide_eq_true_2.
        rewrite (Hsame x Hx Hk). eauto.
      * rewrite (bool_decide_eq_false_2 _ Hk). apply bool_decide_eq_false_2.
        intros Hfx. apply Hk. f_equal.
        apply unambiguous; try assumption. rewrite Hf2. eauto.
  - rewrite <- Hscan. symmetry. apply scan_missing. intros r ps. congruence.
  - rewrite <- Hscan. symmetry. apply scan_missing. intros r ps. congruence.
Qed.

End SearchLinear.

(** *** Templates and paths in canonical form *)

(** Every segment preceded by a slash. *)
Fixpoint join_segs (segs : list string) : string :=
  match segs with
  | [] => EmptyString
  | seg :: rest => String "/" (seg +:+ join_segs rest)
  end.

(** The path with the given segments: a leading slash, no empty segment and
    no trailing slash; the root is ["/"]. *)
Definition cpath (segs : list string) : string :=
  match segs with
  | [] => "/"
  | _ => join_segs segs
  end.

(** A segment of a request path: not empty, no slash. *)
Definition request_seg (seg : string) : bool :=
  Py.nonempty seg && free_of "/" seg.

(** A literal template segment: not empty, no slash and no character that is
    special in a regular expression. *)
Definition plain_seg (t : string) : bool :=
  Py.nonempty t && Py.all_chars (fun c => negb (is_meta c) && negb (Ascii.eqb c "/")) t.

(** A template segment that is one placeholder, of a type other than
    [path]. *)
Definition param_seg (t : string) : bool :=
  match placeholder t with
  | Some (_, ty) => negb (String.eqb (default "str" ty) "path")
  | None => false
  end.

Definition template_seg (t : string) : bool := plain_seg t || param_seg t.

(** The text ends with a newline. *)
Definition nl_end (s : string) : bool := Py.endswith_char "010" s.

Lemma split_free sep s : free_of sep s = true -> Py.split sep s = [s].
Proof.
  unfold free_of. induction s as [| c s IH]; [reflexivity |].
  cbn [Py.all_chars Py.split]. rewrite andb_true_iff, negb_true_iff. intros [-> Hs].
  rewrite (IH Hs). reflexivity.
Qed.

Lemma split_app_sep sep s x :
  free_of sep s = true -> Py.split sep (s +:+ String sep x) = s :: Py.split sep x.
Proof.
  unfold free_of. induction s as [| c s IH]; unfold_app.
  - intros _. cbn [Py.split]. rewrite Ascii.eqb_refl. reflexivity.
  - cbn [Py.all_chars Py.split]. rewrite andb_true_iff, negb_true_iff. intros [-> Hs].
    rewrite (IH Hs). reflexivity.
Qed.

Lemma request_seg_free seg : request_seg seg = true -> free_of "/" seg = true.
Proof. unfold request_seg. rewrite andb_true_iff. tauto. Qed.

Lemma request_seg_nonempty seg : request_seg seg = true -> Py.nonempty seg = true.
Proof. unfold request_seg. rewrite andb_true_iff. tauto. Qed.

Lemma split_seg_join segs : forall seg,
  free_of "/" seg = true -> forallb request_seg segs = true ->
  Py.split "/" (seg +:+ join_segs segs) = seg :: segs.
Proof.
  induction segs as [| s1 segs IH]; intros seg Hseg Hsegs.
  - cbn [join_segs]. rewrite app_nil_r_s. apply split_free, Hseg.
  - cbn [join_segs forallb] in *. apply andb_true_iff in Hsegs as [H1 Hsegs].
    rewrite split_app_sep by exact Hseg. f_equal.
    apply IH; [apply request_seg_free, H1 | exact Hsegs].
Qed.

Lemma filter_nonempty segs :
  forallb request_seg segs = true -> List.filter Py.nonempty segs = segs.
Proof.
  induction segs as [| seg segs IH]; [reflexivity |].
  cbn [forallb List.filter]. rewrite andb_true_iff. intros [H Hs].
  rewrite (request_seg_nonempty seg H), (IH Hs). reflexivity.
Qed.

(** D1: the segments of a canonical path are the segments it was built
    from. *)
Lemma split_cpath segs :
  forallb request_seg segs = true -> _split (cpath segs) = segs.
Proof.
  intros H. unfold _split. destruct segs as [| seg segs]; [reflexivity |].
  cbn [cpath join_segs Py.split]. cbn [forallb] in H.
  apply andb_true_iff in H as [Hseg Hsegs].
  change (Ascii.eqb "/" "/") with true. cbv iota.
  rewrite split_seg_join by (try apply request_seg_free; assumption).
  cbn [List.filter Py.nonempty].
  rewrite (request_seg_nonempty seg Hseg).
  rewrite filter_nonempty by exact Hsegs. reflexivity.
Qed.

(** *** Placeholders, character by character *)

Lemma span_spec P s a b :
  Py.span P s = (a, b) ->
  s = a +:+ b /\ Py.all_chars P a = true
  /\ match b with String c _ => P c = false | EmptyString => True end.
Proof.
  revert a b. induction s as [| c s IH]; intros a b.
  - intros [= <- <-]. auto.
  - cbn [Py.span]. destruct (P c) eqn:Hc.
    + destruct (Py.span P s) as [a' b'] eqn:E. intros [= <- <-].
      destruct (IH a' b' eq_refl) as (-> & Ha & Hb). unfold_app. cbn [Py.all_chars].
      rewrite Hc, Ha. auto.
    + intros [= <- <-]. rewrite Hc. auto.
Qed.

Lemma span_app P s rest a c b :
  Py.span P s = (a, String c b) ->
  Py.span P (s +:+ rest) = (a, String c b +:+ rest).
Proof.
  revert a. induction s as [| x s IH]; intros a.
  - intros [=].
  - unfold_app. cbn [Py.span]. destruct (P x) eqn:Hx.
    + destruct (Py.span P s) as [a' b'] eqn:E. intros [= <- ->].
      rewrite (IH a' eq_refl). reflexivity.
    + intros [= <- <- <-]. unfold_app. reflexivity.
Qed.

(** The text of a placeholder. *)
Definition placeholder_text (pname : string) (ty : option string) : string :=
  match ty with
  | None => String "{" (pname +:+ "}")
  | Some t => String "{" (pname +:+ String ":" (t +:+ "}"))
  end.

Lemma placeholder_at_inv s pname ty k :
  placeholder_at s = Some (pname, ty, k) ->
  exists rest,
    s = placeholder_text pname ty +:+ rest
    /\ k = String.length (placeholder_text pname ty)
    /\ Py.nonempty pname = true /\ Py.all_chars Py.is_word pname = true
    /\ match ty with
       | Some t => Py.nonempty t = true /\ Py.all_chars Py.is_word t = true
       | None => True
       end.
Proof.
  unfold placeholder_at. destruct s as [| c s1]; [discriminate |].
  destruct (Ascii.eqb_spec c "{") as [-> | Hc];
    [| destruct c as [[] [] [] [] [] [] [] []]; try discriminate; congruence].
  destruct (Py.span Py.is_word s1) as [nm after] eqn:E1.
  destruct (span_spec _ _ _ _ E1) as (-> & Hnm & _).
  destruct (Py.nonempty nm) eqn:Hne; [| discriminate].
  destruct after as [| d after]; [discriminate |].
  destruct (Ascii.eqb_spec d "}") as [-> | Hd].
  - intros [= <- <- <-]. exists after. cbn [placeholder_text].
    repeat split; try assumption.
    + unfold_app. rewrite app_assoc_s. reflexivity.
    + cbn [String.length]. rewrite length_app_s. cbn [String.length]. lia.
  - destruct (Ascii.eqb_spec d ":") as [-> | Hd'];
      [| destruct d as [[] [] [] [] [] [] [] []]; try discriminate; congruence].
    destruct (Py.span Py.is_word after) as [t after2] eqn:E2.
    destruct (span_spec _ _ _ _ E2) as (-> & Ht & _).
    destruct (Py.nonempty t) eqn:Hnet; [| discriminate].
    destruct after2 as [| e after2]; [discriminate |].
    destruct (Ascii.eqb_spec e "}") as [-> | He];
      [| destruct e as [[] [] [] [] [] [] [] []]; try discriminate; congruence].
    intros [= <- <- <-]. exists after2. cbn [placeholder_text].
    repeat split; try assumption.
    + unfold_app. rewrite !app_assoc_s. unfold_app. rewrite !app_assoc_s. reflexivity.
    + cbn [String.length]. rewrite !length_app_s. cbn [String.length].
      rewrite !length_app_s. cbn [String.length]. lia.
Qed.

Lemma span_word_stop nm c rest :
  Py.all_chars Py.is_word nm = true -> Py.is_word c = false ->
  Py.span Py.is_word (nm +:+ String c rest) = (nm, String c rest).
Proof.
  intros Hnm Hc. induction nm as [| x nm IH]; unfold_app; cbn [Py.span].
  - rewrite Hc. reflexivity.
  - cbn [Py.all_chars] in Hnm. apply andb_true_iff in Hnm as [-> Hnm].
    rewrite (IH Hnm). reflexivity.
Qed.

(** A placeholder is recognised at the start of any text that begins with
    it. *)
Lemma placeholder_at_text pname ty rest :
  Py.nonempty pname = true -> Py.all_chars Py.is_word pname = true ->
  match ty with
  | Some t => Py.nonempty t = true /\ Py.all_chars Py.is_word t = true
  | None => True
  end ->
  placeholder_at (placeholder_text pname ty +:+ rest)
  = Some (pname, ty, String.length (placeholder_text pname ty)).
Proof.
  intros Hne Hw Hty. unfold placeholder_at, placeholder_text.
  destruct ty as [t |].
  - destruct Hty as [Hnet Hwt]. unfold_app. rewrite !app_assoc_s. unfold_app.
    rewrite span_word_stop by (try exact Hw; reflexivity). rewrite Hne.
    rewrite !app_assoc_s. unfold_app.
    rewrite span_word_stop by (try exact Hwt; reflexivity). rewrite Hnet.
    cbn [String.length]. rewrite !length_app_s. cbn [String.length].
    rewrite !length_app_s. cbn [String.length].
    repeat f_equal. lia.
  - unfold_app. rewrite !app_assoc_s. unfold_app.
    rewrite span_word_stop by (try exact Hw; reflexivity). rewrite Hne.
    cbn [String.length]. rewrite !length_app_s. cbn [String.length].
    repeat f_equal. lia.
Qed.

Lemma placeholder_inv t pname ty :
  placeholder t = Some (pname, ty) ->
  t = placeholder_text pname ty
  /\ Py.nonempty pname = true /\ Py.all_chars Py.is_word pname = true
  /\ match ty with
     | Some t => Py.nonempty t = true /\ Py.all_chars Py.is_word t = true
     | None => True
     end.
Proof.
  unfold placeholder. destruct (placeholder_at t) as [[[n ty'] k] |] eqn:E; [| discriminate].
  destruct (Nat.eqb_spec k (String.length t)) as [Hk |]; [| discriminate].
  intros [= -> ->].
  destruct (placeholder_at_inv _ _ _ _ E) as (rest & Ht & Hlen & Hrest).
  split; [| exact Hrest].
  rewrite Ht in Hk. rewrite length_app_s in Hk.
  destruct rest; [rewrite app_nil_r_s in Ht; exact Ht | cbn [String.length] in Hk; lia].
Qed.

Lemma endswith_snoc c x : Py.endswith_char c (x +:+ String c "") = true.
Proof.
  induction x as [| y x IH]; unfold_app; cbn [Py.endswith_char].
  - apply Ascii.eqb_refl.
  - destruct (x +:+ String c "") eqn:E; [destruct x; discriminate | exact IH].
Qed.

Lemma placeholder_text_snoc pname ty :
  exists x, placeholder_text pname ty = String "{" (x +:+ String "}" "").
Proof.
  destruct ty as [t |]; cbn [placeholder_text].
  - exists (pname +:+ String ":" t). rewrite app_assoc_s. reflexivity.
  - exists pname. reflexivity.
Qed.

Lemma placeholder_text_is_param pname ty : _is_param (placeholder_text pname ty) = true.
Proof.
  destruct (placeholder_text_snoc pname ty) as [x ->]. unfold _is_param.
  change (String "{" (x +:+ String "}" "")) with (String "{" x +:+ String "}" "").
  rewrite endswith_snoc. reflexivity.
Qed.

Lemma word_not_slash c : Py.is_word c = true -> negb (Ascii.eqb c "/") = true.
Proof. destruct c as [[] [] [] [] [] [] [] []]; vm_compute; congruence. Qed.

Lemma placeholder_text_request_seg pname ty :
  Py.all_chars Py.is_word pname = true ->
  match ty with
  | Some t => Py.nonempty t = true /\ Py.all_chars Py.is_word t = true
  | None => True
  end ->
  request_seg (placeholder_text pname ty) = true.
Proof.
  intros Hn Hty. unfold request_seg, free_of.
  assert (Hfree : forall x, Py.all_chars Py.is_word x = true ->
                    Py.all_chars (fun c => negb (Ascii.eqb c "/")) x = true)
    by (intros x; apply all_chars_weaken, word_not_slash).
  destruct ty as [t |]; cbn [placeholder_text Py.nonempty Py.all_chars andb].
  - destruct Hty as [_ Ht].
    change (Ascii.eqb "{" "/") with false. cbn [negb andb].
    rewrite all_chars_app. cbn [Py.all_chars]. rewrite all_chars_app. cbn [Py.all_chars].
    rewrite (Hfree _ Hn), (Hfree _ Ht). reflexivity.
  - change (Ascii.eqb "{" "/") with false. cbn [negb andb].
    rewrite all_chars_app. cbn [Py.all_chars]. rewrite (Hfree _ Hn). reflexivity.
Qed.

Lemma param_seg_inv t :
  param_seg t = true ->
  exists pname ty,
    placeholder t = Some (pname, ty)
    /\ t = placeholder_text pname ty
    /\ default "str" ty <> "path"
    /\ Py.nonempty pname = true /\ Py.all_chars Py.is_word pname = true
    /\ match ty with
       | Some t => Py.nonempty t = true /\ Py.all_chars Py.is_word t = true
       | None => True
       end.
Proof.
  unfold param_seg. destruct (placeholder t) as [[pname ty] |] eqn:E; [| discriminate].
  intros H. exists pname, ty.
  destruct (placeholder_inv _ _ _ E) as (Ht & Hrest).
  repeat split; try tauto.
  intros Heq. rewrite Heq in H. discriminate.
Qed.

Lemma plain_not_brace t :
  plain_seg t = true ->
  Py.all_chars (fun c => negb (Ascii.eqb c "{")) t = true.
Proof.
  unfold plain_seg. rewrite andb_true_iff. intros [_ H].
  eapply all_chars_weaken; [| exact H].
  intros c. destruct c as [[] [] [] [] [] [] [] []]; vm_compute; congruence.
Qed.

Lemma plain_not_brace_dot t :
  plain_seg t = true ->
  Py.all_chars (fun c => negb (Ascii.eqb c "{") && negb (Ascii.eqb c ".")) t = true.
Proof.
  unfold plain_seg. rewrite andb_true_iff. intros [_ H].
  eapply all_chars_weaken; [| exact H].
  intros c. destruct c as [[] [] [] [] [] [] [] []]; vm_compute; congruence.
Qed.

Lemma placeholder_at_other c s :
  negb (Ascii.eqb c "{") = true -> placeholder_at (String c s) = None.
Proof.
  destruct c as [[] [] [] [] [] [] [] []]; try reflexivity. discriminate.
Qed.

Lemma plain_placeholder t : plain_seg t = true -> placeholder t = None.
Proof.
  intros H. apply plain_not_brace in H. unfold placeholder.
  destruct t as [| c t]; [reflexivity |].
  cbn [Py.all_chars] in H. apply andb_true_iff in H as [Hc _].
  rewrite placeholder_at_other by exact Hc. reflexivity.
Qed.

Lemma plain_is_param t : plain_seg t = true -> _is_param t = false.
Proof.
  intros H. apply plain_not_brace in H. unfold _is_param.
  destruct t as [| c t]; [reflexivity |].
  cbn [Py.all_chars] in H. apply andb_true_iff in H as [Hc _].
  destruct c as [[] [] [] [] [] [] [] []]; try reflexivity. discriminate.
Qed.

Lemma plain_request_seg t : plain_seg t = true -> request_seg t = true.
Proof.
  unfold plain_seg, request_seg, free_of. rewrite !andb_true_iff. intros [Hne H].
  split; [exact Hne |]. eapply all_chars_weaken; [| exact H].
  intros c Hc. apply andb_true_iff in Hc. tauto.
Qed.

Lemma template_request_seg t : template_seg t = true -> request_seg t = true.
Proof.
  unfold template_seg. rewrite orb_true_iff. intros [H | H].
  - apply plain_request_seg, H.
  - destruct (param_seg_inv t H) as (pname & ty & _ & -> & _ & _ & Hw & Hty).
    apply placeholder_text_request_seg; assumption.
Qed.

Lemma template_segs_request ts :
  forallb template_seg ts = true -> forallb request_seg ts = true.
Proof.
  rewrite !forallb_forall. intros H t Ht. apply template_request_seg, H, Ht.
Qed.

(** Whether the tree treats a template segment as parametric. *)
Lemma template_is_param t :
  template_seg t = true -> _is_param t = bool_decide (is_Some (placeholder t)).
Proof.
  unfold template_seg. rewrite orb_true_iff. intros [H | H].
  - rewrite plain_is_param, plain_placeholder by exact H.
    symmetry. apply bool_decide_eq_false_2. intros [? ?]. discriminate.
  - destruct (param_seg_inv t H) as (pname & ty & Hp & Ht & _).
    rewrite Hp. rewrite Ht at 1. rewrite placeholder_text_is_param.
    symmetry. apply bool_decide_eq_true_2. eauto.
Qed.

(** *** The compiled pattern of a canonical template *)

(** The pattern pieces of one template segment. *)
Definition seg_items (t : string) : list item :=
  match placeholder t with
  | Some (pname, ty) => [Group pname (default "str" ty)]
  | None => map Lit (String.list_ascii_of_string t)
  end.

Definition items_of (ts : list string) : list item :=
  flat_map (fun t => Lit "/" :: seg_items t) ts.

Lemma substitute_skip x : forall rest,
  substitute (String.length x) (x +:+ rest) = substitute 0 rest.
Proof.
  induction x as [| c x IH]; intros rest; unfold_app; [reflexivity |].
  cbn [String.length substitute]. apply IH.
Qed.

Lemma substitute_lits t rest :
  Py.all_chars (fun c => negb (Ascii.eqb c "{") && negb (Ascii.eqb c ".")) t = true ->
  substitute 0 (t +:+ rest)
  = map Lit (String.list_ascii_of_string t) ++ substitute 0 rest.
Proof.
  induction t as [| c t IH]; unfold_app; [reflexivity |].
  cbn [Py.all_chars]. rewrite !andb_true_iff. intros [[Hc Hdot] Ht].
  cbn [substitute]. rewrite placeholder_at_other by exact Hc.
  apply negb_true_iff in Hdot. rewrite Hdot.
  cbn [String.list_ascii_of_string map app]. rewrite (IH Ht). reflexivity.
Qed.

Lemma substitute_placeholder pname ty rest :
  Py.nonempty pname = true -> Py.all_chars Py.is_word pname = true ->
  match ty with
  | Some t => Py.nonempty t = true /\ Py.all_chars Py.is_word t = true
  | None => True
  end ->
  substitute 0 (placeholder_text pname ty +:+ rest)
  = Group pname (default "str" ty) :: substitute 0 rest.
Proof.
  intros Hne Hw Hty.
  pose proof (placeholder_at_text pname ty rest Hne Hw Hty) as Hat.
  destruct (placeholder_text_snoc pname ty) as [x Hx].
  rewrite Hx in *. unfold_app. unfold_app in Hat.
  cbn [substitute]. rewrite Hat. f_equal.
  cbn [String.length]. rewrite Nat.sub_succ, Nat.sub_0_r.
  apply substitute_skip.
Qed.

Lemma substitute_seg t rest :
  template_seg t = true ->
  substitute 0 (t +:+ rest) = seg_items t ++ substitute 0 rest.
Proof.
  unfold template_seg, seg_items. rewrite orb_true_iff. intros [H | H].
  - rewrite plain_placeholder by exact H. apply substitute_lits, plain_not_brace_dot, H.
  - destruct (param_seg_inv t H) as (pname & ty & Hp & Ht & _ & Hne & Hw & Hty).
    rewrite Hp. rewrite Ht. apply substitute_placeholder; assumption.
Qed.

(** D2: the pattern of a canonical template, segment by segment. *)
Lemma substitute_join ts :
  forallb template_seg ts = true -> substitute 0 (join_segs ts) = items_of ts.
Proof.
  induction ts as [| t ts IH]; [reflexivity |].
  cbn [forallb join_segs items_of flat_map]. rewrite andb_true_iff. intros [Ht Hts].
  cbn [substitute]. rewrite placeholder_at_other by reflexivity.
  rewrite substitute_seg by exact Ht. rewrite (IH Hts). reflexivity.
Qed.

(** *** The regular expression of a canonical template on a canonical path *)

(** The groups that a template captures, segment by segment. *)
Fixpoint seg_groups (ts segs : list string) : option (list (string * string)) :=
  match ts, segs with
  | [], [] => Some []
  | t :: ts', seg :: segs' =>
      match placeholder t with
      | Some (pname, ty) =>
          if default fullmatch_str (TYPE_PATTERNS (default "str" ty)) seg
          then (fun groups => (pname, seg) :: groups) <$> seg_groups ts' segs'
          else None
      | None => if String.eqb t seg then seg_groups ts' segs' else None
      end
  | _, _ => None
  end.

Lemma splits_In s : forall p q,
  In (p, q) (splits s) -> p +:+ q = s /\ Py.nonempty p = true.
Proof.
  induction s as [| c s IH]; intros p q; [intros [] |].
  cbn [splits]. rewrite in_app_iff, in_map_iff.
  intros [([p' q'] & [= <- <-] & Hin) | [[= <- <-] | []]].
  - destruct (IH _ _ Hin) as [<- _]. split; reflexivity.
  - split; reflexivity.
Qed.

Lemma splits_member p : forall q,
  Py.nonempty p = true -> In (p, q) (splits (p +:+ q)).
Proof.
  induction p as [| c p IH]; intros q Hp; [discriminate |].
  unfold_app. cbn [splits]. apply in_app_iff.
  destruct p as [| d p].
  - right. left. reflexivity.
  - left. apply in_map_iff. exists (String d p, q). split; [reflexivity |].
    apply IH. reflexivity.
Qed.

Lemma first_some_none {A B} (f : A -> option B) l :
  (forall y, In y l -> f y = None) -> first_some f l = None.
Proof.
  induction l as [| y l IH]; intros H; [reflexivity |].
  cbn [first_some]. rewrite (H y) by (left; reflexivity).
  apply IH. intros z Hz. apply H. right. exact Hz.
Qed.

Lemma first_some_unique {A B} `{EqDecision A} (f : A -> option B) l x :
  In x l -> (forall y, In y l -> y <> x -> f y = None) -> first_some f l = f x.
Proof.
  induction l as [| y l IH]; intros Hx Hothers; [destruct Hx |].
  cbn [first_some]. destruct (decide (y = x)) as [-> | Hne].
  - destruct (f x) eqn:Hfx; [reflexivity |].
    apply first_some_none. intros z Hz.
    destruct (decide (z = x)) as [-> | Hzx]; [exact Hfx |].
    apply Hothers; [right; exact Hz | exact Hzx].
  - rewrite (Hothers y) by (try left; auto).
    destruct Hx as [-> | Hx]; [congruence |].
    apply IH; [exact Hx |]. intros z Hz. apply Hothers. right. exact Hz.
Qed.

Lemma app_eq_app_s p : forall q s R,
  p +:+ q = s +:+ R ->
  (exists x, s = p +:+ x /\ q = x +:+ R)
  \/ (exists c x, p = s +:+ String c x /\ R = String c x +:+ q).
Proof.
  induction p as [| a p IH]; intros q s R; unfold_app.
  - intros ->. left. exists s. split; reflexivity.
  - destruct s as [| b s]; unfold_app.
    + intros <-. right. exists a, p. split; reflexivity.
    + intros [= <- H]. destruct (IH _ _ _ H) as [(x & -> & ->) | (c & x & -> & ->)].
      * left. exists x. split; reflexivity.
      * right. exists c, x. split; reflexivity.
Qed.

Lemma endswith_app c a b :
  b <> "" -> Py.endswith_char c (a +:+ b) = Py.endswith_char c b.
Proof.
  intros Hb. induction a as [| x a IH]; unfold_app; [reflexivity |].
  cbn [Py.endswith_char]. destruct (a +:+ b) eqn:E; [| exact IH].
  destruct a; [| discriminate]. unfold_app in E. congruence.
Qed.

Lemma at_end_nl s : at_end s = true -> s <> "" -> nl_end s = true.
Proof.
  intros H Hne. destruct s as [| c [| d s]]; [congruence | |].
  - destruct c as [[] [] [] [] [] [] [] []]; try discriminate H. reflexivity.
  - destruct c as [[] [] [] [] [] [] [] []]; discriminate H.
Qed.

(** The types other than [path] accept no slash. *)
Lemma hex_run_free n : forall s r,
  hex_run n s = Some r -> free_of "/" r = true -> free_of "/" s = true.
Proof.
  induction n as [| n IH]; intros s r; cbn [hex_run]; [intros [= ->]; auto |].
  destruct s as [| c s]; [discriminate |].
  destruct (is_hex c) eqn:Hc; [| discriminate].
  intros H Hr. unfold free_of. cbn [Py.all_chars]. fold (free_of "/" s).
  rewrite (IH _ _ H Hr), andb_true_r.
  destruct c as [[] [] [] [] [] [] [] []]; vm_compute in Hc |- *; congruence.
Qed.

Lemma dash_free s r : dash s = Some r -> free_of "/" r = true -> free_of "/" s = true.
Proof.
  unfold dash. destruct s as [| c s]; [discriminate |].
  destruct (Ascii.eqb_spec c "-") as [-> |];
    [| destruct c as [[] [] [] [] [] [] [] []]; try discriminate; congruence].
  intros [= ->] Hr. unfold free_of. cbn [Py.all_chars]. fold (free_of "/" r).
  rewrite Hr. reflexivity.
Qed.

Lemma uuid_free s : fullmatch_uuid s = true -> free_of "/" s = true.
Proof.
  unfold fullmatch_uuid.
  destruct (hex_run 8 s) as [s1 |] eqn:E1; cbn [mbind option_bind]; [| discriminate].
  destruct (dash s1) as [s2 |] eqn:E2; cbn [mbind option_bind]; [| discriminate].
  destruct (hex_run 4 s2) as [s3 |] eqn:E3; cbn [mbind option_bind]; [| discriminate].
  destruct (dash s3) as [s4 |] eqn:E4; cbn [mbind option_bind]; [| discriminate].
  destruct (hex_run 4 s4) as [s5 |] eqn:E5; cbn [mbind option_bind]; [| discriminate].
  destruct (dash s5) as [s6 |] eqn:E6; cbn [mbind option_bind]; [| discriminate].
  destruct (hex_run 4 s6) as [s7 |] eqn:E7; cbn [mbind option_bind]; [| discriminate].
  destruct (dash s7) as [s8 |] eqn:E8; cbn [mbind option_bind]; [| discriminate].
  destruct (hex_run 12 s8) as [[| ? ?] |] eqn:E9; try discriminate.
  intros _.
  apply (hex_run_free _ _ _ E1), (dash_free _ _ E2), (hex_run_free _ _ _ E3),
    (dash_free _ _ E4), (hex_run_free _ _ _ E5), (dash_free _ _ E6),
    (hex_run_free _ _ _ E7), (dash_free _ _ E8), (hex_run_free _ _ _ E9).
  reflexivity.
Qed.

Lemma slug_tail_free s : forall b, slug_tail b s = true -> free_of "/" s = true.
Proof.
  induction s as [| c s IH]; intros b; [reflexivity |].
  cbn [slug_tail]. unfold free_of. cbn [Py.all_chars]. fold (free_of "/" s).
  destruct (is_slug_char c) eqn:Hc.
  - intros H. rewrite (IH _ H), andb_true_r.
    destruct c as [[] [] [] [] [] [] [] []]; vm_compute in Hc |- *; congruence.
  - destruct (Ascii.eqb_spec c "-") as [-> |]; [| discriminate].
    rewrite andb_true_iff. intros [_ H]. rewrite (IH _ H). reflexivity.
Qed.

Lemma slug_free s : fullmatch_slug s = true -> free_of "/" s = true.
Proof.
  unfold fullmatch_slug. destruct s as [| c s]; [reflexivity |].
  rewrite andb_true_iff. intros [Hc H].
  unfold free_of. cbn [Py.all_chars]. fold (free_of "/" s).
  rewrite (slug_tail_free _ _ H), andb_true_r.
  destruct c as [[] [] [] [] [] [] [] []]; vm_compute in Hc |- *; congruence.
Qed.

Lemma type_free ty s :
  ty <> "path" ->
  default fullmatch_str (TYPE_PATTERNS ty) s = true -> free_of "/" s = true.
Proof.
  intros Hty. unfold TYPE_PATTERNS.
  destruct (String.eqb ty "int") eqn:E1; cbv [default from_option id].
  { unfold fullmatch_int. rewrite andb_true_iff. intros [_ H].
    eapply all_chars_weaken; [| exact H].
    intros c. destruct c as [[] [] [] [] [] [] [] []]; vm_compute; congruence. }
  destruct (String.eqb ty "str") eqn:E2; cbv [default from_option id].
  { unfold fullmatch_str. rewrite andb_true_iff. tauto. }
  destruct (String.eqb_spec ty "path") as [-> |]; [congruence |].
  destruct (String.eqb ty "uuid") eqn:E4; cbv [default from_option id]; [apply uuid_free |].
  destruct (String.eqb ty "slug") eqn:E5; cbv [default from_option id]; [apply slug_free |].
  unfold fullmatch_str. rewrite andb_true_iff. tauto.
Qed.

Lemma lit_match_app t items rest :
  regex_match (map Lit (String.list_ascii_of_string t) ++ items) (t +:+ rest)
  = regex_match items rest.
Proof.
  induction t as [| c t IH]; unfold_app; [reflexivity |].
  cbn [String.list_ascii_of_string map app regex_match]. rewrite Ascii.eqb_refl. exact IH.
Qed.

Section Canonical.
(** The rest of the pattern and the rest of the path, after a segment. *)
Variables (ts : list string) (R : string).
Hypothesis R_shape : R = "" \/ exists x, R = String "/" x.

(** After a slash-free, non-empty piece of a segment, the rest of the
    pattern cannot match: it wants a slash, or the end of the path. *)
Lemma rest_fail q :
  Py.nonempty q = true -> free_of "/" q = true -> nl_end (q +:+ R) = false ->
  regex_match (items_of ts) (q +:+ R) = None.
Proof.
  intros Hq Hfree Hnl. destruct q as [| c q]; [discriminate |].
  destruct ts as [| t ts'].
  - cbn [items_of flat_map regex_match].
    destruct (at_end (String c q +:+ R)) eqn:E; [| reflexivity].
    apply at_end_nl in E; [congruence | discriminate].
  - cbn [items_of flat_map app regex_match]. unfold_app.
    unfold free_of in Hfree. cbn [Py.all_chars] in Hfree.
    apply andb_true_iff in Hfree as [Hc _]. apply negb_true_iff in Hc.
    rewrite Ascii.eqb_sym, Hc. reflexivity.
Qed.

Lemma lit_mismatch t : forall seg,
  t <> seg -> free_of "/" t = true -> free_of "/" seg = true ->
  nl_end (seg +:+ R) = false \/ seg = "" ->
  regex_match (map Lit (String.list_ascii_of_string t) ++ items_of ts) (seg +:+ R) = None.
Proof.
  induction t as [| c t IH]; intros seg Hne Ht Hseg Hnl.
  - cbn [String.list_ascii_of_string map app].
    destruct seg as [| d seg]; [congruence |].
    destruct Hnl as [Hnl | ?]; [| discriminate].
    apply rest_fail; [reflexivity | exact Hseg | exact Hnl].
  - cbn [String.list_ascii_of_string map app regex_match].
    unfold free_of in Ht. cbn [Py.all_chars] in Ht.
    apply andb_true_iff in Ht as [Hc Ht]. apply negb_true_iff in Hc.
    destruct seg as [| d seg]; unfold_app.
    + destruct R_shape as [-> | [x ->]]; [reflexivity |]. rewrite Hc. reflexivity.
    + destruct (Ascii.eqb_spec c d) as [-> | Hcd]; [| reflexivity].
      unfold free_of in Hseg. cbn [Py.all_chars] in Hseg.
      apply andb_true_iff in Hseg as [_ Hseg].
      apply IH; [congruence | exact Ht | exact Hseg |].
      destruct Hnl as [Hnl | ?]; [| discriminate].
      destruct seg as [| e seg]; [right; reflexivity |]. left.
      unfold nl_end in Hnl |- *.
      change (String d (String e seg) +:+ R) with (String d "" +:+ (String e seg +:+ R)) in Hnl.
      rewrite endswith_app in Hnl by discriminate. exact Hnl.
Qed.

(** A group followed by the rest of the pattern takes exactly the
    segment. *)
Lemma group_match pname ty seg :
  ty <> "path" ->
  request_seg seg = true -> nl_end (seg +:+ R) = false ->
  regex_match (Group pname ty :: items_of ts) (seg +:+ R)
  = if default fullmatch_str (TYPE_PATTERNS ty) seg
    then (fun groups => (pname, seg) :: groups) <$> regex_match (items_of ts) R
    else None.
Proof.
  intros Hty Hseg Hnl. cbn [regex_match].
  pose proof (request_seg_nonempty _ Hseg) as Hne.
  pose proof (request_seg_free _ Hseg) as Hfree.
  rewrite (first_some_unique _ _ (seg, R)).
  - reflexivity.
  - apply splits_member, Hne.
  - intros [p q] Hin Hdiff. apply splits_In in Hin as [Heq Hp]. cbn [fst snd].
    destruct (app_eq_app_s _ _ _ _ Heq) as [(x & -> & ->) | (c & x & -> & HR)].
    + destruct x as [| c x].
      { rewrite app_nil_r_s in Hdiff. unfold_app in Hdiff. congruence. }
      unfold free_of in Hfree. rewrite all_chars_app in Hfree.
      apply andb_true_iff in Hfree as [_ Hx].
      rewrite rest_fail.
      * destruct (default fullmatch_str _ p); reflexivity.
      * reflexivity.
      * exact Hx.
      * unfold nl_end in Hnl |- *.
        rewrite app_assoc_s in Hnl. rewrite endswith_app in Hnl by discriminate. exact Hnl.
    + destruct (default fullmatch_str (TYPE_PATTERNS ty) (seg +:+ String c x)) eqn:Hfm;
        [| reflexivity].
      exfalso. apply (type_free _ _ Hty) in Hfm.
      unfold free_of in Hfm. rewrite all_chars_app in Hfm.
      apply andb_true_iff in Hfm as [_ Hfm]. cbn [Py.all_chars] in Hfm.
      destruct R_shape as [-> | [y ->]]; [discriminate |].
      unfold_app in HR. injection HR as <- _. discriminate.
Qed.

End Canonical.

Lemma join_shape segs : join_segs segs = "" \/ exists x, join_segs segs = String "/" x.
Proof. destruct segs; [left; reflexivity | right; eexists; reflexivity]. Qed.

Lemma nl_end_tail c x R :
  nl_end (String c (x +:+ R)) = false -> nl_end R = false.
Proof.
  destruct R as [| d R]; [reflexivity |]. unfold nl_end.
  change (String c (x +:+ String d R)) with (String c x +:+ String d R).
  rewrite endswith_app by discriminate. auto.
Qed.

Lemma nl_end_seg c seg R :
  Py.nonempty seg = true -> nl_end (String c (seg +:+ R)) = false ->
  nl_end (seg +:+ R) = false.
Proof.
  intros Hne. unfold nl_end.
  change (String c (seg +:+ R)) with (String c "" +:+ (seg +:+ R)).
  rewrite endswith_app; [auto |]. destruct seg; discriminate.
Qed.

(** D3: on a canonical path, the pattern of a canonical template captures
    segment by segment. *)
Lemma regex_join ts : forall segs,
  forallb template_seg ts = true -> forallb request_seg segs = true ->
  nl_end (join_segs segs) = false ->
  regex_match (items_of ts) (join_segs segs) = seg_groups ts segs.
Proof.
  induction ts as [| t ts IH]; intros segs Hts Hsegs Hnl.
  - destruct segs; reflexivity.
  - destruct segs as [| seg segs]; [reflexivity |].
    cbn [forallb] in Hts, Hsegs.
    apply andb_true_iff in Hts as [Ht Hts]. apply andb_true_iff in Hsegs as [Hseg Hsegs].
    cbn [items_of flat_map join_segs app regex_match seg_groups].
    change (Ascii.eqb "/" "/") with true. cbv iota. fold (items_of ts).
    pose proof (request_seg_nonempty _ Hseg) as Hne.
    pose proof (nl_end_seg _ _ _ Hne Hnl) as Hnl1.
    pose proof (nl_end_tail _ _ _ Hnl) as Hnl2.
    pose proof Ht as Ht'. unfold template_seg in Ht'.
    apply orb_true_iff in Ht' as [Hplain | Hparam].
    + unfold seg_items. rewrite (plain_placeholder t Hplain).
      destruct (String.eqb_spec t seg) as [-> | Hneq].
      * rewrite lit_match_app. apply IH; assumption.
      * apply lit_mismatch; try assumption.
        -- apply join_shape.
        -- apply request_seg_free, plain_request_seg, Hplain.
        -- apply request_seg_free, Hseg.
        -- left. exact Hnl1.
    + destruct (param_seg_inv t Hparam) as (pname & ty & Hp & _ & Hty & _).
      unfold seg_items. rewrite Hp. cbn [app].
      rewrite group_match by (try apply join_shape; assumption).
      rewrite IH by assumption. reflexivity.
Qed.

Lemma regex_cpath ts segs :
  forallb template_seg ts = true -> forallb request_seg segs = true ->
  nl_end (cpath segs) = false ->
  regex_match (substitute 0 (cpath ts)) (cpath segs) = seg_groups ts segs.
Proof.
  intros Hts Hsegs Hnl. destruct ts as [| t ts]; destruct segs as [| seg segs].
  - reflexivity.
  - cbn [cpath join_segs] in *. cbn [forallb] in Hsegs.
    apply andb_true_iff in Hsegs as [Hseg _].
    change (substitute 0 "/") with [Lit "/"]. cbn [regex_match seg_groups].
    change (Ascii.eqb "/" "/") with true. cbv iota.
    apply (rest_fail [] (join_segs segs)).
    + apply request_seg_nonempty, Hseg.
    + apply request_seg_free, Hseg.
    + eapply nl_end_seg; [apply request_seg_nonempty, Hseg | exact Hnl].
  - cbn [cpath]. rewrite substitute_join by exact Hts.
    cbn [items_of flat_map app join_segs regex_match seg_groups].
    change (Ascii.eqb "/" "/") with true. cbv iota.
    cbn [forallb] in Hts. apply andb_true_iff in Hts as [Ht _].
    unfold template_seg in Ht. apply orb_true_iff in Ht as [Hplain | Hparam].
    + unfold seg_items. rewrite (plain_placeholder t Hplain).
      unfold plain_seg in Hplain. apply andb_true_iff in Hplain as [Hne _].
      destruct t; [discriminate | reflexivity].
    + destruct (param_seg_inv t Hparam) as (pname & ty & Hp & _).
      unfold seg_items. rewrite Hp. reflexivity.
  - cbn [cpath] in *. rewrite substitute_join by exact Hts.
    apply regex_join; assumption.
Qed.

(** *** Conversion of the captured groups *)

Definition record_type (m : gmap string string) (i : item) : gmap string string :=
  match i with
  | Group n t => <[n := t]> m
  | _ => m
  end.

Lemma record_type_other items : forall acc n,
  ~ In n (group_names items) -> foldl record_type acc items !! n = acc !! n.
Proof.
  induction items as [| i items IH]; intros acc n Hn; [reflexivity |].
  cbn [foldl]. destruct i as [c | | n' t]; cbn [group_names flat_map app] in Hn.
  - apply IH, Hn.
  - apply IH, Hn.
  - rewrite IH by (intros H; apply Hn; right; exact H).
    cbn [record_type]. apply lookup_insert_ne. intros ->. apply Hn. left. reflexivity.
Qed.

Lemma record_type_lookup items : forall acc n t,
  NoDup (group_names items) -> In (Group n t) items ->
  foldl record_type acc items !! n = Some t.
Proof.
  induction items as [| i items IH]; intros acc n t Hnd Hin; [destruct Hin |].
  cbn [foldl]. destruct Hin as [-> | Hin].
  - cbn [group_names flat_map app] in Hnd. apply NoDup_cons in Hnd as [Hn _].
    rewrite record_type_other.
    + cbn [record_type]. apply lookup_insert_eq.
    + intros H. apply Hn. apply list_elem_of_In, H.
  - apply IH; [| exact Hin].
    destruct i; cbn [group_names flat_map app] in Hnd; [exact Hnd | exact Hnd |].
    apply NoDup_cons in Hnd as [_ Hnd]. exact Hnd.
Qed.

(** The recorded type of every placeholder of the template is its own. *)
Definition types_ok (types : gmap string string) (ts : list string) : Prop :=
  forall t pname ty,
    In t ts -> placeholder t = Some (pname, ty) -> types !! pname = Some (default "str" ty).

(** D4: matching segment by segment is capturing segment by segment and
    then converting in order. *)
Lemma seg_match_groups types ts : forall segs ps,
  types_ok types ts -> forallb template_seg ts = true ->
  seg_match ts segs ps = seg_groups ts segs ≫= fun groups => convert_groups types groups ps.
Proof.
  induction ts as [| t ts IH]; intros segs ps Hok Hts.
  - destruct segs; reflexivity.
  - destruct segs as [| seg segs]; [reflexivity |].
    cbn [forallb] in Hts. apply andb_true_iff in Hts as [Ht Hts].
    assert (Hok' : types_ok types ts)
      by (intros t' n ty Hin; apply Hok; right; exact Hin).
    cbn [seg_match seg_groups]. rewrite (template_is_param t Ht).
    destruct (placeholder t) as [[pname ty] |] eqn:Hp.
    + rewrite bool_decide_eq_true_2 by eauto.
      unfold pstep. rewrite Hp.
      destruct (default fullmatch_str (TYPE_PATTERNS (default "str" ty)) seg);
        [| reflexivity].
      pose proof (Hok t pname ty ltac:(left; reflexivity) Hp) as Hty.
      destruct (default (fun s => Some (PStr s)) (TYPE_CONVERTERS (default "str" ty)) seg)
        as [v |] eqn:Hconv; cbn [fmap option_fmap option_map mbind option_bind].
      * rewrite (IH segs _ Hok' Hts).
        destruct (seg_groups ts segs) as [groups |]; cbn; [| reflexivity].
        rewrite Hty. cbn [default from_option id]. 
        change (from_option id (fun s : string => Some (PStr s))
                  (TYPE_CONVERTERS (from_option id "str" ty)) seg)
          with (default (fun s => Some (PStr s)) (TYPE_CONVERTERS (default "str" ty)) seg).
        rewrite Hconv. reflexivity.
      * destruct (seg_groups ts segs) as [groups |]; cbn; [| reflexivity].
        rewrite Hty. cbn [default from_option id].
        change (from_option id (fun s : string => Some (PStr s))
                  (TYPE_CONVERTERS (from_option id "str" ty)) seg)
          with (default (fun s => Some (PStr s)) (TYPE_CONVERTERS (default "str" ty)) seg).
        rewrite Hconv. reflexivity.
    + rewrite bool_decide_eq_false_2 by (intros [? ?]; discriminate).
      destruct (String.eqb t seg); [| reflexivity].
      apply IH; assumption.
Qed.

(** *** Routes as the constructor builds them *)

Definition genuine (r : Route) : Prop :=
  make_route (path r) (handler r) (methods r) (name r) = Ok r.

Definition canonical_template (r : Route) : Prop :=
  exists ts, path r = cpath ts /\ forallb template_seg ts = true.

Definition canonical_request (p : string) : Prop :=
  (exists segs, p = cpath segs /\ forallb request_seg segs = true)
  /\ nl_end p = false.

Lemma genuine_inv r :
  genuine r ->
  _pattern r = substitute 0 (path r)
  /\ _param_types r = foldl record_type ∅ (substitute 0 (path r))
  /\ NoDup (group_names (substitute 0 (path r))).
Proof.
  unfold genuine, make_route, _compile_pattern.
  destruct (negb (forallb _ _)); [discriminate |].
  destruct (existsb is_meta _ || _); [discriminate |].
  destruct (existsb starts_with_digit _) ; [discriminate |]. cbn [orb].
  destruct (bool_decide (NoDup _)) eqn:Hnd; [| discriminate]. cbn [negb].
  apply bool_decide_eq_true_1 in Hnd.
  destruct r as [pa ha ms na pat types]. cbn [path handler methods name _pattern _param_types].
  intros [= <- <-]. repeat split. exact Hnd.
Qed.

Lemma seg_items_In t ts pname ty :
  In t ts -> placeholder t = Some (pname, ty) ->
  In (Group pname (default "str" ty)) (items_of ts).
Proof.
  intros Hin Hp. unfold items_of. apply in_flat_map. exists t. split; [exact Hin |].
  right. unfold seg_items. rewrite Hp. left. reflexivity.
Qed.

(** On canonical inputs, [Route.match] is the segment-wise match. *)
Lemma route_match_seg r p :
  genuine r -> canonical_template r -> canonical_request p ->
  route_match r p = seg_match (tsegs r) (_split p) ∅.
Proof.
  intros Hgen (ts & Hpath & Hts) [(segs & -> & Hsegs) Hnl].
  destruct (genuine_inv r Hgen) as (Hpat & Htypes & Hnd).
  unfold route_match, tsegs. rewrite Hpat, Hpath.
  rewrite (split_cpath ts) by (apply template_segs_request, Hts).
  rewrite (split_cpath segs) by exact Hsegs.
  rewrite (regex_cpath ts segs Hts Hsegs Hnl).
  rewrite (seg_match_groups (_param_types r) ts segs ∅); [| | exact Hts].
  - destruct (seg_groups ts segs); reflexivity.
  - intros t pname ty Hin Hp. rewrite Htypes.
    destruct ts as [| t0 ts']; [destruct Hin |].
    rewrite Hpath in Hnd |- *. cbn [cpath] in Hnd |- *.
    rewrite substitute_join in Hnd |- * by exact Hts.
    apply record_type_lookup; [exact Hnd |].
    exact (seg_items_In t _ pname ty Hin Hp).
Qed.

Section StaticFirst.
Variables (rs : list Route) (p method : string).

(** Static branches first: when a registered route made of literal segments
    only is the request path and allows the method, the search returns the
    first registered route with that template that allows the method. *)
Lemma scan_literal r :
  In r rs -> tsegs r = _split p ->
  forallb (fun t => negb (_is_param t)) (tsegs r) = true ->
  method ∈ methods r ->
  exists r', scan_all method (terms (tree_of rs) (_split p) ∅) None = Found r' ∅
             /\ tsegs r' = tsegs r /\ method ∈ methods r'
             /\ List.find (fun x => bool_decide (tsegs x = tsegs r) && allows method x) rs
                = Some r'.
Proof.
  intros Hr Hsegs Hplain Hm.
  assert (Hkeys : forall ts, forallb (fun t => negb (_is_param t)) ts = true ->
                             keys ts = map KS ts).
  { intros ts. induction ts as [| t ts IH]; [reflexivity |].
    cbn [forallb keys map]. rewrite andb_true_iff. intros [Ht Hts].
    unfold key_of. apply negb_true_iff in Ht. rewrite Ht. f_equal. apply IH, Hts. }
  assert (Hhead : forall segs n ps m,
            descend n (map KS segs) = Some m ->
            exists tl, terms n segs ps = (routes m, ps) :: tl).
  { induction segs as [| seg segs IH]; intros n ps m.
    - intros [= ->]. exists []. reflexivity.
    - cbn [map descend child_at terms].
      destruct (children n !! seg) as [c |]; [| discriminate].
      intros Hd. destruct (IH c ps m Hd) as [tl ->]. eexists. reflexivity. }
  destruct (descend_tree rs r (List.length (tsegs r)) Hr) as [m Hd].
  rewrite firstn_all, (Hkeys _ Hplain), Hsegs in Hd.
  destruct (Hhead _ _ ∅ _ Hd) as [tl Htl].
  pose proof (routes_at_tree rs (map KS (_split p))) as Hroutes.
  unfold routes_at in Hroutes. rewrite Hd in Hroutes.
  assert (Hfind : exists r', List.find (allows method) (routes m) = Some r').
  { destruct (List.find (allows method) (routes m)) as [r' |] eqn:E; [eauto |].
    eapply find_none in E.
    - unfold allows in E. rewrite bool_decide_eq_true_2 in E by exact Hm. discriminate.
    - rewrite Hroutes. apply filter_In. split; [exact Hr |].
      apply bool_decide_eq_true_2. rewrite <- Hsegs. apply Hkeys, Hplain. }
  destruct Hfind as [r' Hfind]. exists r'.
  assert (Hsame : forall x, keys (tsegs x) = map KS (_split p) -> tsegs x = tsegs r).
  { intros x Hx. rewrite Hsegs. clear -Hx.
    revert Hx. generalize (_split p). induction (tsegs x) as [| t ts IH]; intros [| s l];
      cbn [keys map]; try discriminate; [reflexivity |].
    intros [= Hk Hks]. unfold key_of in Hk. destruct (_is_param t); [discriminate |].
    injection Hk as ->. f_equal. apply IH, Hks. }
  pose proof (find_some _ _ Hfind) as [Hin' Hallow'].
  rewrite Hroutes in Hin'. apply filter_In in Hin' as [Hin' Hk'].
  apply bool_decide_eq_true_1 in Hk'. apply bool_decide_eq_true_1 in Hallow'.
  repeat split.
  - rewrite Htl. cbn [scan_all]. rewrite scan_routes_find, Hfind.
    reflexivity.
  - apply Hsame, Hk'.
  - exact Hallow'.
  - rewrite Hroutes, find_filter in Hfind. rewrite <- Hfind.
    apply find_ext_in. intros x Hx. f_equal.
    destruct (decide (tsegs x = tsegs r)) as [Ht | Ht].
    + rewrite (bool_decide_eq_true_2 _ Ht). symmetry. apply bool_decide_eq_true_2.
      rewrite Ht, Hsegs. apply Hkeys. rewrite <- Hsegs. exact Hplain.
    + rewrite (bool_decide_eq_false_2 _ Ht). symmetry. apply bool_decide_eq_false_2.
      intros Hk. apply Ht, Hsame, Hk.
Qed.

Lemma scan_static r :
  In r rs -> tsegs r = _split p -> forallb plain_seg (tsegs r) = true ->
  method ∈ methods r ->
  exists r', scan_all method (terms (tree_of rs) (_split p) ∅) None = Found r' ∅
             /\ tsegs r' = tsegs r /\ method ∈ methods r'
             /\ List.find (fun x => bool_decide (tsegs x = tsegs r) && allows method x) rs
                = Some r'.
Proof.
  intros Hr Hsegs Hplain. apply scan_literal; [exact Hr | exact Hsegs |].
  apply forallb_forall. intros t Ht.
  rewrite forallb_forall in Hplain. rewrite (plain_is_param t (Hplain t Ht)). reflexivity.
Qed.

End StaticFirst.

(** *** Resolution against the linear scan *)

(** The routes of a list of [(template, methods)] registrations. *)
Definition routes_of (regs : list (string * list string)) : list Route :=
  flat_map (fun reg => match make_route (fst reg) "handler" (list_to_set (snd reg)) None with
                       | Ok r => [r]
                       | Raise _ => []
                       end) regs.

Definition by_id_or_name : list Route :=
  routes_of [("/a/{id:int}", ["GET"]); ("/a/{name}", ["GET"])].

Definition users : list Route :=
  routes_of [("/users/me", ["GET"]); ("/users/{id:int}", ["GET"])].

Definition users_param_first : list Route :=
  routes_of [("/users/{id}", ["GET"]); ("/users/me", ["GET"])].

Definition files : list Route := routes_of [("/files/{rest:path}", ["GET"])].

Definition outcome_of (l : lookup) : string * list (string * pval) :=
  match l with
  | Found r ps => (path r, map_to_list ps)
  | NotFound => ("not-found", [])
  | MethodNotAllowed => ("method-not-allowed", [])
  end.

(** C1, as stated, fails: with [/a/{id:int}] registered before [/a/{name}],
    the linear scan resolves [GET /a/bob] to the second route with
    [name = "bob"], while the tree, which keeps the first placeholder for the
    one parametric child of node [a], answers not-found. *)
Lemma C1_search_differs_from_linear_scan :
  outcome_of (linear_scan by_id_or_name "/a/bob" "GET" false)
    = ("/a/{name}", [("name", PStr "bob")])
  /\ search (tree_of by_id_or_name) "/a/bob" "GET" = Some NotFound
  /\ search (tree_of by_id_or_name) "/a/bob" "GET"
     <> Some (linear_scan by_id_or_name "/a/bob" "GET" false).
Proof. vm_compute. repeat split; congruence. Qed.

(** Scenario S1 of the specification. *)
Example S1_routing :
  outcome_of <$> search (tree_of users) "/users/me" "GET" = Some ("/users/me", [])
  /\ outcome_of <$> search (tree_of users) "/users/42" "GET"
     = Some ("/users/{id:int}", [("id", PInt 42)])
  /\ search (tree_of users) "/users/me" "POST" = Some MethodNotAllowed
  /\ search (tree_of users) "/users/abc" "GET" = Some NotFound.
Proof. vm_compute. repeat split; reflexivity. Qed.

(** The other ways in which the two resolutions part: a trailing slash, a
    parametric route registered before a static one that it also matches,
    and a [path] parameter that spans several segments. *)
Example trailing_slash :
  outcome_of <$> search (tree_of users) "/users/me/" "GET" = Some ("/users/me", [])
  /\ linear_scan users "/users/me/" "GET" false = NotFound.
Proof. vm_compute. split; reflexivity. Qed.

Example static_wins_over_earlier_param :
  outcome_of <$> search (tree_of users_param_first) "/users/me" "GET"
    = Some ("/users/me", [])
  /\ outcome_of (linear_scan users_param_first "/users/me" "GET" false)
     = ("/users/{id}", [("id", PStr "me")]).
Proof. vm_compute. split; reflexivity. Qed.

Example path_parameter :
  search (tree_of files) "/files/a/b" "GET" = Some NotFound
  /\ outcome_of (linear_scan files "/files/a/b" "GET" false)
     = ("/files/{rest:path}", [("rest", PStr "a/b")]).
Proof. vm_compute. split; reflexivity. Qed.

Lemma canonical_path_tsegs r : canonical_template r -> path r = cpath (tsegs r).
Proof.
  intros (ts & Hpath & Hts). unfold tsegs. rewrite Hpath at 2.
  rewrite split_cpath by (apply template_segs_request, Hts). exact Hpath.
Qed.

(** C1 (amended).  Take routes built by the constructor whose templates are
    canonical (slash-separated segments, each a literal without special
    characters or one placeholder of type int, str, uuid or slug) and
    pairwise consistent (no two different placeholders after the same
    segments), and a canonical request path (leading slash, no empty segment,
    no trailing slash or newline).  Then [RadixTree.search] always returns;
    a route it returns is registered, matches the path under [Route.match]
    with the parameters returned and allows the method, and the linear scan
    succeeds too; it fails with method-not-allowed or not-found exactly as
    the linear scan does; it returns the very route and parameters of the
    linear scan whenever the routes that match path and method share one
    template; and, static branches being explored first, a matching route
    made of literal segments is preferred whatever was registered before
    it. *)
Theorem C1_search_refines_linear_scan rs p method :
  (forall r, In r rs -> genuine r /\ canonical_template r) ->
  (forall r1 r2, In r1 rs -> In r2 rs -> consistent (tsegs r1) (tsegs r2)) ->
  canonical_request p ->
  (exists res,
     search (tree_of rs) p method = Some res
     /\ match res with
        | Found r ps =>
            In r rs /\ route_match r p = Some ps /\ method ∈ methods r
            /\ exists r' ps', linear_scan rs p method false = Found r' ps'
        | failure => linear_scan rs p method false = failure
        end)
  /\ ((forall r1 r2, In r1 rs -> In r2 rs ->
         is_Some (route_match r1 p) -> is_Some (route_match r2 p) ->
         method ∈ methods r1 -> method ∈ methods r2 -> path r1 = path r2) ->
      search (tree_of rs) p method = Some (linear_scan rs p method false))
  /\ (forall r, In r rs -> path r = p -> forallb plain_seg (tsegs r) = true ->
        method ∈ methods r ->
        exists r', search (tree_of rs) p method = Some (Found r' ∅)
                   /\ path r' = p /\ method ∈ methods r'
                   /\ List.find (fun x => bool_decide (tsegs x = tsegs r)
                                          && bool_decide (method ∈ methods x)) rs
                      = Some r').
Proof.
  intros Hrs Hcons Hp.
  assert (Hmatch : forall r, In r rs -> route_match r p = seg_match (tsegs r) (_split p) ∅).
  { intros r Hr. destruct (Hrs r Hr). apply route_match_seg; assumption. }
  assert (Hlin : linear_scan rs p method false
                 = linear_by (fun r => seg_match (tsegs r) (_split p) ∅) rs method false).
  { rewrite linear_scan_by. apply linear_by_ext, Hmatch. }
  rewrite search_terms, Hlin. repeat split.
  - eexists. split; [reflexivity |].
    destruct (scan_all method _ None) as [r ps | |] eqn:Hscan.
    + destruct (scan_found rs p method Hcons r ps Hscan) as (Hr & Hf & Hm & _).
      repeat split; try assumption.
      * rewrite Hmatch by exact Hr. exact Hf.
      * apply (scan_found_linear rs p method Hcons r ps Hscan).
    + rewrite <- Hscan. apply scan_missing; [exact Hcons |]. intros r ps. congruence.
    + rewrite <- Hscan. apply scan_missing; [exact Hcons |]. intros r ps. congruence.
  - intros Hunamb. f_equal. apply scan_unambiguous; [exact Hcons |].
    intros r1 r2 Hr1 Hr2 H1 H2 Hm1 Hm2. unfold tsegs. f_equal.
    apply Hunamb; try assumption; rewrite Hmatch by assumption; assumption.
  - intros r Hr Hpath Hplain Hm.
    destruct (scan_static rs p method r Hr ltac:(unfold tsegs; rewrite Hpath; reflexivity)
                Hplain Hm) as (r' & Hscan & Hsegs & Hm' & Hfind).
    exists r'. rewrite Hscan. repeat split; try assumption.
    pose proof (find_some _ _ Hfind) as [Hr' _].
    rewrite (canonical_path_tsegs r') by (apply Hrs, Hr').
    rewrite Hsegs, <- (canonical_path_tsegs r) by (apply Hrs, Hr). exact Hpath.
Qed.

Lemma users_well_formed r : In r users -> genuine r /\ canonical_template r.
Proof.
  intros [<- | [<- | []]]; (split; [vm_compute; reflexivity |]).
  - exists ["users"; "me"]. split; vm_compute; reflexivity.
  - exists ["users"; "{id:int}"]. split; vm_compute; reflexivity.
Qed.

Lemma users_consistent r1 r2 :
  In r1 users -> In r2 users -> consistent (tsegs r1) (tsegs r2).
Proof.
  intros [<- | [<- | []]] [<- | [<- | []]] i x y _ Hx Hy Hpx Hpy;
    destruct i as [| [| i]]; vm_compute in Hx, Hy;
    try discriminate; injection Hx as <-; injection Hy as <-;
    try reflexivity; vm_compute in Hpx, Hpy; discriminate.
Qed.

Lemma C1_search_refines_linear_scan_witness :
  search (tree_of users) "/users/42" "GET"
  = Some (linear_scan users "/users/42" "GET" false).
Proof.
  refine (proj1 (proj2 (C1_search_refines_linear_scan users "/users/42" "GET"
                          users_well_formed users_consistent _)) _).
  - split; [exists ["users"; "42"]; split; vm_compute; reflexivity | vm_compute; reflexivity].
  - intros r1 r2 [<- | [<- | []]] [<- | [<- | []]] H1 H2 _ _;
      try reflexivity; vm_compute in H1, H2;
      first [destruct H1; discriminate | destruct H2; discriminate].
Defined.

End RoutingProps.

(** ** Requests: reading within the cap, the cache, header lookup *)

Module RequestFacts.
Import Asgi Req ReqProps StrProps.

(** The bytes carried by a list of messages, one after the other. *)
Fixpoint bytes_of (ms : list recv_msg) : string :=
  match ms with
  | [] => EmptyString
  | m :: ms' => m_body m +:+ bytes_of ms'
  end.

Lemma join_snoc chunks b :
  Py.join "" (chunks ++ [b]) = Py.join "" chunks +:+ b.
Proof.
  unfold Py.join. induction chunks as [| c chunks IH]; [reflexivity |].
  destruct chunks as [| c' chunks].
  - cbn. unfold_app. reflexivity.
  - change ((c :: c' :: chunks) ++ [b]) with (c :: (c' :: chunks) ++ [b]).
    cbn [app String.concat] in IH |- *. rewrite IH.
    unfold_app. rewrite !app_assoc_s. reflexivity.
Qed.

Lemma not_truthy_empty s : Py.truthy (Some s) = false -> s = "".
Proof. destruct s; [reflexivity | discriminate]. Qed.

(** Below the cap, or without one, the loop collects every message up to
    the first that does not announce more, and leaves the others unread. *)
Lemma read_chunks_within max pending : forall chunks total,
  (max <= 0 \/ total + size (body_msgs pending) <= max) ->
  exists chunks',
    read_chunks max chunks total pending
    = (Ok chunks', drop (List.length (body_msgs pending)) pending)
    /\ Py.join "" chunks' = Py.join "" chunks +:+ bytes_of (body_msgs pending).
Proof.
  induction pending as [| m pending IH]; intros chunks total Hcap.
  - exists chunks. split; [reflexivity |]. cbn. rewrite app_nil_r_s. reflexivity.
  - cbn [read_chunks body_msgs].
    assert (Hno : forall t, t <= total + Py.len (m_body m) ->
                  (max >? 0) && (t >? max) = false).
    { intros t Ht. destruct (Z.gtb_spec max 0); [| reflexivity].
      destruct (Z.gtb_spec t max); [| reflexivity].
      destruct Hcap as [Hcap | Hcap]; [lia |].
      cbn [body_msgs size] in Hcap.
      pose proof (size_nonneg (if m_more_body m then body_msgs pending else [])). lia. }
    destruct (Py.truthy (Some (m_body m))) eqn:Htr.
    + rewrite Hno by lia. destruct (m_more_body m) eqn:Hmore.
      * destruct (IH (chunks ++ [m_body m]) (total + Py.len (m_body m)))
          as (chunks' & Hread & Hjoin).
        { destruct Hcap as [Hcap | Hcap]; [left; exact Hcap | right].
          cbn [body_msgs size] in Hcap. rewrite Hmore in Hcap. lia. }
        exists chunks'. split; [exact Hread |].
        rewrite Hjoin, join_snoc. cbn [bytes_of]. rewrite app_assoc_s. reflexivity.
      * exists (chunks ++ [m_body m]). split; [reflexivity |].
        rewrite join_snoc. cbn [bytes_of]. rewrite app_nil_r_s. reflexivity.
    + apply not_truthy_empty in Htr. destruct (m_more_body m) eqn:Hmore.
      * destruct (IH chunks total) as (chunks' & Hread & Hjoin).
        { destruct Hcap as [Hcap | Hcap]; [left; exact Hcap | right].
          cbn [body_msgs size] in Hcap. rewrite Hmore in Hcap.
          pose proof (len_nonneg (m_body m)). lia. }
        exists chunks'. split; [exact Hread |].
        rewrite Hjoin. cbn [bytes_of]. rewrite Htr. reflexivity.
      * exists chunks. split; [reflexivity |].
        cbn [bytes_of]. rewrite Htr, app_nil_r_s. reflexivity.
Qed.


Definition upload : list recv_msg :=
  [mkRecv "ab" true; mkRecv "" true; mkRecv "cd" false; mkRecv "next" false].


(** X2: the body is read once.  After a successful [Request.body], a
    second call returns the same bytes and leaves the request as it is: no
    further message is consumed. *)
Theorem body_cached r b r' :
  body r = (Ok b, r') -> body r' = (Ok b, r').
Proof.
  unfold body. destruct (_body r) as [b0 |] eqn:Hb.
  - intros [= <- <-]. rewrite Hb. reflexivity.
  - destruct (_body_consumed r) eqn:Hc.
    + intros [= <- <-]. rewrite Hb, Hc. reflexivity.
    + destruct (early_reject r) as [[] | e]; try discriminate.
      destruct (read_chunks _ _ _ _) as [[chunks | e] pending]; [| discriminate].
      intros [= <- <-]. reflexivity.
Qed.

Lemma body_cached_witness :
  body (mkRequest (mkScope "http" (Some "POST") (Some "/upload") [] None None)
                  [mkRecv "next" false] (Some "abcd") true 4)
  = (Ok "abcd",
     mkRequest (mkScope "http" (Some "POST") (Some "/upload") [] None None)
               [mkRecv "next" false] (Some "abcd") true 4).
Proof.
  apply (body_cached (new (mkScope "http" (Some "POST") (Some "/upload") [] None None)
                          upload 4)).
  vm_compute. reflexivity.
Defined.

(** X3: header lookup ignores the case of names, and of several headers
    with the same name the last one wins: [Request.get_header] returns the
    value of the last header of the scope whose lower-cased name is the
    lower-cased name asked for, and none when there is no such header. *)
Theorem get_header_last_wins r name :
  get_header r name
  = snd <$> last (List.filter
                    (fun nv => String.eqb (Py.lower (fst nv)) (Py.lower name))
                    (sc_headers (_scope r))).
Proof.
  unfold get_header, headers.
  rewrite (foldl_insert_lookup (fun nv => Py.lower (fst nv)) snd).
  destruct (last _); reflexivity.
Qed.

End RequestFacts.

(** ** Integers and their decimal text *)

Module PyFacts.
Import StrProps.

Definition not_space (c : ascii) : bool := negb (Py.is_space c).

Lemma lstrip_not_space c s : Py.is_space c = false -> Py.lstrip (String c s) = String c s.
Proof. intros H. cbn [Py.lstrip]. rewrite H. reflexivity. Qed.

Lemma rstrip_no_space s : all_chars not_space s = true -> Py.rstrip s = s.
Proof.
  unfold not_space. induction s as [| c s IH]; [reflexivity |].
  cbn [Py.all_chars Py.rstrip]. rewrite andb_true_iff, negb_true_iff.
  intros [Hc Hs]. rewrite (IH Hs), Hc. destruct s; reflexivity.
Qed.

(** Text without whitespace is left alone by [strip]. *)
Lemma strip_no_space s : all_chars not_space s = true -> Py.strip s = s.
Proof.
  intros H. unfold Py.strip. rewrite (rstrip_no_space s H).
  destruct s as [| c s]; [reflexivity |].
  cbn [Py.all_chars] in H. apply andb_true_iff in H as [Hc _].
  apply lstrip_not_space. apply negb_true_iff, Hc.
Qed.

Lemma digit_not_space c : Py.is_digit c = true -> not_space c = true.
Proof. destruct c as [[] [] [] [] [] [] [] []]; vm_compute; congruence. Qed.

Lemma count_digits_length s :
  all_chars Py.is_digit s = true -> Py.count_digits s = Z.of_nat (String.length s).
Proof.
  induction s as [| c s IH]; [reflexivity |].
  cbn [Py.all_chars Py.count_digits String.length]. rewrite andb_true_iff.
  intros [-> Hs]. rewrite (IH Hs). lia.
Qed.

(** A text of digits is read as it stands: no sign, nothing to strip. *)
Lemma int_of_digits s :
  Py.nonempty s = true -> all_chars Py.is_digit s = true ->
  Py.int_of_str s = Py.unsigned_of_str s.
Proof.
  intros Hne Hd. unfold Py.int_of_str.
  rewrite strip_no_space by (eapply all_chars_weaken; [apply digit_not_space | exact Hd]).
  destruct s as [| c s]; [discriminate |].
  cbn [Py.all_chars] in Hd. apply andb_true_iff in Hd as [Hc _].
  destruct c as [[] [] [] [] [] [] [] []]; try discriminate Hc; reflexivity.
Qed.

Lemma digits_value_total s : forall acc,
  0 <= acc -> all_chars Py.is_digit s = true ->
  exists z, Py.digits_value acc false s = Some z /\ 0 <= z.
Proof.
  induction s as [| c s IH]; intros acc Hacc.
  - intros _. exists acc. split; [reflexivity | exact Hacc].
  - cbn [Py.all_chars Py.digits_value]. rewrite andb_true_iff. intros [Hc Hs].
    rewrite Hc. apply IH; [| exact Hs].
    assert (0 <= Py.digit_value c).
    { destruct c as [[] [] [] [] [] [] [] []]; try discriminate Hc; vm_compute; discriminate. }
    lia.
Qed.

(** [int] of a text of digits succeeds exactly when the text has no more
    digits than [sys.get_int_max_str_digits()]. *)
Lemma int_of_digits_limit s :
  Py.nonempty s = true -> all_chars Py.is_digit s = true ->
  if (Z.of_nat (String.length s) <=? Py.int_max_str_digits)
  then exists z, Py.int_of_str s = Some z /\ 0 <= z
  else Py.int_of_str s = None.
Proof.
  intros Hne Hd. rewrite (int_of_digits s Hne Hd).
  destruct s as [| c s]; [discriminate |].
  unfold Py.unsigned_of_str. rewrite (count_digits_length _ Hd).
  cbn [Py.all_chars] in Hd. apply andb_true_iff in Hd as [Hc Hs]. rewrite Hc.
  destruct (Z.leb_spec (Z.of_nat (String.length (String c s))) Py.int_max_str_digits)
    as [Hle | Hgt].
  - destruct (Z.ltb_spec Py.int_max_str_digits (Z.of_nat (String.length (String c s))));
      [lia |].
    apply digits_value_total; [| exact Hs].
    destruct c as [[] [] [] [] [] [] [] []]; try discriminate Hc; vm_compute; discriminate.
  - destruct (Z.ltb_spec Py.int_max_str_digits (Z.of_nat (String.length (String c s))));
      [reflexivity | lia].
Qed.

Lemma digits_value_step c r acc :
  Py.is_digit c = true ->
  Py.digits_value acc false (String c r)
  = Py.digits_value (acc * 10 + Py.digit_value c) false r.
Proof. intros H. cbn [Py.digits_value]. rewrite H. reflexivity. Qed.

(** The digits of a decimal numeral, read from the left. *)
Lemma digits_value_uint d : forall acc,
  Py.digits_value (Zpos acc) false (NilEmpty.string_of_uint d)
  = Some (Zpos (Pos.of_uint_acc d acc)).
Proof.
  induction d; intros acc; cbn [NilEmpty.string_of_uint Pos.of_uint_acc];
    [reflexivity | ..];
    rewrite <- IHd, digits_value_step by reflexivity;
    f_equal; vm_compute (Py.digit_value _); lia.
Qed.

Lemma digits_value_uint0 d :
  Py.digits_value 0 false (NilEmpty.string_of_uint d) = Some (Z.of_N (Pos.of_uint d)).
Proof.
  induction d; cbn [NilEmpty.string_of_uint Pos.of_uint];
    [reflexivity | ..];
    rewrite digits_value_step by reflexivity;
    [exact IHd | ..];
    match goal with
    | |- _ = Some (Z.of_N (N.pos (Pos.of_uint_acc _ ?k))) => exact (digits_value_uint d k)
    end.
Qed.

Lemma uint_digits d : all_chars Py.is_digit (NilEmpty.string_of_uint d) = true.
Proof. induction d; cbn; auto. Qed.

Lemma unsigned_of_uint d :
  d <> Decimal.Nil ->
  (String.length (NilEmpty.string_of_uint d) <= 4300)%nat ->
  Py.unsigned_of_str (NilEmpty.string_of_uint d) = Some (Z.of_uint d).
Proof.
  intros Hd Hlen. unfold Py.unsigned_of_str.
  rewrite (count_digits_length _ (uint_digits d)).
  destruct (Z.ltb_spec Py.int_max_str_digits
              (Z.of_nat (String.length (NilEmpty.string_of_uint d)))) as [Hgt | _].
  { unfold Py.int_max_str_digits in Hgt. lia. }
  unfold Z.of_uint.
  destruct d; [congruence | ..]; cbn [NilEmpty.string_of_uint Pos.of_uint];
    change (Py.is_digit _) with true; cbv iota;
    [apply digits_value_uint0 | ..];
    match goal with
    | |- _ = Some (Z.of_N (N.pos (Pos.of_uint_acc _ ?k))) => exact (digits_value_uint d k)
    end.
Qed.

(** [int(str(z)) == z], as long as [str(z)] stays within the digit limit. *)
Lemma int_of_str_of_Z z :
  (String.length (Py.str_of_Z z) <= 4300)%nat -> Py.int_of_str (Py.str_of_Z z) = Some z.
Proof.
  intros Hlen. rewrite <- (DecimalZ.of_to z) at 2.
  unfold Py.str_of_Z in *. destruct (Z.to_int z) as [d | d] eqn:Hz.
  - unfold NilZero.string_of_int, NilZero.string_of_uint in *. cbn [Z.of_int].
    destruct (Decimal.uint_eq_dec d Decimal.Nil) as [-> | Hd]; [reflexivity |].
    replace (match d with Decimal.Nil => "0" | _ => NilEmpty.string_of_uint d end)
      with (NilEmpty.string_of_uint d) in * by (destruct d; congruence).
    rewrite int_of_digits; [apply unsigned_of_uint; assumption | | apply uint_digits].
    destruct d; [congruence | ..]; reflexivity.
  - unfold NilZero.string_of_int, NilZero.string_of_uint in *. cbn [Z.of_int].
    set (t := match d with Decimal.Nil => "0" | _ => NilEmpty.string_of_uint d end) in *.
    assert (Ht : all_chars Py.is_digit t = true)
      by (subst t; destruct d; [reflexivity | ..]; apply uint_digits).
    assert (Hval : Py.unsigned_of_str t = Some (Z.of_uint d)).
    { subst t. destruct (Decimal.uint_eq_dec d Decimal.Nil) as [-> | Hd]; [reflexivity |].
      replace (match d with Decimal.Nil => "0" | _ => NilEmpty.string_of_uint d end)
        with (NilEmpty.string_of_uint d) in * by (destruct d; congruence).
      apply unsigned_of_uint; [exact Hd |]. cbn [String.length] in Hlen. lia. }
    unfold Py.int_of_str.
    rewrite strip_no_space.
    + rewrite Hval. reflexivity.
    + cbn [Py.all_chars]. apply andb_true_iff. split; [reflexivity |].
      eapply all_chars_weaken; [apply digit_not_space | exact Ht].
Qed.

Lemma digits_value_chars s : forall acc pu z,
  Py.digits_value acc pu s = Some z ->
  all_chars (fun c => Py.is_digit c || Ascii.eqb c "_") s = true.
Proof.
  induction s as [| c s IH]; intros acc pu z; [reflexivity |].
  cbn [Py.digits_value Py.all_chars].
  destruct (Py.is_digit c); [intros H; apply (IH _ _ _ H) |].
  destruct (Ascii.eqb c "_"); [| discriminate].
  destruct pu; [discriminate |]. intros H. apply (IH _ _ _ H).
Qed.

Lemma free_lstrip s : free_of ":" (Py.lstrip s) = free_of ":" s.
Proof.
  unfold free_of. induction s as [| c s IH]; [reflexivity |].
  cbn [Py.lstrip Py.all_chars]. destruct (Py.is_space c) eqn:Hc; [| reflexivity].
  rewrite IH. destruct (Ascii.eqb_spec c ":") as [-> |]; [discriminate | reflexivity].
Qed.

Lemma free_rstrip s : free_of ":" (Py.rstrip s) = free_of ":" s.
Proof.
  unfold free_of. induction s as [| c s IH]; [reflexivity |].
  cbn [Py.rstrip Py.all_chars]. rewrite <- IH.
  destruct (Py.rstrip s) eqn:E; [| reflexivity].
  destruct (Py.is_space c) eqn:Hc; cbn [Py.all_chars]; [| rewrite andb_true_r; reflexivity].
  destruct (Ascii.eqb_spec c ":") as [-> |]; [discriminate | reflexivity].
Qed.

(** A text with a colon is not an integer. *)
Lemma int_of_str_free s z : Py.int_of_str s = Some z -> free_of ":" s = true.
Proof.
  unfold Py.int_of_str. intros H.
  rewrite <- free_rstrip, <- free_lstrip. fold (Py.strip s).
  assert (Hu : forall t y, Py.unsigned_of_str t = Some y -> free_of ":" t = true).
  { intros t y. unfold Py.unsigned_of_str. destruct t as [| c t]; [discriminate |].
    destruct (Py.is_digit c) eqn:Hc; [| discriminate].
    destruct (_ <? _); [discriminate |]. intros Hv.
    apply digits_value_chars in Hv. unfold free_of. cbn [Py.all_chars].
    apply andb_true_iff. split.
    - destruct c as [[] [] [] [] [] [] [] []]; try discriminate Hc; reflexivity.
    - eapply all_chars_weaken; [| exact Hv].
      intros x. destruct x as [[] [] [] [] [] [] [] []]; vm_compute; congruence. }
  destruct (Py.strip s) as [| c t] eqn:Hs; [discriminate |].
  destruct (Ascii.eqb_spec c "-") as [-> | Hm].
  { destruct (Py.unsigned_of_str t) eqn:E; [| discriminate].
    unfold free_of in *. cbn [Py.all_chars]. apply (Hu _ _ E). }
  destruct (Ascii.eqb_spec c "+") as [-> | Hp].
  { unfold free_of in *. cbn [Py.all_chars]. apply (Hu _ _ H). }
  apply (Hu (String c t) z).
  destruct c as [[] [] [] [] [] [] [] []]; try exact H; congruence.
Qed.

End PyFacts.

(** ** Signed tokens: expiry, and values that contain the separator *)

Module CodecFacts.
Import Asgi Codec StrProps CodecProps PyFacts.

(** The expiry test on a timestamp and a [max_age] below [2^53] in
    magnitude: a token within its [max_age] is not expired. *)
Lemma expired_within now ts max_age :
  - 2 ^ 53 < ts < 2 ^ 53 -> - 2 ^ 53 < max_age < 2 ^ 53 ->
  (now - inject_Z ts <= inject_Z max_age)%Q ->
  expired now ts max_age = Ok false.
Proof.
  intros Hts Hm Hage. unfold expired.
  destruct (FloatProps.float_of_int_small ts Hts) as (t & -> & Ht).
  assert (H : (Py.fsub now t <= inject_Z max_age)%Q).
  { apply FloatProps.round64_le_int; [exact Hm |]. rewrite Ht. exact Hage. }
  apply Qle_bool_iff in H. rewrite H. reflexivity.
Qed.

(** For a clock reading that is a double below [2^53] and a timestamp that is
    not in the future, the difference is exact: a token past its [max_age]
    is expired. *)
Lemma expired_past now ts max_age :
  0 <= ts -> Py.is_double now = true ->
  (inject_Z ts <= now)%Q -> (now < inject_Z (2 ^ 53))%Q ->
  (inject_Z max_age < now - inject_Z ts)%Q ->
  expired now ts max_age = Ok true.
Proof.
  intros Hts Hd Hle Hlt Hage. unfold expired.
  assert (Hts' : - 2 ^ 53 < ts < 2 ^ 53).
  { split; [lia |]. rewrite Zlt_Qlt. eapply Qle_lt_trans; [exact Hle | exact Hlt]. }
  destruct (FloatProps.float_of_int_small ts Hts') as (t & -> & Ht).
  assert (Hx : (Py.fsub now t == now - inject_Z ts)%Q).
  { assert (Hxt : (now - t == now - inject_Z ts)%Q) by (rewrite Ht; reflexivity).
    unfold Py.fsub. rewrite <- Hxt.
    apply (FloatProps.round64_sub_int now ts); assumption. }
  destruct (Qle_bool (Py.fsub now t) (inject_Z max_age)) eqn:E; [| reflexivity].
  apply Qle_bool_iff in E. rewrite Hx in E. apply Qle_not_lt in E. contradiction.
Qed.

(** A timestamp of [2^1024] or more cannot be converted to a float. *)
Lemma expired_overflow now ts max_age :
  2 ^ 1024 <= ts -> expired now ts max_age = Raise OverflowError.
Proof.
  intros Hts. unfold expired. rewrite (FloatProps.float_of_int_overflow ts Hts).
  reflexivity.
Qed.

Section Facts.
Context {V : Type} (lib : Library V) (laws : Lawful lib).

Lemma unsign_sign_max_age c ts now max_age value token :
  free_of ":" value = true ->
  (String.length (Py.str_of_Z ts) <= 4300)%nat ->
  sign lib c ts value = Some token ->
  unsign lib c now token (Some max_age)
  = match expired now ts max_age with
    | Raise e => Raise e
    | Ok true => Ok None
    | Ok false => Ok (Some value)
    end.
Proof.
  intros Hv Hlen. rewrite (sign_eq lib laws). intros [= <-]. unfold unsign.
  rewrite rsplit2_three by (try exact Hv; apply (signature_free lib laws)).
  rewrite (create_signature_eq lib laws). unfold Py.compare_digest_str.
  rewrite (signature_ascii lib laws). cbn [andb]. rewrite String.eqb_refl.
  rewrite (int_of_str_of_Z ts Hlen). reflexivity.
Qed.

(** X4: tokens expire.  A token that [sign] built at second [ts], checked
    with a [max_age], is accepted when [now - ts <= max_age]: [unsign] gives
    back the signed value, and [decode_value] does what it does without
    [max_age].  It is rejected when [now - ts > max_age], for a clock reading
    that is a double below [2^53] and not earlier than [ts].  For a timestamp
    of [2^1024] or more the expiry test raises [OverflowError], which neither
    [unsign] nor [decode_value] catches. *)
Theorem tokens_expire c ts now max_age value token :
  (String.length (Py.str_of_Z ts) <= 4300)%nat ->
  free_of ":" value = true ->
  sign lib c ts value = Some token ->
  - 2 ^ 53 < max_age < 2 ^ 53 ->
  (- 2 ^ 53 < ts < 2 ^ 53 ->
   (now - inject_Z ts <= inject_Z max_age)%Q ->
   unsign lib c now token (Some max_age) = Ok (Some value)
   /\ decode_value lib c now token (Some max_age) = decode_value lib c now token None)
  /\ (0 <= ts -> Py.is_double now = true ->
      (inject_Z ts <= now)%Q -> (now < inject_Z (2 ^ 53))%Q ->
      (inject_Z max_age < now - inject_Z ts)%Q ->
      unsign lib c now token (Some max_age) = Ok None
      /\ decode_value lib c now token (Some max_age) = Ok None)
  /\ (2 ^ 1024 <= ts ->
      unsign lib c now token (Some max_age) = Raise OverflowError
      /\ decode_value lib c now token (Some max_age) = Raise OverflowError).
Proof.
  intros Hlen Hv Hs Hm.
  pose proof (unsign_sign_max_age c ts now max_age value token Hv Hlen Hs) as Hun.
  split; [| split].
  - intros Hts Hage. rewrite (expired_within now ts max_age Hts Hm Hage) in Hun.
    split; [exact Hun |]. unfold decode_value.
    rewrite Hun, (unsign_sign lib laws c ts now value token Hv Hs). reflexivity.
  - intros Hts Hd Hle Hlt Hage.
    rewrite (expired_past now ts max_age Hts Hd Hle Hlt Hage) in Hun.
    split; [exact Hun |]. unfold decode_value. rewrite Hun. reflexivity.
  - intros Hts. rewrite (expired_overflow now ts max_age Hts) in Hun.
    split; [exact Hun |]. unfold decode_value. rewrite Hun. reflexivity.
Qed.

(** X5: [unsign] cuts a signed value at its last colon.  For a value
    [a:b] where [b] has no colon, the token that [sign] builds verifies, but
    [unsign] without [max_age] returns [b] only, and [unsign] with a
    [max_age] returns none: the token is split from the right, so the text
    before the last colon of the value is taken for part of the timestamp. *)
Theorem unsign_value_with_colon c ts now a b token :
  free_of ":" b = true ->
  sign lib c ts (a +:+ ":" +:+ b) = Some token ->
  unsign lib c now token None = Ok (Some b)
  /\ forall max_age, unsign lib c now token (Some max_age) = Ok None.
Proof.
  intros Hb. rewrite (sign_eq lib laws). intros [= <-].
  set (sg := signature lib c (Py.str_of_Z ts +:+ ":" +:+ (a +:+ ":" +:+ b))).
  assert (Hparts : Py.rsplit2 ":" (Py.str_of_Z ts +:+ String ":" ((a +:+ ":" +:+ b) +:+ String ":" sg))
                   = [Py.str_of_Z ts +:+ ":" +:+ a; b; sg]).
  { rewrite <- (rsplit2_three ":" (Py.str_of_Z ts +:+ ":" +:+ a) b sg Hb
                  (signature_free lib laws _ _)).
    f_equal. rewrite !app_assoc_s. unfold_app. rewrite ?app_assoc_s. reflexivity. }
  assert (Htext : (Py.str_of_Z ts +:+ ":" +:+ a) +:+ ":" +:+ b
                  = Py.str_of_Z ts +:+ ":" +:+ (a +:+ ":" +:+ b)).
  { rewrite !app_assoc_s. reflexivity. }
  assert (Hint : Py.int_of_str (Py.str_of_Z ts +:+ ":" +:+ a) = None).
  { destruct (Py.int_of_str _) as [z |] eqn:E; [| reflexivity].
    apply int_of_str_free in E. unfold free_of in E.
    rewrite !all_chars_app in E. cbn in E.
    rewrite andb_false_r in E. discriminate. }
  unfold unsign. rewrite Hparts, Htext, (create_signature_eq lib laws).
  subst sg. unfold Py.compare_digest_str.
  rewrite (signature_ascii lib laws). cbn [andb]. rewrite String.eqb_refl.
  split; [reflexivity |]. intros max_age. rewrite Hint. reflexivity.
Qed.

End Facts.

Lemma tokens_expire_witness :
  unsign demo_library demo_codec (1700000100 # 1) "1700000000:abc:aa" (Some 3600)
  = Ok (Some "abc")
  /\ unsign demo_library demo_codec (1700003601 # 1) "1700000000:abc:aa" (Some 3600)
     = Ok None.
Proof.
  split.
  - refine (proj1 (proj1 (tokens_expire demo_library demo_lawful demo_codec
                            1700000000 (1700000100 # 1) 3600 "abc" "1700000000:abc:aa"
                            _ _ _ _) _ _)).
    + vm_compute. lia.
    + vm_compute. reflexivity.
    + vm_compute. reflexivity.
    + split; reflexivity.
    + split; reflexivity.
    + vm_compute. discriminate.
  - refine (proj1 (proj1 (proj2 (tokens_expire demo_library demo_lawful demo_codec
                                   1700000000 (1700003601 # 1) 3600 "abc"
                                   "1700000000:abc:aa" _ _ _ _)) _ _ _ _ _)).
    + vm_compute. lia.
    + vm_compute. reflexivity.
    + vm_compute. reflexivity.
    + split; reflexivity.
    + discriminate.
    + vm_compute. reflexivity.
    + vm_compute. discriminate.
    + reflexivity.
    + reflexivity.
Defined.

Lemma unsign_value_with_colon_witness :
  unsign demo_library demo_codec (1700000100 # 1)
         (default "" (sign demo_library demo_codec 1700000000 "user:42")) None
  = Ok (Some "42").
Proof.
  refine (proj1 (unsign_value_with_colon demo_library demo_lawful demo_codec
                   1700000000 (1700000100 # 1) "user" "42" _ _ _)).
  - vm_compute. reflexivity.
  - vm_compute. reflexivity.
Defined.

End CodecFacts.

(** ** Cookies: the [Cookie] header and the [Set-Cookie] value *)

Module CookieFacts.
Import Asgi CookieJar StrProps PyFacts.

(** A character allowed in a cookie name: no whitespace, no [;], no [=]. *)
Definition name_char (c : ascii) : bool :=
  not_space c && negb (Ascii.eqb c ";") && negb (Ascii.eqb c "=").

(** A character allowed in a cookie value: no whitespace and no [;]. *)
Definition value_char (c : ascii) : bool :=
  not_space c && negb (Ascii.eqb c ";").

Definition well_formed (kv : string * string) : bool :=
  all_chars name_char (fst kv) && all_chars value_char (snd kv).

(** [name=value]. *)
Definition cookie_pair (kv : string * string) : string :=
  fst kv +:+ "=" +:+ snd kv.

(** The header a client sends for a list of cookies: the pairs joined by
    a semicolon and a space. *)
Definition cookie_header (kvs : list (string * string)) : string :=
  Py.join "; " (map cookie_pair kvs).

Lemma partition_app sep k v :
  free_of sep k = true -> Py.partition sep (k +:+ String sep v) = (k, true, v).
Proof.
  unfold free_of. induction k as [| c k IH]; unfold_app; cbn [Py.partition Py.all_chars].
  - intros _. rewrite Ascii.eqb_refl. reflexivity.
  - rewrite andb_true_iff, negb_true_iff. intros [-> Hk]. rewrite (IH Hk). reflexivity.
Qed.

Lemma pair_chars kv :
  well_formed kv = true ->
  all_chars not_space (cookie_pair kv) = true
  /\ free_of ";" (cookie_pair kv) = true
  /\ free_of "=" (fst kv) = true
  /\ all_chars not_space (fst kv) = true
  /\ all_chars not_space (snd kv) = true.
Proof.
  unfold well_formed, cookie_pair, free_of. rewrite andb_true_iff. intros [Hk Hv].
  rewrite !all_chars_app. cbn [Py.all_chars].
  assert (Hk1 : all_chars not_space (fst kv) = true)
    by (eapply all_chars_weaken; [| exact Hk]; unfold name_char; intros c;
        rewrite !andb_true_iff; tauto).
  assert (Hk2 : all_chars (fun c => negb (Ascii.eqb c ";")) (fst kv) = true)
    by (eapply all_chars_weaken; [| exact Hk]; unfold name_char; intros c;
        rewrite !andb_true_iff; tauto).
  assert (Hk3 : all_chars (fun c => negb (Ascii.eqb c "=")) (fst kv) = true)
    by (eapply all_chars_weaken; [| exact Hk]; unfold name_char; intros c;
        rewrite !andb_true_iff; tauto).
  assert (Hv1 : all_chars not_space (snd kv) = true)
    by (eapply all_chars_weaken; [| exact Hv]; unfold value_char; intros c;
        rewrite !andb_true_iff; tauto).
  assert (Hv2 : all_chars (fun c => negb (Ascii.eqb c ";")) (snd kv) = true)
    by (eapply all_chars_weaken; [| exact Hv]; unfold value_char; intros c;
        rewrite !andb_true_iff; tauto).
  rewrite Hk1, Hk2, Hk3, Hv1, Hv2. repeat split; reflexivity.
Qed.

(** One item of the header, with or without the space that follows the
    semicolon, records its pair. *)
Lemma parse_item_pair (cookies : gmap string string) kv :
  well_formed kv = true ->
  parse_item cookies (cookie_pair kv) = <[fst kv := snd kv]> cookies
  /\ parse_item cookies (String " " (cookie_pair kv)) = <[fst kv := snd kv]> cookies.
Proof.
  intros Hwf. destruct (pair_chars kv Hwf) as (Hsp & _ & Heq & Hk & Hv).
  assert (Hstrip : Py.strip (String " " (cookie_pair kv)) = cookie_pair kv).
  { unfold Py.strip. cbn [Py.rstrip]. rewrite (rstrip_no_space _ Hsp).
    unfold cookie_pair in *. destruct (fst kv +:+ "=" +:+ snd kv) as [| c s] eqn:E.
    - destruct (fst kv); discriminate.
    - cbn [Py.lstrip]. change (Py.is_space " ") with true. cbv iota.
      cbn [Py.all_chars] in Hsp. apply andb_true_iff in Hsp as [Hc _].
      apply lstrip_not_space, negb_true_iff, Hc. }
  assert (Hone : forall item, Py.strip item = cookie_pair kv ->
                 parse_item cookies item = <[fst kv := snd kv]> cookies).
  { intros item Hitem. unfold parse_item. rewrite Hitem. unfold cookie_pair.
    change ("=" +:+ snd kv) with (String "=" (snd kv)).
    rewrite (partition_app "=" _ _ Heq).
    rewrite (strip_no_space _ Hk), (strip_no_space _ Hv). reflexivity. }
  split; apply Hone; [apply strip_no_space, Hsp | exact Hstrip].
Qed.

Lemma split_space s :
  Py.split ";" (String " " s)
  = match Py.split ";" s with
    | h :: t => String " " h :: t
    | [] => [" "]
    end.
Proof. reflexivity. Qed.

Lemma join_cons x y l :
  Py.join "; " (x :: y :: l) = x +:+ String ";" (String " " (Py.join "; " (y :: l))).
Proof. reflexivity. Qed.

Lemma split_join item items :
  Forall (fun i => free_of ";" i = true) (item :: items) ->
  Py.split ";" (Py.join "; " (item :: items)) = item :: map (String " ") items.
Proof.
  revert item. induction items as [| y items IH]; intros item Hfree.
  - apply RoutingProps.split_free. inversion Hfree; assumption.
  - inversion Hfree as [| ? ? Hitem Hrest]; subst.
    rewrite join_cons, (RoutingProps.split_app_sep ";" item _ Hitem), split_space.
    rewrite (IH y Hrest). reflexivity.
Qed.

(** The header of a list of well-formed pairs is parsed into the dictionary
    that assigning the pairs in order builds. *)
Lemma parse_cookies_pairs kvs :
  forallb well_formed kvs = true ->
  parse_cookies (cookie_header kvs)
  = foldl (fun cookies kv => <[fst kv := snd kv]> cookies) ∅ kvs.
Proof.
  intros Hwf. destruct kvs as [| kv kvs]; [reflexivity |].
  unfold parse_cookies, cookie_header.
  replace (Py.truthy (Some (Py.join "; " (map cookie_pair (kv :: kvs))))) with true.
  2:{ cbn [map]. unfold Py.join, cookie_pair.
      destruct (map _ kvs); cbn [String.concat]; destruct (fst kv); reflexivity. }
  cbn [map forallb] in *. apply andb_true_iff in Hwf as [Hkv Hkvs].
  rewrite split_join.
  2:{ constructor; [apply (pair_chars kv Hkv) |].
      apply Forall_forall. intros i Hi. apply list_elem_of_In in Hi.
      apply in_map_iff in Hi as (kv' & <- & Hin).
      apply pair_chars. rewrite forallb_forall in Hkvs. apply Hkvs, Hin. }
  cbn [foldl]. rewrite (proj1 (parse_item_pair ∅ kv Hkv)).
  generalize (<[fst kv := snd kv]> (∅ : gmap string string)).
  induction kvs as [| kv' kvs IH]; intros m; [reflexivity |].
  cbn [map forallb foldl] in *. apply andb_true_iff in Hkvs as [Hkv' Hkvs].
  rewrite (proj2 (parse_item_pair m kv' Hkv')). apply IH, Hkvs.
Qed.

(** X6: the [Cookie] header is read back.  For cookies whose names have
    no whitespace, semicolon or equals sign and whose values have no
    whitespace or semicolon, [parse_cookies] applied to the pairs joined by
    ["; "] yields the dictionary that assigning the pairs in order builds: a
    name is bound to its last value. *)
Theorem parse_cookies_header kvs :
  forallb well_formed kvs = true ->
  parse_cookies (cookie_header kvs)
  = foldl (fun cookies kv => <[fst kv := snd kv]> cookies) ∅ kvs
  /\ forall name,
       parse_cookies (cookie_header kvs) !! name
       = snd <$> last (List.filter (fun kv => String.eqb (fst kv) name) kvs).
Proof.
  intros Hwf. pose proof (parse_cookies_pairs kvs Hwf) as Hparse.
  split; [exact Hparse |].
  intros name. rewrite Hparse, (ReqProps.foldl_insert_lookup fst snd).
  destruct (last _); reflexivity.
Qed.

Lemma parse_cookies_header_witness :
  parse_cookies "sid=abc; theme=dark; sid=xyz" !! "sid" = Some "xyz".
Proof.
  exact (proj2 (parse_cookies_header [("sid", "abc"); ("theme", "dark"); ("sid", "xyz")]
                  eq_refl) "sid").
Defined.

(** X7: a [Set-Cookie] value begins with the pair.  When neither the name
    nor the value holds a semicolon, the first [;]-separated field of what
    [format_set_cookie] returns is [name=value], whatever the options: the
    attributes only follow it. *)
Theorem set_cookie_first_field name value options :
  free_of ";" name = true -> free_of ";" value = true ->
  head (Py.split ";" (format_set_cookie name value options))
  = Some (name +:+ "=" +:+ value).
Proof.
  intros Hn Hv.
  assert (Hpair : free_of ";" (name +:+ "=" +:+ value) = true).
  { unfold free_of in *. rewrite !all_chars_app, Hn, Hv. reflexivity. }
  unfold format_set_cookie. destruct (Py.truthy _).
  - change ((name +:+ "=" +:+ value) +:+ "; " +:+ ?o)
      with ((name +:+ "=" +:+ value) +:+ String ";" (String " " o)).
    rewrite (RoutingProps.split_app_sep ";" _ _ Hpair). reflexivity.
  - rewrite (RoutingProps.split_free ";" _ Hpair). reflexivity.
Qed.

Lemma set_cookie_first_field_witness :
  head (Py.split ";" (format_set_cookie "sid" "abc" None)) = Some "sid=abc".
Proof. apply (set_cookie_first_field "sid" "abc" None); reflexivity. Defined.

End CookieFacts.

(** ** CSRF middleware: what is forwarded, and with which cookie *)

Module CsrfFacts.
Import Asgi CookieJar Csrf CsrfProps.

(** What the middleware does when it lets a request through with the token
    [token]. *)
Definition forwarded (mw : CSRFMiddleware) (scope : Scope) (token : string) : outcome :=
  Forwarded (with_csrf_token scope token)
            (map (send_with_csrf mw token) (app mw (with_csrf_token scope token))).

(** X8: a token in the header decides alone.  For an unsafe method on a
    path that is not excluded, when the configured header carries a non-empty
    token, the request is forwarded if that token equals the token in force
    (the cookie's, or the fresh one when there is no cookie) and answered
    with the 403 rejection otherwise; the form body is not read in either
    case. *)
Theorem header_token_decides lib mw scope receive fresh submitted :
  let request := Req.new scope receive Req.DEFAULT_MAX_BODY_SIZE in
  let token := cookie_token mw request fresh in
  excluded mw request = false ->
  Req.method request ∉ _safe_methods mw ->
  Req.get_header request (_header_name mw) = Some submitted ->
  submitted <> "" ->
  process lib mw scope receive fresh
  = if String.eqb submitted token then forwarded mw scope token
    else Responded (respond forbidden).
Proof.
  intros request token Hex Hm Hhdr Hne. unfold process. fold request. rewrite Hex.
  rewrite bool_decide_eq_false_2 by exact Hm. fold token.
  unfold submitted_token. rewrite Hhdr.
  assert (Htr : Py.truthy (Some submitted) = true) by (destruct submitted; [contradiction | reflexivity]).
  rewrite Htr. change (default "" (Some submitted)) with submitted.
  rewrite Htr. cbn [negb orb].
  destruct (_tokens_match _ submitted) eqn:E; cbn [negb].
  - apply tokens_match_eq in E. fold token in E. rewrite <- E, String.eqb_refl.
    reflexivity.
  - destruct (String.eqb_spec submitted token) as [Heq | Hdiff]; [| reflexivity].
    assert (Hm' : _tokens_match token submitted = true)
      by (apply tokens_match_eq; symmetry; exact Heq).
    change (_tokens_match token submitted = false) in E. rewrite Hm' in E.
    discriminate E.
Qed.

Lemma header_token_decides_witness :
  process demo_library (init_default ok_app "0123456789abcdef")
          (post_scope [("cookie", "thor_csrf=T1"); ("x-csrf-token", "T1")]) [] "fresh"
  = forwarded (init_default ok_app "0123456789abcdef")
              (post_scope [("cookie", "thor_csrf=T1"); ("x-csrf-token", "T1")]) "T1".
Proof.
  apply (header_token_decides demo_library (init_default ok_app "0123456789abcdef")
           (post_scope [("cookie", "thor_csrf=T1"); ("x-csrf-token", "T1")]) [] "fresh" "T1").
  - reflexivity.
  - intros H. apply default_safe_methods in H.
    destruct H as [H | [H | [H | H]]]; discriminate H.
  - vm_compute. reflexivity.
  - discriminate.
Defined.

(** X9: every forwarded response refreshes the cookie.  On a path that is
    not excluded, whenever [process] hands the request on, the downstream
    application is called with [scope["csrf_token"]] set to the token in
    force, and each start message it sends reaches the client with its own
    headers followed by one [set-cookie] header that carries that token
    under the configured cookie name and options. *)
Theorem forwarded_response_sets_cookie lib mw scope receive fresh scope' msgs :
  let request := Req.new scope receive Req.DEFAULT_MAX_BODY_SIZE in
  let token := cookie_token mw request fresh in
  excluded mw request = false ->
  process lib mw scope receive fresh = Forwarded scope' msgs ->
  scope' = with_csrf_token scope token
  /\ sc_csrf_token scope' = Some token
  /\ Forall2 (fun sent_msg app_msg =>
                match app_msg with
                | Start st hs =>
                    sent_msg
                    = Start st (hs ++ [("set-cookie",
                                        format_set_cookie (_cookie_name mw) token
                                          (Some (_cookie_options mw)))])
                | Body b => sent_msg = Body b
                end)
             msgs (app mw scope').
Proof.
  intros request token Hex. unfold process. fold request. rewrite Hex. fold token.
  assert (Hfw : forall s m,
            forwarded mw scope token = Forwarded s m ->
            s = with_csrf_token scope token
            /\ sc_csrf_token s = Some token
            /\ Forall2 (fun sent_msg app_msg =>
                          match app_msg with
                          | Start st hs =>
                              sent_msg
                              = Start st (hs ++ [("set-cookie",
                                                  format_set_cookie (_cookie_name mw) token
                                                    (Some (_cookie_options mw)))])
                          | Body b => sent_msg = Body b
                          end)
                       m (app mw s)).
  { intros s m [= <- <-]. repeat split.
    induction (app mw (with_csrf_token scope token)) as [| x l IH]; constructor.
    - destruct x; reflexivity.
    - exact IH. }
  destruct (bool_decide _); [apply Hfw |].
  destruct (submitted_token _ _ _) as [submitted | e]; [| discriminate].
  destruct (_ || _); [discriminate | apply Hfw].
Qed.

Lemma forwarded_response_sets_cookie_witness :
  sc_csrf_token (with_csrf_token (get_scope []) "fresh") = Some "fresh".
Proof.
  refine (proj1 (proj2 (forwarded_response_sets_cookie demo_library
                          (init_default ok_app "0123456789abcdef") (get_scope []) []
                          "fresh" _ _ _ _))).
  - reflexivity.
  - vm_compute. reflexivity.
Defined.

End CsrfFacts.

(** ** Rate limiter: the sliding window over a run of requests *)

Module RateLimitFacts.
Import Asgi RateLimit RateLimitProps.

Definition is_forwarded (o : outcome) : bool :=
  match o with
  | Forwarded _ _ => true
  | _ => false
  end.

(** The middleware run on a sequence of requests, each with the reading of
    the monotonic clock at which it is processed: the outcome of each
    request, and the store at the end. *)
Fixpoint run (mw : RateLimitMiddleware) (app : App) (requests : store)
    (arrivals : list (Scope * Q)) : list (Scope * Q * outcome) * store :=
  match arrivals with
  | [] => ([], requests)
  | (scope, now) :: rest =>
      let '(o, requests') := process mw requests scope now app in
      let '(log, final) := run mw app requests' rest in
      ((scope, now, o) :: log, final)
  end.

(** The times at which requests of the client [ip] were forwarded. *)
Definition forwarded_at (ip : string) (log : list (Scope * Q * outcome)) : list Q :=
  flat_map (fun e : Scope * Q * outcome =>
              let '(scope, now, o) := e in
              if String.eqb (client_ip scope) ip && is_forwarded o then [now] else [])
           log.

(** [x] lies in the window of length [_window] that ends at [t]:
    [t - window < x <= t]. *)
Definition within (mw : RateLimitMiddleware) (t x : Q) : bool :=
  Qgtb x (t - inject_Z (_window mw)) && Qle_bool x t.

(** The pruning test at time [now]. *)
Definition kept (mw : RateLimitMiddleware) (now x : Q) : bool :=
  Qgtb x (now - inject_Z (_window mw)).

Lemma kept_mono mw now now' x :
  (now <= now')%Q -> kept mw now' x = true -> kept mw now x = true.
Proof.
  unfold kept, Qgtb. rewrite !negb_true_iff. intros Hle H.
  destruct (Qle_bool x (now - inject_Z (_window mw))) eqn:E; [| reflexivity].
  apply Qle_bool_iff in E.
  assert (Hx : (x <= now' - inject_Z (_window mw))%Q).
  { eapply Qle_trans; [exact E |]. apply Qplus_le_l. exact Hle. }
  apply Qle_bool_iff in Hx. congruence.
Qed.

Lemma filter_filter_weaker {A} (P K : A -> bool) l :
  (forall x, P x = true -> K x = true) ->
  List.filter P (List.filter K l) = List.filter P l.
Proof.
  intros H. induction l as [| x l IH]; [reflexivity |].
  cbn [List.filter]. destruct (K x) eqn:Hk; cbn [List.filter].
  - rewrite IH. reflexivity.
  - destruct (P x) eqn:Hp; [| exact IH]. rewrite (H x Hp) in Hk. discriminate.
Qed.

Lemma filter_length_weaker {A} (P K : A -> bool) l :
  (forall x, P x = true -> K x = true) ->
  (List.length (List.filter P l) <= List.length (List.filter K l))%nat.
Proof.
  intros H. induction l as [| x l IH]; [reflexivity |].
  cbn [List.filter]. destruct (P x) eqn:Hp.
  - rewrite (H x Hp). cbn [List.length]. lia.
  - destruct (K x); cbn [List.length]; lia.
Qed.

(** What links the store to the requests forwarded so far from one client:
    pruning the stored list gives what pruning the list of all forwarded
    times gives, and no window holds more than [max_requests] of them. *)
Record inv (mw : RateLimitMiddleware) (ip : string) (requests : store)
    (F : list Q) : Prop := mkInv {
  inv_pruned : forall now,
    Forall (fun x => (x <= now)%Q) F ->
    List.filter (kept mw now) (default [] (requests !! ip)) = List.filter (kept mw now) F;
  inv_bound : forall t,
    Z.of_nat (List.length (List.filter (within mw t) F)) <= _max_requests mw
}.

Lemma process_step mw app ip requests F scope now :
  inv mw ip requests F ->
  Forall (fun x => (x <= now)%Q) F ->
  inv mw ip (snd (process mw requests scope now app))
      (F ++ if String.eqb (client_ip scope) ip
               && is_forwarded (fst (process mw requests scope now app))
            then [now] else []).
Proof.
  intros [Hpruned Hbound] Hpast. unfold process.
  set (ts := in_window mw requests scope now).
  destruct (Z.geb_spec (Z.of_nat (List.length ts)) (_max_requests mw)) as [Hfull | Hroom].
  { destruct ts; cbn [fst snd is_forwarded]; rewrite andb_false_r, app_nil_r;
      split; assumption. }
  cbn [fst snd is_forwarded]. rewrite andb_true_r.
  destruct (String.eqb_spec (client_ip scope) ip) as [Hip | Hip].
  - assert (Hts : ts = List.filter (kept mw now) F).
    { unfold ts, in_window. rewrite Hip. apply Hpruned, Hpast. }
    split.
    + intros now' Hpast'. rewrite Hip, lookup_insert_eq. unfold default, from_option, id.
      apply Forall_app in Hpast' as [HF Hnow].
      inversion Hnow as [| ? ? Hle _]; subst.
      rewrite !List.filter_app. f_equal.
      rewrite Hts. apply filter_filter_weaker. intros x. apply kept_mono, Hle.
    + intros t. rewrite List.filter_app, length_app.
      cbn [List.filter]. unfold within at 2.
      destruct (Qle_bool now t) eqn:Hnt.
      * apply Qle_bool_iff in Hnt.
        assert (Hle : (List.length (List.filter (within mw t) F)
                       <= List.length (List.filter (kept mw now) F))%nat).
        { apply filter_length_weaker. intros x. unfold within.
          rewrite andb_true_iff. intros [Hx _].
          apply (kept_mono mw now t x Hnt Hx). }
        rewrite <- Hts in Hle.
        destruct (Qgtb now _); cbn [andb List.length]; lia.
      * rewrite andb_false_r. cbn [List.length]. specialize (Hbound t). lia.
  - rewrite app_nil_r. split.
    + intros now' Hpast'. rewrite lookup_insert_ne by exact Hip. apply Hpruned, Hpast'.
    + exact Hbound.
Qed.

Lemma run_bound mw app ip arrivals : forall requests F,
  inv mw ip requests F ->
  Forall (fun x => Forall (fun a : Scope * Q => (x <= snd a)%Q) arrivals) F ->
  Sorted.StronglySorted Qle (map snd arrivals) ->
  forall t,
    Z.of_nat (List.length
                (List.filter (within mw t)
                   (F ++ forwarded_at ip (fst (run mw app requests arrivals)))))
    <= _max_requests mw.
Proof.
  induction arrivals as [| [scope now] rest IH]; intros requests F Hinv Hpast Hsorted t.
  - cbn. rewrite app_nil_r. apply Hinv.
  - cbn [run].
    assert (Hnow : Forall (fun x => (x <= now)%Q) F).
    { eapply Forall_impl; [exact Hpast |]. intros x Hx.
      inversion Hx; subst. assumption. }
    pose proof (process_step mw app ip requests F scope now Hinv Hnow) as Hstep.
    destruct (process mw requests scope now app) as [o requests'] eqn:Hp.
    cbn [fst snd] in Hstep.
    destruct (run mw app requests' rest) as [log final] eqn:Hrun.
    cbn [fst forwarded_at flat_map].
    rewrite app_assoc.
    replace log with (fst (run mw app requests' rest)) by (rewrite Hrun; reflexivity).
    apply IH; [exact Hstep | |].
    + cbn [map] in Hsorted. apply Sorted.StronglySorted_inv in Hsorted as [_ Hlater].
      apply Forall_app. split.
      * eapply Forall_impl; [exact Hpast |]. intros x Hx.
        inversion Hx; subst. assumption.
      * destruct (_ && _); [| constructor]. constructor; [| constructor].
        apply Forall_forall. intros a Ha.
        rewrite Forall_forall in Hlater. apply Hlater.
        apply list_elem_of_fmap. exists a. split; [reflexivity | exact Ha].
    + cbn [map] in Hsorted. apply Sorted.StronglySorted_inv in Hsorted as [H _]. exact H.
Qed.

(** X10: the limit holds over any window.  Starting from an empty store,
    for requests processed at non-decreasing clock readings and a
    non-negative [max_requests], the requests of one client that the limiter
    has forwarded number at most [max_requests] in every interval
    [(t - window, t]]. *)
Theorem sliding_window_bound mw app arrivals ip t :
  0 <= _max_requests mw ->
  Sorted.StronglySorted Qle (map snd arrivals) ->
  Z.of_nat (List.length
              (List.filter (within mw t)
                 (forwarded_at ip (fst (run mw app ∅ arrivals)))))
  <= _max_requests mw.
Proof.
  intros Hmax Hsorted.
  apply (run_bound mw app ip arrivals ∅ []); [| constructor | exact Hsorted].
  split; [reflexivity | intros t'; cbn; exact Hmax].
Qed.

Definition burst : list (Scope * Q) :=
  [(scope0, 0%Q); (scope0, 1%Q); (scope0, 2%Q); (scope0, (61 # 1)%Q)].

Lemma sliding_window_bound_witness :
  forwarded_at "10.0.0.1" (fst (run (mkRateLimit 2 60) app0 ∅ burst)) = [0%Q; 1%Q; (61 # 1)%Q]
  /\ Z.of_nat (List.length
                 (List.filter (within (mkRateLimit 2 60) (61 # 1))
                    (forwarded_at "10.0.0.1"
                       (fst (run (mkRateLimit 2 60) app0 ∅ burst)))))
     <= 2.
Proof.
  split; [vm_compute; reflexivity |].
  apply (sliding_window_bound (mkRateLimit 2 60) app0 burst "10.0.0.1" (61 # 1)).
  - cbn. lia.
  - repeat constructor; vm_compute; discriminate.
Defined.

(** X11: a limit of zero or less is an error, not a refusal.  When
    [max_requests <= 0] and the client has no timestamp left in the window
    (its first request, for one), [process] reads [timestamps[0]] of an empty
    list: it raises [IndexError], sends nothing and leaves the store as it
    is. *)
Theorem nonpositive_limit_raises mw requests scope now app :
  _max_requests mw <= 0 ->
  in_window mw requests scope now = [] ->
  process mw requests scope now app = (Raised IndexError, requests).
Proof.
  intros Hmax Hts. unfold process. rewrite Hts.
  destruct (Z.geb_spec (Z.of_nat (List.length (@nil Q))) (_max_requests mw)) as [_ | H];
    [reflexivity | cbn in H; lia].
Qed.

Lemma nonpositive_limit_raises_witness :
  process (mkRateLimit 0 60) ∅ scope0 0 app0 = (Raised IndexError, ∅).
Proof.
  apply (nonpositive_limit_raises (mkRateLimit 0 60) ∅ scope0 0 app0).
  - cbn. lia.
  - reflexivity.
Defined.

End RateLimitFacts.

(** ** Lifespan: the whole trace of the protocol handler *)

Module LifespanFacts.
Import Lifespan.

Definition is_startup (m : incoming) : bool :=
  match m with
  | LifespanStartup => true
  | _ => false
  end.

(** One [lifespan.startup.complete] for each [lifespan.startup] received. *)
Definition acknowledgements (messages : list incoming) : list event :=
  map (fun _ => Sent StartupComplete) (List.filter is_startup messages).

Lemma loop_without_shutdown h in_time messages :
  Forall (fun m => m <> LifespanShutdown) messages ->
  lifespan_loop h in_time messages = (acknowledgements messages, false).
Proof.
  induction 1 as [| m messages Hm _ IH]; [reflexivity |].
  destruct m as [| | type]; [| congruence |]; cbn [lifespan_loop]; rewrite IH; reflexivity.
Qed.

Lemma loop_until_shutdown h in_time before after :
  Forall (fun m => m <> LifespanShutdown) before ->
  lifespan_loop h in_time (before ++ LifespanShutdown :: after)
  = (acknowledgements before ++ [MarkedShuttingDown] ++ _drain_requests h in_time
     ++ [Sent ShutdownComplete], true).
Proof.
  induction 1 as [| m before Hm _ IH]; [reflexivity |].
  destruct m as [| | type]; [| congruence |];
    cbn [app lifespan_loop]; rewrite IH; reflexivity.
Qed.

(** X12: the trace of the lifespan handler.  The entry half of the
    lifespan context (the startup handlers in registration order, or the
    setup of the context manager) runs before any message is answered; every
    [lifespan.startup] received is answered with
    [lifespan.startup.complete] and messages of other types are ignored; on
    the first [lifespan.shutdown] the flag is set, in-flight requests are
    awaited, [lifespan.shutdown.complete] is sent, the exit half runs, and no
    later message is read.  Without a [lifespan.shutdown] the exit half
    never runs. *)
Theorem lifespan_trace h in_time before :
  Forall (fun m => m <> LifespanShutdown) before ->
  (forall after,
     _handle_lifespan h in_time (before ++ LifespanShutdown :: after)
     = enter (_lifespan h) ++ acknowledgements before
       ++ [MarkedShuttingDown] ++ _drain_requests h in_time
       ++ [Sent ShutdownComplete] ++ exit (_lifespan h))
  /\ _handle_lifespan h in_time before
     = enter (_lifespan h) ++ acknowledgements before.
Proof.
  intros Hbefore. split.
  - intros after. unfold _handle_lifespan.
    rewrite (loop_until_shutdown h in_time before after Hbefore).
    rewrite <- !app_assoc. reflexivity.
  - unfold _handle_lifespan. rewrite (loop_without_shutdown h in_time before Hbefore).
    rewrite app_nil_r. reflexivity.
Qed.

Lemma lifespan_trace_witness :
  _handle_lifespan LifespanProps.busy_handler false
    [OtherMessage "lifespan.ping"; LifespanStartup; LifespanShutdown; LifespanStartup]
  = [Ran "open_db"; Sent StartupComplete; MarkedShuttingDown; Drained 2 true;
     Sent ShutdownComplete; Ran "close_db"; Ran "flush"].
Proof.
  refine (proj1 (lifespan_trace LifespanProps.busy_handler false
                   [OtherMessage "lifespan.ping"; LifespanStartup] _) [LifespanStartup]).
  repeat constructor; discriminate.
Defined.

Lemma loop_runs_no_handler h in_time messages name :
  ~ In (Ran name) (fst (lifespan_loop h in_time messages)).
Proof.
  induction messages as [| m messages IH]; [intros [] |].
  destruct m as [| | type]; cbn [lifespan_loop].
  - destruct (lifespan_loop h in_time messages) as [events returned].
    cbn [fst] in *. intros [H | H]; [discriminate | exact (IH H)].
  - cbn [fst]. unfold _drain_requests. destruct (_ =? _); cbn;
      intuition discriminate.
  - exact IH.
Qed.

(** X13: a context manager replaces the registered handlers.  When a
    lifespan context manager is set, the only user code that the lifespan
    handler runs is the setup and the teardown of that context manager: the
    handlers registered with [on_startup] and [on_shutdown] are not run. *)
Theorem context_manager_replaces_handlers h in_time messages setup teardown name :
  _context_manager (_lifespan h) = Some (setup, teardown) ->
  In (Ran name) (_handle_lifespan h in_time messages) ->
  name = setup \/ name = teardown.
Proof.
  intros Hcm. unfold _handle_lifespan, enter, exit. rewrite Hcm.
  pose proof (loop_runs_no_handler h in_time messages name) as Hloop.
  destruct (lifespan_loop h in_time messages) as [events returned]. cbn [fst] in Hloop.
  rewrite !in_app_iff. intros [[[= ->] | []] | [H | H]]; [left; reflexivity | contradiction |].
  destruct returned; [| destruct H].
  destruct H as [[= ->] | []]. right. reflexivity.
Qed.

Definition managed : LifespanProtocolHandler :=
  mkHandler (mkLifespan ["open_db"] ["close_db"] (Some ("setup", "teardown")))
            (30 # 1) 0 false.

Lemma context_manager_replaces_handlers_witness :
  _handle_lifespan managed true [LifespanStartup; LifespanShutdown]
  = [Ran "setup"; Sent StartupComplete; MarkedShuttingDown; Sent ShutdownComplete;
     Ran "teardown"]
  /\ ("teardown" = "setup" \/ "teardown" = "teardown").
Proof.
  split; [reflexivity |].
  apply (context_manager_replaces_handlers managed true
           [LifespanStartup; LifespanShutdown] "setup" "teardown" "teardown").
  - reflexivity.
  - vm_compute. tauto.
Defined.

End LifespanFacts.

(** ** Routing: parameter types, slashes, registration and lookup *)

Module RouterFacts.
Import Asgi Routing StrProps RoutingProps PyFacts.

(** X14: what a type pattern accepts, its converter converts, up to the
    digit limit of [int].  Every parameter type of [TYPE_PATTERNS] has a
    converter in [TYPE_CONVERTERS]; on a segment that the pattern accepts the
    converter returns the segment itself for [str], [path], [uuid] and
    [slug], and for [int] a non-negative integer when the segment has at most
    4300 digits and a [ValueError] when it has more. *)
Theorem accepted_segments_convert ty pattern s :
  TYPE_PATTERNS ty = Some pattern ->
  pattern s = true ->
  exists converter,
    TYPE_CONVERTERS ty = Some converter
    /\ if String.eqb ty "int"
       then if Z.of_nat (String.length s) <=? 4300
            then exists z, converter s = Some (PInt z) /\ 0 <= z
            else converter s = None
       else converter s = Some (PStr s).
Proof.
  unfold TYPE_PATTERNS, TYPE_CONVERTERS.
  destruct (String.eqb ty "int") eqn:Hint.
  - intros [= <-] Hs. eexists. split; [reflexivity |].
    unfold fullmatch_int in Hs. apply andb_true_iff in Hs as [Hne Hd].
    pose proof (int_of_digits_limit s Hne Hd) as H.
    unfold Py.int_max_str_digits in H.
    destruct (Z.of_nat (String.length s) <=? 4300).
    + destruct H as (z & -> & Hz). exists z. split; [reflexivity | exact Hz].
    + rewrite H. reflexivity.
  - destruct (String.eqb ty "str"); [intros _ _; eexists; split; reflexivity |].
    destruct (String.eqb ty "path"); [intros _ _; eexists; split; reflexivity |].
    destruct (String.eqb ty "uuid"); [intros _ _; eexists; split; reflexivity |].
    destruct (String.eqb ty "slug"); [intros _ _; eexists; split; reflexivity |].
    discriminate.
Qed.

Lemma accepted_segments_convert_witness :
  exists converter,
    TYPE_CONVERTERS "int" = Some converter
    /\ exists z, converter "0042" = Some (PInt z) /\ 0 <= z.
Proof.
  exact (accepted_segments_convert "int" fullmatch_int "0042" eq_refl eq_refl).
Defined.

Lemma split_not_nil sep a : Py.split sep a <> [].
Proof.
  destruct a as [| c a]; cbn [Py.split]; [discriminate |].
  destruct (Ascii.eqb c sep); [discriminate |].
  destruct (Py.split sep a); discriminate.
Qed.

(** Splitting distributes over a separator. *)
Lemma split_app sep a x :
  Py.split sep (a +:+ String sep x) = Py.split sep a ++ Py.split sep x.
Proof.
  induction a as [| c a IH]; unfold_app; cbn [Py.split].
  - rewrite Ascii.eqb_refl. reflexivity.
  - destruct (Ascii.eqb c sep); [rewrite IH; reflexivity |].
    rewrite IH. pose proof (split_not_nil sep a) as Hne.
    destruct (Py.split sep a); [congruence | reflexivity].
Qed.

Lemma _split_app a x : _split (a +:+ String "/" x) = _split a ++ _split x.
Proof. unfold _split. rewrite split_app, List.filter_app. reflexivity. Qed.

(** X15: the tree ignores empty segments.  [RadixTree.search] gives the
    same answer for a path with a trailing slash, with one more leading
    slash, or with a slash doubled anywhere, as for the path without it. *)
Theorem search_ignores_empty_segments root method :
  (forall p, search root (p +:+ "/") method = search root p method)
  /\ (forall p, search root ("/" +:+ p) method = search root p method)
  /\ (forall a b, search root (a +:+ "//" +:+ b) method
                  = search root (a +:+ "/" +:+ b) method).
Proof.
  assert (H : forall p q, _split p = _split q ->
                          search root p method = search root q method)
    by (intros p q Hpq; unfold search; rewrite Hpq; reflexivity).
  split; [| split].
  - intros p. apply H. rewrite _split_app. apply app_nil_r.
  - intros p. apply H. reflexivity.
  - intros a b. apply H.
    change (a +:+ "//" +:+ b) with (a +:+ String "/" (String "/" b)).
    change (a +:+ "/" +:+ b) with (a +:+ String "/" b).
    rewrite !_split_app. reflexivity.
Qed.

(** A registration: the arguments of one [add_route] call. *)
Record registration := mkRegistration {
  reg_path : string;
  reg_handler : string;
  reg_methods : option (list string);
  reg_name : option string
}.

(** A sequence of [add_route] calls on a router. *)
Fixpoint add_routes (r : Router) (regs : list registration) : result Router :=
  match regs with
  | [] => Ok r
  | reg :: rest =>
      match add_route r (reg_path reg) (reg_handler reg) (reg_methods reg) (reg_name reg) with
      | Raise e => Raise e
      | Ok r' => add_routes r' rest
      end
  end.

Lemma add_routes_inv regs : forall r0 r,
  _tree r0 = tree_of (_routes r0) -> _subrouters r0 = [] ->
  add_routes r0 regs = Ok r ->
  _tree r = tree_of (_routes r) /\ _subrouters r = [] /\ _prefix r = _prefix r0
  /\ (regs <> [] -> _tree_dirty r = false).
Proof.
  induction regs as [| reg regs IH]; intros r0 r Htree Hsubs.
  - intros [= <-]. repeat split; [exact Htree | exact Hsubs | congruence].
  - cbn [add_routes]. unfold add_route.
    destruct (methods_set _) as [ms |]; [| discriminate].
    destruct (make_route _ _ _ _) as [route | e]; [| discriminate].
    intros Hrest.
    apply IH in Hrest as Hinv;
      [| cbn [_tree _routes]; rewrite Htree, tree_of_snoc; reflexivity | exact Hsubs].
    destruct Hinv as (Ht & Hs & Hp & Hd).
    repeat split; [exact Ht | exact Hs | exact Hp |].
    intros _. destruct regs as [| reg' regs]; [| apply Hd; discriminate].
    injection Hrest as <-. reflexivity.
Qed.

Lemma add_routes_clean prefix regs r :
  add_routes (new_router prefix) regs = Ok r ->
  _tree r = tree_of (_routes r) /\ _tree_dirty r = false.
Proof.
  intros Hadd.
  destruct (add_routes_inv regs (new_router prefix) r eq_refl eq_refl Hadd)
    as (Htree & _ & _ & Hdirty).
  split; [exact Htree |].
  destruct regs as [| reg regs]; [| apply Hdirty; discriminate].
  injection Hadd as <-. reflexivity.
Qed.

Lemma clean_router_match r p method upper_method :
  _tree r = tree_of (_routes r) -> _tree_dirty r = false ->
  Py.upper method = Some upper_method ->
  router_match r p method = Ok (search (tree_of (_routes r)) p upper_method, r).
Proof. intros Htree Hd Hup. unfold router_match. rewrite Hd, Htree, Hup. reflexivity. Qed.

(** The registrations that the model covers, for a router of a given prefix:
    the literal text of the full template has no special character of the
    regular-expression syntax other than the dot, the parameter names are
    ASCII, and the upper case of every method stays within the characters of
    the model. *)
Definition covered (prefix : string) (reg : registration) : bool :=
  let items := substitute 0 (prefix +:+ reg_path reg) in
  negb (existsb is_meta (literals items))
  && forallb ascii_name (group_names items)
  && bool_decide (is_Some (methods_set (reg_methods reg))).

(** On a covered registration [add_route] succeeds, or raises one of the
    exceptions of the route constructor: [RoutingError] for an unknown
    parameter type, [re.error] for a parameter name that is repeated or
    starts with a digit. *)
Lemma add_route_covered r reg :
  covered (_prefix r) reg = true ->
  match add_route r (reg_path reg) (reg_handler reg) (reg_methods reg) (reg_name reg) with
  | Ok r' => _prefix r' = _prefix r
  | Raise e => e = RoutingError \/ e = RegexError
  end.
Proof.
  unfold covered, add_route. rewrite !andb_true_iff.
  intros [[Hmeta Hnames] Hms]. apply bool_decide_eq_true in Hms as [ms Hms].
  rewrite Hms. unfold make_route, _compile_pattern.
  destruct (negb (forallb _ (group_types _))); [left; reflexivity |].
  apply negb_true_iff in Hmeta. rewrite Hmeta, Hnames. cbn [negb orb].
  destruct (existsb starts_with_digit _ || _); [right; reflexivity | reflexivity].
Qed.

Lemma add_routes_covered regs : forall r0,
  forallb (covered (_prefix r0)) regs = true ->
  match add_routes r0 regs with
  | Ok _ => True
  | Raise e => e = RoutingError \/ e = RegexError
  end.
Proof.
  induction regs as [| reg regs IH]; intros r0; [intros _; exact I |].
  cbn [forallb add_routes]. rewrite andb_true_iff. intros [Hreg Hregs].
  pose proof (add_route_covered r0 reg Hreg) as Hstep.
  destruct (add_route r0 _ _ _ _) as [r' | e]; [| exact Hstep].
  apply IH. rewrite Hstep. exact Hregs.
Qed.

(** X16: direct registration keeps the tree exact.  For [add_route] calls
    that the model covers (templates whose literal text has no
    regular-expression metacharacter other than the dot, ASCII parameter
    names, methods whose upper case stays within Latin-1), made on a new
    router: either one of them raises the [RoutingError] or the [re.error] of
    the route constructor, or the tree maintained incrementally is the tree
    that a rebuild from the route list would give, the dirty flag is clear,
    and [Router.match] is the search of that tree for the upper-cased method,
    leaving the router unchanged. *)
Theorem add_route_keeps_tree prefix regs :
  forallb (covered (Py.rstrip_char "/" prefix)) regs = true ->
  match add_routes (new_router prefix) regs with
  | Ok r =>
      _tree r = tree_of (_routes r)
      /\ _tree_dirty r = false
      /\ forall p method upper_method,
           Py.upper method = Some upper_method ->
           router_match r p method
           = Ok (search (tree_of (_routes r)) p upper_method, r)
  | Raise e => e = RoutingError \/ e = RegexError
  end.
Proof.
  intros Hcov.
  pose proof (add_routes_covered regs (new_router prefix) Hcov) as Hout.
  destruct (add_routes (new_router prefix) regs) as [r | e] eqn:Hadd; [| exact Hout].
  destruct (add_routes_clean prefix regs r Hadd) as [Htree Hd].
  repeat split; [exact Htree | exact Hd |].
  intros p method upper_method Hup. apply clean_router_match; assumption.
Qed.

Definition api : list registration :=
  [mkRegistration "/users/me" "me" (Some ["get"; "head"]) None;
   mkRegistration "/users/{id:int}" "user" None (Some "user");
   mkRegistration "/v1.0/robots.txt" "robots" None None].

Definition api_router : Router :=
  match add_routes (new_router "/api/") api with
  | Ok r => r
  | Raise _ => new_router ""
  end.

Lemma add_route_keeps_tree_witness :
  map path (_routes api_router)
  = ["/api/users/me"; "/api/users/{id:int}"; "/api/v1.0/robots.txt"]
  /\ _tree api_router = tree_of (_routes api_router)
  /\ _tree_dirty api_router = false.
Proof.
  split; [vm_compute; reflexivity |].
  pose proof (add_route_keeps_tree "/api/" api) as H. unfold api_router.
  destruct (add_routes (new_router "/api/") api) as [r | e].
  - destruct H as (Htree & Hdirty & _); [vm_compute; reflexivity |].
    split; assumption.
  - split; reflexivity.
Defined.

(** X17: a registered literal route is found.  On a router whose tree is up
    to date (as it is after [add_route] calls alone), for a registered route
    none of whose segments is a placeholder in braces, [Router.match] on the
    path of that route with a method that the route allows (in any letter
    case) returns a registered route with the same segments that allows the
    method, with no parameters: the first one registered. *)
Theorem registered_static_route_found r route method upper_method :
  _tree r = tree_of (_routes r) ->
  _tree_dirty r = false ->
  In route (_routes r) ->
  forallb (fun t => negb (_is_param t)) (tsegs route) = true ->
  Py.upper method = Some upper_method ->
  upper_method ∈ methods route ->
  exists route',
    router_match r (path route) method = Ok (Some (Found route' ∅), r)
    /\ List.find (fun x => bool_decide (tsegs x = tsegs route)
                           && bool_decide (upper_method ∈ methods x)) (_routes r)
       = Some route'
    /\ tsegs route' = tsegs route
    /\ upper_method ∈ methods route'.
Proof.
  intros Htree Hd Hin Hplain Hup Hm.
  pose proof (clean_router_match r (path route) method upper_method Htree Hd Hup) as Hmatch.
  destruct (scan_literal (_routes r) (path route) upper_method route Hin eq_refl
              Hplain Hm) as (route' & Hscan & Hsegs & Hm' & Hfind).
  exists route'. rewrite Hmatch, search_terms, Hscan. repeat split; assumption.
Qed.

Definition robots_route : Route :=
  default (mkRoute "" "" ∅ None [] ∅) (last (_routes api_router)).

Lemma registered_static_route_found_witness :
  exists route',
    router_match api_router "/api/v1.0/robots.txt" "get"
    = Ok (Some (Found route' ∅), api_router)
    /\ List.find (fun x => bool_decide (tsegs x = ["api"; "v1.0"; "robots.txt"])
                           && bool_decide ("GET" ∈ methods x)) (_routes api_router)
       = Some route'
    /\ tsegs route' = ["api"; "v1.0"; "robots.txt"]
    /\ "GET" ∈ methods route'.
Proof.
  apply (registered_static_route_found api_router robots_route "get" "GET").
  - vm_compute. reflexivity.
  - vm_compute. reflexivity.
  - vm_compute. right. right. left. reflexivity.
  - vm_compute. reflexivity.
  - vm_compute. reflexivity.
  - vm_compute. reflexivity.
Defined.

Lemma registered_route_me :
  exists route,
    router_match api_router "/api/users/me" "GET" = Ok (Some (Found route ∅), api_router).
Proof.
  destruct (router_match api_router "/api/users/me" "GET")
    as [[[[route ps | |] |] r'] | e] eqn:E; try (vm_compute in E; discriminate).
  exists route. vm_compute in E. injection E as <- <- <-.  vm_compute. reflexivity.
Qed.

Lemma kmatch_shape root : forall ks pre segs ps ps',
  kmatch root pre ks segs ps = Some ps' ->
  List.length ks = List.length segs
  /\ forall (i : nat) s, ks !! i = Some (KS s) -> segs !! i = Some s.
Proof.
  induction ks as [| k ks IH]; intros pre segs ps ps'.
  - destruct segs; [| discriminate]. intros _. split; [reflexivity |].
    intros i s H. destruct i; discriminate H.
  - destruct segs as [| seg segs]; [destruct k; discriminate |].
    destruct k as [s0 |]; cbn [kmatch].
    + destruct (String.eqb_spec s0 seg) as [-> |]; [| discriminate].
      intros H. apply IH in H as [Hlen Hlit]. split; [cbn; lia |].
      intros [| i] s; cbn; [congruence | apply Hlit].
    + destruct (seg_at root (pre ++ [KP])) as [text |]; [| discriminate].
      cbn [mbind option_bind].
      destruct (pstep text seg ps) as [ps1 |]; [| discriminate].
      cbn [mbind option_bind].
      intros H. apply IH in H as [Hlen Hlit]. split; [cbn; lia |].
      intros [| i] s; cbn; [discriminate | apply Hlit].
Qed.

(** X18: a lookup only returns what was registered.  Whatever the
    registered routes, when the search of the tree built from them returns a
    route, that route is one of them, it allows the method, it has as many
    segments as the request path, and each of its literal segments is the
    segment of the request path at the same position. *)
Theorem search_returns_registered_route rs p method route ps :
  search (tree_of rs) p method = Some (Found route ps) ->
  In route rs
  /\ method ∈ methods route
  /\ List.length (tsegs route) = List.length (_split p)
  /\ forall (i : nat) t,
       tsegs route !! i = Some t -> _is_param t = false -> _split p !! i = Some t.
Proof.
  rewrite search_terms. intros [= Hscan].
  apply scan_all_found in Hscan as (rts & Hin & Hfind).
  apply (terms_sound (tree_of rs) (_split p) [] (tree_of rs) ∅) in Hin
    as (ks & -> & Hk); [| reflexivity].
  apply find_some in Hfind as [Hroute Hallows].
  cbn [app] in Hroute. rewrite routes_at_tree in Hroute.
  apply filter_In in Hroute as [Hrs Hkeys].
  apply bool_decide_eq_true in Hkeys. subst ks.
  apply kmatch_shape in Hk as [Hlen Hlit].
  unfold keys in *. rewrite length_map in Hlen.
  repeat split; [exact Hrs | apply bool_decide_eq_true in Hallows; exact Hallows | exact Hlen |].
  intros i t Ht Hparam. apply Hlit.
  rewrite list_lookup_fmap, Ht. cbn. unfold key_of. rewrite Hparam. reflexivity.
Qed.

Lemma search_returns_registered_route_witness :
  exists route ps,
    search (tree_of users) "/users/42" "GET" = Some (Found route ps)
    /\ In route users /\ "GET" ∈ methods route.
Proof.
  destruct (search (tree_of users) "/users/42" "GET") as [[route ps | |] |] eqn:Hs;
    try (vm_compute in Hs; discriminate).
  exists route, ps. split; [reflexivity |].
  destruct (search_returns_registered_route users "/users/42" "GET" route ps Hs)
    as (Hin & Hm & _).
  split; assumption.
Defined.

(** The loop of the [routes] property over the included routers. *)
Definition go_subs : list (string * Router) -> list Route -> result (list Route) :=
  fix go subs acc :=
    match subs with
    | [] => Ok acc
    | (prefix, sub) :: rest =>
        match all_routes sub with
        | Raise e => Raise e
        | Ok rs =>
            match prefixed prefix rs with
            | Raise e => Raise e
            | Ok rs' => go rest (acc ++ rs')
            end
        end
    end.

Lemma all_routes_unfold r : all_routes r = go_subs (_subrouters r) (_routes r).
Proof. destruct r. reflexivity. Qed.

Lemma go_subs_app l1 l2 : forall acc,
  go_subs (l1 ++ l2) acc
  = match go_subs l1 acc with
    | Ok acc' => go_subs l2 acc'
    | Raise e => Raise e
    end.
Proof.
  induction l1 as [| [prefix sub] l1 IH]; intros acc; [reflexivity |].
  cbn [app go_subs]. destruct (all_routes sub) as [rs | e]; [| reflexivity].
  destruct (prefixed prefix rs) as [rs' | e]; [apply IH | reflexivity].
Qed.

(** A route rebuilt under a prefix. *)
Definition rebuilt (prefix : string) (r r' : Route) : Prop :=
  path r' = prefix +:+ path r /\ handler r' = handler r
  /\ methods r' = methods r /\ name r' = name r.

Lemma prefixed_rebuilt prefix rs : forall rs',
  prefixed prefix rs = Ok rs' -> Forall2 (rebuilt prefix) rs rs'.
Proof.
  induction rs as [| r rs IH]; intros rs'; cbn [prefixed].
  - intros [= <-]. constructor.
  - unfold make_route. destruct (_compile_pattern _) as [[pattern types] | e]; [| discriminate].
    destruct (prefixed prefix rs) as [rest |]; [| discriminate].
    intros [= <-]. constructor; [repeat split | apply IH; reflexivity].
Qed.

Lemma included_router_changed_include r sub0 sub prefix :
  included_router_changed (include_router r sub0 prefix) sub
  = include_router r sub prefix.
Proof.
  unfold included_router_changed, include_router.
  cbn [_prefix _routes _subrouters _tree _tree_dirty].
  rewrite reverse_app, reverse_singleton. cbn [app].
  rewrite reverse_involutive. reflexivity.
Qed.

(** X19: an included router is flattened under its full prefix when the
    routes are listed, not when it is included.  Let [sub0] be a router when
    it is included and [sub] the same router when the routes are listed
    (after calls that added routes to it, or [sub0] itself), the including
    router being otherwise as the inclusion left it.  When the routes of both
    can be listed, the [routes] property lists the parent's routes followed
    by those that the included router has then, each rebuilt with the
    parent's prefix and the inclusion prefix in front of its path and with
    its handler, methods and name; the next [Router.match] rebuilds the tree
    from that list and searches it.  If rebuilding a route under the prefix
    raises ([re.error] when the prefix repeats a parameter name of the
    route, for one), [include_router] itself has not raised: [routes] and
    [Router.match] do.  (A prefix that takes a template out of what the
    model covers is left aside.) *)
Theorem include_router_flattens r sub0 sub prefix own subs :
  all_routes r = Ok own ->
  all_routes sub = Ok subs ->
  let parent := included_router_changed (include_router r sub0 prefix) sub in
  match prefixed (_prefix r +:+ prefix) subs with
  | Ok subs' =>
      all_routes parent = Ok (own ++ subs')
      /\ Forall2 (rebuilt (_prefix r +:+ prefix)) subs subs'
      /\ forall p method upper_method,
           Py.upper method = Some upper_method ->
           exists r', router_match parent p method
                      = Ok (search (tree_of (own ++ subs')) p upper_method, r')
                      /\ _tree r' = tree_of (own ++ subs') /\ _tree_dirty r' = false
  | Raise e =>
      e = Unmodelled
      \/ (all_routes parent = Raise e
          /\ forall p method, router_match parent p method = Raise e)
  end.
Proof.
  intros Hown Hsubs parent. subst parent.
  rewrite included_router_changed_include.
  assert (Hall : all_routes (include_router r sub prefix)
                 = match prefixed (_prefix r +:+ prefix) subs with
                   | Ok subs' => Ok (own ++ subs')
                   | Raise e => Raise e
                   end).
  { rewrite all_routes_unfold. unfold include_router. cbn [_subrouters _routes].
    rewrite go_subs_app. rewrite all_routes_unfold in Hown. rewrite Hown.
    cbn [go_subs]. rewrite Hsubs. destruct (prefixed _ subs); reflexivity. }
  destruct (prefixed (_prefix r +:+ prefix) subs) as [subs' | e] eqn:Hpre.
  - split; [exact Hall |]. split; [apply prefixed_rebuilt, Hpre |].
    intros p method upper_method Hup. unfold router_match, _rebuild_tree.
    change (_tree_dirty (include_router r sub prefix)) with true. cbv iota.
    rewrite Hall, Hup. eexists. split; [reflexivity |]. split; reflexivity.
  - right. split; [exact Hall |]. intros p method. unfold router_match, _rebuild_tree.
    change (_tree_dirty (include_router r sub prefix)) with true. cbv iota.
    rewrite Hall. reflexivity.
Qed.

Definition parent_router : Router :=
  match add_routes (new_router "/api") [mkRegistration "/x" "x" None None] with
  | Ok r => r
  | Raise _ => new_router ""
  end.

Definition child_router : Router :=
  match add_routes (new_router "/v1/") [mkRegistration "/items/{id:int}" "item" None None] with
  | Ok r => r
  | Raise _ => new_router ""
  end.

(** A router whose only route has the parameter [id], included under a
    prefix that has a parameter [id] as well. *)
Definition clashing_router : Router :=
  match add_routes (new_router "") [mkRegistration "/{id}" "item" None None] with
  | Ok r => r
  | Raise _ => new_router ""
  end.

(** The included router after it has gained a route. *)
Definition child_router_later : Router :=
  match add_routes child_router [mkRegistration "/orders" "orders" None None] with
  | Ok r => r
  | Raise _ => new_router ""
  end.

Lemma include_router_flattens_witness :
  (map path <$> match all_routes (included_router_changed
                                    (include_router parent_router child_router "/shop")
                                    child_router_later) with
                | Ok rs => Some rs
                | Raise _ => None
                end)
  = Some ["/api/x"; "/api/shop/v1/items/{id:int}"; "/api/shop/v1/orders"]
  /\ all_routes (included_router_changed
                   (include_router parent_router clashing_router "/{id}")
                   clashing_router) = Raise RegexError.
Proof.
  split.
  - pose proof (include_router_flattens parent_router child_router child_router_later
                  "/shop" (_routes parent_router) (_routes child_router_later)) as H.
    cbv zeta in H.
    destruct (prefixed (_prefix parent_router +:+ "/shop") (_routes child_router_later))
      as [subs' | e] eqn:Hpre; [| vm_compute in Hpre; discriminate].
    destruct H as (Hall & _); [vm_compute; reflexivity | vm_compute; reflexivity |].
    rewrite Hall. vm_compute in Hpre. injection Hpre as <-. vm_compute. reflexivity.
  - pose proof (include_router_flattens parent_router clashing_router clashing_router
                  "/{id}" (_routes parent_router) (_routes clashing_router)) as H.
    cbv zeta in H.
    destruct (prefixed (_prefix parent_router +:+ "/{id}") (_routes clashing_router))
      as [subs' | e] eqn:Hpre; [vm_compute in Hpre; discriminate |].
    vm_compute in Hpre. injection Hpre as <-.
    destruct H as [H | [H _]]; [vm_compute; reflexivity | vm_compute; reflexivity
                               | discriminate | exact H].
Defined.

End RouterFacts.

(** ** The middleware stack and the application's middleware *)

Module StackFacts.
Import Asgi Stack.

(** A sequence of [add] calls. *)
Definition add_all (s : MiddlewareStack) (entries : list (middleware_class * options))
    : MiddlewareStack :=
  foldl (fun s entry => add s (fst entry) (snd entry)) s entries.

Lemma wrap_call app entry : wrap app entry = fst entry app (snd entry).
Proof. unfold wrap. destruct (snd entry); reflexivity. Qed.

Lemma add_all_lists entries : forall s,
  _app (add_all s entries) = _app s
  /\ _middleware (add_all s entries) = _middleware s ++ map fst entries
  /\ _middleware_options (add_all s entries) = _middleware_options s ++ map snd entries.
Proof.
  induction entries as [| entry entries IH]; intros s; cbn [add_all foldl map].
  - rewrite !app_nil_r. auto.
  - destruct (IH (add s (fst entry) (snd entry))) as (Ha & Hm & Ho).
    fold (add_all (add s (fst entry) (snd entry)) entries).
    rewrite Ha, Hm, Ho. cbn [add _app _middleware _middleware_options].
    rewrite <- !app_assoc. auto.
Qed.

(** X20: the first middleware added is the outermost.  The application
    that [build] returns for a stack filled by successive [add] calls is the
    first class added applied to the second applied to ... the last applied
    to the inner application, each with the options it was added with. *)
Theorem build_wraps_in_order inner entries :
  build (add_all (new inner) entries)
  = foldr (fun entry next => fst entry next (snd entry)) inner entries.
Proof.
  unfold build. destruct (add_all_lists entries (new inner)) as (-> & -> & ->).
  cbn [new _app _middleware _middleware_options app].
  assert (Hzip : zip (rev (map fst entries)) (rev (map snd entries)) = rev entries).
  { induction entries as [| [cls opts] entries IH]; [reflexivity |].
    cbn [map rev fst snd]. rewrite zip_with_app, IH by (rewrite !length_rev, !length_map; reflexivity).
    reflexivity. }
  rewrite Hzip. clear Hzip. revert inner.
  induction entries as [| entry entries IH] using rev_ind; intros inner; [reflexivity |].
  rewrite rev_app_distr, foldr_app. cbn [rev app foldl foldr].
  rewrite wrap_call. apply IH.
Qed.

End StackFacts.

Module AppFacts.
Import Asgi App.

(** A sequence of [add_middleware] calls: class name and [secret_key]
    option of each. *)
Fixpoint add_all (a : Thor) (calls : list (string * option string)) : result Thor :=
  match calls with
  | [] => Ok a
  | (class_name, key) :: rest =>
      match add_middleware a class_name key with
      | Raise e => Raise e
      | Ok a' => add_all a' rest
      end
  end.

Lemma add_all_inv calls : forall a0 a,
  add_all a0 calls = Ok a ->
  secret_key a = secret_key a0
  /\ exists added, _middleware a = _middleware a0 ++ added
     /\ (secret_key a0 = None ->
         forall entry, In entry added -> fst entry ∉ _SECRET_REQUIRED_MIDDLEWARE).
Proof.
  induction calls as [| [class_name key] calls IH]; intros a0 a; cbn [add_all].
  - intros [= <-]. split; [reflexivity |]. exists []. rewrite app_nil_r.
    split; [reflexivity | intros _ entry []].
  - unfold add_middleware.
    destruct (bool_decide (class_name ∈ _SECRET_REQUIRED_MIDDLEWARE)
              && negb (bool_decide (is_Some (secret_key a0)))) eqn:Hcheck;
      [discriminate |].
    intros H. apply IH in H as (Hkey & added & Hmw & Hsec).
    cbn [secret_key _middleware] in *. split; [exact Hkey |].
    exists ((class_name, key) :: added). rewrite Hmw, <- app_assoc.
    split; [reflexivity |].
    intros Hnone entry [<- | Hin]; [| apply Hsec; assumption].
    cbn [fst]. rewrite Hnone in Hcheck.
    rewrite (bool_decide_eq_false_2 (is_Some None)) in Hcheck
      by (intros [? ?]; discriminate).
    cbn [negb] in Hcheck. rewrite andb_true_r in Hcheck.
    apply bool_decide_eq_false in Hcheck. exact Hcheck.
Qed.

(** X21: what the application guarantees about its middleware.  After
    [Thor(...)] and any sequence of successful [add_middleware] calls, the
    error handler is still the first middleware of the stack, and an
    application that holds [SessionMiddleware] or [CSRFMiddleware] has a
    secret key of at least 16 characters. *)
Theorem application_middleware_invariants debug title version key calls a0 a :
  init debug title version key = Ok a0 ->
  add_all a0 calls = Ok a ->
  head (_middleware a) = Some ("ErrorHandlerMiddleware", None)
  /\ forall class_name middleware_key,
       In (class_name, middleware_key) (_middleware a) ->
       class_name ∈ _SECRET_REQUIRED_MIDDLEWARE ->
       exists k, secret_key a = Some k /\ _MIN_SECRET_KEY_LENGTH <= Py.len k.
Proof.
  intros Hinit Hadd.
  apply add_all_inv in Hadd as (Hkey & added & Hmw & Hsec).
  assert (H0 : _middleware a0 = [("ErrorHandlerMiddleware", None)]
               /\ secret_key a0 = key
               /\ forall k, key = Some k -> _MIN_SECRET_KEY_LENGTH <= Py.len k).
  { unfold init in Hinit. destruct key as [k |].
    - destruct (Z.ltb_spec (Py.len k) _MIN_SECRET_KEY_LENGTH); [discriminate |].
      injection Hinit as <-. repeat split. intros k' [= <-]. assumption.
    - injection Hinit as <-. repeat split. discriminate. }
  destruct H0 as (Hmw0 & Hkey0 & Hlen).
  rewrite Hmw, Hmw0. split; [reflexivity |].
  intros class_name middleware_key [[= <- <-] | Hin] Hreq.
  - exfalso. revert Hreq. unfold _SECRET_REQUIRED_MIDDLEWARE.
    rewrite elem_of_union, !elem_of_singleton. intros [H | H]; discriminate H.
  - destruct key as [k |].
    + exists k. split; [congruence | apply Hlen; reflexivity].
    + exfalso. apply (Hsec Hkey0 _ Hin). exact Hreq.
Qed.

Definition demo_app : Thor :=
  match init false "Thor API" "1.0.0" (Some "0123456789abcdef") with
  | Ok a => a
  | Raise _ => mkThor false "" "" None []
  end.

Definition demo_calls : list (string * option string) :=
  [("CORSMiddleware", None); ("SessionMiddleware", Some "short")].

Definition demo_app_with_middleware : Thor :=
  match add_all demo_app demo_calls with
  | Ok a => a
  | Raise _ => demo_app
  end.

Lemma application_middleware_invariants_witness :
  head (_middleware demo_app_with_middleware) = Some ("ErrorHandlerMiddleware", None)
  /\ exists k, secret_key demo_app_with_middleware = Some k
               /\ _MIN_SECRET_KEY_LENGTH <= Py.len k.
Proof.
  destruct (application_middleware_invariants false "Thor API" "1.0.0"
              (Some "0123456789abcdef") demo_calls demo_app demo_app_with_middleware)
    as [Hhead Hkey]; [reflexivity | reflexivity |].
  split; [exact Hhead |].
  apply (Hkey "SessionMiddleware" (Some "short")).
  - vm_compute. tauto.
  - vm_compute. reflexivity.
Defined.

End AppFacts.

(** ** Sessions *)

Module SessionFacts.
Import Asgi CookieJar Session StrProps.

(** X22: a flash message is read once.  On a session whose ["_flash"]
    entry is absent or a dictionary, [flash] followed by [get_flash] of the
    same key returns the value flashed; a second [get_flash] returns the
    default; after the first read the ["_flash"] entry holds the earlier
    messages without that key, or is gone when none is left, and the other
    entries of the session are as before. *)
Theorem flash_is_read_once s key v dflt fd :
  flash_data s = Some fd ->
  exists s1 s2 s3,
    flash s key v = inr s1
    /\ get_flash s1 key dflt = inr (Some v, s2)
    /\ get_flash s2 key dflt = inr (dflt, s3)
    /\ data s3 = data s2
    /\ modified s2 = true
    /\ data s2 !! "_flash"
       = (if bool_decide (delete key fd = ∅) then None else Some (VDict (delete key fd)))
    /\ forall k, k <> "_flash" -> data s2 !! k = data s !! k.
Proof.
  intros Hfd.
  set (s1 := mkSessionData (<["_flash" := VDict (<[key := v]> fd)]> (data s))
                           (created_at s) (accessed_at s) true).
  set (data2 := if bool_decide (delete key fd = ∅) then delete "_flash" (data s1)
                else <["_flash" := VDict (delete key fd)]> (data s1)).
  set (s2 := mkSessionData data2 (created_at s) (accessed_at s) true).
  assert (H1 : flash s key v = inr s1) by (unfold flash; rewrite Hfd; reflexivity).
  assert (Hfd1 : flash_data s1 = Some (<[key := v]> fd)).
  { unfold flash_data, s1. cbn [data]. rewrite lookup_insert_eq. reflexivity. }
  assert (H2 : get_flash s1 key dflt = inr (Some v, s2)).
  { unfold get_flash. rewrite Hfd1, lookup_insert_eq, delete_insert_eq. reflexivity. }
  assert (Hflash2 : data2 !! "_flash"
                    = if bool_decide (delete key fd = ∅) then None
                      else Some (VDict (delete key fd))).
  { unfold data2. destruct (bool_decide (delete key fd = ∅));
      [apply lookup_delete_eq | apply lookup_insert_eq]. }
  assert (Hfd2 : flash_data s2 = Some (delete key fd)).
  { unfold flash_data, s2. cbn [data]. rewrite Hflash2.
    destruct (decide (delete key fd = ∅)) as [Hempty | Hsome].
    - rewrite (bool_decide_eq_true_2 _ Hempty), Hempty. reflexivity.
    - rewrite (bool_decide_eq_false_2 _ Hsome). reflexivity. }
  assert (Hdata3 : (if bool_decide (delete key (delete key fd) = ∅)
                    then delete "_flash" data2
                    else <["_flash" := VDict (delete key (delete key fd))]> data2)
                   = data2).
  { rewrite delete_delete_eq. unfold data2.
    destruct (bool_decide (delete key fd = ∅)).
    - apply delete_delete_eq.
    - apply insert_insert_eq. }
  exists s1, s2, (mkSessionData data2 (created_at s) (accessed_at s) true).
  repeat split.
  - exact H1.
  - exact H2.
  - unfold get_flash. rewrite Hfd2, lookup_delete_eq. cbn [data s2 created_at accessed_at].
    rewrite Hdata3. reflexivity.
  - exact Hflash2.
  - intros k Hk. cbn [data s2]. unfold data2.
    destruct (bool_decide (delete key fd = ∅)).
    + rewrite lookup_delete_ne by congruence. unfold s1. cbn [data].
      apply lookup_insert_ne. congruence.
    + rewrite lookup_insert_ne by congruence. unfold s1. cbn [data].
      apply lookup_insert_ne. congruence.
Qed.

Definition cart : SessionData :=
  mkSessionData {[ "user" := VStr "ann";
                   "_flash" := VDict {[ "notice" := VStr "saved" ]} ]} 0 5 false.

Lemma flash_is_read_once_witness :
  exists s1 s2,
    flash cart "error" (VStr "denied") = inr s1
    /\ get_flash s1 "error" None = inr (Some (VStr "denied"), s2)
    /\ fst <$> (match get_flash s2 "error" None with
                | inr x => Some x
                | inl _ => None
                end) = Some None.
Proof.
  destruct (flash_is_read_once cart "error" (VStr "denied") None
              {[ "notice" := VStr "saved" ]} eq_refl)
    as (s1 & s2 & s3 & H1 & H2 & H3 & _).
  exists s1, s2. rewrite H3. auto.
Defined.

Lemma foldl_delete_lookup {A} (ks : list string) k : forall m : gmap string A,
  foldl (fun b sid => delete sid b) m ks !! k
  = if bool_decide (k ∈ ks) then None else m !! k.
Proof.
  induction ks as [| k0 ks IH]; intros m; cbn [foldl].
  - rewrite bool_decide_eq_false_2 by apply not_elem_of_nil. reflexivity.
  - rewrite IH. destruct (decide (k ∈ ks)) as [Hin | Hout].
    + rewrite !bool_decide_eq_true_2; [reflexivity | right; exact Hin | exact Hin].
    + rewrite (bool_decide_eq_false_2 _ Hout).
      destruct (decide (k = k0)) as [-> | Hne].
      * rewrite bool_decide_eq_true_2 by left. apply lookup_delete_eq.
      * rewrite bool_decide_eq_false_2
          by (intros H; apply elem_of_cons in H as [H | H]; contradiction).
        apply lookup_delete_ne. congruence.
Qed.

Lemma cleanup_lookup (b : backend) max_age now sid :
  cleanup b max_age now !! sid
  = match b !! sid with
    | Some d => if idle now max_age d then None else Some d
    | None => None
    end.
Proof.
  unfold cleanup. rewrite foldl_delete_lookup.
  set (expired := map fst (List.filter (fun item => idle now max_age (snd item))
                                       (map_to_list b))).
  assert (Hexp : sid ∈ expired <-> exists d, b !! sid = Some d /\ idle now max_age d = true).
  { unfold expired. rewrite list_elem_of_In, in_map_iff. split.
    - intros ([sid' d] & <- & Hin). apply filter_In in Hin as [Hin Hidle].
      apply list_elem_of_In, elem_of_map_to_list in Hin. exists d. auto.
    - intros (d & Hd & Hidle). exists (sid, d). split; [reflexivity |].
      apply filter_In. split; [| exact Hidle].
      apply list_elem_of_In, elem_of_map_to_list, Hd. }
  destruct (b !! sid) as [d |] eqn:Hd.
  - destruct (idle now max_age d) eqn:Hidle.
    + rewrite bool_decide_eq_true_2; [reflexivity |]. apply Hexp. eauto.
    + rewrite bool_decide_eq_false_2; [reflexivity |].
      intros H. apply Hexp in H as (d' & [= <-] & H). congruence.
  - rewrite bool_decide_eq_false_2; [reflexivity |].
    intros H. apply Hexp in H as (d' & H & _). discriminate.
Qed.


Definition two_sessions : backend :=
  {[ "a" := mkSessionData ∅ 0 10 false; "b" := mkSessionData ∅ 0 90 false ]}.


Section Resume.
Import CodecProps CodecFacts CookieFacts PyFacts.
Context {V : Type} (lib : Codec.Library V) (laws : Lawful lib).

Lemma b64url_value_char c : is_b64url c = true -> value_char c = true.
Proof. destruct c as [[] [] [] [] [] [] [] []]; vm_compute; congruence. Qed.

Lemma sign_char_value_char c :
  (Py.is_digit c || Ascii.eqb c "-")%bool = true -> value_char c = true.
Proof. destruct c as [[] [] [] [] [] [] [] []]; vm_compute; congruence. Qed.

(** The cookie that carries a signed session id is read back and verified. *)
Lemma get_session_id_signed mw request ts now sid token :
  all_chars name_char (cookie_name mw) = true ->
  all_chars is_b64url sid = true ->
  (String.length (Py.str_of_Z ts) <= 4300)%nat ->
  Codec.sign lib (_secure_cookie mw) ts sid = Some token ->
  Req.headers request !! "cookie" = Some (cookie_name mw +:+ "=" +:+ token) ->
  _get_session_id lib mw request now
  = match Codec.expired now ts (max_age mw) with
    | Raise e => Raise e
    | Ok true => Ok None
    | Ok false => Ok (Some sid)
    end.
Proof.
  intros Hname Hsid Hlen Hsign Hcookie.
  assert (Hfree : free_of ":" sid = true)
    by (eapply all_chars_weaken; [apply b64url_not_colon | exact Hsid]).
  assert (Htoken : all_chars value_char token = true).
  { rewrite (sign_eq lib laws) in Hsign. injection Hsign as <-.
    rewrite all_chars_app. cbn [Py.all_chars]. rewrite all_chars_app.
    cbn [Py.all_chars]. rewrite !andb_true_iff. repeat split.
    - eapply all_chars_weaken; [apply sign_char_value_char | apply str_of_Z_chars].
    - eapply all_chars_weaken; [apply b64url_value_char | exact Hsid].
    - apply all_chars_rstrip. eapply all_chars_weaken; [apply b64url_value_char |].
      apply (b64_alphabet lib laws). }
  assert (Hget : Req.get_cookie request (cookie_name mw) = Some token).
  { unfold Req.get_cookie, Req.cookies. rewrite Hcookie. cbn [default from_option id].
    change (cookie_name mw +:+ "=" +:+ token)
      with (cookie_header [(cookie_name mw, token)]).
    rewrite parse_cookies_pairs
      by (cbn [forallb]; unfold well_formed; cbn [fst snd]; rewrite Hname, Htoken; reflexivity).
    cbn [foldl fst snd]. apply lookup_insert_eq. }
  unfold _get_session_id. rewrite Hget.
  assert (Htr : Py.truthy (Some token) = true).
  { rewrite (sign_eq lib laws) in Hsign. injection Hsign as <-.
    destruct (Py.str_of_Z ts); reflexivity. }
  rewrite Htr. cbn [default from_option id].
  apply (unsign_sign_max_age lib laws); assumption.
Qed.

(** X24: a session is resumed from its cookie until [max_age] has passed.
    Let the [Cookie] header of a request be the session cookie alone, with
    the session id [sid] signed by the middleware at second [ts] (a non-empty
    id in the URL-safe alphabet, as [secrets.token_urlsafe] yields), and let
    the store hold that session.  If [now - ts <= max_age] the request gets
    the stored session under the same id, with its access time set to the
    time of the load; if [now - ts > max_age], for a clock reading that is a
    double below [2^53] and not earlier than [ts], it gets a new, empty
    session under a fresh id, and the store is left as it is; and for a
    timestamp of [2^1024] or more the middleware raises [OverflowError]. *)
Theorem session_resumed_within_max_age mw b scope receive ts now loaded created
    accessed fresh sid token d :
  all_chars name_char (cookie_name mw) = true ->
  all_chars is_b64url sid = true ->
  sid <> "" ->
  (String.length (Py.str_of_Z ts) <= 4300)%nat ->
  - 2 ^ 53 < max_age mw < 2 ^ 53 ->
  Codec.sign lib (_secure_cookie mw) ts sid = Some token ->
  Req.headers (Req.new scope receive Req.DEFAULT_MAX_BODY_SIZE) !! "cookie"
  = Some (cookie_name mw +:+ "=" +:+ token) ->
  b !! sid = Some d ->
  (- 2 ^ 53 < ts < 2 ^ 53 ->
   (now - inject_Z ts <= inject_Z (max_age mw))%Q ->
   open_session lib mw b scope receive now loaded created accessed fresh
   = Ok (sid, mkSessionData (data d) (created_at d) loaded (modified d),
         <[sid := mkSessionData (data d) (created_at d) loaded (modified d)]> b))
  /\ (0 <= ts -> Py.is_double now = true ->
      (inject_Z ts <= now)%Q -> (now < inject_Z (2 ^ 53))%Q ->
      (inject_Z (max_age mw) < now - inject_Z ts)%Q ->
      open_session lib mw b scope receive now loaded created accessed fresh
      = Ok (fresh, new_data created accessed, b))
  /\ (2 ^ 1024 <= ts ->
      open_session lib mw b scope receive now loaded created accessed fresh
      = Raise OverflowError).
Proof.
  intros Hname Hsid Hne Hlen Hm Hsign Hcookie Hb.
  pose proof (get_session_id_signed mw _ ts now sid token Hname Hsid Hlen Hsign Hcookie)
    as Hid.
  unfold open_session. rewrite Hid. split; [| split].
  - intros Hts Hage. rewrite (expired_within now ts (max_age mw) Hts Hm Hage).
    assert (Htr : Py.truthy (Some sid) = true) by (destruct sid; [contradiction | reflexivity]).
    rewrite Htr. cbn [default from_option id]. unfold load. rewrite Hb. reflexivity.
  - intros Hts Hd Hle Hlt Hage.
    rewrite (expired_past now ts (max_age mw) Hts Hd Hle Hlt Hage). reflexivity.
  - intros Hts. rewrite (expired_overflow now ts (max_age mw) Hts). reflexivity.
Qed.

End Resume.

Definition demo_session_mw : SessionMiddleware :=
  mkSessionMiddleware CsrfProps.ok_app "0123456789abcdef" "thor_session" 3600
    (mkCookieOptions (Some 3600) None "/" None true true "lax") CodecProps.demo_codec.

Definition demo_store : backend := {[ "abc" := mkSessionData ∅ 0 0 false ]}.

Definition demo_scope : Scope :=
  mkScope "http" (Some "GET") (Some "/") [("cookie", "thor_session=1700000000:abc:aa")]
          None None.

Lemma session_resumed_within_max_age_witness :
  open_session CodecProps.demo_library demo_session_mw demo_store demo_scope []
               (1700000100 # 1) (1700000101 # 1) 0 0 "fresh"
  = Ok ("abc", mkSessionData ∅ 0 (1700000101 # 1) false,
        <["abc" := mkSessionData ∅ 0 (1700000101 # 1) false]> demo_store).
Proof.
  refine (proj1 (session_resumed_within_max_age CodecProps.demo_library
                   CodecProps.demo_lawful demo_session_mw demo_store demo_scope []
                   1700000000 (1700000100 # 1) (1700000101 # 1) 0 0 "fresh" "abc"
                   "1700000000:abc:aa" (mkSessionData ∅ 0 0 false) _ _ _ _ _ _ _ _) _ _).
  - vm_compute. reflexivity.
  - vm_compute. reflexivity.
  - discriminate.
  - vm_compute. lia.
  - split; reflexivity.
  - vm_compute. reflexivity.
  - vm_compute. reflexivity.
  - vm_compute. reflexivity.
  - split; reflexivity.
  - vm_compute. discriminate.
Defined.

End SessionFacts.

(** ** CORS middleware *)

Module CorsFacts.
Import Asgi Cors.

(** The values of the [access-control-allow-origin] headers of a list. *)
Definition allowed_origins (hs : list (string * string)) : list string :=
  map snd (List.filter (fun nv => String.eqb (fst nv) "access-control-allow-origin") hs).

(** The start messages that reach the client. *)
Definition sent_headers (o : outcome) : list (list (string * string)) :=
  flat_map (fun m => match m with
                     | Start _ hs => [hs]
                     | Body _ => []
                     end)
           (match o with
            | Responded msgs | Forwarded _ msgs => msgs
            | Raised _ => []
            end).

Lemma allowed_origins_app a b :
  allowed_origins (a ++ b) = allowed_origins a ++ allowed_origins b.
Proof. unfold allowed_origins. rewrite List.filter_app, map_app. reflexivity. Qed.

Lemma get_cors_allowed_origins mw origin :
  allowed_origins (_get_cors_headers mw origin)
  = if _allow_all mw && negb (allow_credentials mw) then ["*"]
    else if Py.truthy origin && _is_origin_allowed mw (default "" origin)
         then [Py.utf8_encode (default "" origin)]
         else [].
Proof.
  unfold _get_cors_headers. rewrite !allowed_origins_app.
  assert (H2 : allowed_origins (if allow_credentials mw
                                then [("access-control-allow-credentials", "true")]
                                else []) = [])
    by (destruct (allow_credentials mw); reflexivity).
  assert (H3 : allowed_origins (match expose_headers mw with
                                | [] => []
                                | hs => [("access-control-expose-headers", Py.join ", " hs)]
                                end) = [])
    by (destruct (expose_headers mw); reflexivity).
  rewrite H2, H3, !app_nil_r.
  destruct (_allow_all mw && negb (allow_credentials mw)); [reflexivity |].
  destruct (Py.truthy origin && _is_origin_allowed mw (default "" origin)); reflexivity.
Qed.

(** X25: with credentials, only a vetted origin is named.  For a
    middleware that the constructor has accepted with
    [allow_credentials=True], an [access-control-allow-origin] header among
    the CORS headers always carries the origin of the request itself, never a
    blanket value, and that origin is in [allow_origins], or ends with the
    suffix of a [*.domain] entry, or, only when [allow_origin_regex] was
    given, matches it or meets a bare ["*"] in [allow_origins]. *)
Theorem credentials_need_vetted_origin compile inner origins methods headers exposed
    age regex mw origin v :
  init compile inner origins methods headers true exposed age regex = Ok mw ->
  In v (allowed_origins (_get_cors_headers mw origin)) ->
  exists o,
    origin = Some o /\ v = Py.utf8_encode o
    /\ (o ∈ allow_origins mw
        \/ (exists suffix, In suffix (_wildcard_origins mw) /\ endswith suffix o = true)
        \/ exists fullmatch,
             _origin_regex mw = Some fullmatch
             /\ (fullmatch o = true \/ "*" ∈ allow_origins mw)).
Proof.
  intros Hinit. rewrite get_cors_allowed_origins.
  assert (Hmw : allow_credentials mw = true
                /\ (_allow_all mw = true ->
                    is_Some (_origin_regex mw) /\ "*" ∈ allow_origins mw)).
  { unfold init in Hinit.
    destruct (if Py.truthy regex then _ else _) as [origin_regex | e]; [| discriminate].
    cbn [andb] in Hinit.
    destruct (bool_decide ("*" ∈ default ["*"] origins)) eqn:Hstar;
      destruct (bool_decide (map tail _ = [])) eqn:Hwild;
      cbn [andb] in Hinit;
      try (injection Hinit as <-; cbn; split; [reflexivity | discriminate]).
    destruct (bool_decide (is_Some origin_regex)) eqn:Hre; [| discriminate].
    injection Hinit as <-. cbn. split; [reflexivity |]. intros _.
    apply bool_decide_eq_true in Hre. apply bool_decide_eq_true in Hstar. auto. }
  destruct Hmw as [Hcred Hall]. rewrite Hcred, andb_false_r.
  destruct origin as [o |]; [| intros []].
  change (default "" (Some o)) with o.
  destruct (Py.truthy (Some o) && _is_origin_allowed mw o) eqn:Hok; [| intros []].
  intros [<- | []]. exists o. repeat split.
  apply andb_true_iff in Hok as [_ Hok]. unfold _is_origin_allowed in Hok.
  rewrite !orb_true_iff in Hok. destruct Hok as [[[Hok | Hok] | Hok] | Hok].
  - destruct (Hall Hok) as [[f Hf] Hstar]. right. right. exists f. auto.
  - left. apply bool_decide_eq_true in Hok. exact Hok.
  - right. left. apply existsb_exists in Hok. exact Hok.
  - destruct (_origin_regex mw) as [f |]; [| discriminate]. right. right. exists f. auto.
Qed.

Definition no_regex : string -> option (string -> bool) := fun _ => None.

Definition strict_cors : CORSMiddleware :=
  match init no_regex CsrfProps.ok_app (Some ["https://app.example.com"; "*.example.org"])
             None None true None 600 None with
  | Ok mw => mw
  | Raise _ => mkCORS CsrfProps.ok_app [] [] [] false [] 0 None [] false
  end.

Lemma credentials_need_vetted_origin_witness :
  exists o,
    Some "https://shop.example.org" = Some o /\ "https://shop.example.org" = Py.utf8_encode o
    /\ (o ∈ allow_origins strict_cors
        \/ (exists suffix, In suffix (_wildcard_origins strict_cors)
                           /\ endswith suffix o = true)
        \/ exists fullmatch,
             _origin_regex strict_cors = Some fullmatch
             /\ (fullmatch o = true \/ "*" ∈ allow_origins strict_cors)).
Proof.
  apply (credentials_need_vetted_origin no_regex CsrfProps.ok_app
           (Some ["https://app.example.com"; "*.example.org"]) None None None 600 None
           strict_cors (Some "https://shop.example.org") "https://shop.example.org").
  - reflexivity.
  - vm_compute. left. reflexivity.
Defined.

(** X26: an origin that is not allowed is never named.  Unless the
    middleware allows every origin (a bare ["*"] in [allow_origins] and no
    [*.domain] entry), for a request whose [Origin] header is absent, empty
    or not allowed the middleware adds no [access-control-allow-origin]
    header: a preflight request ([OPTIONS]) is answered with status 204,
    without that header and without calling the downstream application, and
    for any other method each start message of the downstream application
    keeps the [access-control-allow-origin] values it had. *)
Theorem refused_origin_gets_no_header mw scope receive :
  let request := Req.new scope receive Req.DEFAULT_MAX_BODY_SIZE in
  let origin := Req.get_header request "origin" in
  _allow_all mw = false ->
  (origin = None \/ origin = Some ""
   \/ exists o, origin = Some o /\ _is_origin_allowed mw o = false) ->
  match process mw scope receive with
  | Responded msgs =>
      Req.method request = "OPTIONS"
      /\ exists hs, msgs = [Start 204 hs; Body (RawBytes "")] /\ allowed_origins hs = []
  | Forwarded scope' msgs =>
      Req.method request <> "OPTIONS" /\ scope' = scope
      /\ Forall2 (fun sent_msg app_msg =>
                    match app_msg with
                    | Start st hs =>
                        exists hs', sent_msg = Start st hs'
                                    /\ allowed_origins hs' = allowed_origins hs
                    | Body b => sent_msg = Body b
                    end)
                 msgs (app mw scope)
  | Raised _ => False
  end.
Proof.
  intros request origin Hall Horigin.
  assert (Hnone : allowed_origins (_get_cors_headers mw origin) = []).
  { rewrite get_cors_allowed_origins, Hall. cbn [andb].
    destruct Horigin as [-> | [-> | (o & -> & Ho)]]; [reflexivity | reflexivity |].
    change (default "" (Some o)) with o. rewrite Ho, andb_false_r. reflexivity. }
  unfold process. fold request. fold origin.
  destruct (String.eqb_spec (Req.method request) "OPTIONS") as [Hm | Hm].
  - split; [exact Hm |]. eexists. split; [reflexivity |].
    rewrite allowed_origins_app, Hnone. reflexivity.
  - split; [exact Hm |]. split; [reflexivity |].
    induction (app mw scope) as [| m msgs IH]; constructor; [| exact IH].
    destruct m as [st hs | b]; [| reflexivity].
    eexists. split; [reflexivity |].
    rewrite allowed_origins_app, Hnone. apply app_nil_r.
Qed.

Definition other_site : Scope :=
  mkScope "http" (Some "OPTIONS") (Some "/") [("Origin", "https://evil.example")]
          None None.

Lemma refused_origin_gets_no_header_witness :
  exists hs,
    process strict_cors other_site [] = Responded [Start 204 hs; Body (RawBytes "")]
    /\ allowed_origins hs = [].
Proof.
  pose proof (refused_origin_gets_no_header strict_cors other_site []) as H.
  cbv zeta in H.
  destruct (process strict_cors other_site []) as [msgs | |] eqn:Hp;
    try (vm_compute in Hp; discriminate).
  destruct H as [_ (hs & -> & Hhs)].
  - reflexivity.
  - right. right. exists "https://evil.example". split; vm_compute; reflexivity.
  - exists hs. split; [reflexivity | exact Hhs].
Defined.

End CorsFacts.

(** ** In-flight requests *)

Module TrackingFacts.
Import Asgi Lifespan Tracking.

(** What happens to the counters as requests are served concurrently: a
    request enters, or the [finally] block of one that had entered runs. *)
Inductive step :=
| Enter
| Leave.

Definition apply_step (c : counters) (s : step) : counters :=
  match s with
  | Enter => enter_request c
  | Leave => leave_request c
  end.

(** Every [Leave] belongs to a request that has entered and not yet left;
    [open] counts those. *)
Fixpoint well_formed (open : nat) (steps : list step) : Prop :=
  match steps with
  | [] => True
  | Enter :: rest => well_formed (S open) rest
  | Leave :: rest =>
      match open with
      | O => False
      | S k => well_formed k rest
      end
  end.

Definition count (s : step) (steps : list step) : Z :=
  Z.of_nat (List.length (List.filter (fun x => match x, s with
                                               | Enter, Enter | Leave, Leave => true
                                               | _, _ => false
                                               end) steps)).

Lemma counters_inv steps : forall (open : nat) c,
  inflight c = Z.of_nat open ->
  (inflight_zero c = true <-> inflight c = 0) ->
  well_formed open steps ->
  let c' := foldl apply_step c steps in
  inflight c' = inflight c + count Enter steps - count Leave steps
  /\ 0 <= inflight c'
  /\ (inflight_zero c' = true <-> inflight c' = 0).
Proof.
  induction steps as [| s steps IH]; intros open c Hopen Hzero Hwf.
  - unfold count. cbn. split; [lia |]. split; [lia | exact Hzero].
  - destruct s; cbn [well_formed foldl apply_step] in *.
    + destruct (IH (S open) (enter_request c)) as (Hn & Hpos & Hz);
        [cbn; lia | cbn; split; [discriminate | intros H; exfalso; lia] | exact Hwf |].
      split; [| split; assumption].
      rewrite Hn. unfold count. cbn [List.filter List.length inflight enter_request]. lia.
    + destruct open as [| k]; [destruct Hwf |].
      destruct (IH k (leave_request c)) as (Hn & Hpos & Hz);
        [cbn; lia | | exact Hwf |].
      { unfold leave_request. cbn [inflight inflight_zero].
        destruct (Z.eqb_spec (inflight c - 1) 0) as [H0 | H0]; [tauto |].
        split; [| intros H; contradiction].
        intros H. apply Hzero in H. lia. }
      split; [| split; assumption].
      rewrite Hn. unfold count. cbn [List.filter List.length inflight leave_request]. lia.
Qed.

(** X27: the in-flight counter is exact, and the event follows it.
    Whatever the interleaving of concurrent requests, after any sequence of
    entries and exits in which every exit belongs to a request that had
    entered, [_inflight] is the number of requests that have entered and not
    left, and the event [_inflight_zero] is set exactly when that number is
    zero. *)
Theorem inflight_counter_exact steps :
  well_formed 0 steps ->
  let c := foldl apply_step initial steps in
  inflight c = count Enter steps - count Leave steps
  /\ 0 <= inflight c
  /\ (inflight_zero c = true <-> inflight c = 0).
Proof.
  intros Hwf.
  destruct (counters_inv steps 0 initial eq_refl ltac:(cbn; tauto) Hwf) as (Hn & Hpos & Hz).
  cbn [inflight initial] in Hn. repeat split; try tauto; lia.
Qed.

Lemma inflight_counter_exact_witness :
  inflight (foldl apply_step initial [Enter; Enter; Leave; Enter; Leave]) = 1
  /\ inflight_zero (foldl apply_step initial [Enter; Enter; Leave; Enter; Leave]) = false.
Proof.
  destruct (inflight_counter_exact [Enter; Enter; Leave; Enter; Leave] I)
    as (Hn & _ & Hz).
  split; [exact Hn |].
  destruct (inflight_zero _) eqn:E; [| reflexivity].
  destruct Hz as [Hz _]. specialize (Hz eq_refl). rewrite Hn in Hz. discriminate Hz.
Defined.

Definition is_drain (e : event) : bool :=
  match e with
  | Drained _ _ => true
  | _ => false
  end.

Lemma loop_without_requests h in_time messages :
  _inflight h = 0 ->
  List.filter is_drain (fst (lifespan_loop h in_time messages)) = [].
Proof.
  intros Hzero. induction messages as [| m messages IH]; [reflexivity |].
  destruct m as [| | type]; cbn [lifespan_loop].
  - destruct (lifespan_loop h in_time messages) as [events returned]. exact IH.
  - cbn [fst]. unfold _drain_requests. rewrite Hzero. reflexivity.
  - exact IH.
Qed.

Lemma handlers_are_no_drain names : List.filter is_drain (map Ran names) = [].
Proof. induction names as [| name names IH]; [reflexivity | exact IH]. Qed.

(** X28: the application never waits for in-flight requests.  The
    lifespan handler that [Thor.__call__] builds for a lifespan scope starts
    with no request in flight, and HTTP requests do not pass through it: on
    [lifespan.shutdown] it does not wait, so the trace of the lifespan
    protocol holds no drain step, whatever the messages received. *)
Theorem application_shutdown_never_drains lifespan in_time messages :
  List.filter is_drain (thor_lifespan lifespan in_time messages) = [].
Proof.
  unfold thor_lifespan, _handle_lifespan.
  pose proof (loop_without_requests (new_handler lifespan DEFAULT_SHUTDOWN_TIMEOUT)
                in_time messages eq_refl) as Hloop.
  destruct (lifespan_loop _ in_time messages) as [events returned]. cbn [fst] in Hloop.
  rewrite !List.filter_app, Hloop.
  assert (Henter : List.filter is_drain
                     (enter (_lifespan (new_handler lifespan DEFAULT_SHUTDOWN_TIMEOUT))) = []).
  { unfold enter, startup. destruct (_context_manager _) as [[setup teardown] |];
      [reflexivity | apply handlers_are_no_drain]. }
  assert (Hexit : List.filter is_drain
                    (exit (_lifespan (new_handler lifespan DEFAULT_SHUTDOWN_TIMEOUT))) = []).
  { unfold exit, shutdown. destruct (_context_manager _) as [[setup teardown] |];
      [reflexivity | apply handlers_are_no_drain]. }
  rewrite Henter. destruct returned; [rewrite Hexit |]; reflexivity.
Qed.

End TrackingFacts.

(** ** Request dispatch and error responses *)

Module DispatchFacts.
Import Asgi Routing Dispatch.

Definition sent (x : list message * option raised * Router) : list message := fst (fst x).
Definition escaped (x : list message * option raised * Router) : option raised :=
  snd (fst x).

(** The JSON error response, as it reaches the client. *)
Definition json_error (status : Z) (detail request_id : string) : list message :=
  [Start status [("content-type", "application/json; charset=utf-8");
                 ("x-request-id", request_id)];
   Body (JsonBytes (JDict [("error", JStr detail); ("status_code", JInt status);
                           ("request_id", JStr request_id)]))].

Lemma request_id_last request_id msgs :
  Forall (fun m => match m with
                   | Start _ headers => last headers = Some ("x-request-id", request_id)
                   | Body _ => True
                   end)
         (map (send_with_request_id request_id) msgs).
Proof.
  apply Forall_forall. intros m Hm. apply list_elem_of_In, in_map_iff in Hm as (m0 & <- & _).
  destruct m0 as [st headers | b]; [| exact I]. cbn. apply last_snoc.
Qed.


Definition no_handlers : handlers := fun _ _ _ => inl RetNone.

(** A handler that is cancelled. *)
Definition cancelled : handlers := fun _ _ _ => inr (RaisedBase "CancelledError").


End DispatchFacts.

(** ** Responses *)

Module RespFacts.
Import Asgi CookieJar Resp StrProps.

(** The attributes that follow the pair in the cookie that deletes. *)
Definition deletion_attributes (path : string) (domain : option string) : string :=
  "; Max-Age=0; Expires=Thu, 01 Jan 1970 00:00:00 GMT"
  +:+ (match path with
       | EmptyString => ""
       | _ => "; Path=" +:+ path
       end)
  +:+ (match domain with
       | Some (String c d) => "; Domain=" +:+ String c d
       | _ => ""
       end)
  +:+ "; Secure; HttpOnly; SameSite=Lax".

(** X30: deleting a cookie sends one that has expired.  [delete_cookie]
    keeps the headers and cookies of the response and adds, as its last
    [set-cookie] header, the cookie with the given name, an empty value,
    [Max-Age=0] and an [Expires] date at the epoch, followed by the path and
    the domain when they are given and not empty, and by [Secure],
    [HttpOnly] and [SameSite=Lax]. *)
Theorem delete_cookie_expires r name path domain :
  _build_headers (delete_cookie r name path domain)
  = _build_headers r
    ++ [("set-cookie", name +:+ "=" +:+ deletion_attributes path domain)]
  /\ call (delete_cookie r name path domain)
     = [Start (status_code r)
              (_build_headers r
               ++ [("set-cookie", name +:+ "=" +:+ deletion_attributes path domain)]);
        Body (body r)].
Proof.
  assert (Hcookie : format_set_cookie name ""
                      (Some (mkCookieOptions (Some 0) (Some "Thu, 01 Jan 1970 00:00:00 GMT")
                                             path domain true true "lax"))
                    = name +:+ "=" +:+ deletion_attributes path domain).
  { unfold format_set_cookie, to_header_string, deletion_attributes.
    cbn [default from_option id max_age expires CookieJar.path CookieJar.domain secure
         httponly samesite when Py.truthy].
    rewrite !app_assoc_s.
    destruct path as [| pc path]; destruct domain as [[| dc domain] |]; reflexivity. }
  assert (Hheaders : _build_headers (delete_cookie r name path domain)
                     = _build_headers r
                       ++ [("set-cookie", name +:+ "=" +:+ deletion_attributes path domain)]).
  { unfold _build_headers, delete_cookie, set_cookie.
    cbn [_headers _cookies content_type media_type charset].
    rewrite map_app, Hcookie, !app_assoc. reflexivity. }
  split; [exact Hheaders |].
  unfold call. rewrite Hheaders. reflexivity.
Qed.

End RespFacts.
